(** * Adjunct: text pipelines as graph transformations

    A shallow embedding of the two cores of the repository:

    - [EffectGraph] (EffectGraph.ts): the persistent DAG of provenance
      nodes with [addNode], [getChildren], [getRoots], the memoised
      bottom-up fold [cata] and the functorial [map]; [Store] gives
      [addNode] once more over shared mutable objects, for the claim that
      prior graph values are unaffected;
    - [CorpusOps] (CorpusOps.ts): the monoid of corpus statistics and the
      sequential and batched aggregations built on it.

    The models come first, then the invariants and the properties, a
    module per subject.

    The modules after these cover the code around the two cores:
    [Lookup], [FoldValue] and [Unfold] the lookups after [addNode], the
    value of [cata] and the unfold [ana] (EffectGraph.ts); [GraphSearch]
    and [GraphFolds] the search index and [merge] (GraphOps.ts);
    [CorpusCounts] and [CorpusQueries] the counts, TF, IDF and top-k
    queries (CorpusOps.ts); [Workbench] the graphs the web workbench
    builds from a text (graphOperations.ts); [TextGraph] the growth of
    text graphs by [addChildren] (TextGraph.ts).

    JavaScript [Map]s whose iteration order is observable are association
    lists in insertion order ([JsMap]); Effect [HashMap]s, which the code
    only reads and writes by key, are [gmap]s.  JavaScript numbers that
    hold counts, depths and indices are integers: [Z] or [nat] (exact in
    a double up to 2^53, a size no graph or corpus in memory reaches).
    Statistics given as values are not so bounded: for them [Numbers]
    has the addition of numbers with its rounding, and [CorpusNumbers]
    the combination of statistics over it. *)

From Stdlib Require Import ZArith Lia.
From stdpp Require Import pretty gmap strings list fin_maps.

Set Default Proof Using "Type".
Local Open Scope Z_scope.

(** ** Outcomes of fallible code *)

(** What a call can end in besides a value.  [MissingNode] is the
    [GraphError] thrown by [Graph.addEdge], [NodeNotFound] the
    [Error("Node not found: ...")] thrown inside [cata].  The other two
    are not errors of the program.  [OutOfFuel] marks a run of the
    fuel-bounded model of a recursive function that was cut before the
    function returned; [BadReference] marks a read, in the store model,
    through a reference that holds no object of the expected kind. *)
Inductive Error : Type :=
  | MissingNode (index : nat)
  | NodeNotFound (nodeId : string)
  | OutOfFuel
  | BadReference (location : nat).

Inductive Result (A : Type) : Type :=
  | Ok (a : A)
  | Err (e : Error).
Arguments Ok {A} a.
Arguments Err {A} e.

Global Instance Result_ret : MRet Result := λ A a, Ok a.
Global Instance Result_bind : MBind Result := λ A B k r,
  match r with
  | Ok a => k a
  | Err e => Err e
  end.

Global Instance Result_fmap : FMap Result := λ A B f r,
  match r with
  | Ok a => Ok (f a)
  | Err e => Err e
  end.

Definition isOk {A} (r : Result A) : bool :=
  match r with Ok _ => true | Err _ => false end.

(** ** JavaScript [Map] with numeric keys, in insertion order *)

Module JsMap.
Section JsMap.
Context {V : Type}.

Definition t := list (nat * V).

Fixpoint get (m : t) (k : nat) : option V :=
  match m with
  | [] => None
  | (k', v) :: r => if Nat.eqb k' k then Some v else get r k
  end.

Definition has (m : t) (k : nat) : bool :=
  match get m k with Some _ => true | None => false end.

(** [m.set(k, v)]: an existing key keeps its place, a new key goes last. *)
Fixpoint set (m : t) (k : nat) (v : V) : t :=
  match m with
  | [] => [(k, v)]
  | (k', v') :: r =>
      if Nat.eqb k' k then (k, v) :: r else (k', v') :: set r k v
  end.

Definition keys (m : t) : list nat := fst <$> m.
Definition values (m : t) : list V := snd <$> m.
Definition size (m : t) : nat := length m.

Lemma get_set_eq m k v : get (set m k v) k = Some v.
Proof.
  induction m as [|[k' v'] r IH]; simpl.
  - by rewrite Nat.eqb_refl.
  - destruct (Nat.eqb k' k) eqn:E; simpl.
    + by rewrite Nat.eqb_refl.
    + by rewrite E.
Qed.

Lemma get_set_ne m k k' v : k ≠ k' → get (set m k v) k' = get m k'.
Proof.
  intros Hne. induction m as [|[k0 v0] r IH]; simpl.
  - destruct (Nat.eqb k k') eqn:E; [apply Nat.eqb_eq in E; done | done].
  - destruct (Nat.eqb k0 k) eqn:E; simpl.
    + apply Nat.eqb_eq in E. subst k0.
      destruct (Nat.eqb k k') eqn:E'; [apply Nat.eqb_eq in E'; done | done].
    + by rewrite IH.
Qed.

Lemma get_None_keys m k : get m k = None ↔ k ∉ keys m.
Proof.
  unfold keys. induction m as [|[k' v'] r IH]; simpl.
  - split; [intros _; apply not_elem_of_nil | done].
  - rewrite not_elem_of_cons. destruct (Nat.eqb k' k) eqn:E.
    + apply Nat.eqb_eq in E. subst. split; [done | intros [? _]; done].
    + apply Nat.eqb_neq in E. rewrite IH. split; [by intros ?; split | by intros [_ ?]].
Qed.

Lemma get_Some_elem m k v : get m k = Some v → (k, v) ∈ m.
Proof.
  induction m as [|[k' v'] r IH]; simpl; [done|].
  destruct (Nat.eqb k' k) eqn:E.
  - apply Nat.eqb_eq in E. intros [= ->]. subst. left.
  - intros H. right. auto.
Qed.

(** A key that is not there yet is appended. *)
Lemma set_fresh m k v : get m k = None → set m k v = m ++ [(k, v)].
Proof.
  induction m as [|[k' v'] r IH]; simpl; [done|].
  destruct (Nat.eqb k' k); [done|]. intros H. by rewrite IH.
Qed.

Lemma get_app m1 m2 k :
  get (m1 ++ m2) k = match get m1 k with Some v => Some v | None => get m2 k end.
Proof.
  induction m1 as [|[k' v'] r IH]; simpl; [done|].
  by destruct (Nat.eqb k' k).
Qed.

Lemma get_ge_None m k n :
  keys m = seq 0 n → (n ≤ k)%nat → get m k = None.
Proof.
  intros Hk Hle. apply get_None_keys. rewrite Hk.
  rewrite list_elem_of_In, in_seq. lia.
Qed.
End JsMap.
Arguments t : clear implicits.
End JsMap.

(** ** The graph store of the [effect] library *)

(** Modelled from the spec: the module [effect/Graph] that EffectGraph.ts
  and GraphOps.ts import is a dependency and is not under src/.  This is
  the spec's NodeStore: node and edge records under dense indices handed
  out in increasing order and never reused, adjacency lists of edge
  indices in both directions, [getNode] returning an explicit absence,
  and a cached acyclicity flag.  A graph value is immutable;
  [Graph.mutate] works on a copy, so the operations below take a graph
  and return the next one. *)
Module Graph.

Record Edge (E : Type) : Type := mkEdge {
  source : nat;
  target : nat;
  edgeData : E
}.
Arguments mkEdge {E} _ _ _.
Arguments source {E} _.
Arguments target {E} _.
Arguments edgeData {E} _.

Record t (N E : Type) : Type := mk {
  nodes : JsMap.t N;
  edges : JsMap.t (Edge E);
  adjacency : JsMap.t (list nat);
  reverseAdjacency : JsMap.t (list nat);
  nextNodeIndex : nat;
  nextEdgeIndex : nat;
  acyclicCache : option bool
}.
Arguments mk {N E} _ _ _ _ _ _ _.
Arguments nodes {N E} _.
Arguments edges {N E} _.
Arguments adjacency {N E} _.
Arguments reverseAdjacency {N E} _.
Arguments nextNodeIndex {N E} _.
Arguments nextEdgeIndex {N E} _.
Arguments acyclicCache {N E} _.

Section Graph.
Context {N E : Type}.
Implicit Types g : t N E.

(** [Graph.directed()]: no nodes, no edges, known to be acyclic. *)
Definition directed : t N E := mk [] [] [] [] 0%nat 0%nat (Some true).

(** [Graph.addNode(mutable, data)]: the next index, with empty adjacency
    lists in both directions. *)
Definition addNode g (data : N) : t N E * nat :=
  let nodeIndex := nextNodeIndex g in
  (mk (JsMap.set (nodes g) nodeIndex data)
      (edges g)
      (JsMap.set (adjacency g) nodeIndex [])
      (JsMap.set (reverseAdjacency g) nodeIndex [])
      (S nodeIndex)
      (nextEdgeIndex g)
      (acyclicCache g),
   nodeIndex).

(** [list.push(e)] on the list stored under [k], when there is one. *)
Definition push (m : JsMap.t (list nat)) (k e : nat) : JsMap.t (list nat) :=
  match JsMap.get m k with
  | Some l => JsMap.set m k (l ++ [e])
  | None => m
  end.

(** After an edge is added, a graph known to be acyclic is no longer
    known to be. *)
Definition invalidateCycleFlagOnAddition (c : option bool) : option bool :=
  match c with
  | Some true => None
  | _ => c
  end.

(** [Graph.addEdge(mutable, source, target, data)]: both ends must be
    stored nodes, or the call throws. *)
Definition addEdge g (src tgt : nat) (data : E) : Result (t N E * nat) :=
  if negb (JsMap.has (nodes g) src) then Err (MissingNode src)
  else if negb (JsMap.has (nodes g) tgt) then Err (MissingNode tgt)
  else
    let edgeIndex := nextEdgeIndex g in
    Ok (mk (nodes g)
           (JsMap.set (edges g) edgeIndex (mkEdge src tgt data))
           (push (adjacency g) src edgeIndex)
           (push (reverseAdjacency g) tgt edgeIndex)
           (nextNodeIndex g)
           (S edgeIndex)
           (invalidateCycleFlagOnAddition (acyclicCache g)),
        edgeIndex).

Definition getNode g (i : nat) : option N := JsMap.get (nodes g) i.
Definition getEdge g (i : nat) : option (Edge E) := JsMap.get (edges g) i.
Definition nodeCount g : nat := JsMap.size (nodes g).
Definition edgeCount g : nat := JsMap.size (edges g).

(** [Graph.neighbors(graph, i)]: the targets of the edges listed under
    [i], in the order the edges were added. *)
Definition neighbors g (i : nat) : list nat :=
  match JsMap.get (adjacency g) i with
  | None => []
  | Some es =>
      omap (λ e, target <$> JsMap.get (edges g) e) es
  end.

(** [Graph.indices(Graph.externals(graph, {direction: "incoming"}))]:
    the nodes, in store order, with no incoming edge. *)
Definition externalsIncoming g : list nat :=
  omap (λ '(i, _),
          match JsMap.get (reverseAdjacency g) i with
          | None | Some [] => Some i
          | Some (_ :: _) => None
          end) (nodes g).

(** [Graph.findNodes(graph, predicate)]: indices in store order. *)
Definition findNodes g (p : N → bool) : list nat :=
  omap (λ '(i, n), if p n then Some i else None) (nodes g).

(** Modelled from the spec: [Graph.isAcyclic], which GraphOps.ts wraps
    as [isAcyclic], is not under src/.  It answers whether the graph has
    no cycle: the cached answer when there is one, else a depth-first
    search with a visited set and the set of nodes on the current path;
    an edge into the current path is a cycle.  [visit] returns [None] for
    a cycle and the grown visited set otherwise.  A path without a
    repeated node is no longer than the store, which bounds the
    recursion. *)
Fixpoint visit (fuel : nat) g (path : list nat) (visited : gset nat)
    (node : nat) : option (gset nat) :=
  match fuel with
  | O => None
  | S fuel' =>
      if decide (node ∈ path) then None
      else if decide (node ∈ visited) then Some visited
      else
        foldl (λ acc nb, v ← acc; visit fuel' g (node :: path) v nb)
              (Some ({[node]} ∪ visited)) (neighbors g node)
  end.

Definition searchAcyclic g : bool :=
  match foldl (λ acc start, v ← acc; visit (S (nodeCount g)) g [] v start)
              (Some ∅) (JsMap.keys (nodes g)) with
  | Some _ => true
  | None => false
  end.

Definition isAcyclic g : bool :=
  match acyclicCache g with
  | Some b => b
  | None => searchAcyclic g
  end.
End Graph.
End Graph.

(** ** GraphOps.ts *)

Module GraphOps.
(** [isAcyclic(graph)]: [Graph.isAcyclic(graph)]. *)
Definition isAcyclic {A E} (graph : Graph.t A E) : bool := Graph.isAcyclic graph.
End GraphOps.

(** ** EffectGraph.ts: data *)

Module EffectGraph.

Definition NodeId := string.

Record NodeMetadata : Type := mkMetadata {
  operation : option string;
  timestamp : Z;
  depth : Z
}.

Record GraphNode (A : Type) : Type := mkNode {
  id : NodeId;
  data : A;
  parentId : option NodeId;
  metadata : NodeMetadata
}.
Arguments mkNode {A} _ _ _ _.
Arguments id {A} _.
Arguments data {A} _.
Arguments parentId {A} _.
Arguments metadata {A} _.

(** [{ relation: "child" }], the only edge label. *)
Inductive GraphEdge : Type := child.

Record EffectGraph (A : Type) : Type := mkEffectGraph {
  graph : Graph.t (GraphNode A) GraphEdge;
  nodeIdToIndex : gmap NodeId nat;
  indexToNodeId : gmap nat NodeId
}.
Arguments mkEffectGraph {A} _ _ _.
Arguments graph {A} _.
Arguments nodeIdToIndex {A} _.
Arguments indexToNodeId {A} _.

Section Operations.
Context {A : Type}.
Implicit Types (g : EffectGraph A) (node : GraphNode A).

(** [makeNode(data, parentId, operation)].  The two effects of the
    source, [NodeId.generate()] and [Date.now()], are the arguments
    [newId] and [now]. *)
Definition makeNode (newId : NodeId) (now : Z) (d : A)
    (parent : option NodeId) (op : option string) : GraphNode A :=
  mkNode newId d parent
    (mkMetadata op now (match parent with None => 0 | Some _ => 1 end)).

Definition empty : EffectGraph A :=
  mkEffectGraph Graph.directed ∅ ∅.

Definition singleton (newId : NodeId) (now : Z) (d : A) : EffectGraph A :=
  let node := makeNode newId now d None None in
  let '(gr, nodeIndex) := Graph.addNode Graph.directed node in
  mkEffectGraph gr {[ id node := nodeIndex ]} {[ nodeIndex := id node ]}.

Definition getNode g (nodeId : NodeId) : option (GraphNode A) :=
  nodeIndex ← nodeIdToIndex g !! nodeId;
  Graph.getNode (graph g) nodeIndex.

(** The node as [addNode] stores it: the depth is recomputed from the
    parent when a parent id is given, and is 1 when that id resolves to
    no node. *)
Definition updatedNode g node : GraphNode A :=
  match parentId node with
  | None => node
  | Some p =>
      let parentDepth :=
        match getNode g p with
        | None => 0
        | Some pn => depth (metadata pn)
        end in
      mkNode (id node) (data node) (parentId node)
        (mkMetadata (operation (metadata node)) (timestamp (metadata node))
           (parentDepth + 1))
  end.

Definition hasId (i : NodeId) node : bool := bool_decide (id node = i).

(** [addNode(effectGraph, node)].  [Graph.findNodes(...)[0]!] reads the
    first stored node with the new node's id; the list is never empty,
    the node having just been stored ([findNodes_stored] below), so the
    [[]] branch is never taken. *)
Definition addNode g node : Result (EffectGraph A) :=
  let updated := updatedNode g node in
  let '(g1, nodeIndex) := Graph.addNode (graph g) updated in
  newGraph ←
    match parentId node with
    | None => Ok g1
    | Some p =>
        match nodeIdToIndex g !! p with
        | None => Ok g1
        | Some pIdx => fst <$> Graph.addEdge g1 pIdx nodeIndex child
        end
    end;
  match Graph.findNodes newGraph (hasId (id updated)) with
  | [] => Err (MissingNode nodeIndex)
  | newNodeIndex :: _ =>
      Ok (mkEffectGraph newGraph
            (<[ id updated := newNodeIndex ]> (nodeIdToIndex g))
            (<[ newNodeIndex := id updated ]> (indexToNodeId g)))
  end.

Definition getChildren g (nodeId : NodeId) : list (GraphNode A) :=
  match nodeIdToIndex g !! nodeId with
  | None => []
  | Some idx =>
      omap (Graph.getNode (graph g)) (Graph.neighbors (graph g) idx)
  end.

Definition getRoots g : list (GraphNode A) :=
  omap (Graph.getNode (graph g)) (Graph.externalsIncoming (graph g)).

Definition toArray g : list (GraphNode A) := JsMap.values (Graph.nodes (graph g)).

Definition size g : nat := Graph.nodeCount (graph g).
End Operations.

(** *** The fold *)

Section Cata.
Context {A B : Type}.
Implicit Types (g : EffectGraph A) (algebra : GraphNode A → list B → B).

(** The [memo] table of one [cata] call, and a record of the nodes the
    algebra was applied to, oldest first.  [calls] is what an
    instrumented algebra would log; no result depends on it. *)
Record FoldState : Type := mkFoldState {
  memo : gmap NodeId B;
  calls : list (GraphNode A)
}.

(** [Effect.all(effects)] with the default options: the effects run one
    after the other, in order, and the first failure ends the run. *)
Fixpoint all {X} (run : X → FoldState → Result (B * FoldState))
    (xs : list X) (s : FoldState) : Result (list B * FoldState) :=
  match xs with
  | [] => Ok ([], s)
  | x :: rest =>
      '(b, s1) ← run x s;
      '(bs, s2) ← all run rest s1;
      Ok (b :: bs, s2)
  end.

(** The inner [go] of [cata].  The effect is lazy: the memo table is
    read when the effect runs.  [fuel] bounds the depth of the recursion. *)
Fixpoint go (fuel : nat) g algebra (nodeId : NodeId) (s : FoldState)
    : Result (B * FoldState) :=
  match fuel with
  | O => Err OutOfFuel
  | S fuel' =>
      match memo s !! nodeId with
      | Some b => Ok (b, s)
      | None =>
          match getNode g nodeId with
          | None => Err (NodeNotFound nodeId)
          | Some node =>
              let childNodes := getChildren g nodeId in
              '(processedChildren, s1) ←
                all (λ c, go fuel' g algebra (id c)) childNodes s;
              let result := algebra node processedChildren in
              Ok (result,
                  mkFoldState (<[ nodeId := result ]> (memo s1))
                              (calls s1 ++ [node]))
          end
      end
  end.

Definition cataRun (fuel : nat) g algebra : Result (list B * FoldState) :=
  all (λ root, go fuel g algebra (id root)) (getRoots g) (mkFoldState ∅ []).

Definition cata (fuel : nat) g algebra : Result (list B) :=
  fst <$> cataRun fuel g algebra.
End Cata.

(** *** The functor *)

Section Map.
Context {A B : Type}.
Implicit Types (g : EffectGraph A) (f : A → B).

Definition mapNode f (node : GraphNode A) : GraphNode B :=
  mkNode (id node) (f (data node)) (parentId node) (metadata node).

(** The first loop of [map]: every stored node, in store order, goes
    into the new graph with its data mapped; [nodeMap] and [indexMap]
    record where. *)
Definition mapNodeStep f
    (acc : Graph.t (GraphNode B) GraphEdge * gmap NodeId nat * gmap nat nat)
    (entry : nat * GraphNode A)
    : Graph.t (GraphNode B) GraphEdge * gmap NodeId nat * gmap nat nat :=
  let '(mutable, nodeMap, indexMap) := acc in
  let '(oldIdx, node) := entry in
  let '(mutable', newIdx) := Graph.addNode mutable (mapNode f node) in
  (mutable', <[ id node := newIdx ]> nodeMap, <[ oldIdx := newIdx ]> indexMap).

Definition mapNodes f (nodes : JsMap.t (GraphNode A))
    : Graph.t (GraphNode B) GraphEdge * gmap NodeId nat * gmap nat nat :=
  foldl (mapNodeStep f) (Graph.directed, ∅, ∅) nodes.

(** The second loop: every edge, in store order, between the new indices
    of its ends.  An end with no new index is [undefined], on which
    [Graph.addEdge] throws. *)
Definition mapEdgeStep (indexMap : gmap nat nat)
    (acc : Result (Graph.t (GraphNode B) GraphEdge))
    (entry : nat * Graph.Edge GraphEdge)
    : Result (Graph.t (GraphNode B) GraphEdge) :=
  mutable ← acc;
  match indexMap !! Graph.source entry.2 with
  | None => Err (MissingNode (Graph.source entry.2))
  | Some newFromIdx =>
      match indexMap !! Graph.target entry.2 with
      | None => Err (MissingNode (Graph.target entry.2))
      | Some newToIdx =>
          fst <$> Graph.addEdge mutable newFromIdx newToIdx child
      end
  end.

Definition mapEdges (indexMap : gmap nat nat)
    (edges : JsMap.t (Graph.Edge GraphEdge))
    (mutable : Graph.t (GraphNode B) GraphEdge)
    : Result (Graph.t (GraphNode B) GraphEdge) :=
  foldl (mapEdgeStep indexMap) (Ok mutable) edges.

Definition map g f : Result (EffectGraph B) :=
  let '(withNodes, nodeMap, indexMap) := mapNodes f (Graph.nodes (graph g)) in
  newGraph ← mapEdges indexMap (Graph.edges (graph g)) withNodes;
  Ok (mkEffectGraph newGraph nodeMap
        (list_to_map ((λ '(i, idx), (idx, i)) <$> map_to_list nodeMap))).
End Map.
End EffectGraph.

(** ** The same operations over a store of shared objects *)

(** JavaScript [Map]s and arrays are objects held by reference: two
    graph values that hold the same [Map] see each other's writes.
    [Store] models [addNode] at that level, to show which objects it
    writes.  Modelled from the spec: the copying done by [Graph.mutate],
    part of the [effect] library, is not under src/; per the spec a
    mutation returns a new value and leaves prior values unaffected, which
    here is a copy of the node and edge maps and of every adjacency list
    before the first write.  Effect [HashMap]s are persistent values and
    stay [gmap]s. *)
Module Store.
Import EffectGraph.

Abbreviation loc := nat.

Inductive Obj (A : Type) : Type :=
  | NodeMap (m : JsMap.t (GraphNode A))
  | EdgeMap (m : JsMap.t (Graph.Edge GraphEdge))
  | AdjacencyMap (m : JsMap.t loc)
  | Array (l : list nat)
  | GraphObj (nodes edges adjacency reverseAdjacency : loc)
             (nextNodeIndex nextEdgeIndex : nat)
             (isAcyclic : option bool) (mutable : bool)
  | EffectGraphObj (graph : loc)
                   (nodeIdToIndex : gmap NodeId nat)
                   (indexToNodeId : gmap nat NodeId).
Arguments NodeMap {A} _.
Arguments EdgeMap {A} _.
Arguments AdjacencyMap {A} _.
Arguments Array {A} _.
Arguments GraphObj {A} _ _ _ _ _ _ _ _.
Arguments EffectGraphObj {A} _ _ _.

Definition Heap (A : Type) : Type := list (Obj A).

(** A computation over the store: a result, or a thrown error, and the
    store it leaves. *)
Definition Prog (A X : Type) : Type := Heap A → Result X * Heap A.

Global Instance Prog_ret {A} : MRet (Prog A) := λ X x h, (Ok x, h).
Global Instance Prog_bind {A} : MBind (Prog A) := λ X Y k c h,
  match c h with
  | (Ok x, h') => k x h'
  | (Err e, h') => (Err e, h')
  end.

Section Store.
Context {A : Type}.

Definition throw {X} (e : Error) : Prog A X := λ h, (Err e, h).

(** [new]: the object goes to the next free location. *)
Definition alloc (o : Obj A) : Prog A loc :=
  λ h : list (Obj A), (Ok (length h), h ++ [o]).

Definition store (l : loc) (o : Obj A) : Prog A () :=
  λ h : list (Obj A), (Ok (), <[ l := o ]> h).

(** A read through a reference that does not hold an object of the
    expected kind ends the run with [BadReference]. *)
Definition loadNodes (l : loc) : Prog A (JsMap.t (GraphNode A)) :=
  λ h : list (Obj A),
  match h !! l with
  | Some (NodeMap m) => (Ok m, h)
  | _ => (Err (BadReference l), h)
  end.

Definition loadEdges (l : loc) : Prog A (JsMap.t (Graph.Edge GraphEdge)) :=
  λ h : list (Obj A),
  match h !! l with
  | Some (EdgeMap m) => (Ok m, h)
  | _ => (Err (BadReference l), h)
  end.

Definition loadAdjacency (l : loc) : Prog A (JsMap.t loc) :=
  λ h : list (Obj A),
  match h !! l with
  | Some (AdjacencyMap m) => (Ok m, h)
  | _ => (Err (BadReference l), h)
  end.

Definition loadArray (l : loc) : Prog A (list nat) :=
  λ h : list (Obj A),
  match h !! l with
  | Some (Array a) => (Ok a, h)
  | _ => (Err (BadReference l), h)
  end.

(** The fields of a graph object. *)
Record GraphFields : Type := mkGraphFields {
  nodes : loc;
  edges : loc;
  adjacency : loc;
  reverseAdjacency : loc;
  nextNodeIndex : nat;
  nextEdgeIndex : nat;
  isAcyclic : option bool;
  mutableFlag : bool
}.

Definition graphObj (G : GraphFields) : Obj A :=
  GraphObj (nodes G) (edges G) (adjacency G) (reverseAdjacency G)
           (nextNodeIndex G) (nextEdgeIndex G) (isAcyclic G) (mutableFlag G).

Definition loadGraph (l : loc) : Prog A GraphFields :=
  λ h : list (Obj A),
  match h !! l with
  | Some (GraphObj n e a r nn ne c m) => (Ok (mkGraphFields n e a r nn ne c m), h)
  | _ => (Err (BadReference l), h)
  end.

Definition loadEffectGraph (l : loc)
    : Prog A (loc * gmap NodeId nat * gmap nat NodeId) :=
  λ h : list (Obj A),
  match h !! l with
  | Some (EffectGraphObj g n2i i2n) => (Ok (g, n2i, i2n), h)
  | _ => (Err (BadReference l), h)
  end.

(** [adjacency.set(nodeIndex, [...edges])] for every entry: each list
    is cloned. *)
Fixpoint cloneLists (entries : JsMap.t loc) : Prog A (JsMap.t loc) :=
  match entries with
  | [] => mret []
  | (nodeIndex, list) :: rest =>
      a ← loadArray list;
      list' ← alloc (Array a);
      rest' ← cloneLists rest;
      mret ((nodeIndex, list') :: rest')
  end.

Definition beginMutation (graph : loc) : Prog A loc :=
  G ← loadGraph graph;
  adj ← loadAdjacency (adjacency G);
  adj' ← cloneLists adj;
  radj ← loadAdjacency (reverseAdjacency G);
  radj' ← cloneLists radj;
  ns ← loadNodes (nodes G);
  es ← loadEdges (edges G);
  nodes' ← alloc (NodeMap ns);
  edges' ← alloc (EdgeMap es);
  adjacency' ← alloc (AdjacencyMap adj');
  reverseAdjacency' ← alloc (AdjacencyMap radj');
  alloc (GraphObj nodes' edges' adjacency' reverseAdjacency'
           (nextNodeIndex G) (nextEdgeIndex G) (isAcyclic G) true).

Definition endMutation (mutable : loc) : Prog A loc :=
  G ← loadGraph mutable;
  alloc (GraphObj (nodes G) (edges G) (adjacency G) (reverseAdjacency G)
           (nextNodeIndex G) (nextEdgeIndex G) (isAcyclic G) false).

(** [Graph.mutate(graph, f)]. *)
Definition mutate (graph : loc) (f : loc → Prog A ()) : Prog A loc :=
  mutable ← beginMutation graph;
  _ ← f mutable;
  endMutation mutable.

(** [Graph.addNode(mutable, data)] writes the maps of [mutable]. *)
Definition addNode (mutable : loc) (data : GraphNode A) : Prog A nat :=
  G ← loadGraph mutable;
  let nodeIndex := nextNodeIndex G in
  ns ← loadNodes (nodes G);
  _ ← store (nodes G) (NodeMap (JsMap.set ns nodeIndex data));
  out ← alloc (Array []);
  adj ← loadAdjacency (adjacency G);
  _ ← store (adjacency G) (AdjacencyMap (JsMap.set adj nodeIndex out));
  inc ← alloc (Array []);
  radj ← loadAdjacency (reverseAdjacency G);
  _ ← store (reverseAdjacency G) (AdjacencyMap (JsMap.set radj nodeIndex inc));
  _ ← store mutable
        (GraphObj (nodes G) (edges G) (adjacency G) (reverseAdjacency G)
           (S nodeIndex) (nextEdgeIndex G) (isAcyclic G) (mutableFlag G));
  mret nodeIndex.

(** [adjacencyMap.get(k)?.push(e)]: the list itself is written. *)
Definition push (adjacencyMap : loc) (k e : nat) : Prog A () :=
  adj ← loadAdjacency adjacencyMap;
  match JsMap.get adj k with
  | None => mret ()
  | Some list =>
      a ← loadArray list;
      store list (Array (a ++ [e]))
  end.

Definition addEdge (mutable : loc) (src tgt : nat) : Prog A nat :=
  G ← loadGraph mutable;
  ns ← loadNodes (nodes G);
  if negb (JsMap.has ns src) then throw (MissingNode src)
  else if negb (JsMap.has ns tgt) then throw (MissingNode tgt)
  else
    let edgeIndex := nextEdgeIndex G in
    es ← loadEdges (edges G);
    _ ← store (edges G) (EdgeMap (JsMap.set es edgeIndex (Graph.mkEdge src tgt child)));
    _ ← push (adjacency G) src edgeIndex;
    _ ← push (reverseAdjacency G) tgt edgeIndex;
    _ ← store mutable
          (GraphObj (nodes G) (edges G) (adjacency G) (reverseAdjacency G)
             (nextNodeIndex G) (S edgeIndex)
             (Graph.invalidateCycleFlagOnAddition (isAcyclic G)) (mutableFlag G));
    mret edgeIndex.

Definition getNode (graph : loc) (i : nat) : Prog A (option (GraphNode A)) :=
  G ← loadGraph graph;
  ns ← loadNodes (nodes G);
  mret (JsMap.get ns i).

Definition findNodes (graph : loc) (p : GraphNode A → bool) : Prog A (list nat) :=
  G ← loadGraph graph;
  ns ← loadNodes (nodes G);
  mret (omap (λ '(i, n), if p n then Some i else None) ns).

(** [addNode(effectGraph, node)] of EffectGraph.ts, on references. *)
Definition addNodeRef (effectGraph : loc) (node : GraphNode A) : Prog A loc :=
  '(graph, nodeIdToIndex, indexToNodeId) ← loadEffectGraph effectGraph;
  updated ←
    match parentId node with
    | None => mret node
    | Some p =>
        parentNode ←
          match nodeIdToIndex !! p with
          | None => mret None
          | Some idx => getNode graph idx
          end;
        let parentDepth :=
          match parentNode with
          | None => 0
          | Some pn => depth (metadata pn)
          end in
        mret (mkNode (id node) (data node) (parentId node)
                (mkMetadata (operation (metadata node))
                   (timestamp (metadata node)) (parentDepth + 1)))
    end;
  newGraph ←
    mutate graph (λ mutable,
      nodeIndex ← addNode mutable updated;
      match parentId node with
      | None => mret ()
      | Some p =>
          match nodeIdToIndex !! p with
          | None => mret ()
          | Some pIdx => _ ← addEdge mutable pIdx nodeIndex; mret ()
          end
      end);
  found ← findNodes newGraph (hasId (id updated));
  match found with
  | [] => throw (BadReference newGraph)
  | newNodeIndex :: _ =>
      alloc (EffectGraphObj newGraph
               (<[ id updated := newNodeIndex ]> nodeIdToIndex)
               (<[ newNodeIndex := id updated ]> indexToNodeId))
  end.

(** *** What a reference denotes *)

Definition readLists (h : list (Obj A)) (entries : JsMap.t loc)
    : option (JsMap.t (list nat)) :=
  mapM (λ '(k, l),
          match h !! l with
          | Some (Array a) => Some (k, a)
          | _ => None
          end) entries.

Definition readGraph (h : list (Obj A)) (graph : loc)
    : option (Graph.t (GraphNode A) GraphEdge) :=
  match h !! graph with
  | Some (GraphObj n e a r nn ne c _) =>
      match h !! n, h !! e, h !! a, h !! r with
      | Some (NodeMap ns), Some (EdgeMap es),
        Some (AdjacencyMap adj), Some (AdjacencyMap radj) =>
          adj' ← readLists h adj;
          radj' ← readLists h radj;
          Some (Graph.mk ns es adj' radj' nn ne c)
      | _, _, _, _ => None
      end
  | _ => None
  end.

Definition readEffectGraph (h : list (Obj A)) (effectGraph : loc)
    : option (EffectGraph A) :=
  match h !! effectGraph with
  | Some (EffectGraphObj g n2i i2n) =>
      gr ← readGraph h g; Some (mkEffectGraph gr n2i i2n)
  | _ => None
  end.

(** A graph value put into the store, every list and map a new object. *)
Fixpoint allocLists (entries : JsMap.t (list nat)) : Prog A (JsMap.t loc) :=
  match entries with
  | [] => mret []
  | (k, a) :: rest =>
      l ← alloc (Array a);
      rest' ← allocLists rest;
      mret ((k, l) :: rest')
  end.

Definition allocEffectGraph (g : EffectGraph A) : Prog A loc :=
  adj ← allocLists (Graph.adjacency (graph g));
  radj ← allocLists (Graph.reverseAdjacency (graph g));
  n ← alloc (NodeMap (Graph.nodes (graph g)));
  e ← alloc (EdgeMap (Graph.edges (graph g)));
  a ← alloc (AdjacencyMap adj);
  r ← alloc (AdjacencyMap radj);
  gr ← alloc (GraphObj n e a r (Graph.nextNodeIndex (graph g))
                (Graph.nextEdgeIndex (graph g))
                (Graph.acyclicCache (graph g)) false);
  alloc (EffectGraphObj gr (nodeIdToIndex g) (indexToNodeId g)).
End Store.
End Store.

(** ** CorpusOps.ts: corpus statistics *)

Module CorpusOps.

Record Document : Type := mkDocument {
  docId : string;
  text : string
}.

(** [vocabulary] is a JavaScript [Set] and the two frequency tables are
    [Map]s; the code reads and writes them by key and the statistics are
    compared as a set and as key-to-count maps, so they are a [gset] and
    [gmap]s, whose equality is that of their contents. *)
Record CorpusStatistics : Type := mkStatistics {
  documentCount : Z;
  totalWords : Z;
  totalSentences : Z;
  totalChars : Z;
  vocabulary : gset string;
  termFrequency : gmap string Z;
  documentFrequency : gmap string Z
}.

Record CorpusConfig : Type := mkConfig {
  batchSize : nat;
  concurrency : nat
}.

Definition defaultCorpusConfig : CorpusConfig := mkConfig 100 10.

Definition emptyStatistics : CorpusStatistics :=
  mkStatistics 0 0 0 0 ∅ ∅ ∅.

(** [result.set(term, (result.get(term) ?? 0) + count)] for every entry
    of [m2], starting from a copy of [m1].  Here, and in
    [combineStatistics], [+] is the exact sum, which is what the code
    computes while the counts stay within 2^53, as the counts of a corpus
    do.  [CorpusNumbers] has both functions once more with the rounding
    [+] of numbers, and [CorpusNumbers.combineStatistics_exact] relates
    the two. *)
Definition mergeFrequencyMaps (m1 m2 : gmap string Z) : gmap string Z :=
  map_fold (λ term count result,
              <[ term := default 0 (result !! term) + count ]> result)
           m1 m2.

Definition combineStatistics (s1 s2 : CorpusStatistics) : CorpusStatistics :=
  mkStatistics
    (documentCount s1 + documentCount s2)
    (totalWords s1 + totalWords s2)
    (totalSentences s1 + totalSentences s2)
    (totalChars s1 + totalChars s2)
    (vocabulary s1 ∪ vocabulary s2)
    (mergeFrequencyMaps (termFrequency s1) (termFrequency s2))
    (mergeFrequencyMaps (documentFrequency s1) (documentFrequency s2)).

Definition documentStatistics (doc : Document) (tokens sentences : list string)
    : CorpusStatistics :=
  let vocabulary : gset string := list_to_set tokens in
  let termFrequency : gmap string Z :=
    foldl (λ tf token, <[ token := default 0 (tf !! token) + 1 ]> tf) ∅ tokens in
  let documentFrequency : gmap string Z :=
    set_fold (λ term df, <[ term := 1 ]> df) ∅ vocabulary in
  mkStatistics 1 (Z.of_nat (length tokens)) (Z.of_nat (length sentences))
    (Z.of_nat (String.length (text doc)))
    vocabulary termFrequency documentFrequency.



(** [NLP.NLPService], a collaborator outside the repository: four
    operations whose effects cannot fail, taken as pure functions. *)
Record NLPService : Type := mkNLPService {
  sentencize : string → list string;
  tokenize : string → list string;
  removeStopWords : list string → list string;
  stem : list string → list string
}.

(** What both aggregations do with one document. *)
Definition extract (nlp : NLPService) (doc : Document) : CorpusStatistics :=
  let sentences := sentencize nlp (text doc) in
  let tokens := tokenize nlp (text doc) in
  let filtered := removeStopWords nlp tokens in
  let stemmed := stem nlp filtered in
  documentStatistics doc stemmed sentences.

Definition aggregateStatistics (nlp : NLPService) (documents : list Document)
    : CorpusStatistics :=
  foldl (λ stats doc, combineStatistics stats (extract nlp doc))
        emptyStatistics documents.

End CorpusOps.

Module Invariant.
Import EffectGraph.

Section GraphLemmas.
Context {N E : Type}.
Implicit Types g : Graph.t N E.

Lemma get_push (m : JsMap.t (list nat)) k e i :
  JsMap.get (Graph.push m k e) i
  = if decide (k = i) then (λ l, l ++ [e]) <$> JsMap.get m i else JsMap.get m i.
Proof.
  unfold Graph.push. destruct (decide (k = i)) as [->|Hne].
  - destruct (JsMap.get m i) eqn:Hg; simpl.
    + apply JsMap.get_set_eq.
    + done.
  - destruct (JsMap.get m k); [by apply JsMap.get_set_ne | done].
Qed.

Lemma findNodes_snoc g g' k n p :
  Graph.nodes g' = Graph.nodes g ++ [(k, n)] →
  Graph.findNodes g' p = Graph.findNodes g p ++ (if p n then [k] else []).
Proof.
  intros Hn. unfold Graph.findNodes. rewrite Hn, omap_app. simpl.
  by destruct (p n).
Qed.

Lemma findNodes_keys g p i :
  i ∈ Graph.findNodes g p → i ∈ JsMap.keys (Graph.nodes g).
Proof.
  unfold Graph.findNodes, JsMap.keys. rewrite list_elem_of_omap.
  intros [[j n] [Hin Hj]]. destruct (p n); simplify_eq.
  apply list_elem_of_fmap. by exists (i, n).
Qed.

Lemma keys_get_Some (m : JsMap.t N) k :
  k ∈ JsMap.keys m → is_Some (JsMap.get m k).
Proof.
  intros Hin. destruct (JsMap.get m k) eqn:Hg; [by eexists|].
  by apply JsMap.get_None_keys in Hg.
Qed.
End GraphLemmas.

Section Wf.
Context {A : Type}.
Implicit Types (g : EffectGraph A) (node : GraphNode A).

Lemma id_updatedNode g node : id (updatedNode g node) = id node.
Proof. unfold updatedNode. by destruct (parentId node) eqn:E. Qed.

Lemma parentId_updatedNode g node :
  parentId (updatedNode g node) = parentId node.
Proof. unfold updatedNode. by destruct (parentId node) eqn:E. Qed.

(** The shape every graph grown by [addNode] has: dense node indices in
    store order, the id map pointing at the first stored node of each id,
    an adjacency list for every node, and edges that are recorded under
    their source and lead to a node stored later. *)
Record wf g : Prop := mkWf {
  wf_keys :
    JsMap.keys (Graph.nodes (graph g)) = seq 0 (Graph.nextNodeIndex (graph g));
  wf_index : ∀ i,
    nodeIdToIndex g !! i = head (Graph.findNodes (graph g) (hasId i));
  wf_adjacency : ∀ i, (i < Graph.nextNodeIndex (graph g))%nat →
    is_Some (JsMap.get (Graph.adjacency (graph g)) i) ∧
    is_Some (JsMap.get (Graph.reverseAdjacency (graph g)) i);
  wf_edge_keys :
    JsMap.keys (Graph.edges (graph g)) = seq 0 (Graph.nextEdgeIndex (graph g));
  wf_edges : ∀ e edge, Graph.getEdge (graph g) e = Some edge →
    (e < Graph.nextEdgeIndex (graph g))%nat ∧
    (Graph.source edge < Graph.target edge)%nat ∧
    (Graph.target edge < Graph.nextNodeIndex (graph g))%nat;
  wf_adjacent : ∀ i es e,
    JsMap.get (Graph.adjacency (graph g)) i = Some es → e ∈ es →
    ∃ edge, Graph.getEdge (graph g) e = Some edge ∧ Graph.source edge = i;
  wf_cache : Graph.acyclicCache (graph g) ≠ Some false
}.

Lemma wf_index_lt g i k :
  wf g → nodeIdToIndex g !! i = Some k → (k < Graph.nextNodeIndex (graph g))%nat.
Proof.
  intros Hwf Hk. rewrite (wf_index g Hwf) in Hk.
  assert (k ∈ Graph.findNodes (graph g) (hasId i)) as Hin.
  { destruct (Graph.findNodes (graph g) (hasId i)); simplify_eq/=. left. }
  apply findNodes_keys in Hin. rewrite (wf_keys g Hwf) in Hin.
  apply list_elem_of_In, in_seq in Hin. lia.
Qed.

Lemma wf_stored g k :
  wf g → (k < Graph.nextNodeIndex (graph g))%nat →
  is_Some (Graph.getNode (graph g) k).
Proof.
  intros Hwf Hk. apply keys_get_Some. rewrite (wf_keys g Hwf).
  apply list_elem_of_In, in_seq. lia.
Qed.

Lemma wf_fresh g : wf g →
  JsMap.get (Graph.nodes (graph g)) (Graph.nextNodeIndex (graph g)) = None.
Proof. intros Hwf. eapply JsMap.get_ge_None; [apply (wf_keys g Hwf) | lia]. Qed.

Lemma wf_fresh_edge g : wf g →
  JsMap.get (Graph.edges (graph g)) (Graph.nextEdgeIndex (graph g)) = None.
Proof.
  intros Hwf. destruct (JsMap.get _ _) eqn:Hg; [|done].
  apply (wf_edges g Hwf) in Hg. lia.
Qed.

Lemma wf_empty : wf (@empty A).
Proof.
  split; simpl; try done; intros; lia.
Qed.

(** The edge [addNode] records: from the index of the parent id, when
    the node has a parent id and the id map knows it. *)
Definition parentIndex g node : option nat :=
  p ← parentId node; nodeIdToIndex g !! p.

Definition newEdges g node : JsMap.t (Graph.Edge GraphEdge) :=
  match parentIndex g node with
  | Some pIdx =>
      [(Graph.nextEdgeIndex (graph g),
        Graph.mkEdge pIdx (Graph.nextNodeIndex (graph g)) child)]
  | None => []
  end.

(** What one [addNode] does to a well-formed graph. *)
Record added g node g' : Prop := mkAdded {
  added_nodes :
    Graph.nodes (graph g')
    = Graph.nodes (graph g)
      ++ [(Graph.nextNodeIndex (graph g), updatedNode g node)];
  added_edges :
    Graph.edges (graph g') = Graph.edges (graph g) ++ newEdges g node;
  added_next :
    Graph.nextNodeIndex (graph g') = S (Graph.nextNodeIndex (graph g));
  added_index : ∀ i, is_Some (nodeIdToIndex g !! i) →
    nodeIdToIndex g' !! i = nodeIdToIndex g !! i;
  added_index_new :
    nodeIdToIndex g' !! id node
    = Some (default (Graph.nextNodeIndex (graph g)) (nodeIdToIndex g !! id node));
  added_index_other : ∀ i, i ≠ id node →
    nodeIdToIndex g' !! i = nodeIdToIndex g !! i
}.

Lemma addNode_graph_wf g node gr' :
  wf g →
  Graph.nodes gr'
    = Graph.nodes (graph g)
      ++ [(Graph.nextNodeIndex (graph g), updatedNode g node)] →
  Graph.nextNodeIndex gr' = S (Graph.nextNodeIndex (graph g)) →
  (∀ i, (i < S (Graph.nextNodeIndex (graph g)))%nat →
     is_Some (JsMap.get (Graph.adjacency gr') i) ∧
     is_Some (JsMap.get (Graph.reverseAdjacency gr') i)) →
  JsMap.keys (Graph.edges gr') = seq 0 (Graph.nextEdgeIndex gr') →
  (∀ e edge, Graph.getEdge gr' e = Some edge →
    (e < Graph.nextEdgeIndex gr')%nat ∧
    (Graph.source edge < Graph.target edge)%nat ∧
    (Graph.target edge < Graph.nextNodeIndex gr')%nat) →
  (∀ i es e,
    JsMap.get (Graph.adjacency gr') i = Some es → e ∈ es →
    ∃ edge, Graph.getEdge gr' e = Some edge ∧ Graph.source edge = i) →
  Graph.acyclicCache gr' ≠ Some false →
  Graph.edges gr' = Graph.edges (graph g) ++ newEdges g node →
  ∃ g', (match Graph.findNodes gr' (hasId (id (updatedNode g node))) with
         | [] => Err (MissingNode (Graph.nextNodeIndex (graph g)))
         | newNodeIndex :: _ =>
             Ok (mkEffectGraph gr'
                  (<[ id (updatedNode g node) := newNodeIndex ]> (nodeIdToIndex g))
                  (<[ newNodeIndex := id (updatedNode g node) ]> (indexToNodeId g)))
         end) = Ok g' ∧ graph g' = gr' ∧ wf g' ∧ added g node g'.
Proof.
  intros Hwf Hnodes Hnext Hadj Hekeys Hedges Hadjacent Hcache Hnew.
  rewrite id_updatedNode.
  pose proof (λ p, findNodes_snoc (graph g) gr' _ _ p Hnodes) as Hfind.
  assert (Graph.findNodes gr' (hasId (id node))
          = default (Graph.nextNodeIndex (graph g)) (nodeIdToIndex g !! id node)
            :: tail (Graph.findNodes gr' (hasId (id node)))) as Hhead.
  { assert (hasId (id node) (updatedNode g node) = true) as Hself.
    { unfold hasId. rewrite id_updatedNode. by apply bool_decide_eq_true. }
    rewrite Hfind, (wf_index g Hwf), Hself.
    by destruct (Graph.findNodes (graph g) (hasId (id node))). }
  rewrite Hhead. eexists. split; [done|]. split; [done|].
  assert (∀ i, i ≠ id node →
    Graph.findNodes gr' (hasId i) = Graph.findNodes (graph g) (hasId i)) as Hother.
  { intros i Hi. rewrite Hfind.
    assert (hasId i (updatedNode g node) = false) as ->.
    { unfold hasId. rewrite id_updatedNode. by apply bool_decide_eq_false. }
    apply app_nil_r. }
  split; [split; simpl|split; simpl]; try done.
  - rewrite Hnodes, Hnext. unfold JsMap.keys. rewrite fmap_app, seq_S. simpl.
    f_equal. apply (wf_keys g Hwf).
  - intros i. destruct (decide (i = id node)) as [->|Hi].
    + rewrite lookup_insert_eq. by rewrite Hhead at 1.
    + rewrite lookup_insert_ne by done. rewrite Hother by done.
      apply (wf_index g Hwf).
  - rewrite Hnext. done.
  - intros i [k Hk]. destruct (decide (i = id node)) as [->|Hi].
    + rewrite lookup_insert_eq, Hk. done.
    + by rewrite lookup_insert_ne.
  - by rewrite lookup_insert_eq.
  - intros i Hi. by rewrite lookup_insert_ne.
Qed.

Lemma addNode_wf g node :
  wf g → ∃ g', addNode g node = Ok g' ∧ wf g' ∧ added g node g'.
Proof.
  intros Hwf. unfold addNode. simpl.
  pose proof (wf_fresh g Hwf) as Hfresh.
  set (next := Graph.nextNodeIndex (graph g)) in *.
  set (u := updatedNode g node).
  assert (JsMap.set (Graph.nodes (graph g)) next u
          = Graph.nodes (graph g) ++ [(next, u)]) as Hset
    by by apply JsMap.set_fresh.
  destruct (parentIndex g node) as [pIdx|] eqn:Hpar.
  - (* an edge from the parent *)
    unfold parentIndex in Hpar. destruct (parentId node) as [p|] eqn:Hp; [|done].
    simpl in Hpar. rewrite Hpar.
    pose proof (wf_index_lt g p pIdx Hwf Hpar) as Hlt. fold next in Hlt.
    destruct (wf_stored g pIdx Hwf Hlt) as [pn Hpn].
    unfold Graph.addEdge, JsMap.has. simpl.
    rewrite JsMap.get_set_ne by lia. unfold Graph.getNode in Hpn. rewrite Hpn.
    rewrite JsMap.get_set_eq. simpl.
    edestruct (addNode_graph_wf g node) as (g' & Heq & Hgr & Hwf' & Hadd);
      [exact Hwf| ..| rewrite Heq; eauto]; simpl.
    + exact Hset.
    + done.
    + intros i Hi. rewrite !get_push.
      assert (is_Some (JsMap.get (JsMap.set (Graph.adjacency (graph g)) next []) i)
              ∧ is_Some (JsMap.get (JsMap.set (Graph.reverseAdjacency (graph g)) next []) i))
        as [H1 H2].
      { destruct (decide (next = i)) as [<-|Hne].
        - rewrite !JsMap.get_set_eq. eauto.
        - rewrite !JsMap.get_set_ne by done.
          apply (wf_adjacency g Hwf). fold next. lia. }
      split; case_decide; try done; by apply fmap_is_Some.
    + rewrite JsMap.set_fresh by by apply wf_fresh_edge.
      change (JsMap.keys (Graph.edges (graph g)
                ++ [(Graph.nextEdgeIndex (graph g), Graph.mkEdge pIdx next child)])
              = seq 0 (S (Graph.nextEdgeIndex (graph g)))).
      unfold JsMap.keys. rewrite fmap_app, seq_S. simpl.
      f_equal. apply (wf_edge_keys g Hwf).
    + intros e edge. unfold Graph.getEdge. simpl.
      destruct (decide (Graph.nextEdgeIndex (graph g) = e)) as [<-|Hne].
      * rewrite JsMap.get_set_eq. intros [= <-]. simpl. lia.
      * rewrite JsMap.get_set_ne by done. intros He.
        apply (wf_edges g Hwf) in He. fold next in He. lia.
    + intros i es e. unfold Graph.getEdge. simpl. rewrite get_push.
      intros Hes He.
      assert (∀ es0, JsMap.get (JsMap.set (Graph.adjacency (graph g)) next []) i
                     = Some es0 → e ∈ es0 →
              ∃ edge, JsMap.get (JsMap.set (Graph.edges (graph g))
                        (Graph.nextEdgeIndex (graph g))
                        (Graph.mkEdge pIdx next child)) e = Some edge
                      ∧ Graph.source edge = i) as Hold.
      { intros es0 Hes0 He0. destruct (decide (next = i)) as [<-|Hne].
        - rewrite JsMap.get_set_eq in Hes0. simplify_eq. by apply not_elem_of_nil in He0.
        - rewrite JsMap.get_set_ne in Hes0 by done.
          destruct (wf_adjacent g Hwf i es0 e Hes0 He0) as (edge & Hedge & Hsrc).
          exists edge. split; [|done].
          pose proof (wf_edges g Hwf _ _ Hedge) as [? _].
          rewrite JsMap.get_set_ne by lia. exact Hedge. }
      case_decide as Hd; [|by eapply Hold].
      subst i. destruct (JsMap.get (JsMap.set _ next []) pIdx) as [l|] eqn:Hl;
        simplify_eq/=.
      apply elem_of_app in He as [He|He]; [by eapply Hold|].
      apply list_elem_of_singleton in He. subst e.
      rewrite JsMap.get_set_eq. eauto.
    + pose proof (wf_cache g Hwf) as Hc.
      by destruct (Graph.acyclicCache (graph g)) as [[]|].
    + rewrite JsMap.set_fresh by by apply wf_fresh_edge.
      unfold newEdges, parentIndex. rewrite Hp. simpl. by rewrite Hpar.
  - (* no edge *)
    assert ((match parentId node with
             | Some p =>
                 match nodeIdToIndex g !! p with
                 | Some pIdx =>
                     fst <$> Graph.addEdge (Graph.addNode (graph g) u).1 pIdx next child
                 | None => Ok (Graph.addNode (graph g) u).1
                 end
             | None => Ok (Graph.addNode (graph g) u).1
             end) = Ok (Graph.addNode (graph g) u).1) as Hno.
    { unfold parentIndex in Hpar. destruct (parentId node) as [p|]; [|done].
      simpl in Hpar. by rewrite Hpar. }
    simpl in Hno. fold next in Hno. rewrite Hno. simpl.
    edestruct (addNode_graph_wf g node) as (g' & Heq & Hgr & Hwf' & Hadd);
      [exact Hwf| ..| rewrite Heq; eauto]; simpl.
    + exact Hset.
    + done.
    + intros i Hi. destruct (decide (next = i)) as [<-|Hne].
      * rewrite !JsMap.get_set_eq. eauto.
      * rewrite !JsMap.get_set_ne by done.
        apply (wf_adjacency g Hwf). fold next. lia.
    + apply (wf_edge_keys g Hwf).
    + intros e edge He. apply (wf_edges g Hwf) in He. fold next in He. lia.
    + intros i es e Hes He. destruct (decide (next = i)) as [<-|Hne].
      * rewrite JsMap.get_set_eq in Hes. simplify_eq. by apply not_elem_of_nil in He.
      * rewrite JsMap.get_set_ne in Hes by done. by eapply (wf_adjacent g Hwf).
    + apply (wf_cache g Hwf).
    + unfold newEdges. rewrite Hpar. by rewrite app_nil_r.
Qed.
End Wf.
End Invariant.

Module GraphFacts.
Section GraphFacts.
Context {N E : Type}.
Implicit Types g : Graph.t N E.

Lemma getNode_addNode_new g d :
  Graph.getNode (Graph.addNode g d).1 (Graph.nextNodeIndex g) = Some d.
Proof. apply JsMap.get_set_eq. Qed.

Lemma getNode_addNode_old g d i :
  i ≠ Graph.nextNodeIndex g →
  Graph.getNode (Graph.addNode g d).1 i = Graph.getNode g i.
Proof. intros Hne. apply JsMap.get_set_ne. done. Qed.

(** A stored node that satisfies the predicate makes [findNodes] non-empty. *)
Lemma findNodes_stored g i n (p : N → bool) :
  Graph.getNode g i = Some n → p n = true → Graph.findNodes g p ≠ [].
Proof.
  intros Hget Hp Hnil. apply JsMap.get_Some_elem in Hget.
  assert (i ∈ Graph.findNodes g p) as Hin.
  { unfold Graph.findNodes. apply list_elem_of_omap. exists (i, n).
    split; [done|]. simpl. by rewrite Hp. }
  rewrite Hnil in Hin. by apply not_elem_of_nil in Hin.
Qed.

Lemma externalsIncoming_elem g i n :
  (i, n) ∈ Graph.nodes g →
  JsMap.get (Graph.reverseAdjacency g) i = Some [] →
  i ∈ Graph.externalsIncoming g.
Proof.
  intros Hin Hrev. unfold Graph.externalsIncoming.
  apply list_elem_of_omap. exists (i, n). split; [done|]. simpl. by rewrite Hrev.
Qed.
End GraphFacts.
End GraphFacts.

Module EffectGraphFacts.
Import EffectGraph Invariant.
Section AddNode.
Context {A : Type}.
Implicit Types (g : EffectGraph A) (node : GraphNode A).

(** C10: when the node's [parentId] is [Some p] and [p] is not an id of
    the graph, [addNode] does not fail; the node is stored with depth 1
    and with its [parentId] still [Some p], no edge is added, the node
    has no incoming edge and [getRoots] reports it. *)
Theorem addNode_unknown_parent g node p :
  parentId node = Some p →
  nodeIdToIndex g !! p = None →
  ∃ g', addNode g node = Ok g' ∧
    depth (metadata (updatedNode g node)) = 1 ∧
    parentId (updatedNode g node) = Some p ∧
    Graph.getNode (graph g') (Graph.nextNodeIndex (graph g))
      = Some (updatedNode g node) ∧
    Graph.edges (graph g') = Graph.edges (graph g) ∧
    JsMap.get (Graph.reverseAdjacency (graph g')) (Graph.nextNodeIndex (graph g))
      = Some [] ∧
    updatedNode g node ∈ getRoots g'.
Proof.
  intros Hp Hnone.
  assert (getNode g p = None) as Hgn by (unfold getNode; by rewrite Hnone).
  assert (Graph.getNode (Graph.addNode (graph g) (updatedNode g node)).1
            (Graph.nextNodeIndex (graph g)) = Some (updatedNode g node)) as Hnew
    by apply GraphFacts.getNode_addNode_new.
  unfold addNode. simpl. rewrite Hp, Hnone. simpl.
  destruct (Graph.findNodes _ _) as [|j rest] eqn:Hfind.
  { exfalso. eapply GraphFacts.findNodes_stored; [exact Hnew| |exact Hfind].
    unfold hasId. by apply bool_decide_eq_true. }
  eexists. split; [done|]. simpl.
  assert (JsMap.get (JsMap.set (Graph.reverseAdjacency (graph g))
            (Graph.nextNodeIndex (graph g)) []) (Graph.nextNodeIndex (graph g))
          = Some []) as Hrev by apply JsMap.get_set_eq.
  split_and!; try done.
  - unfold updatedNode. rewrite Hp, Hgn. done.
  - rewrite parentId_updatedNode. done.
  - unfold getRoots. apply list_elem_of_omap.
    exists (Graph.nextNodeIndex (graph g)). split; [|exact Hnew].
    eapply GraphFacts.externalsIncoming_elem; [|exact Hrev].
    apply JsMap.get_Some_elem. exact Hnew.
Qed.
End AddNode.
End EffectGraphFacts.

Module Acyclicity.
Import EffectGraph Invariant.

Section Search.
Context {N E : Type}.
Implicit Types g : Graph.t N E.

(** When every edge leads to a later index, the search never meets a
    node of its current path, and the fuel covers the way to the last
    index. *)
Lemma visit_increasing g bound :
  (∀ i nb, nb ∈ Graph.neighbors g i → (i < nb < bound)%nat) →
  ∀ fuel node path visited,
    (node < bound)%nat → (bound ≤ node + fuel)%nat →
    (∀ s, s ∈ path → (s < node)%nat) →
    is_Some (Graph.visit fuel g path visited node).
Proof.
  intros Hinc fuel. induction fuel as [|fuel IH]; intros node path visited Hlt Hfuel Hpath.
  { lia. }
  simpl. destruct (decide (node ∈ path)) as [Hin|_].
  { apply Hpath in Hin. lia. }
  case_decide; [by eexists|].
  assert (∀ nbs v, (∀ nb, nb ∈ nbs → (node < nb < bound)%nat) →
    is_Some (foldl (λ acc nb, v ← acc; Graph.visit fuel g (node :: path) v nb)
               (Some v) nbs)) as Hfold.
  { induction nbs as [|nb nbs IHn]; intros v Hnbs; simpl; [by eexists|].
    assert (node < nb < bound)%nat as Hnb by (apply Hnbs; left).
    destruct (IH nb (node :: path) v) as [v' Hv'].
    - lia.
    - lia.
    - intros s [->|Hs]%elem_of_cons; [lia|].
      pose proof (Hpath s Hs). lia.
    - rewrite Hv'. apply IHn. intros nb' Hnb'. apply Hnbs. by right. }
  apply Hfold. intros nb Hnb. by apply Hinc.
Qed.

Lemma searchAcyclic_increasing g :
  JsMap.keys (Graph.nodes g) = seq 0 (Graph.nextNodeIndex g) →
  (∀ i nb, nb ∈ Graph.neighbors g i → (i < nb < Graph.nextNodeIndex g)%nat) →
  Graph.searchAcyclic g = true.
Proof.
  intros Hkeys Hinc. unfold Graph.searchAcyclic.
  assert (Graph.nodeCount g = Graph.nextNodeIndex g) as Hcount.
  { unfold Graph.nodeCount, JsMap.size.
    transitivity (length (JsMap.keys (Graph.nodes g))).
    - unfold JsMap.keys. by rewrite length_fmap.
    - rewrite Hkeys. apply length_seq. }
  rewrite Hcount.
  assert (∀ starts v, (∀ s, s ∈ starts → (s < Graph.nextNodeIndex g)%nat) →
    is_Some (foldl (λ acc start,
                      v ← acc; Graph.visit (S (Graph.nextNodeIndex g)) g [] v start)
               (Some v) starts)) as Hfold.
  { induction starts as [|s starts IHs]; intros v Hs; simpl; [by eexists|].
    destruct (visit_increasing g _ Hinc (S (Graph.nextNodeIndex g)) s [] v) as [v' Hv'].
    - apply Hs. left.
    - lia.
    - intros ? []%not_elem_of_nil.
    - simpl in Hv'. rewrite Hv'. apply IHs. intros s' Hs'. apply Hs. by right. }
  destruct (Hfold (JsMap.keys (Graph.nodes g)) ∅) as [v Hv].
  { intros s. rewrite Hkeys, list_elem_of_In, in_seq. lia. }
  by rewrite Hv.
Qed.
End Search.

Section Sequences.
Context {A : Type}.
Implicit Types (g : EffectGraph A) (node : GraphNode A).

Lemma wf_neighbors g i nb :
  wf g → nb ∈ Graph.neighbors (graph g) i →
  (i < nb < Graph.nextNodeIndex (graph g))%nat.
Proof.
  intros Hwf. unfold Graph.neighbors.
  destruct (JsMap.get (Graph.adjacency (graph g)) i) as [es|] eqn:Hes.
  - rewrite list_elem_of_omap. intros (e & He & Hnb).
    destruct (wf_adjacent g Hwf i es e Hes He) as (edge & Hedge & <-).
    unfold Graph.getEdge in Hedge. rewrite Hedge in Hnb. simplify_eq/=.
    apply (wf_edges g Hwf) in Hedge. lia.
  - by intros ?%not_elem_of_nil.
Qed.

Lemma wf_isAcyclic g : wf g → Graph.isAcyclic (graph g) = true.
Proof.
  intros Hwf. unfold Graph.isAcyclic.
  pose proof (wf_cache g Hwf) as Hc.
  destruct (Graph.acyclicCache (graph g)) as [[]|]; [done|done|].
  apply searchAcyclic_increasing; [apply (wf_keys g Hwf)|].
  intros i nb. by apply wf_neighbors.
Qed.

(** A sequence of [addNode] calls, each on the graph the one before
    returned. *)
Definition addNodes g (nodes : list (GraphNode A)) : Result (EffectGraph A) :=
  foldl (λ acc node, g' ← acc; addNode g' node) (Ok g) nodes.

Lemma addNodes_snoc g nodes node :
  addNodes g (nodes ++ [node]) = (g' ← addNodes g nodes; addNode g' node).
Proof. unfold addNodes. by rewrite foldl_app. Qed.

Lemma addNodes_wf g nodes :
  wf g → ∃ g', addNodes g nodes = Ok g' ∧ wf g'.
Proof.
  intros Hwf. induction nodes as [|node nodes IH] using rev_ind.
  - by exists g.
  - destruct IH as (g1 & Hg1 & Hwf1).
    destruct (addNode_wf g1 node Hwf1) as (g2 & Hg2 & Hwf2 & _).
    exists g2. rewrite addNodes_snoc, Hg1. done.
Qed.

Lemma wf_singleton i t (d : A) : wf (singleton i t d).
Proof.
  destruct (addNode_wf empty (makeNode i t d None None) wf_empty)
    as (g' & Hg' & Hwf & _).
  unfold addNode in Hg'. simpl in Hg'.
  unfold hasId, Graph.findNodes, updatedNode, makeNode in Hg'. simpl in Hg'.
  rewrite bool_decide_eq_true_2 in Hg' by done. simpl in Hg'.
  injection Hg' as <-. unfold singleton. simpl.
  rewrite insert_empty in Hwf. exact Hwf.
Qed.

(** C5: after every call of every sequence of [addNode] calls that
    starts from [empty] or from a [singleton], whatever the nodes, the
    call has succeeded and [isAcyclic] is true of the graph. *)
Theorem addNode_sequences_acyclic :
  (∀ (nodes : list (GraphNode A)) (k : nat),
     ∃ g, addNodes empty (take k nodes) = Ok g
          ∧ GraphOps.isAcyclic (graph g) = true)
  ∧ (∀ i t d (nodes : list (GraphNode A)) (k : nat),
     ∃ g, addNodes (singleton i t d) (take k nodes) = Ok g
          ∧ GraphOps.isAcyclic (graph g) = true).
Proof.
  split.
  - intros nodes k.
    destruct (addNodes_wf empty (take k nodes) wf_empty) as (g & Hg & Hwf).
    exists g. split; [done|]. by apply wf_isAcyclic.
  - intros i t d nodes k.
    destruct (addNodes_wf (singleton i t d) (take k nodes) (wf_singleton i t d))
      as (g & Hg & Hwf).
    exists g. split; [done|]. by apply wf_isAcyclic.
Qed.
End Sequences.
End Acyclicity.

Module Functor.
Import EffectGraph Invariant.

Lemma bind_Ok {A B} (a : A) (k : A → Result B) : (Ok a ≫= k) = k a.
Proof. done. Qed.

Lemma foldl_Err {A X} (step : Result A → X → Result A) (xs : list X) e :
  (∀ x, step (Err e) x = Err e) → foldl step (Err e) xs = Err e.
Proof. intros Hstep. induction xs as [|x xs IH]; simpl; [done|]. by rewrite Hstep. Qed.

Lemma keys_values_eq {V} (m1 m2 : JsMap.t V) :
  JsMap.keys m1 = JsMap.keys m2 → JsMap.values m1 = JsMap.values m2 → m1 = m2.
Proof.
  unfold JsMap.keys, JsMap.values. revert m2.
  induction m1 as [|[k v] m1 IH]; intros [|[k' v'] m2]; simpl; try done.
  intros [= -> Hk] [= -> Hv]. f_equal. by apply IH.
Qed.

Lemma get_elem {V} (m : JsMap.t V) k v :
  NoDup (JsMap.keys m) → (k, v) ∈ m → JsMap.get m k = Some v.
Proof.
  unfold JsMap.keys. induction m as [|[k' v'] m IH]; simpl; intros Hnd Hin.
  - by apply not_elem_of_nil in Hin.
  - apply NoDup_cons in Hnd as [Hk' Hnd].
    apply elem_of_cons in Hin as [[= <- <-]|Hin].
    + by rewrite Nat.eqb_refl.
    + destruct (Nat.eqb k' k) eqn:E; [|by apply IH].
      apply Nat.eqb_eq in E. subst. exfalso. apply Hk'.
      apply list_elem_of_fmap. by exists (k, v).
Qed.

Section Nodes.
Context {A : Type}.
Implicit Types (l : JsMap.t (GraphNode A)).

(** Where the first loop of [map] puts the nodes: at the positions they
    have in the store. *)
Definition newIds l : list (NodeId * nat) := imap (λ i entry, (id entry.2, i)) l.
Definition newIndices l : list (nat * nat) := imap (λ i entry, (entry.1, i)) l.

Definition nodeMapOf l : gmap NodeId nat :=
  foldl (λ m p, <[ p.1 := p.2 ]> m) ∅ (newIds l).
Definition indexMapOf l : gmap nat nat :=
  foldl (λ m p, <[ p.1 := p.2 ]> m) ∅ (newIndices l).

Definition emptyLists (n : nat) : JsMap.t (list nat) := (λ i, (i, [])) <$> seq 0 n.

Lemma nodeMapOf_snoc l entry :
  nodeMapOf (l ++ [entry]) = <[ id entry.2 := length l ]> (nodeMapOf l).
Proof.
  unfold nodeMapOf, newIds. rewrite imap_app, foldl_app. simpl.
  by rewrite Nat.add_0_r.
Qed.

Lemma indexMapOf_snoc l entry :
  indexMapOf (l ++ [entry]) = <[ entry.1 := length l ]> (indexMapOf l).
Proof.
  unfold indexMapOf, newIndices. rewrite imap_app, foldl_app. simpl.
  by rewrite Nat.add_0_r.
Qed.

Lemma indexMapOf_lt l k v : indexMapOf l !! k = Some v → (v < length l)%nat.
Proof.
  revert k v. induction l as [|entry l IH] using rev_ind; intros k v.
  - unfold indexMapOf. simpl. by rewrite lookup_empty.
  - rewrite indexMapOf_snoc, length_app. simpl.
    destruct (decide (entry.1 = k)) as [->|Hne].
    + rewrite lookup_insert_eq. intros [= <-]. lia.
    + rewrite lookup_insert_ne by done. intros Hv%IH. lia.
Qed.

Lemma keys_snoc_seq {V} (m : JsMap.t V) entry n :
  JsMap.keys (m ++ [entry]) = seq 0 n →
  n = S (length m) ∧ JsMap.keys m = seq 0 (length m) ∧ entry.1 = length m.
Proof.
  unfold JsMap.keys. rewrite fmap_app. simpl. intros Heq.
  assert (n = S (length m)) as ->.
  { apply (f_equal length) in Heq.
    rewrite length_app, length_fmap, length_seq in Heq. simpl in Heq. lia. }
  rewrite seq_S in Heq. simpl in Heq.
  apply app_inj_tail in Heq as [? ?]. done.
Qed.

(** In a store with dense keys every node stays where it is. *)
Lemma indexMapOf_dense l k :
  JsMap.keys l = seq 0 (length l) →
  indexMapOf l !! k = if decide (k < length l)%nat then Some k else None.
Proof.
  revert k. induction l as [|entry l IH] using rev_ind; intros k Hkeys.
  - unfold indexMapOf. simpl. by rewrite lookup_empty.
  - apply keys_snoc_seq in Hkeys as (_ & Hkeys & Hentry).
    rewrite indexMapOf_snoc, length_app, Hentry. simpl.
    destruct (decide (length l = k)) as [<-|Hne].
    + rewrite lookup_insert_eq. case_decide; [done|lia].
    + rewrite lookup_insert_ne by done. rewrite IH by done.
      repeat case_decide; try done; lia.
Qed.
End Nodes.

Section MapNodes.
Context {A B : Type}.
Implicit Types (f : A → B) (l : JsMap.t (GraphNode A)).

Definition denseNodes f l : JsMap.t (GraphNode B) :=
  imap (λ i entry, (i, mapNode f entry.2)) l.

Lemma denseNodes_keys f l : JsMap.keys (denseNodes f l) = seq 0 (length l).
Proof.
  unfold JsMap.keys, denseNodes.
  induction l as [|entry l IH] using rev_ind; [done|].
  rewrite imap_app, fmap_app, IH, length_app, Nat.add_1_r, seq_S. simpl.
  by rewrite Nat.add_0_r.
Qed.

Lemma denseNodes_length f l : length (denseNodes f l) = length l.
Proof. unfold denseNodes. apply length_imap. Qed.

Lemma emptyLists_keys n : JsMap.keys (emptyLists n) = seq 0 n.
Proof.
  unfold JsMap.keys, emptyLists. rewrite <-list_fmap_compose.
  apply list_fmap_id.
Qed.

Lemma emptyLists_S n :
  JsMap.set (emptyLists n) n [] = emptyLists (S n).
Proof.
  rewrite JsMap.set_fresh.
  - unfold emptyLists. by rewrite seq_S, fmap_app.
  - eapply JsMap.get_ge_None; [apply emptyLists_keys|lia].
Qed.

(** The store the first loop of [map] leaves. *)
Definition mappedStore f l : Graph.t (GraphNode B) GraphEdge :=
  Graph.mk (denseNodes f l) [] (emptyLists (length l)) (emptyLists (length l))
           (length l) 0 (Some true).

Lemma mapNodes_spec f l :
  mapNodes f l = (mappedStore f l, nodeMapOf l, indexMapOf l).
Proof.
  induction l as [|entry l IH] using rev_ind; [done|].
  unfold mapNodes in *. rewrite foldl_app, IH. simpl.
  destruct entry as [oldIdx node]. simpl.
  rewrite nodeMapOf_snoc, indexMapOf_snoc. simpl.
  do 2 f_equal. unfold mappedStore.
  rewrite !emptyLists_S, length_app, Nat.add_1_r. simpl. f_equal.
  rewrite JsMap.set_fresh.
  - unfold denseNodes. rewrite imap_app. simpl. by rewrite Nat.add_0_r.
  - eapply JsMap.get_ge_None; [apply denseNodes_keys|lia].
Qed.

Lemma mappedStore_has f l v :
  (v < length l)%nat → JsMap.has (Graph.nodes (mappedStore f l)) v = true.
Proof.
  intros Hv. unfold JsMap.has. simpl.
  destruct (JsMap.get (denseNodes f l) v) eqn:Hg; [done|].
  apply JsMap.get_None_keys in Hg. rewrite denseNodes_keys in Hg.
  exfalso. apply Hg. apply list_elem_of_In, in_seq. lia.
Qed.
End MapNodes.

Section Compose.
Context {A B C : Type}.
Implicit Types (f : A → B) (h : B → C) (l : JsMap.t (GraphNode A)).

Lemma denseNodes_compose f h l :
  denseNodes h (denseNodes f l) = denseNodes (h ∘ f) l.
Proof.
  unfold denseNodes. induction l as [|entry l IH] using rev_ind; [done|].
  rewrite !imap_app, IH, length_imap. done.
Qed.

Lemma nodeMapOf_denseNodes f l : nodeMapOf (denseNodes f l) = nodeMapOf l.
Proof.
  induction l as [|entry l IH] using rev_ind; [done|].
  unfold denseNodes in *. rewrite imap_app. simpl.
  rewrite !nodeMapOf_snoc, IH, length_imap. done.
Qed.
End Compose.

Section Edges.
Implicit Types (im : gmap nat nat) (E : JsMap.t (Graph.Edge GraphEdge)).
Implicit Types (P : list (nat * nat)).

(** The ends of the edges under their new indices, or the first end
    that has none. *)
Fixpoint relabel im E : Result (list (nat * nat)) :=
  match E with
  | [] => Ok []
  | entry :: rest =>
      match im !! Graph.source entry.2 with
      | None => Err (MissingNode (Graph.source entry.2))
      | Some s =>
          match im !! Graph.target entry.2 with
          | None => Err (MissingNode (Graph.target entry.2))
          | Some t => ps ← relabel im rest; Ok ((s, t) :: ps)
          end
      end
  end.

Definition edgesOf P : list (Graph.Edge GraphEdge) :=
  (λ p, Graph.mkEdge p.1 p.2 child) <$> P.

Definition endpoints E : list (nat * nat) :=
  (λ entry, (Graph.source entry.2, Graph.target entry.2)) <$> E.

Lemma edgesOf_endpoints E : edgesOf (endpoints E) = JsMap.values E.
Proof.
  unfold edgesOf, endpoints, JsMap.values. rewrite <-list_fmap_compose.
  apply list_fmap_ext. intros _ [k [s t []]] _. done.
Qed.

Lemma relabel_values im E P s t :
  relabel im E = Ok P → (s, t) ∈ P →
  (∃ k, im !! k = Some s) ∧ (∃ k, im !! k = Some t).
Proof.
  revert P. induction E as [|entry E IH]; intros P; simpl.
  - intros [= <-] []%not_elem_of_nil.
  - destruct (im !! Graph.source entry.2) as [s'|] eqn:Hs; [|done].
    destruct (im !! Graph.target entry.2) as [t'|] eqn:Ht; [|done].
    destruct (relabel im E) as [ps|] eqn:Hps; [|done]. simpl.
    intros [= <-] [[= -> ->]|Hin]%elem_of_cons; [by eauto|].
    by eapply IH.
Qed.

Lemma relabel_fixed im E P :
  (∀ s t, (s, t) ∈ P → im !! s = Some s ∧ im !! t = Some t) →
  JsMap.values E = edgesOf P →
  relabel im E = Ok P.
Proof.
  revert P. induction E as [|entry E IH]; intros [|[s t] P] Him; simpl; try done.
  intros [= Hentry HE]. rewrite Hentry. simpl.
  destruct (Him s t) as [-> ->]; [left|].
  rewrite (IH P); [done| |done].
  intros s' t' Hin. apply Him. by right.
Qed.
End Edges.

Section AddEdges.
Context {B : Type}.
Implicit Types (G : Graph.t (GraphNode B) GraphEdge) (im : gmap nat nat).
Implicit Types (E : JsMap.t (Graph.Edge GraphEdge)) (P : list (nat * nat)).

Definition addEdgeStep (acc : Result (Graph.t (GraphNode B) GraphEdge))
    (p : nat * nat) : Result (Graph.t (GraphNode B) GraphEdge) :=
  m ← acc; fst <$> Graph.addEdge m p.1 p.2 child.

Definition addEdges G P : Result (Graph.t (GraphNode B) GraphEdge) :=
  foldl addEdgeStep (Ok G) P.

Lemma addEdge_Ok G s t :
  JsMap.has (Graph.nodes G) s = true → JsMap.has (Graph.nodes G) t = true →
  Graph.addEdge G s t child
  = Ok (Graph.mk (Graph.nodes G)
          (JsMap.set (Graph.edges G) (Graph.nextEdgeIndex G) (Graph.mkEdge s t child))
          (Graph.push (Graph.adjacency G) s (Graph.nextEdgeIndex G))
          (Graph.push (Graph.reverseAdjacency G) t (Graph.nextEdgeIndex G))
          (Graph.nextNodeIndex G) (S (Graph.nextEdgeIndex G))
          (Graph.invalidateCycleFlagOnAddition (Graph.acyclicCache G)),
        Graph.nextEdgeIndex G).
Proof. intros Hs Ht. unfold Graph.addEdge. by rewrite Hs, Ht. Qed.

Lemma mapEdges_relabel im E G :
  (∀ k v, im !! k = Some v → JsMap.has (Graph.nodes G) v = true) →
  mapEdges im E G = (P ← relabel im E; addEdges G P).
Proof.
  revert G. induction E as [|entry E IH]; intros G Him; [done|].
  unfold mapEdges. simpl.
  destruct (im !! Graph.source entry.2) as [s|] eqn:Hs;
    [|by apply foldl_Err].
  destruct (im !! Graph.target entry.2) as [t|] eqn:Ht;
    [|by apply foldl_Err].
  rewrite addEdge_Ok by eauto. simpl.
  fold (mapEdges im E
    (Graph.mk (Graph.nodes G)
       (JsMap.set (Graph.edges G) (Graph.nextEdgeIndex G) (Graph.mkEdge s t child))
       (Graph.push (Graph.adjacency G) s (Graph.nextEdgeIndex G))
       (Graph.push (Graph.reverseAdjacency G) t (Graph.nextEdgeIndex G))
       (Graph.nextNodeIndex G) (S (Graph.nextEdgeIndex G))
       (Graph.invalidateCycleFlagOnAddition (Graph.acyclicCache G)))).
  rewrite IH by done.
  destruct (relabel im E) as [ps|e]; [|done]. simpl.
  unfold addEdges. simpl.
  by rewrite addEdge_Ok by eauto.
Qed.

Lemma addEdges_Ok G P :
  (∀ s t, (s, t) ∈ P →
     JsMap.has (Graph.nodes G) s = true ∧ JsMap.has (Graph.nodes G) t = true) →
  ∃ G1, addEdges G P = Ok G1.
Proof.
  revert G. induction P as [|[s t] P IH]; intros G HP; [by eexists|].
  unfold addEdges. simpl.
  destruct (HP s t) as [Hs Ht]; [left|].
  rewrite addEdge_Ok by done. simpl. apply IH.
  intros s' t' Hin. simpl. apply HP. by right.
Qed.

Lemma addEdges_spec G P G1 :
  JsMap.keys (Graph.edges G) = seq 0 (Graph.nextEdgeIndex G) →
  (∀ s t, (s, t) ∈ P →
     JsMap.has (Graph.nodes G) s = true ∧ JsMap.has (Graph.nodes G) t = true) →
  addEdges G P = Ok G1 →
  Graph.nodes G1 = Graph.nodes G
  ∧ JsMap.values (Graph.edges G1) = JsMap.values (Graph.edges G) ++ edgesOf P
  ∧ JsMap.keys (Graph.edges G1)
    = seq 0 (Graph.nextEdgeIndex G + length P).
Proof.
  revert G. induction P as [|[s t] P IH]; intros G Hkeys HP.
  - intros [= <-]. by rewrite app_nil_r, Nat.add_0_r.
  - unfold addEdges. simpl.
    destruct (HP s t) as [Hs Ht]; [left|].
    rewrite addEdge_Ok by done. simpl. intros HG1.
    assert (JsMap.get (Graph.edges G) (Graph.nextEdgeIndex G) = None) as Hfresh
      by (eapply JsMap.get_ge_None; [exact Hkeys|lia]).
    apply IH in HG1 as (Hn & Hv & Hk); simpl.
    + rewrite Hn, Hv, Hk. simpl. rewrite JsMap.set_fresh by done.
      unfold JsMap.values. rewrite fmap_app, <-app_assoc. simpl.
      split_and!; [done|done|].
      by rewrite <-Nat.add_succ_comm.
    + rewrite JsMap.set_fresh by done.
      change (JsMap.keys (Graph.edges G
                ++ [(Graph.nextEdgeIndex G, Graph.mkEdge s t child)])
              = seq 0 (S (Graph.nextEdgeIndex G))).
      unfold JsMap.keys in *. rewrite fmap_app, Hkeys, seq_S. done.
    + intros s' t' Hin. apply HP. by right.
Qed.
End AddEdges.

Definition swapped (nodeMap : gmap NodeId nat) : gmap nat NodeId :=
  list_to_map ((λ '(i, idx), (idx, i)) <$> map_to_list nodeMap).

(** [map] in one piece: relabel the edges, then add them to the store
    of mapped nodes. *)
Lemma map_spec {A B} (g : EffectGraph A) (f : A → B) :
  map g f
  = (P ← relabel (indexMapOf (Graph.nodes (graph g))) (Graph.edges (graph g));
     newGraph ← addEdges (mappedStore f (Graph.nodes (graph g))) P;
     Ok (mkEffectGraph newGraph (nodeMapOf (Graph.nodes (graph g)))
           (swapped (nodeMapOf (Graph.nodes (graph g)))))).
Proof.
  unfold map. rewrite mapNodes_spec. rewrite mapEdges_relabel.
  - by destruct (relabel _ _).
  - intros k v Hv%indexMapOf_lt. by apply mappedStore_has.
Qed.

Lemma relabelled_stored {A B} (f : A → B) (l : JsMap.t (GraphNode A)) E P s t :
  relabel (indexMapOf l) E = Ok P → (s, t) ∈ P →
  JsMap.has (Graph.nodes (mappedStore f l)) s = true
  ∧ JsMap.has (Graph.nodes (mappedStore f l)) t = true.
Proof.
  intros HP Hin.
  destruct (relabel_values _ _ _ _ _ HP Hin) as [[k Hk] [k' Hk']].
  split; apply mappedStore_has; by eapply indexMapOf_lt.
Qed.

Lemma denseNodes_id {A} (l : JsMap.t (GraphNode A)) :
  JsMap.keys l = seq 0 (length l) → denseNodes (λ x, x) l = l.
Proof.
  induction l as [|entry l IH] using rev_ind; intros Hkeys; [done|].
  apply keys_snoc_seq in Hkeys as (_ & Hkeys & Hentry).
  unfold denseNodes in *. rewrite imap_app, IH by done. simpl.
  destruct entry as [k [i d p m]]. simpl in *. subst k.
  by rewrite Nat.add_0_r.
Qed.

Lemma keys_length {V} (m : JsMap.t V) n : JsMap.keys m = seq 0 n → length m = n.
Proof.
  intros Hk. apply (f_equal length) in Hk.
  unfold JsMap.keys in Hk. by rewrite length_fmap, length_seq in Hk.
Qed.

Lemma denseNodes_values {A B} (f : A → B) (l : JsMap.t (GraphNode A)) :
  JsMap.values (denseNodes f l) = mapNode f <$> JsMap.values l.
Proof.
  unfold JsMap.values, denseNodes.
  induction l as [|entry l IH] using rev_ind; [done|].
  by rewrite imap_app, !fmap_app, IH.
Qed.

Lemma mapNode_id {A} (n : GraphNode A) : mapNode (λ x, x) n = n.
Proof. by destruct n. Qed.

(** Whatever [map] returns holds the stored nodes in the same order,
    each with its data mapped and the rest as it was. *)
Lemma map_toArray {A B} (g : EffectGraph A) (f : A → B) g' :
  map g f = Ok g' → toArray g' = mapNode f <$> toArray g.
Proof.
  rewrite map_spec.
  destruct (relabel _ _) as [P|e] eqn:HP; [|done]. rewrite bind_Ok.
  destruct (addEdges _ P) as [G1|e] eqn:HG1; [|done]. rewrite bind_Ok.
  intros [= <-]. unfold toArray. simpl.
  apply addEdges_spec in HG1 as (Hn & _ & _); [| done |].
  - rewrite Hn. apply denseNodes_values.
  - intros s t. by eapply relabelled_stored.
Qed.

(** With the identity, whatever [map] returns holds the same nodes. *)
Lemma map_id_toArray {A} (g g' : EffectGraph A) :
  map g (λ x, x) = Ok g' → toArray g' = toArray g.
Proof.
  intros Hg'. rewrite (map_toArray g _ g' Hg').
  rewrite <-(list_fmap_id (toArray g)) at 2.
  apply list_fmap_ext. intros _ n _. apply mapNode_id.
Qed.

(** In a graph of the shape [addNode] produces every end of an edge
    keeps its index. *)
Lemma relabel_wf {A} (g : EffectGraph A) :
  wf g →
  relabel (indexMapOf (Graph.nodes (graph g))) (Graph.edges (graph g))
  = Ok (endpoints (Graph.edges (graph g))).
Proof.
  intros Hwf. pose proof (keys_length _ _ (wf_keys g Hwf)) as Hlen.
  apply relabel_fixed; [|by rewrite edgesOf_endpoints].
  intros s t Hin. unfold endpoints in Hin.
  apply list_elem_of_fmap in Hin as ([e edge] & [= -> ->] & Hin). simpl.
  assert (Graph.getEdge (graph g) e = Some edge) as Hedge.
  { apply get_elem; [|done]. rewrite (wf_edge_keys g Hwf). apply NoDup_seq. }
  apply (wf_edges g Hwf) in Hedge as (_ & Hst & Ht).
  rewrite !indexMapOf_dense by (by rewrite Hlen; apply (wf_keys g Hwf)).
  rewrite Hlen. by rewrite !decide_True by lia.
Qed.

(** On such a graph [map] with the identity returns, with the nodes
    under the same indices and with the same edges. *)
Lemma map_id_wf {A} (g : EffectGraph A) :
  wf g →
  ∃ g', map g (λ x, x) = Ok g'
        ∧ Graph.nodes (graph g') = Graph.nodes (graph g)
        ∧ Graph.edges (graph g') = Graph.edges (graph g).
Proof.
  intros Hwf.
  pose proof (keys_length _ _ (wf_keys g Hwf)) as Hlen.
  pose proof (keys_length _ _ (wf_edge_keys g Hwf)) as Helen.
  rewrite map_spec, (relabel_wf g Hwf). simpl.
  destruct (addEdges_Ok (mappedStore (λ x, x) (Graph.nodes (graph g)))
              (endpoints (Graph.edges (graph g)))) as [G1 HG1].
  { intros s t. eapply relabelled_stored. by apply relabel_wf. }
  rewrite HG1. simpl. eexists. split; [done|]. simpl.
  apply addEdges_spec in HG1 as (Hn & Hv & Hk); simpl; [|done|].
  + simpl in *. split.
    * rewrite Hn. apply denseNodes_id. rewrite Hlen. apply (wf_keys g Hwf).
    * apply keys_values_eq.
      -- rewrite Hk, (wf_edge_keys g Hwf). unfold endpoints.
         by rewrite length_fmap, Helen.
      -- by rewrite Hv, edgesOf_endpoints.
  + intros s t. eapply relabelled_stored. by apply relabel_wf.
Qed.

(** Mapping with [f] and then with [h] is mapping with their
    composition, errors included. *)
Lemma map_compose {A B C} (g : EffectGraph A) (f : A → B) (h : B → C) :
  (g1 ← map g f; map g1 h) = map g (h ∘ f).
Proof.
  rewrite (map_spec g f), (map_spec g (h ∘ f)).
  destruct (relabel _ _) as [P|e] eqn:HP; [|done].
  rewrite !bind_Ok.
  destruct (addEdges_Ok (mappedStore f (Graph.nodes (graph g))) P) as [G1 HG1].
  { intros s t. by eapply relabelled_stored. }
  rewrite HG1, !bind_Ok, map_spec. simpl.
  apply addEdges_spec in HG1 as (Hn & Hv & Hk); simpl; [|done|].
  2:{ intros s t. by eapply relabelled_stored. }
  simpl in *. rewrite Hn.
  assert (relabel (indexMapOf (denseNodes f (Graph.nodes (graph g))))
            (Graph.edges G1) = Ok P) as ->.
  { apply relabel_fixed; [|done].
    intros s t Hin.
    destruct (relabel_values _ _ _ _ _ HP Hin) as [[k Hs] [k' Ht]].
    apply indexMapOf_lt in Hs, Ht.
    rewrite !indexMapOf_dense
      by (by rewrite denseNodes_length; apply denseNodes_keys).
    rewrite denseNodes_length. by rewrite !decide_True by done. }
  simpl. rewrite nodeMapOf_denseNodes.
  assert (mappedStore h (denseNodes f (Graph.nodes (graph g)))
          = mappedStore (h ∘ f) (Graph.nodes (graph g))) as ->; [|done].
  unfold mappedStore. by rewrite denseNodes_compose, denseNodes_length.
Qed.
End Functor.

Module Depth.
Import EffectGraph Invariant Acyclicity Functor.

Section Built.
Context {A : Type}.
Implicit Types (g : EffectGraph A) (node : GraphNode A).

(** The graphs of the construction API: [empty], [singleton], and
    [addNode] of a node made by [makeNode] whose parent id, when given,
    names a node of the graph. *)
Inductive built : EffectGraph A → Prop :=
  | built_empty : built empty
  | built_singleton i t d : built (singleton i t d)
  | built_addNode g g' i t d p op :
      built g →
      (∀ q, p = Some q → is_Some (getNode g q)) →
      addNode g (makeNode i t d p op) = Ok g' →
      built g'.

Definition depthInvariant g : Prop :=
  ∀ k n, Graph.getNode (graph g) k = Some n →
    0 ≤ depth (metadata n)
    ∧ (depth (metadata n) = 0 ↔ parentId n = None)
    ∧ (∀ p, parentId n = Some p →
         ∃ pn, getNode g p = Some pn
               ∧ depth (metadata n) = depth (metadata pn) + 1).

Lemma added_getNode_old g node g' k n :
  added g node g' →
  Graph.getNode (graph g) k = Some n → Graph.getNode (graph g') k = Some n.
Proof.
  intros Hadd Hk. unfold Graph.getNode in *.
  rewrite (added_nodes _ _ _ Hadd), JsMap.get_app, Hk. done.
Qed.

Lemma added_getNode_new g node g' :
  wf g → added g node g' →
  Graph.getNode (graph g') (Graph.nextNodeIndex (graph g))
  = Some (updatedNode g node).
Proof.
  intros Hwf Hadd. unfold Graph.getNode.
  rewrite (added_nodes _ _ _ Hadd), JsMap.get_app, (wf_fresh g Hwf). simpl.
  by rewrite Nat.eqb_refl.
Qed.

Lemma added_getNode_inv g node g' k n :
  wf g → added g node g' →
  Graph.getNode (graph g') k = Some n →
  Graph.getNode (graph g) k = Some n
  ∨ (k = Graph.nextNodeIndex (graph g) ∧ n = updatedNode g node).
Proof.
  intros Hwf Hadd. unfold Graph.getNode.
  rewrite (added_nodes _ _ _ Hadd), JsMap.get_app.
  destruct (JsMap.get (Graph.nodes (graph g)) k) eqn:Hk; [by left|].
  simpl. destruct (Nat.eqb _ k) eqn:E; [|done].
  apply Nat.eqb_eq in E. intros [= <-]. by right.
Qed.

(** A node found through its id is found again, the same, after any
    [addNode]. *)
Lemma added_lookup_stable g node g' p pn :
  added g node g' → getNode g p = Some pn → getNode g' p = Some pn.
Proof.
  intros Hadd. unfold getNode.
  destruct (nodeIdToIndex g !! p) as [k|] eqn:Hk; [|done]. simpl.
  rewrite (added_index _ _ _ Hadd) by (by rewrite Hk; eexists).
  rewrite Hk. simpl. by eapply added_getNode_old.
Qed.

Lemma built_wf g : built g → wf g.
Proof.
  induction 1 as [|i t d|g g' i t d p op _ IH _ Hadd].
  - apply wf_empty.
  - apply wf_singleton.
  - destruct (addNode_wf g (makeNode i t d p op) IH) as (g2 & Hg2 & Hwf2 & _).
    congruence.
Qed.

Lemma depthInvariant_addNode g g' i t d p op :
  wf g → depthInvariant g →
  (∀ q, p = Some q → is_Some (getNode g q)) →
  addNode g (makeNode i t d p op) = Ok g' →
  depthInvariant g'.
Proof.
  intros Hwf Hinv Hpar Hg'.
  destruct (addNode_wf g (makeNode i t d p op) Hwf) as (g2 & Hg2 & _ & Hadd).
  assert (g2 = g') as -> by congruence.
  intros k n Hk.
  destruct (added_getNode_inv _ _ _ _ _ Hwf Hadd Hk) as [Hold|[-> ->]].
  - destruct (Hinv k n Hold) as (H0 & Hiff & Hp).
    split_and!; [done|done|].
    intros q Hq. destruct (Hp q Hq) as (pn & Hpn & Hd).
    exists pn. split; [|done]. by eapply added_lookup_stable.
  - unfold updatedNode, makeNode. simpl. destruct p as [q|]; simpl.
    + destruct (Hpar q eq_refl) as [pn Hpn]. rewrite Hpn.
      assert (0 ≤ depth (metadata pn)) as Hpos.
      { unfold getNode in Hpn. destruct (nodeIdToIndex g !! q); [|done].
        simpl in Hpn. by apply Hinv in Hpn as [? _]. }
      simpl. split_and!; [lia| split; [lia|done] |].
      intros ? [= <-]. exists pn. split; [|done].
      by eapply added_lookup_stable.
    + split_and!; [lia|done|done].
Qed.

Lemma built_depthInvariant g : built g → depthInvariant g.
Proof.
  induction 1 as [|i t d|g g' i t d p op Hb IH Hpar Hadd].
  - intros k n Hk. done.
  - intros k n. unfold Graph.getNode. simpl.
    destruct k; [|done]. intros [= <-]. simpl.
    split_and!; [lia|done|done].
  - eapply depthInvariant_addNode; eauto using built_wf.
Qed.

(** C4: in a graph built from [empty] or [singleton] by [addNode] calls
    whose parent id, when present, names a node of the graph, every
    stored node has depth 0 exactly when it has no parent id, and
    otherwise the depth of its parent plus 1; a later [addNode], of any
    node, leaves every stored node, depth included, as it was; and
    [map] returns the nodes in the same order with the same depths. *)
Theorem depth_invariant g :
  built g →
  (∀ k n, Graph.getNode (graph g) k = Some n →
     (depth (metadata n) = 0 ↔ parentId n = None)
     ∧ (∀ p, parentId n = Some p →
          ∃ pn, getNode g p = Some pn
                ∧ depth (metadata n) = depth (metadata pn) + 1))
  ∧ (∀ node g', addNode g node = Ok g' →
       ∀ k n, Graph.getNode (graph g) k = Some n →
              Graph.getNode (graph g') k = Some n)
  ∧ (∀ {B} (f : A → B) (g' : EffectGraph B), map g f = Ok g' →
       (λ n, depth (metadata n)) <$> toArray g'
       = (λ n, depth (metadata n)) <$> toArray g).
Proof.
  intros Hb. split_and!.
  - intros k n Hk. by destruct (built_depthInvariant g Hb k n Hk) as (_ & ? & ?).
  - intros node g' Hg' k n Hk.
    destruct (addNode_wf g node (built_wf g Hb)) as (g2 & Hg2 & _ & Hadd).
    assert (g2 = g') as -> by congruence.
    by eapply added_getNode_old.
  - intros B f g' Hg'. rewrite (map_toArray g f g' Hg').
    by rewrite <-list_fmap_compose.
Qed.
End Built.
End Depth.

Module Cycles.
Import EffectGraph Invariant Acyclicity.

Section Descendants.
Context {A : Type}.
Implicit Types (g : EffectGraph A) (node : GraphNode A).

(** [descendant g a b]: from the id [a], following [getChildren] one or
    more times, one reaches a node of id [b]. *)
Inductive descendant g : NodeId → NodeId → Prop :=
  | descendant_child a c :
      c ∈ getChildren g a → descendant g a (id c)
  | descendant_step a c b :
      c ∈ getChildren g a → descendant g (id c) b → descendant g a b.

(** The edge from the node's parent to the node would close a cycle:
    the parent is stored and is the node itself or one of the
    descendants of the node's id. *)
Definition closesCycle g node : Prop :=
  ∃ p, parentId node = Some p ∧ is_Some (getNode g p)
       ∧ (p = id node ∨ descendant g (id node) p).

(** C1, as amended: [addNode] has no cycle check.  On every graph of
    the shape the construction API produces it succeeds for every node,
    stores exactly one more node, at the next index, and, when the parent
    id is known to the graph, exactly one more edge, from the parent's
    index to the new one; the new node has no outgoing edge, so
    [isAcyclic] stays true of the returned graph. *)
Theorem addNode_never_rejects g node :
  wf g →
  ∃ g', addNode g node = Ok g'
    ∧ Graph.nodes (graph g')
      = Graph.nodes (graph g)
        ++ [(Graph.nextNodeIndex (graph g), updatedNode g node)]
    ∧ Graph.edges (graph g') = Graph.edges (graph g) ++ newEdges g node
    ∧ GraphOps.isAcyclic (graph g') = true.
Proof.
  intros Hwf. destruct (addNode_wf g node Hwf) as (g' & Hg' & Hwf' & Hadd).
  exists g'. split_and!; [done|apply Hadd|apply Hadd|by apply wf_isAcyclic].
Qed.
End Descendants.

(** Root A and its child B, built through the API alone. *)
Definition rootA : GraphNode string := makeNode "A" 0 "a document" None None.
Definition childB : GraphNode string :=
  makeNode "B" 1 "a sentence" (Some "A") (Some "sentencize").

Definition graphAB : EffectGraph string :=
  match addNodes empty [rootA; childB] with
  | Ok g => g
  | Err _ => empty
  end.

(** A node that claims the id of A and names B as its parent. *)
Definition backToA : GraphNode string :=
  mkNode "A" "a token" (Some "B") (mkMetadata (Some "tokenize") 2 1).

Lemma graphAB_built : addNodes empty [rootA; childB] = Ok graphAB.
Proof. reflexivity. Qed.

Lemma graphAB_wf : wf graphAB.
Proof.
  destruct (addNodes_wf empty [rootA; childB] wf_empty) as (g & Hg & Hwf).
  rewrite graphAB_built in Hg. by injection Hg as <-.
Defined.

(** C1, counterexample: B is a child of A; a node with the id of A and
    the parent B closes the cycle A, B, A.  [addNode] returns a graph
    with one more node and one more edge, in which B is a child of A and
    A a child of B. *)
Lemma addNode_accepts_cycle :
  closesCycle graphAB backToA
  ∧ ∃ g', addNode graphAB backToA = Ok g'
      ∧ size graphAB = 2%nat ∧ size g' = 3%nat
      ∧ Graph.edgeCount (graph graphAB) = 1%nat
      ∧ Graph.edgeCount (graph g') = 2%nat
      ∧ id <$> getChildren g' "A" = ["B"]
      ∧ id <$> getChildren g' "B" = ["A"].
Proof.
  split.
  - exists "B". split_and!; [done|by eexists|].
    right. apply (descendant_child graphAB "A" (updatedNode empty childB)).
    vm_compute. left.
  - eexists. split; [reflexivity|]. by vm_compute.
Qed.

(** C1, witness: the amended statement at the graph of A and B. *)
Lemma addNode_never_rejects_witness :
  ∃ g', addNode graphAB backToA = Ok g'
    ∧ Graph.nodes (graph g')
      = Graph.nodes (graph graphAB)
        ++ [(Graph.nextNodeIndex (graph graphAB), updatedNode graphAB backToA)]
    ∧ Graph.edges (graph g')
      = Graph.edges (graph graphAB) ++ newEdges graphAB backToA
    ∧ GraphOps.isAcyclic (graph g') = true.
Proof. apply (addNode_never_rejects graphAB backToA graphAB_wf). Defined.
End Cycles.

Module Fold.
Import EffectGraph Cycles.

Section Fold.
Context {A B : Type}.
Implicit Types (g : EffectGraph A) (algebra : GraphNode A → list B → B).
Implicit Types (s : FoldState (A:=A) (B:=B)) (height : NodeId → nat).

(** [height] decreases along every child step: a certificate that the
    child relation over ids has no cycle.  Only ids known to the id map
    have children. *)
Definition acyclicBy g height : bool :=
  forallb (λ '(a, _),
             forallb (λ c, Nat.ltb (height (id c)) (height a))
                     (getChildren g a))
          (map_to_list (nodeIdToIndex g)).

(** Every root and every child the fold can meet is found by [getNode]
    under its own id. *)
Definition resolvable g : bool :=
  forallb (λ r, bool_decide (is_Some (getNode g (id r)))) (getRoots g)
  && forallb (λ '(a, _),
                forallb (λ c, bool_decide (is_Some (getNode g (id c))))
                        (getChildren g a))
             (map_to_list (nodeIdToIndex g)).

(** Every stored node is the one its id leads to: no id is repeated in
    the store and the id map knows every node. *)
Definition indexed g : Prop :=
  ∀ k n, Graph.getNode (graph g) k = Some n → nodeIdToIndex g !! id n = Some k.

(** The ids the fold can meet: those of the roots and their descendants. *)
Definition reachable g (x : NodeId) : Prop :=
  ∃ r, r ∈ getRoots g ∧ (x = id r ∨ descendant g (id r) x).

(** The same over nodes: [below g p n] when [n] is returned by
    [getChildren] for [p] or for a node below [p]. *)
Inductive below g : GraphNode A → GraphNode A → Prop :=
  | below_child p c :
      c ∈ getChildren g (id p) → below g p c
  | below_step p c n :
      c ∈ getChildren g (id p) → below g c n → below g p n.

Definition reachableNode g (n : GraphNode A) : Prop :=
  ∃ r, r ∈ getRoots g ∧ (n = r ∨ below g r n).

Lemma getChildren_known g a c :
  c ∈ getChildren g a → ∃ k, (a, k) ∈ map_to_list (nodeIdToIndex g).
Proof.
  unfold getChildren. destruct (nodeIdToIndex g !! a) as [k|] eqn:Hk.
  - intros _. exists k. by apply elem_of_map_to_list.
  - by intros ?%not_elem_of_nil.
Qed.

Lemma getChildren_stored g a c :
  c ∈ getChildren g a →
  ∃ k nb, nodeIdToIndex g !! a = Some k
          ∧ nb ∈ Graph.neighbors (graph g) k
          ∧ Graph.getNode (graph g) nb = Some c.
Proof.
  unfold getChildren. destruct (nodeIdToIndex g !! a) as [k|]; [|by intros ?%not_elem_of_nil].
  rewrite list_elem_of_omap. intros (nb & Hnb & Hc). by exists k, nb.
Qed.

Lemma getRoots_stored g r :
  r ∈ getRoots g → ∃ k, Graph.getNode (graph g) k = Some r.
Proof.
  unfold getRoots. rewrite list_elem_of_omap. intros (k & _ & Hk). by exists k.
Qed.

Lemma indexed_getNode g k n :
  indexed g → Graph.getNode (graph g) k = Some n → getNode g (id n) = Some n.
Proof. intros Hidx Hk. unfold getNode. by rewrite (Hidx k n Hk). Qed.

Lemma indexed_root g r : indexed g → r ∈ getRoots g → getNode g (id r) = Some r.
Proof.
  intros Hidx Hr. destruct (getRoots_stored g r Hr) as [k Hk].
  by eapply indexed_getNode.
Qed.

Lemma indexed_child g a c :
  indexed g → c ∈ getChildren g a → getNode g (id c) = Some c.
Proof.
  intros Hidx Hc. destruct (getChildren_stored g a c Hc) as (k & nb & _ & _ & Hget).
  by eapply indexed_getNode.
Qed.

Lemma below_descendant g p n : below g p n → descendant g (id p) (id n).
Proof.
  induction 1 as [p c Hc|p c n Hc _ IH].
  - by apply descendant_child.
  - by eapply descendant_step.
Qed.

Lemma descendant_below g a b :
  descendant g a b → ∀ p, id p = a → ∃ n, id n = b ∧ below g p n.
Proof.
  induction 1 as [a c Hc|a c b Hc _ IH]; intros p <-.
  - exists c. split; [done|by apply below_child].
  - destruct (IH c eq_refl) as (n & Hn & Hbelow).
    exists n. split; [done|by eapply below_step].
Qed.

Lemma below_stored g p n : below g p n → ∃ a, n ∈ getChildren g a.
Proof. induction 1 as [p c Hc|p c n _ _ IH]; [by exists (id p)|done]. Qed.

Lemma reachableNode_id g n : reachableNode g n → reachable g (id n).
Proof.
  intros (r & Hr & [->|Hb]); exists r; (split; [done|]); [by left|].
  right. by apply below_descendant.
Qed.

Lemma reachable_node g x : reachable g x → ∃ n, id n = x ∧ reachableNode g n.
Proof.
  intros (r & Hr & [->|Hd]).
  - exists r. split; [done|]. exists r. by split; [|left].
  - destruct (descendant_below g _ _ Hd r eq_refl) as (n & Hn & Hb).
    exists n. split; [done|]. exists r. by split; [|right].
Qed.

Lemma reachableNode_found g n :
  indexed g → reachableNode g n → getNode g (id n) = Some n.
Proof.
  intros Hidx (r & Hr & [->|Hb]); [by apply indexed_root|].
  destruct (below_stored g r n Hb) as [a Ha]. by eapply indexed_child.
Qed.

Lemma acyclicBy_child g height a c :
  acyclicBy g height = true → c ∈ getChildren g a →
  (height (id c) < height a)%nat.
Proof.
  intros Hacy Hc. destruct (getChildren_known g a c Hc) as [k Hk].
  unfold acyclicBy in Hacy. rewrite forallb_forall in Hacy.
  apply list_elem_of_In, Hacy in Hk. rewrite forallb_forall in Hk.
  apply list_elem_of_In, Hk in Hc. by apply Nat.ltb_lt in Hc.
Qed.

Lemma acyclicBy_descendant g height a b :
  acyclicBy g height = true → descendant g a b → (height b < height a)%nat.
Proof.
  intros Hacy. induction 1 as [a c Hc|a c b Hc _ IH].
  - by eapply acyclicBy_child.
  - pose proof (acyclicBy_child g height a c Hacy Hc). lia.
Qed.

Lemma resolvable_root g r :
  resolvable g = true → r ∈ getRoots g → is_Some (getNode g (id r)).
Proof.
  unfold resolvable. rewrite andb_true_iff, forallb_forall.
  intros [Hr _] Hin. apply list_elem_of_In, Hr in Hin.
  by apply bool_decide_eq_true in Hin.
Qed.

Lemma resolvable_child g a c :
  resolvable g = true → c ∈ getChildren g a → is_Some (getNode g (id c)).
Proof.
  unfold resolvable. rewrite andb_true_iff, !forallb_forall.
  intros [_ Hch] Hc. destruct (getChildren_known g a c Hc) as [k Hk].
  apply list_elem_of_In, Hch in Hk. rewrite forallb_forall in Hk.
  apply list_elem_of_In, Hk in Hc. by apply bool_decide_eq_true in Hc.
Qed.

Lemma resolvable_descendant g a b :
  resolvable g = true → descendant g a b → is_Some (getNode g b).
Proof.
  intros Hres. induction 1 as [a c Hc|a c b Hc _ IH]; [|done].
  by eapply resolvable_child.
Qed.

Lemma descendant_trans_child g a c b :
  c ∈ getChildren g a → (b = id c ∨ descendant g (id c) b) → descendant g a b.
Proof.
  intros Hc [->|Hd]; [by apply descendant_child | by eapply descendant_step].
Qed.

(** *** What a run of the fold keeps true *)

(** The table and the call record agree, no id was folded twice, every
    folded node is the node found under its id, and in the call record
    the children of a node come before the node. *)
Record foldInv g s : Prop := mkFoldInv {
  inv_nodup : NoDup (id <$> calls s);
  inv_memo : ∀ x, x ∈ id <$> calls s ↔ is_Some (memo s !! x);
  inv_found : ∀ n, n ∈ calls s → getNode g (id n) = Some n;
  inv_order : ∀ before n after, calls s = before ++ n :: after →
    ∀ c, c ∈ getChildren g (id n) → id c ∈ id <$> before
}.

(** What folding the ids [cs] adds to a state. *)
Record extends g (cs : list NodeId) s s' : Prop := mkExtends {
  ext_inv : foldInv g s';
  ext_calls : ∃ new, calls s' = calls s ++ new
    ∧ ∀ n, n ∈ new → ∃ c, c ∈ cs ∧ (id n = c ∨ descendant g c (id n));
  ext_done : ∀ c, c ∈ cs → c ∈ id <$> calls s'
}.

Lemma foldInv_init g : foldInv g (mkFoldState ∅ []).
Proof.
  split; simpl.
  - constructor.
  - intros x. rewrite lookup_empty. split; [by intros ?%not_elem_of_nil|by intros []].
  - by intros x ?%not_elem_of_nil.
  - intros [|??] ???; done.
Qed.

Lemma extends_nil g s : foldInv g s → extends g [] s s.
Proof.
  intros Hinv. split; [done| |by intros c ?%not_elem_of_nil].
  exists []. split; [by rewrite app_nil_r|by intros x ?%not_elem_of_nil].
Qed.

Lemma extends_cons g c cs s s1 s2 :
  extends g [c] s s1 → extends g cs s1 s2 → extends g (c :: cs) s s2.
Proof.
  intros [_ (n1 & Hn1 & Hd1) Hc1] [Hinv (n2 & Hn2 & Hd2) Hc2].
  split; [done| |].
  - exists (n1 ++ n2). split; [by rewrite Hn2, Hn1, app_assoc|].
    intros x [Hx|Hx]%elem_of_app.
    + destruct (Hd1 x Hx) as (c' & ->%list_elem_of_singleton & H').
      exists c. split; [left|done].
    + destruct (Hd2 x Hx) as (c' & Hc' & H'). exists c'. split; [by right|done].
  - intros c' [->|Hc']%elem_of_cons; [|by apply Hc2].
    rewrite Hn2, fmap_app. apply elem_of_app. left. apply Hc1. left.
Qed.

Lemma all_ok g algebra fuel :
  (∀ c s b s', getNode g (id c) = Some c → foldInv g s →
     go fuel g algebra (id c) s = Ok (b, s') → extends g [id c] s s') →
  ∀ (cs : list (GraphNode A)) s bs s',
    Forall (λ c, getNode g (id c) = Some c) cs → foldInv g s →
    all (λ c, go fuel g algebra (id c)) cs s = Ok (bs, s') →
    extends g (id <$> cs) s s' ∧ length bs = length cs.
Proof.
  intros Hgo. induction cs as [|c cs IH]; intros s bs s' Hcs Hinv; simpl.
  - intros [= <- <-]. split; [by apply extends_nil|done].
  - apply Forall_cons in Hcs as [Hc0 Hcs].
    destruct (go fuel g algebra (id c) s) as [[b s1]|e] eqn:Hc; [|done].
    simpl.
    destruct (all (λ c, go fuel g algebra (id c)) cs s1) as [[bs' s2]|e] eqn:Hall;
      [|done].
    simpl. intros [= <- <-].
    pose proof (Hgo _ _ _ _ Hc0 Hinv Hc) as H1.
    destruct (IH s1 bs' s2 Hcs (ext_inv _ _ _ _ H1) Hall) as [H2 Hlen].
    split; [by eapply extends_cons|]. simpl. by rewrite Hlen.
Qed.

Lemma all_err {X} (run : X → FoldState → Result (B * FoldState (A:=A))) xs s e :
  all run xs s = Err e → ∃ x s0, x ∈ xs ∧ run x s0 = Err e.
Proof.
  revert s. induction xs as [|x xs IH]; intros s; simpl; [done|].
  destruct (run x s) as [[b s1]|e1] eqn:Hx; simpl.
  - destruct (all run xs s1) as [[bs s2]|e2] eqn:Hxs; simpl; [done|].
    intros [= ->]. destruct (IH _ Hxs) as (x' & s0 & Hin & Hrun).
    exists x', s0. split; [by right|done].
  - intros [= ->]. exists x, s. split; [left|done].
Qed.

Lemma all_mono {X} (run run' : X → FoldState → Result (B * FoldState (A:=A))) xs :
  (∀ x s r, run x s = Ok r → run' x s = Ok r) →
  ∀ s r, all run xs s = Ok r → all run' xs s = Ok r.
Proof.
  intros Hrun. induction xs as [|x xs IH]; intros s r; simpl; [done|].
  destruct (run x s) as [[b s1]|e1] eqn:Hx; simpl; [|done].
  rewrite (Hrun _ _ _ Hx). simpl.
  destruct (all run xs s1) as [[bs s2]|e2] eqn:Hxs; simpl; [|done].
  by rewrite (IH _ _ Hxs).
Qed.

Lemma go_ok g algebra height :
  acyclicBy g height = true → indexed g →
  ∀ fuel c s b s', getNode g (id c) = Some c → foldInv g s →
    go fuel g algebra (id c) s = Ok (b, s') → extends g [id c] s s'.
Proof.
  intros Hacy Hidx. induction fuel as [|fuel IH]; intros c s b s' Hc Hinv; [done|].
  simpl. destruct (memo s !! id c) as [b0|] eqn:Hmemo.
  { intros [= <- <-]. split; [done| |].
    - exists []. split; [by rewrite app_nil_r|by intros x ?%not_elem_of_nil].
    - intros c' ->%list_elem_of_singleton. apply (inv_memo g s Hinv).
      by rewrite Hmemo. }
  rewrite Hc.
  destruct (all _ (getChildren g (id c)) s) as [[bs s1]|e] eqn:Hall; [|done].
  simpl. intros [= <- <-].
  assert (Forall (λ c', getNode g (id c') = Some c') (getChildren g (id c)))
    as Hchildren.
  { apply Forall_forall. intros c' Hc'. by eapply indexed_child. }
  destruct (all_ok g algebra fuel IH _ _ _ _ Hchildren Hinv Hall) as [Hext _].
  destruct Hext as [Hinv1 (new & Hnew & Hdesc) Hdone].
  assert (∀ n, n ∈ new → descendant g (id c) (id n)) as Hbelow.
  { intros n Hn. destruct (Hdesc n Hn) as (x & Hx & Hxn).
    apply list_elem_of_fmap in Hx as (cn & -> & Hcn).
    eapply descendant_trans_child; [exact Hcn|].
    destruct Hxn as [->|?]; [by left|by right]. }
  assert (id c ∉ id <$> calls s1) as Hfresh.
  { rewrite Hnew, fmap_app. intros [Hin|Hin]%elem_of_app.
    - apply (inv_memo g s Hinv) in Hin. rewrite Hmemo in Hin. by destruct Hin.
    - apply list_elem_of_fmap in Hin as (n & Heq & Hn). apply Hbelow in Hn.
      pose proof (acyclicBy_descendant g height _ _ Hacy Hn). rewrite Heq in *. lia. }
  split; [split; simpl| |]; simpl.
  - rewrite fmap_app. apply NoDup_app. split_and!; [apply Hinv1| |apply NoDup_singleton].
    by intros x Hx ->%list_elem_of_singleton.
  - intros x. rewrite fmap_app, elem_of_app. simpl.
    rewrite list_elem_of_singleton, lookup_insert_is_Some.
    rewrite (inv_memo g s1 Hinv1 x). split.
    + intros [?| ->]; [|by left].
      destruct (decide (id c = x)); [by left|by right].
    + intros [ ->|[_ ?]]; [by right|by left].
  - intros n [Hn| ->%list_elem_of_singleton]%elem_of_app.
    + by apply (inv_found g s1 Hinv1).
    + done.
  - intros before n after Heq c' Hc'.
    destruct after as [|y after _] using rev_ind.
    + apply app_inj_tail in Heq as [<- <-]. apply Hdone.
      apply list_elem_of_fmap. by exists c'.
    + rewrite app_comm_cons, app_assoc in Heq.
      apply app_inj_tail in Heq as [Heq _].
      by eapply (inv_order g s1 Hinv1).
  - exists (new ++ [c]). split; [by rewrite Hnew, app_assoc|].
    intros n [Hn| ->%list_elem_of_singleton]%elem_of_app.
    + exists (id c). split; [left|right; by apply Hbelow].
    + exists (id c). split; [left|by left].
  - intros c' ->%list_elem_of_singleton. rewrite fmap_app. apply elem_of_app.
    right. left.
Qed.

(** The only ways a run can fail: the fuel was below the height of the
    node, or an id the fold met was not found. *)
Lemma go_err g algebra height :
  acyclicBy g height = true →
  ∀ fuel nodeId s e, go fuel g algebra nodeId s = Err e →
    (e = OutOfFuel ∧ (fuel ≤ height nodeId)%nat)
    ∨ (∃ x, e = NodeNotFound x ∧ getNode g x = None
            ∧ (x = nodeId ∨ descendant g nodeId x)).
Proof.
  intros Hacy. induction fuel as [|fuel IH]; intros nodeId s e.
  { intros [= <-]. left. split; [done|lia]. }
  simpl. destruct (memo s !! nodeId) as [b0|]; [done|].
  destruct (getNode g nodeId) as [node|] eqn:Hnode.
  - destruct (all _ (getChildren g nodeId) s) as [[bs s1]|e1] eqn:Hall; [done|].
    simpl. intros [= ->].
    apply all_err in Hall as (c & s0 & Hc & Hgo).
    pose proof (acyclicBy_child g height _ _ Hacy Hc) as Hlt.
    destruct (IH _ _ _ Hgo) as [[-> Hle]|(x & -> & Hx & Hd)].
    + left. split; [done|lia].
    + right. exists x. split_and!; [done|done|].
      right. by eapply descendant_trans_child.
  - intros [= <-]. right. exists nodeId. by split_and!; [| |left].
Qed.

Lemma go_mono g algebra fuel fuel' :
  (fuel ≤ fuel')%nat →
  ∀ nodeId s r, go fuel g algebra nodeId s = Ok r → go fuel' g algebra nodeId s = Ok r.
Proof.
  revert fuel'. induction fuel as [|fuel IH]; intros fuel' Hle nodeId s r; [done|].
  destruct fuel' as [|fuel']; [lia|]. simpl.
  destruct (memo s !! nodeId); [done|].
  destruct (getNode g nodeId); [|done].
  destruct (all _ (getChildren g nodeId) s) as [[bs s1]|e1] eqn:Hall; [|done].
  simpl. intros [= <-].
  assert (all (λ c, go fuel' g algebra (id c)) (getChildren g nodeId) s
          = Ok (bs, s1)) as ->; [|done].
  eapply all_mono; [|exact Hall].
  intros c s0 r Hr. simpl in Hr. apply IH; [lia|done].
Qed.

(** *** The whole fold *)

Definition rootBound g height : nat :=
  S (max_list ((λ r, height (id r)) <$> getRoots g)).

Lemma rootBound_root g height r :
  r ∈ getRoots g → (height (id r) < rootBound g height)%nat.
Proof.
  intros Hr. unfold rootBound.
  assert (height (id r) ∈ (λ r, height (id r)) <$> getRoots g) as Hin
    by (apply list_elem_of_fmap; by exists r).
  apply max_list_elem_of_le in Hin. lia.
Qed.

Lemma cataRun_mono g algebra fuel fuel' r :
  (fuel ≤ fuel')%nat →
  cataRun fuel g algebra = Ok r → cataRun fuel' g algebra = Ok r.
Proof.
  intros Hle. unfold cataRun. apply all_mono.
  intros root s r'. by apply go_mono.
Qed.

Lemma cataRun_agree g algebra fuel1 fuel2 r1 r2 :
  cataRun fuel1 g algebra = Ok r1 → cataRun fuel2 g algebra = Ok r2 → r1 = r2.
Proof.
  intros H1 H2.
  apply (cataRun_mono _ _ _ (max fuel1 fuel2)) in H1; [|lia].
  apply (cataRun_mono _ _ _ (max fuel1 fuel2)) in H2; [|lia].
  congruence.
Qed.

Lemma cataRun_err g algebra height fuel e :
  acyclicBy g height = true →
  (∀ r, r ∈ getRoots g → (height (id r) < fuel)%nat) →
  cataRun fuel g algebra = Err e →
  ∃ x, e = NodeNotFound x ∧ getNode g x = None ∧ reachable g x.
Proof.
  intros Hacy Hfuel Herr. unfold cataRun in Herr.
  apply all_err in Herr as (r & s0 & Hr & Hgo).
  destruct (go_err g algebra height Hacy _ _ _ _ Hgo)
    as [[-> Hle]|(x & -> & Hx & Hd)].
  - specialize (Hfuel r Hr). lia.
  - exists x. split_and!; [done|done|]. by exists r.
Qed.

Lemma cataRun_ok g algebra height fuel results s :
  acyclicBy g height = true → indexed g →
  cataRun fuel g algebra = Ok (results, s) →
  foldInv g s
  ∧ length results = length (getRoots g)
  ∧ (∀ x, x ∈ id <$> calls s ↔ reachable g x).
Proof.
  intros Hacy Hidx Hrun. unfold cataRun in Hrun.
  assert (Forall (λ r, getNode g (id r) = Some r) (getRoots g)) as Hroots.
  { apply Forall_forall. intros r Hr. by apply indexed_root. }
  destruct (all_ok g algebra fuel (go_ok g algebra height Hacy Hidx fuel)
              _ _ _ _ Hroots (foldInv_init g) Hrun)
    as [[Hinv (new & Hnew & Hdesc) Hdone] Hlen].
  simpl in Hnew. split_and!; [done|done|].
  assert (∀ a b, descendant g a b →
            a ∈ id <$> calls s → b ∈ id <$> calls s) as Hclosed.
  { induction 1 as [a c Hc|a c b Hc _ IH]; intros Ha;
      apply list_elem_of_fmap in Ha as (n & -> & Hn);
      apply list_elem_of_split in Hn as (l1 & l2 & Heq);
      pose proof (inv_order g s Hinv _ _ _ Heq c Hc) as Hin.
    - rewrite Heq, fmap_app. apply elem_of_app. by left.
    - apply IH. rewrite Heq, fmap_app. apply elem_of_app. by left. }
  intros x. split.
  - rewrite Hnew. intros Hx. apply list_elem_of_fmap in Hx as (n & -> & Hn).
    destruct (Hdesc n Hn) as (c & Hc & Hcx).
    apply list_elem_of_fmap in Hc as (r & -> & Hr). by exists r.
  - intros (r & Hr & Hx).
    assert (id r ∈ id <$> calls s) as Hroot
      by (apply Hdone, list_elem_of_fmap; by exists r).
    destruct Hx as [->|Hd]; [done|]. by eapply Hclosed.
Qed.

(** *** Runs that end without acyclicity *)

(** The ids in the table were found, and so were their children. *)
Definition closedMemo g s : Prop :=
  ∀ x, is_Some (memo s !! x) →
    is_Some (getNode g x)
    ∧ ∀ c, c ∈ getChildren g x → is_Some (memo s !! id c).

Lemma all_closed g algebra fuel :
  (∀ nodeId s b s', closedMemo g s →
     go fuel g algebra nodeId s = Ok (b, s') →
     closedMemo g s' ∧ is_Some (memo s' !! nodeId)
     ∧ ∀ x, is_Some (memo s !! x) → is_Some (memo s' !! x)) →
  ∀ (cs : list (GraphNode A)) s bs s', closedMemo g s →
    all (λ c, go fuel g algebra (id c)) cs s = Ok (bs, s') →
    closedMemo g s' ∧ (∀ c, c ∈ cs → is_Some (memo s' !! id c))
    ∧ ∀ x, is_Some (memo s !! x) → is_Some (memo s' !! x).
Proof.
  intros Hgo. induction cs as [|c cs IH]; intros s bs s' Hcl; simpl.
  - intros [= <- <-]. split_and!; [done| |done]. by intros c ?%not_elem_of_nil.
  - destruct (go fuel g algebra (id c) s) as [[b s1]|e] eqn:Hc; [|done].
    simpl.
    destruct (all (λ c, go fuel g algebra (id c)) cs s1) as [[bs' s2]|e] eqn:Hall;
      [|done].
    simpl. intros [= <- <-].
    destruct (Hgo _ _ _ _ Hcl Hc) as (Hcl1 & Hin1 & Hmono1).
    destruct (IH _ _ _ Hcl1 Hall) as (Hcl2 & Hin2 & Hmono2).
    split_and!; [done| |by auto].
    intros c' [->|Hc']%elem_of_cons; [by apply Hmono2|by apply Hin2].
Qed.

Lemma go_closed g algebra :
  ∀ fuel nodeId s b s', closedMemo g s →
    go fuel g algebra nodeId s = Ok (b, s') →
    closedMemo g s' ∧ is_Some (memo s' !! nodeId)
    ∧ ∀ x, is_Some (memo s !! x) → is_Some (memo s' !! x).
Proof.
  induction fuel as [|fuel IH]; intros nodeId s b s' Hcl; [done|].
  simpl. destruct (memo s !! nodeId) as [b0|] eqn:Hmemo.
  { intros [= <- <-]. by rewrite Hmemo. }
  destruct (getNode g nodeId) as [node|] eqn:Hnode; [|done].
  destruct (all _ (getChildren g nodeId) s) as [[bs s1]|e] eqn:Hall; [|done].
  simpl. intros [= <- <-].
  destruct (all_closed g algebra fuel IH _ _ _ _ Hcl Hall)
    as (Hcl1 & Hin1 & Hmono1).
  split_and!; simpl.
  - unfold closedMemo. simpl.
    intros x. rewrite lookup_insert_is_Some. intros [<-|[Hne Hx]].
    + rewrite Hnode. split; [by eexists|].
      intros c Hc. rewrite lookup_insert_is_Some.
      destruct (decide (nodeId = id c)); [by left|right]. split; [done|by apply Hin1].
    + destruct (Hcl1 x Hx) as [Hfound Hch]. split; [done|].
      intros c Hc. rewrite lookup_insert_is_Some.
      destruct (decide (nodeId = id c)); [by left|right]. split; [done|by apply Hch].
  - by rewrite lookup_insert_eq.
  - intros x Hx. rewrite lookup_insert_is_Some.
    destruct (decide (nodeId = x)); [by left|right]. split; [done|by apply Hmono1].
Qed.

(** A run that returns has found every id it could meet. *)
Lemma cataRun_found g algebra fuel results s x :
  cataRun fuel g algebra = Ok (results, s) → reachable g x →
  is_Some (getNode g x).
Proof.
  intros Hrun (r & Hr & Hx). unfold cataRun in Hrun.
  assert (closedMemo g (mkFoldState (A:=A) (B:=B) ∅ [])) as Hinit.
  { intros y. simpl. rewrite lookup_empty. by intros []. }
  destruct (all_closed g algebra fuel (go_closed g algebra fuel) _ _ _ _ Hinit Hrun)
    as (Hcl & Hroots & _).
  assert (∀ a b, descendant g a b → is_Some (memo s !! a) → is_Some (memo s !! b))
    as Hdown.
  { induction 1 as [a c Hc|a c b Hc _ IH]; intros Ha.
    - by apply (Hcl a Ha).
    - apply IH. by apply (Hcl a Ha). }
  apply Hcl. destruct Hx as [->|Hd]; [by apply Hroots|].
  eapply Hdown; [exact Hd|by apply Hroots].
Qed.

(** *** The fold reads the graph through three queries *)

Lemma all_ext {X} (run run' : X → FoldState → Result (B * FoldState (A:=A))) xs :
  (∀ x s, run x s = run' x s) → ∀ s, all run xs s = all run' xs s.
Proof.
  intros Hrun. induction xs as [|x xs IH]; intros s; simpl; [done|].
  rewrite Hrun. destruct (run' x s) as [[b s1]|e]; simpl; [|done].
  by rewrite IH.
Qed.

Lemma go_ext g g' algebra :
  (∀ x, getNode g x = getNode g' x) →
  (∀ x, getChildren g x = getChildren g' x) →
  ∀ fuel nodeId s, go fuel g algebra nodeId s = go fuel g' algebra nodeId s.
Proof.
  intros Hnode Hchildren. induction fuel as [|fuel IH]; intros nodeId s; [done|].
  simpl. rewrite Hnode, Hchildren.
  destruct (memo s !! nodeId); [done|].
  destruct (getNode g' nodeId); [|done].
  rewrite (all_ext _ (λ c, go fuel g' algebra (id c))); [done|].
  intros c s0. apply IH.
Qed.

Lemma cata_ext g g' algebra fuel :
  (∀ x, getNode g x = getNode g' x) →
  (∀ x, getChildren g x = getChildren g' x) →
  getRoots g = getRoots g' →
  cata fuel g algebra = cata fuel g' algebra.
Proof.
  intros Hnode Hchildren Hroots. unfold cata, cataRun. rewrite Hroots.
  f_equal. apply all_ext. intros r s. by apply go_ext.
Qed.

(** *** Neighbour indices without a stored node *)

(** The edge [e] exists and leads to a stored node. *)
Definition storedTarget (gr : Graph.t (GraphNode A) GraphEdge) (e : nat) : bool :=
  match JsMap.get (Graph.edges gr) e with
  | Some edge => JsMap.has (Graph.nodes gr) (Graph.target edge)
  | None => false
  end.

(** The graph without the adjacency entries that lead to no stored
    node; everything else is as in [g]. *)
Definition withoutDangling g : EffectGraph A :=
  mkEffectGraph
    (Graph.mk (Graph.nodes (graph g)) (Graph.edges (graph g))
       ((λ '(i, es), (i, filter (λ e, storedTarget (graph g) e = true) es))
          <$> Graph.adjacency (graph g))
       (Graph.reverseAdjacency (graph g))
       (Graph.nextNodeIndex (graph g)) (Graph.nextEdgeIndex (graph g))
       (Graph.acyclicCache (graph g)))
    (nodeIdToIndex g) (indexToNodeId g).

Lemma get_fmap_lists (f : list nat → list nat) (m : JsMap.t (list nat)) k :
  JsMap.get ((λ '(i, es), (i, f es)) <$> m) k = f <$> JsMap.get m k.
Proof.
  induction m as [|[i es] m IH]; simpl; [done|].
  by destruct (Nat.eqb i k).
Qed.

Lemma omap_cons_Some {X Y} (f : X → option Y) x l y :
  f x = Some y → omap f (x :: l) = y :: omap f l.
Proof. intros Hx. csimpl. by rewrite Hx. Qed.

Lemma omap_cons_None {X Y} (f : X → option Y) x l :
  f x = None → omap f (x :: l) = omap f l.
Proof. intros Hx. csimpl. by rewrite Hx. Qed.

Lemma neighbors_withoutDangling g i :
  Graph.neighbors (graph (withoutDangling g)) i
  = filter (λ k, JsMap.has (Graph.nodes (graph g)) k = true)
           (Graph.neighbors (graph g) i).
Proof.
  unfold Graph.neighbors, withoutDangling. simpl. rewrite get_fmap_lists.
  destruct (JsMap.get (Graph.adjacency (graph g)) i) as [es|]; [|done].
  change (omap (λ e, Graph.target <$> JsMap.get (Graph.edges (graph g)) e)
            (filter (λ e, storedTarget (graph g) e = true) es)
          = filter (λ k, JsMap.has (Graph.nodes (graph g)) k = true)
              (omap (λ e, Graph.target <$> JsMap.get (Graph.edges (graph g)) e)
                 es)).
  induction es as [|e es IH]; [done|].
  rewrite filter_cons.
  destruct (decide (storedTarget (graph g) e = true)) as [Hs|Hs];
    unfold storedTarget in Hs;
    destruct (JsMap.get (Graph.edges (graph g)) e) as [edge|] eqn:He.
  - rewrite !(omap_cons_Some _ e _ (Graph.target edge)) by (by rewrite He).
    rewrite filter_cons, decide_True by done. by rewrite IH.
  - done.
  - rewrite (omap_cons_Some _ e _ (Graph.target edge)) by (by rewrite He).
    rewrite filter_cons, decide_False by done. done.
  - rewrite (omap_cons_None _ e) by (by rewrite He). done.
Qed.

Lemma getChildren_withoutDangling g x :
  getChildren (withoutDangling g) x = getChildren g x.
Proof.
  unfold getChildren. change (nodeIdToIndex (withoutDangling g)) with (nodeIdToIndex g).
  destruct (nodeIdToIndex g !! x) as [idx|]; [|done].
  rewrite neighbors_withoutDangling.
  change (Graph.getNode (graph (withoutDangling g))) with (Graph.getNode (graph g)).
  induction (Graph.neighbors (graph g) idx) as [|k ks IH]; [done|].
  rewrite filter_cons.
  destruct (decide (JsMap.has (Graph.nodes (graph g)) k = true)) as [Hs|Hs];
    unfold JsMap.has in Hs;
    destruct (JsMap.get (Graph.nodes (graph g)) k) as [n|] eqn:Hk; try done.
  - rewrite !(omap_cons_Some _ k _ n) by done. by rewrite IH.
  - rewrite (omap_cons_None _ k) by done. done.
Qed.

(** C6, as amended: on a graph in which every stored node is the one
    [getNode] finds under its id, so that no id is repeated, and whose
    child relation has no cycle, for every algebra, [cata] returns, with
    any fuel that covers the height of the roots, one result per root;
    the algebra is applied exactly once to every node reachable from the
    roots and to no other, to a node only after all its children; and
    any two runs that return give the same results. *)
Theorem cata_folds_once g algebra height :
  acyclicBy g height = true →
  indexed g →
  ∃ results s,
    (∀ fuel, (∀ r, r ∈ getRoots g → (height (id r) < fuel)%nat) →
       cataRun fuel g algebra = Ok (results, s))
    ∧ (∀ fuel results', cata fuel g algebra = Ok results' → results' = results)
    ∧ length results = length (getRoots g)
    ∧ NoDup (calls s)
    ∧ (∀ n, n ∈ calls s ↔ reachableNode g n)
    ∧ (∀ before n after, calls s = before ++ n :: after →
         ∀ c, c ∈ getChildren g (id n) → c ∈ before).
Proof.
  intros Hacy Hidx.
  assert (∀ fuel, (∀ r, r ∈ getRoots g → (height (id r) < fuel)%nat) →
            ∃ r, cataRun fuel g algebra = Ok r) as Htotal.
  { intros fuel Hfuel. destruct (cataRun fuel g algebra) as [r|e] eqn:Hrun;
      [by exists r|].
    destruct (cataRun_err g algebra height fuel e Hacy Hfuel Hrun)
      as (x & _ & Hx & Hreach).
    destruct (reachable_node g x Hreach) as (n & <- & Hn).
    rewrite (reachableNode_found g n Hidx Hn) in Hx. done. }
  destruct (Htotal (rootBound g height)) as [[results s] Hrun].
  { intros r. apply rootBound_root. }
  destruct (cataRun_ok g algebra height _ _ _ Hacy Hidx Hrun)
    as (Hinv & Hlen & Hcalls).
  assert (∀ n n', n ∈ calls s → getNode g (id n') = Some n' → id n = id n' →
            n = n') as Hsame.
  { intros n n' Hn Hn' Heq. apply (inv_found g s Hinv) in Hn.
    rewrite Heq in Hn. congruence. }
  exists results, s. split_and!; [| |done| | |].
  - intros fuel Hfuel. destruct (Htotal fuel Hfuel) as [r Hr].
    rewrite Hr. f_equal. by eapply cataRun_agree.
  - intros fuel results'. unfold cata.
    destruct (cataRun fuel g algebra) as [[rs' s']|e] eqn:Hrun'; [|done].
    simpl. intros [= <-].
    by pose proof (cataRun_agree _ _ _ _ _ _ Hrun' Hrun) as [= -> _].
  - eapply NoDup_fmap_1. apply (inv_nodup g s Hinv).
  - intros n. split.
    + intros Hn.
      assert (reachable g (id n)) as Hreach
        by (apply Hcalls, list_elem_of_fmap; by exists n).
      destruct (reachable_node g _ Hreach) as (n' & Heq & Hn').
      assert (n = n') as ->; [|done].
      apply Hsame; [done|by apply reachableNode_found|done].
    + intros Hn.
      assert (id n ∈ id <$> calls s) as Hin
        by (apply Hcalls; by apply reachableNode_id).
      apply list_elem_of_fmap in Hin as (n' & Heq & Hn').
      assert (n' = n) as <-; [|done].
      apply Hsame; [done|by apply reachableNode_found|done].
  - intros before n after Heq c Hc.
    pose proof (inv_order g s Hinv _ _ _ Heq c Hc) as Hin.
    apply list_elem_of_fmap in Hin as (c' & Hid & Hc').
    assert (c' = c) as <-; [|done].
    apply Hsame; [|by eapply indexed_child|done].
    rewrite Heq. apply elem_of_app. by left.
Qed.

(** C7, as amended: [cata] reads the children through [getChildren],
    which drops a neighbour index that has no stored node, so [cata]
    returns what it returns on the graph without those adjacency
    entries, in which every neighbour is stored; and when the id of a
    root, or of a node [getChildren] returns on the way down from a
    root, is not found by [getNode], [cata] returns no result, and on a
    graph whose child relation has no cycle it fails with Node-not-found
    for such an id. *)
Theorem cata_unresolved_id_fails g algebra x :
  (∀ fuel, cata fuel g algebra = cata fuel (withoutDangling g) algebra)
  ∧ (∀ i k, k ∈ Graph.neighbors (graph (withoutDangling g)) i →
       is_Some (Graph.getNode (graph (withoutDangling g)) k))
  ∧ (reachable g x → getNode g x = None →
       (∀ fuel results, cata fuel g algebra ≠ Ok results)
       ∧ ∀ height, acyclicBy g height = true →
           ∀ fuel, (∀ r, r ∈ getRoots g → (height (id r) < fuel)%nat) →
             ∃ y, cata fuel g algebra = Err (NodeNotFound y)
                  ∧ getNode g y = None ∧ reachable g y).
Proof.
  split_and!.
  - intros fuel. apply cata_ext; [done| |done].
    intros y. symmetry. apply getChildren_withoutDangling.
  - intros i k. rewrite neighbors_withoutDangling.
    intros [Hk _]%list_elem_of_filter. unfold JsMap.has in Hk.
    change (Graph.getNode (graph (withoutDangling g)) k)
      with (JsMap.get (Graph.nodes (graph g)) k).
    by destruct (JsMap.get (Graph.nodes (graph g)) k).
  - intros Hreach Hx.
    assert (∀ fuel results, cata fuel g algebra ≠ Ok results) as Hnever.
    { intros fuel results. unfold cata.
      destruct (cataRun fuel g algebra) as [[rs s]|e] eqn:Hrun; [|done].
      destruct (cataRun_found g algebra fuel rs s x Hrun Hreach) as [n Hn].
      congruence. }
    split; [done|]. intros height Hacy fuel Hfuel.
    destruct (cata fuel g algebra) as [results|e] eqn:Hcata;
      [by destruct (Hnever fuel results)|].
    unfold cata in Hcata.
    destruct (cataRun fuel g algebra) as [[rs s]|e'] eqn:Hrun; [done|].
    simpl in Hcata. injection Hcata as ->.
    destruct (cataRun_err g algebra height fuel e Hacy Hfuel Hrun)
      as (y & -> & Hy & Hry).
    by exists y.
Qed.
End Fold.
End Fold.

Module FoldBuilt.
Import EffectGraph Invariant Acyclicity Depth Cycles Fold.

Section Fresh.
Context {A : Type}.
Implicit Types (g : EffectGraph A) (node : GraphNode A).

(** Graphs grown by [addNode] with an id that is new each time, as
    [NodeId.generate] provides. *)
Inductive builtFresh : EffectGraph A → Prop :=
  | fresh_empty : builtFresh empty
  | fresh_singleton i t d : builtFresh (singleton i t d)
  | fresh_addNode g g' node :
      builtFresh g → nodeIdToIndex g !! id node = None →
      addNode g node = Ok g' → builtFresh g'.

Lemma builtFresh_wf g : builtFresh g → wf g.
Proof.
  induction 1 as [|i t d|g g' node _ IH _ Hadd].
  - apply wf_empty.
  - apply wf_singleton.
  - destruct (addNode_wf g node IH) as (g2 & Hg2 & Hwf2 & _). congruence.
Qed.

Lemma builtFresh_indexed g : builtFresh g → indexed g.
Proof.
  induction 1 as [|i t d|g g' node Hb IH Hfresh Hg'].
  - intros k n Hk. done.
  - intros k n. unfold Graph.getNode. simpl.
    destruct k; [|done]. intros [= <-]. simpl. apply lookup_singleton_eq.
  - pose proof (builtFresh_wf g Hb) as Hwf.
    destruct (addNode_wf g node Hwf) as (g2 & Hg2 & _ & Hadd).
    assert (g2 = g') as -> by congruence.
    intros k n Hk.
    destruct (added_getNode_inv _ _ _ _ _ Hwf Hadd Hk) as [Hold|[-> ->]].
    + pose proof (IH k n Hold) as Hn.
      rewrite (added_index_other _ _ _ Hadd); [done|].
      intros Heq. rewrite Heq in Hn. congruence.
    + rewrite id_updatedNode, (added_index_new _ _ _ Hadd), Hfresh. done.
Qed.

(** How far the node of an id is from the end of the store. *)
Definition heightOf g (i : NodeId) : nat :=
  match nodeIdToIndex g !! i with
  | Some k => Graph.nextNodeIndex (graph g) - k
  | None => 0
  end.

(** The graphs of the construction API meet the two conditions under
    which the fold is shown to return. *)
Lemma builtFresh_foldable g :
  builtFresh g → acyclicBy g (heightOf g) = true ∧ resolvable g = true.
Proof.
  intros Hb. pose proof (builtFresh_wf g Hb) as Hwf.
  pose proof (builtFresh_indexed g Hb) as Hidx.
  assert (∀ k n, Graph.getNode (graph g) k = Some n → getNode g (id n) = Some n)
    as Hresolve.
  { intros k n Hk. unfold getNode. by rewrite (Hidx k n Hk). }
  split.
  - unfold acyclicBy. apply forallb_forall. intros [a k] Hak.
    apply list_elem_of_In, elem_of_map_to_list in Hak.
    apply forallb_forall. intros c Hc%list_elem_of_In. apply Nat.ltb_lt.
    destruct (getChildren_stored g a c Hc) as (k' & nb & Hk' & Hnb & Hget).
    assert (k' = k) as -> by congruence.
    apply (wf_neighbors g k nb Hwf) in Hnb.
    unfold heightOf. rewrite Hak, (Hidx nb c Hget). lia.
  - unfold resolvable. apply andb_true_iff. split.
    + apply forallb_forall. intros r Hr%list_elem_of_In.
      apply bool_decide_eq_true.
      destruct (getRoots_stored g r Hr) as [k Hk]. rewrite (Hresolve k r Hk). by eexists.
    + apply forallb_forall. intros [a k] Hak.
      apply forallb_forall. intros c Hc%list_elem_of_In.
      apply bool_decide_eq_true.
      destruct (getChildren_stored g a c Hc) as (k' & nb & _ & _ & Hget).
      rewrite (Hresolve nb c Hget). by eexists.
Qed.
End Fresh.
End FoldBuilt.

Module FoldExamples.
Import EffectGraph Cycles Fold.

Definition plain (i : NodeId) (p : option NodeId) (d : Z) : GraphNode string :=
  mkNode i "text" p (mkMetadata None 0 d).

(** A shared node: R has the children X and Y, and Z is a child of both.
    The second edge into Z is injected with [Graph.addEdge]. *)
Definition diamondStore : Graph.t (GraphNode string) GraphEdge :=
  let g0 := Graph.directed in
  let '(g1, r) := Graph.addNode g0 (plain "R" None 0) in
  let '(g2, x) := Graph.addNode g1 (plain "X" (Some "R") 1) in
  let '(g3, y) := Graph.addNode g2 (plain "Y" (Some "R") 1) in
  let '(g4, z) := Graph.addNode g3 (plain "Z" (Some "X") 2) in
  let edges := [(r, x); (r, y); (x, z); (y, z)] in
  foldl (λ g '(a, b),
           match Graph.addEdge g a b child with
           | Ok (g', _) => g'
           | Err _ => g
           end) g4 edges.

Definition diamond : EffectGraph string :=
  mkEffectGraph diamondStore
    (list_to_map [("R", 0%nat); ("X", 1%nat); ("Y", 2%nat); ("Z", 3%nat)])
    (list_to_map [(0%nat, "R"); (1%nat, "X"); (2%nat, "Y"); (3%nat, "Z")]).

Definition diamondHeight (i : NodeId) : nat :=
  if String.eqb i "R" then 2
  else if String.eqb i "X" || String.eqb i "Y" then 1
  else 0.

(** Counts the nodes below and including a node, along every path. *)
Definition countPaths (_ : GraphNode string) (children : list nat) : nat :=
  S (list_sum children).

Example diamond_fold :
  (λ '(rs, s), (rs, id <$> calls s)) <$> cataRun 3 diamond countPaths
  = Ok ([5%nat], ["Z"; "X"; "Y"; "R"]).
Proof. vm_compute. reflexivity. Qed.

(** A root R whose adjacency lists an edge to index 7, where no node is
    stored. *)
Definition dangling : EffectGraph string :=
  mkEffectGraph
    (Graph.mk [(0%nat, plain "R" None 0)]
              [(0%nat, Graph.mkEdge 0 7 child)]
              [(0%nat, [0%nat])] [(0%nat, [])] 1 1 None)
    {[ "R" := 0%nat ]} {[ 0%nat := "R" ]}.

(** C7, counterexample: the adjacency of R lists index 7, the store has
    no node 7; [getChildren] drops the index and [cata] returns the fold
    of R without children, with no error. *)
Lemma cata_skips_missing_child :
  Graph.neighbors (graph dangling) 0 = [7%nat]
  ∧ Graph.getNode (graph dangling) 7 = None
  ∧ getChildren dangling "R" = []
  ∧ ∀ fuel, cata (S fuel) dangling countPaths = Ok [1%nat].
Proof. split_and!; [done|done|done|]. intros fuel. reflexivity. Qed.

(** A stored child C of R whose id the id map does not know. *)
Definition unmapped : EffectGraph string :=
  mkEffectGraph
    (Graph.mk [(0%nat, plain "R" None 0); (1%nat, plain "C" (Some "R") 1)]
              [(0%nat, Graph.mkEdge 0 1 child)]
              [(0%nat, [0%nat]); (1%nat, [])]
              [(0%nat, []); (1%nat, [0%nat])] 2 1 None)
    {[ "R" := 0%nat ]} {[ 0%nat := "R" ]}.

Lemma diamond_indexed : indexed diamond.
Proof.
  intros k n. destruct k as [|[|[|[|k]]]]; intros [= <-]; reflexivity.
Defined.

(** C6, witness: the fold of the diamond, where Z is reached twice. *)
Lemma cata_folds_once_witness :
  ∃ results s,
    (∀ fuel, (∀ r, r ∈ getRoots diamond → (diamondHeight (id r) < fuel)%nat) →
       cataRun fuel diamond countPaths = Ok (results, s))
    ∧ (∀ fuel results', cata fuel diamond countPaths = Ok results' →
         results' = results)
    ∧ length results = length (getRoots diamond)
    ∧ NoDup (calls s)
    ∧ (∀ n, n ∈ calls s ↔ reachableNode diamond n)
    ∧ (∀ before n after, calls s = before ++ n :: after →
         ∀ c, c ∈ getChildren diamond (id n) → c ∈ before).
Proof.
  apply (cata_folds_once diamond countPaths diamondHeight);
    [reflexivity|apply diamond_indexed].
Defined.

Definition unmappedHeight (i : NodeId) : nat :=
  if String.eqb i "R" then 1 else 0.

(** C7, witness: the id of the child C is unknown to the id map. *)
Lemma cata_unresolved_id_fails_witness :
  (∀ fuel results, cata fuel unmapped countPaths ≠ Ok results)
  ∧ ∃ y, cata 2 unmapped countPaths = Err (NodeNotFound y)
         ∧ getNode unmapped y = None ∧ reachable unmapped y.
Proof.
  destruct (cata_unresolved_id_fails unmapped countPaths "C") as (_ & _ & Hfails).
  destruct Hfails as [Hnever Hthrows].
  - exists (plain "R" None 0). split; [left|]. right.
    apply (descendant_child unmapped "R" (plain "C" (Some "R") 1)). left.
  - reflexivity.
  - split; [exact Hnever|].
    apply (Hthrows unmappedHeight); [reflexivity|].
    intros r Hr. vm_compute in Hr.
    apply list_elem_of_singleton in Hr. subst r. vm_compute. lia.
Defined.
End FoldExamples.

Module Divergence.
Import EffectGraph Cycles Fold FoldExamples.

(** The graph [addNode] returns for the node that closes the cycle. *)
Definition graphABA : EffectGraph string :=
  match addNode graphAB backToA with
  | Ok g => g
  | Err _ => graphAB
  end.

Lemma go_step {A B} (g : EffectGraph A) (algebra : GraphNode A → list B → B)
    fuel nodeId node s :
  memo s !! nodeId = None → getNode g nodeId = Some node →
  go (S fuel) g algebra nodeId s
  = ('(processedChildren, s1) ←
       all (λ c, go fuel g algebra (id c)) (getChildren g nodeId) s;
     Ok (algebra node processedChildren,
         mkFoldState (<[ nodeId := algebra node processedChildren ]> (memo s1))
                     (calls s1 ++ [node]))).
Proof. intros Hmemo Hnode. simpl. by rewrite Hmemo, Hnode. Qed.

(** A second root that repeats the id of A. *)
Definition secondA : GraphNode string :=
  makeNode "A" 3 "another document" None None.

Definition graphAA : EffectGraph string :=
  match Acyclicity.addNodes empty [rootA; secondA] with
  | Ok g => g
  | Err _ => empty
  end.

(** Lists the nodes the algebra was applied to below and at a node. *)
Definition collect (node : GraphNode string)
    (children : list (list (GraphNode string))) : list (GraphNode string) :=
  concat children ++ [node].

(** On that graph the fold of A asks for the fold of B and the fold of B
    for the fold of A: no amount of fuel lets [cata] return. *)
Lemma cata_cycle_diverges (algebra : GraphNode string → list nat → nat) fuel :
  cata fuel graphABA algebra = Err OutOfFuel.
Proof.
  assert (∀ fuel s, memo s !! "A" = None → memo s !! "B" = None →
            go fuel graphABA algebra "A" s = Err OutOfFuel
            ∧ go fuel graphABA algebra "B" s = Err OutOfFuel) as Hgo.
  { clear fuel. induction fuel as [|fuel IH]; intros s HA HB; [done|].
    destruct (IH s HA HB) as [IHA IHB]. split.
    - rewrite (go_step _ _ _ _ rootA) by done.
      change (getChildren graphABA "A") with [updatedNode empty childB].
      unfold all. change (id (updatedNode empty childB)) with "B".
      by rewrite IHB.
    - rewrite (go_step _ _ _ _ (updatedNode empty childB)) by done.
      change (getChildren graphABA "B") with [updatedNode graphAB backToA].
      unfold all. change (id (updatedNode graphAB backToA)) with "A".
      by rewrite IHA. }
  unfold cata, cataRun.
  change (getRoots graphABA) with [rootA]. unfold all.
  change (id rootA) with "A".
  destruct (Hgo fuel (mkFoldState (B:=nat) ∅ [])) as [-> _];
    [apply lookup_empty|apply lookup_empty|done].
Qed.

(** C6, counterexample: both graphs are built by [addNode] alone, with
    a repeated id.  On the first, where the node that repeats the id of A
    is a child of B, no fuel lets [cata] return.  On the second, where it
    is a second root, [cata] returns one result per root, and both are
    the fold of the first A: the algebra is never applied to the second
    root. *)
Lemma cata_repeated_id :
  Acyclicity.addNodes empty [rootA; childB; backToA] = Ok graphABA
  ∧ ¬ (∃ fuel results, cata fuel graphABA countPaths = Ok results)
  ∧ Acyclicity.addNodes empty [rootA; secondA] = Ok graphAA
  ∧ getRoots graphAA = [rootA; secondA]
  ∧ ∀ fuel, (λ '(rs, s), (rs, calls s)) <$> cataRun (S fuel) graphAA collect
            = Ok ([[rootA]; [rootA]], [rootA]).
Proof.
  split_and!.
  - reflexivity.
  - intros (fuel & results & Hrun). by rewrite cata_cycle_diverges in Hrun.
  - reflexivity.
  - reflexivity.
  - intros fuel. reflexivity.
Qed.
End Divergence.

Module FunctorLaws.
Import EffectGraph Invariant Acyclicity Functor Cycles Fold FoldBuilt Divergence.

Section Replay.
Context {B : Type}.
Implicit Types (G : Graph.t (GraphNode B) GraphEdge) (P Q : list (nat * nat)).

(** The next node index is in none of the three maps of the store. *)
Definition nextFree G : Prop :=
  JsMap.get (Graph.nodes G) (Graph.nextNodeIndex G) = None
  ∧ JsMap.get (Graph.adjacency G) (Graph.nextNodeIndex G) = None
  ∧ JsMap.get (Graph.reverseAdjacency G) (Graph.nextNodeIndex G) = None.

Lemma set_set_comm {V} (m : JsMap.t V) k1 k2 v1 v2 :
  is_Some (JsMap.get m k1) → JsMap.get m k2 = None →
  JsMap.set (JsMap.set m k2 v2) k1 v1 = JsMap.set (JsMap.set m k1 v1) k2 v2.
Proof.
  induction m as [|[k v] m IH]; simpl; [by intros []|].
  destruct (Nat.eqb_spec k k2) as [->|Hk2]; [done|].
  destruct (Nat.eqb_spec k k1) as [->|Hk1]; intros H1 H2; simpl.
  - rewrite Nat.eqb_refl. simpl.
    by destruct (Nat.eqb_spec k1 k2) as [->|_].
  - destruct (Nat.eqb_spec k k1) as [->|_]; [done|].
    destruct (Nat.eqb_spec k k2) as [->|_]; [done|].
    f_equal. by apply IH.
Qed.

Lemma push_set_comm (m : JsMap.t (list nat)) k e next :
  JsMap.get m next = None → k ≠ next →
  Graph.push (JsMap.set m next []) k e = JsMap.set (Graph.push m k e) next [].
Proof.
  intros Hfree Hne. unfold Graph.push. rewrite JsMap.get_set_ne by done.
  destruct (JsMap.get m k) as [l|] eqn:Hk; [|done].
  apply set_set_comm; [by rewrite Hk|done].
Qed.

Lemma addEdges_app G P Q :
  addEdges G (P ++ Q) = (G1 ← addEdges G P; addEdges G1 Q).
Proof.
  unfold addEdges. rewrite foldl_app.
  destruct (foldl addEdgeStep (Ok G) P) as [G1|e]; [done|].
  simpl. by apply foldl_Err.
Qed.

Lemma addEdges_cons G s t P :
  addEdges G ((s, t) :: P)
  = ('(G1, _) ← Graph.addEdge G s t child; addEdges G1 P).
Proof.
  unfold addEdges. simpl.
  destruct (Graph.addEdge G s t child) as [[G1 e]|e]; [done|].
  simpl. by apply foldl_Err.
Qed.

Lemma addEdge_addNode G s t n G1 e :
  nextFree G → Graph.addEdge G s t child = Ok (G1, e) →
  Graph.addEdge (Graph.addNode G n).1 s t child = Ok ((Graph.addNode G1 n).1, e)
  ∧ nextFree G1.
Proof.
  intros (Hn & Ha & Hr). unfold Graph.addEdge, JsMap.has. simpl.
  set (next := Graph.nextNodeIndex G) in *.
  destruct (JsMap.get (Graph.nodes G) s) as [ns|] eqn:Hs; [|done].
  destruct (JsMap.get (Graph.nodes G) t) as [nt|] eqn:Ht; [|done]. simpl.
  assert (s ≠ next) as Hsn by (intros ->; congruence).
  assert (t ≠ next) as Htn by (intros ->; congruence).
  rewrite !JsMap.get_set_ne by done. rewrite Hs, Ht. simpl.
  intros [= <- <-]. simpl. fold next. split.
  - by rewrite !push_set_comm by done.
  - split_and!; simpl; fold next; [done| |].
    + rewrite get_push. by rewrite decide_False, Ha by done.
    + rewrite get_push. by rewrite decide_False, Hr by done.
Qed.

(** Storing a node and then adding edges between older nodes gives what
    adding the edges and then storing the node gives. *)
Lemma addEdges_addNode P : ∀ G G1 n,
  nextFree G → addEdges G P = Ok G1 →
  addEdges (Graph.addNode G n).1 P = Ok (Graph.addNode G1 n).1.
Proof.
  induction P as [|[s t] P IH]; intros G G1 n Hfree.
  - by intros [= <-].
  - rewrite !addEdges_cons.
    destruct (Graph.addEdge G s t child) as [[G2 e]|e] eqn:Hedge; [|done].
    destruct (addEdge_addNode G s t n G2 e Hfree Hedge) as [-> Hfree2].
    simpl. by apply IH.
Qed.
End Replay.

Section Identity.
Context {A : Type}.
Implicit Types (g : EffectGraph A) (node : GraphNode A).

(** The two id maps are inverse to each other. *)
Definition inverse g : Prop :=
  ∀ k i, indexToNodeId g !! k = Some i ↔ nodeIdToIndex g !! i = Some k.

(** A graph that storing its nodes and then adding its edges, in store
    order, reproduces, with the id maps that the store order gives. *)
Record canonical g : Prop := mkCanonical {
  can_wf : wf g;
  can_replay :
    addEdges (mappedStore (λ x, x) (Graph.nodes (graph g)))
             (endpoints (Graph.edges (graph g))) = Ok (graph g);
  can_ids : nodeMapOf (Graph.nodes (graph g)) = nodeIdToIndex g;
  can_inverse : inverse g
}.

Lemma swapped_lookup (m : gmap NodeId nat) k i :
  (∀ i j k, m !! i = Some k → m !! j = Some k → i = j) →
  swapped m !! k = Some i ↔ m !! i = Some k.
Proof.
  intros Hinj. unfold swapped. split.
  - intros Hk%elem_of_list_to_map_2.
    apply list_elem_of_fmap in Hk as ([i' k'] & [= -> ->] & Hin).
    by apply elem_of_map_to_list.
  - intros Hi. apply elem_of_list_to_map_1.
    + rewrite <-list_fmap_compose.
      apply NoDup_fmap_2_strong; [|apply NoDup_map_to_list].
      intros [i1 k1] [i2 k2] H1%elem_of_map_to_list H2%elem_of_map_to_list.
      simpl. intros ->. f_equal. by eapply Hinj.
    + apply list_elem_of_fmap. exists (i, k). split; [done|].
      by apply elem_of_map_to_list.
Qed.

Lemma inverse_swapped g :
  inverse g → swapped (nodeIdToIndex g) = indexToNodeId g.
Proof.
  intros Hinv. apply map_eq. intros k. apply option_eq. intros i.
  rewrite swapped_lookup; [symmetry; apply Hinv|].
  intros i1 i2 k' H1 H2. apply Hinv in H1, H2. congruence.
Qed.

Lemma canonical_map_id g : canonical g → map g (λ x, x) = Ok g.
Proof.
  intros [Hwf Hreplay Hids Hinv].
  rewrite map_spec, (relabel_wf g Hwf). simpl. rewrite Hreplay. simpl.
  rewrite Hids, (inverse_swapped g Hinv). by destruct g.
Qed.

Lemma mappedStore_snoc (l : JsMap.t (GraphNode A)) k n :
  mappedStore (λ x, x) (l ++ [(k, n)])
  = (Graph.addNode (mappedStore (λ x, x) l) n).1.
Proof.
  unfold mappedStore, Graph.addNode. simpl.
  rewrite !emptyLists_S, length_app, Nat.add_1_r. simpl. f_equal.
  rewrite JsMap.set_fresh.
  - unfold denseNodes. rewrite imap_app. simpl.
    by rewrite Nat.add_0_r, mapNode_id.
  - eapply JsMap.get_ge_None; [apply denseNodes_keys|lia].
Qed.

Lemma mappedStore_nextFree (l : JsMap.t (GraphNode A)) :
  nextFree (mappedStore (λ x, x) l).
Proof.
  split_and!; simpl.
  - eapply JsMap.get_ge_None; [apply denseNodes_keys|lia].
  - eapply JsMap.get_ge_None; [apply emptyLists_keys|lia].
  - eapply JsMap.get_ge_None; [apply emptyLists_keys|lia].
Qed.

Lemma canonical_empty : canonical (@empty A).
Proof.
  split; [apply wf_empty|done|done|].
  intros k i. simpl. by rewrite !lookup_empty.
Qed.

Lemma canonical_singleton i t (d : A) : canonical (singleton i t d).
Proof.
  split; [apply wf_singleton|done|done|].
  intros k j. simpl. rewrite !lookup_singleton_Some. tauto.
Qed.

(** The graph and the id maps in what [addNode] returns. *)
Lemma addNode_parts g node g' :
  addNode g node = Ok g' →
  (match parentIndex g node with
   | Some pIdx =>
       fst <$> Graph.addEdge (Graph.addNode (graph g) (updatedNode g node)).1
                 pIdx (Graph.nextNodeIndex (graph g)) child
   | None => Ok (Graph.addNode (graph g) (updatedNode g node)).1
   end) = Ok (graph g')
  ∧ ∃ newNodeIndex rest,
      Graph.findNodes (graph g') (hasId (id node)) = newNodeIndex :: rest
      ∧ nodeIdToIndex g' = <[ id node := newNodeIndex ]> (nodeIdToIndex g)
      ∧ indexToNodeId g' = <[ newNodeIndex := id node ]> (indexToNodeId g).
Proof.
  unfold addNode, parentIndex. rewrite !id_updatedNode. simpl.
  destruct (parentId node) as [p|]; simpl.
  - destruct (nodeIdToIndex g !! p) as [pIdx|]; simpl.
    + destruct (Graph.addEdge _ pIdx _ child) as [[G e]|e]; simpl; [|done].
      destruct (Graph.findNodes G _) as [|k rest] eqn:Hfind; [done|].
      intros [= <-]. simpl. split; [done|]. by exists k, rest.
    + destruct (Graph.findNodes _ _) as [|k rest] eqn:Hfind; [done|].
      intros [= <-]. simpl. split; [done|]. by exists k, rest.
  - destruct (Graph.findNodes _ _) as [|k rest] eqn:Hfind; [done|].
    intros [= <-]. simpl. split; [done|]. by exists k, rest.
Qed.

(** [addNode] of a node with a new id keeps the graph canonical. *)
Lemma canonical_addNode g node g' :
  canonical g → nodeIdToIndex g !! id node = None →
  addNode g node = Ok g' → canonical g'.
Proof.
  intros [Hwf Hreplay Hids Hinv] Hfresh Hadd.
  destruct (addNode_wf g node Hwf) as (g2 & Hg2 & Hwf' & Hadded).
  assert (g2 = g') as -> by congruence. clear Hg2.
  pose proof (keys_length _ _ (wf_keys g Hwf)) as Hlen.
  destruct (addNode_parts g node g' Hadd)
    as (Hgraph & newNodeIndex & rest & Hfound & Hn2i & Hi2n).
  set (next := Graph.nextNodeIndex (graph g)) in *.
  set (u := updatedNode g node) in *.
  assert (newNodeIndex = next) as ->.
  { pose proof (wf_index g Hwf (id node)) as Hhead. rewrite Hfresh in Hhead.
    assert (hasId (id node) u = true) as Hself.
    { unfold hasId, u. rewrite id_updatedNode. by apply bool_decide_eq_true. }
    rewrite (findNodes_snoc (graph g) (graph g') next u) in Hfound
      by apply (added_nodes _ _ _ Hadded).
    rewrite Hself in Hfound.
    destruct (Graph.findNodes (graph g) (hasId (id node))); [|done].
    by injection Hfound as <- _. }
  split; [done| | |].
  - rewrite (added_nodes _ _ _ Hadded), (added_edges _ _ _ Hadded).
    fold next. fold u. rewrite mappedStore_snoc.
    unfold endpoints. rewrite fmap_app. fold (endpoints (Graph.edges (graph g))).
    rewrite addEdges_app.
    rewrite (addEdges_addNode _ _ (graph g) u); [|apply mappedStore_nextFree|done].
    simpl. rewrite <-Hgraph. unfold newEdges.
    destruct (parentIndex g node) as [pIdx|]; [|done]. simpl.
    unfold addEdges. simpl. done.
  - rewrite (added_nodes _ _ _ Hadded). fold next. fold u.
    rewrite nodeMapOf_snoc, Hids, Hn2i, Hlen. simpl. unfold u.
    by rewrite id_updatedNode.
  - intros k i. rewrite Hn2i, Hi2n.
    assert (indexToNodeId g !! next = None) as Hnext.
    { destruct (indexToNodeId g !! next) as [j|] eqn:Hj; [|done].
      apply Hinv in Hj. apply (wf_index_lt g _ _ Hwf) in Hj. fold next in Hj. lia. }
    destruct (decide (next = k)) as [<-|Hk]; destruct (decide (id node = i)) as [<-|Hi].
    + by rewrite !lookup_insert_eq.
    + rewrite lookup_insert_eq, lookup_insert_ne by done. split; [congruence|].
      intros Hi'. apply (wf_index_lt g _ _ Hwf) in Hi'. fold next in Hi'. lia.
    + rewrite lookup_insert_ne, lookup_insert_eq by done. split; [|congruence].
      intros Hk'. apply Hinv in Hk'. congruence.
    + rewrite !lookup_insert_ne by done. apply Hinv.
Qed.

Lemma builtFresh_canonical g : builtFresh g → canonical g.
Proof.
  induction 1 as [|i t d|g g' node _ IH Hfresh Hadd].
  - apply canonical_empty.
  - apply canonical_singleton.
  - by eapply canonical_addNode.
Qed.
End Identity.

(** C8, as amended: for every graph built from [empty] or [singleton]
    by [addNode] with an id that is new each time, [map] with the
    identity returns the graph itself: the same store, edges, adjacency
    and id maps.  For every graph of the shape [addNode] produces, also
    with a repeated id, it returns a graph with the nodes under the same
    indices and with the same edges, and whenever it returns, the stored
    nodes are the same in the same order.  For every graph and all [f]
    and [h], mapping with [f] and then with [h] returns what mapping with
    their composition returns, errors included. *)
Theorem map_functor_laws {A} :
  (∀ g : EffectGraph A, builtFresh g → map g (λ x, x) = Ok g)
  ∧ (∀ g : EffectGraph A, wf g →
     ∃ g', map g (λ x, x) = Ok g'
           ∧ Graph.nodes (graph g') = Graph.nodes (graph g)
           ∧ Graph.edges (graph g') = Graph.edges (graph g))
  ∧ (∀ (g g' : EffectGraph A), map g (λ x, x) = Ok g' → toArray g' = toArray g)
  ∧ (∀ {B C} (g : EffectGraph A) (f : A → B) (h : B → C),
       (g1 ← map g f; map g1 h) = map g (h ∘ f)).
Proof.
  split_and!.
  - intros g Hg. by apply canonical_map_id, builtFresh_canonical.
  - intros g Hwf. by apply map_id_wf.
  - intros g g'. apply map_id_toArray.
  - intros B C g f h. apply map_compose.
Qed.

Lemma graphAB_fresh : builtFresh graphAB.
Proof.
  eapply (fresh_addNode _ _ childB).
  - eapply (fresh_addNode empty _ rootA); [apply fresh_empty|done|reflexivity].
  - reflexivity.
  - reflexivity.
Defined.

(** C8, counterexample: the graph in which a third node repeats the id
    of A.  [map] with the identity returns a graph with the same stored
    nodes and edges in which the id A leads to the third node instead of
    the first: [getNode] and [getChildren] answer differently. *)
Lemma map_identity_repeated_id :
  ∃ g', map graphABA (λ x, x) = Ok g'
    ∧ toArray g' = toArray graphABA
    ∧ Graph.edges (graph g') = Graph.edges (graph graphABA)
    ∧ getNode graphABA "A" = Some rootA
    ∧ getNode g' "A" = Some (updatedNode graphAB backToA)
    ∧ id <$> getChildren graphABA "A" = ["B"]
    ∧ getChildren g' "A" = []
    ∧ g' ≠ graphABA.
Proof.
  eexists. split; [vm_compute; reflexivity|].
  split_and!; [by vm_compute..|].
  intros Heq. apply (f_equal (λ g, getNode g "A")) in Heq.
  vm_compute in Heq. discriminate.
Qed.

(** C8, witness: the identity law at the graph of A and B. *)
Lemma map_functor_laws_witness : map graphAB (λ x, x) = Ok graphAB.
Proof. apply (proj1 map_functor_laws graphAB graphAB_fresh). Defined.
End FunctorLaws.

Module CorpusFacts.
Import CorpusOps.

Definition addCounts (a b : Z) : option Z := Some (a + b).

(** Merging adds the counts of the terms both tables have and keeps the
    others. *)
Lemma mergeFrequencyMaps_union_with m1 m2 :
  mergeFrequencyMaps m1 m2 = union_with addCounts m1 m2.
Proof.
  unfold mergeFrequencyMaps.
  apply (map_fold_weak_ind (λ r m, r = union_with addCounts m1 m)).
  - by rewrite (right_id ∅ (union_with addCounts)).
  - intros term count m r Hm ->. apply map_eq. intros k.
    rewrite !lookup_union_with.
    destruct (decide (term = k)) as [<-|Hne].
    + rewrite !lookup_insert_eq, ?lookup_union_with, Hm.
      destruct (m1 !! term); simpl; unfold addCounts; f_equal; lia.
    + by rewrite !lookup_insert_ne, ?lookup_union_with by done.
Qed.

Global Instance mergeFrequencyMaps_comm : Comm (=) mergeFrequencyMaps.
Proof.
  intros m1 m2. rewrite !mergeFrequencyMaps_union_with.
  apply union_with_comm. intros _ x y _ _. unfold addCounts. f_equal. lia.
Qed.

Global Instance mergeFrequencyMaps_assoc : Assoc (=) mergeFrequencyMaps.
Proof.
  intros m1 m2 m3. rewrite !mergeFrequencyMaps_union_with.
  apply map_eq. intros k. rewrite !lookup_union_with.
  destruct (m1 !! k), (m2 !! k), (m3 !! k); simpl; unfold addCounts;
    try done; f_equal; lia.
Qed.

Global Instance mergeFrequencyMaps_left_id : LeftId (=) ∅ mergeFrequencyMaps.
Proof.
  intros m. rewrite mergeFrequencyMaps_union_with.
  apply (left_id ∅ (union_with addCounts)).
Qed.

Global Instance mergeFrequencyMaps_right_id : RightId (=) ∅ mergeFrequencyMaps.
Proof. intros m. unfold mergeFrequencyMaps. apply map_fold_empty. Qed.

Global Instance combineStatistics_assoc : Assoc (=) combineStatistics.
Proof.
  intros a b c. unfold combineStatistics. simpl.
  f_equal;
    first [lia | apply (assoc_L (∪)) | apply (assoc mergeFrequencyMaps)].
Qed.

Global Instance combineStatistics_comm : Comm (=) combineStatistics.
Proof.
  intros a b. unfold combineStatistics.
  f_equal;
    first [lia | apply (comm_L (∪)) | apply (comm mergeFrequencyMaps)].
Qed.

Global Instance combineStatistics_left_id :
  LeftId (=) emptyStatistics combineStatistics.
Proof.
  intros [dc tw ts tc v tf df]. unfold combineStatistics. simpl.
  f_equal;
    first [apply (left_id_L ∅ (∪)) | apply (left_id ∅ mergeFrequencyMaps)].
Qed.

Global Instance combineStatistics_right_id :
  RightId (=) emptyStatistics combineStatistics.
Proof.
  intros [dc tw ts tc v tf df]. unfold combineStatistics. simpl.
  f_equal;
    first [lia | apply (right_id_L ∅ (∪)) | apply (right_id ∅ mergeFrequencyMaps)].
Qed.

(** *** Batching *)



(** The monoid fold of a list of statistics. *)
Definition total (xs : list CorpusStatistics) : CorpusStatistics :=
  foldl combineStatistics emptyStatistics xs.

Lemma foldl_combine (a : CorpusStatistics) xs :
  foldl combineStatistics a xs = combineStatistics a (total xs).
Proof.
  unfold total. revert a. induction xs as [|x xs IH] using rev_ind; intros a.
  - simpl. by rewrite (right_id emptyStatistics combineStatistics).
  - rewrite !foldl_app. simpl. rewrite IH. symmetry. apply (assoc _).
Qed.

Lemma total_app xs ys : total (xs ++ ys) = combineStatistics (total xs) (total ys).
Proof. unfold total at 1. rewrite foldl_app. apply foldl_combine. Qed.

Section Aggregation.
Context (nlp : NLPService).

Lemma aggregateStatistics_total documents :
  aggregateStatistics nlp documents = total (extract nlp <$> documents).
Proof.
  unfold aggregateStatistics, total. generalize emptyStatistics.
  induction documents as [|doc documents IH]; intros a; simpl; [done|apply IH].
Qed.


End Aggregation.

(** A whitespace tokenizer, without stop words or stemming. *)
Fixpoint wordsFrom (current : string) (s : string) : list string :=
  match s with
  | EmptyString => if String.eqb current "" then [] else [current]
  | String c rest =>
      if Ascii.eqb c (Ascii.ascii_of_nat 32)
      then (if String.eqb current "" then [] else [current]) ++ wordsFrom "" rest
      else wordsFrom (current ++ String c "") rest
  end.

Definition whitespace : NLPService :=
  mkNLPService (λ s, [s]) (wordsFrom "") (λ ts, ts) (λ ts, ts).

Definition threeDocuments : list Document :=
  [mkDocument "doc-0" "the cat sat"; mkDocument "doc-1" "the dog ran";
   mkDocument "doc-2" "the cat ran"].

Example threeDocuments_frequencies :
  let stats := aggregateStatistics whitespace threeDocuments in
  documentCount stats = 3
  ∧ totalWords stats = 9
  ∧ documentFrequency stats !! "the" = Some 3
  ∧ documentFrequency stats !! "cat" = Some 2
  ∧ termFrequency stats !! "ran" = Some 2.
Proof. by vm_compute. Qed.

End CorpusFacts.

(** ** CorpusOps.ts: the counts as JavaScript numbers *)

(** The counts of a [CorpusStatistics] are JavaScript numbers, and [+]
    on numbers is exact only while the sum stays within 2^53.  [Numbers]
    gives [+] on the numbers whose value is an integer: the exact sum,
    rounded to the nearest number, to the one with the even significand
    when two are equally near.  A number has a significand of 53 bits, so
    an integer of more bits keeps its leading 53.  The numbers end below
    2^1024: a sum that rounds to that magnitude or more is [Infinity] in
    JavaScript, and the integer [add] gives then stands for it.  Nothing
    below adds to such a sum. *)
Module Numbers.

Definition maxSafe : Z := 2 ^ 53.

Definition roundToNumber (z : Z) : Z :=
  let m := Z.abs z in
  if decide (m ≤ maxSafe) then z
  else
    let ulp := 2 ^ (Z.log2 m - 52) in
    let q := m / ulp in
    let r := m mod ulp in
    let q' :=
      if decide (2 * r < ulp) then q
      else if decide (ulp < 2 * r) then q + 1
      else if Z.even q then q else q + 1 in
    Z.sgn z * (q' * ulp).

(** [x + y] *)
Definition add (x y : Z) : Z := roundToNumber (x + y).

Global Arguments add : simpl never.

(** The integer [z] is the value of a number: it has no more than 53
    significant bits and is below 2^1024 in magnitude. *)
Definition isNumber (z : Z) : Prop :=
  roundToNumber z = z ∧ Z.abs z < 2 ^ 1024.

Lemma roundToNumber_safe z : - maxSafe ≤ z ≤ maxSafe → roundToNumber z = z.
Proof. intros Hz. unfold roundToNumber. rewrite decide_True; [done|lia]. Qed.

Lemma add_exact x y : - maxSafe ≤ x + y ≤ maxSafe → add x y = x + y.
Proof. apply roundToNumber_safe. Qed.

Lemma add_comm x y : add x y = add y x.
Proof. unfold add. by rewrite Z.add_comm. Qed.

Lemma add_0_l x : isNumber x → add 0 x = x.
Proof. intros [Hx _]. unfold add. by rewrite Z.add_0_l. Qed.

Lemma add_0_r x : isNumber x → add x 0 = x.
Proof. intros [Hx _]. unfold add. by rewrite Z.add_0_r. Qed.

Lemma isNumber_safe z : 0 ≤ z ≤ maxSafe → isNumber z.
Proof.
  intros Hz. split; [apply roundToNumber_safe; lia|].
  assert (maxSafe < 2 ^ 1024) by done. lia.
Qed.

(** The first integers that are not numbers, and the sums that round. *)
Example add_rounds :
  add (2 ^ 53) 1 = 2 ^ 53 ∧ add (2 ^ 53) 2 = 2 ^ 53 + 2
  ∧ add (2 ^ 53) 3 = 2 ^ 53 + 4 ∧ add (2 ^ 54) 2 = 2 ^ 54
  ∧ add (- 2 ^ 53) (-1) = - 2 ^ 53.
Proof. by vm_compute. Qed.
End Numbers.

Module CorpusNumbers.
Import CorpusOps.

(** [result.set(term, (result.get(term) ?? 0) + count)] for every entry
    of [m2], starting from a copy of [m1]. *)
Definition mergeFrequencyMaps (m1 m2 : gmap string Z) : gmap string Z :=
  map_fold (λ term count result,
              <[ term := Numbers.add (default 0 (result !! term)) count ]> result)
           m1 m2.

Definition combineStatistics (s1 s2 : CorpusStatistics) : CorpusStatistics :=
  mkStatistics
    (Numbers.add (documentCount s1) (documentCount s2))
    (Numbers.add (totalWords s1) (totalWords s2))
    (Numbers.add (totalSentences s1) (totalSentences s2))
    (Numbers.add (totalChars s1) (totalChars s2))
    (vocabulary s1 ∪ vocabulary s2)
    (mergeFrequencyMaps (termFrequency s1) (termFrequency s2))
    (mergeFrequencyMaps (documentFrequency s1) (documentFrequency s2)).

Global Arguments mergeFrequencyMaps : simpl never.

(** Every count is the value of a number. *)
Definition numeric (s : CorpusStatistics) : Prop :=
  Numbers.isNumber (documentCount s) ∧ Numbers.isNumber (totalWords s)
  ∧ Numbers.isNumber (totalSentences s) ∧ Numbers.isNumber (totalChars s)
  ∧ map_Forall (λ _ count, Numbers.isNumber count) (termFrequency s)
  ∧ map_Forall (λ _ count, Numbers.isNumber count) (documentFrequency s).

(** No count is negative. *)
Definition counts (s : CorpusStatistics) : Prop :=
  0 ≤ documentCount s ∧ 0 ≤ totalWords s
  ∧ 0 ≤ totalSentences s ∧ 0 ≤ totalChars s
  ∧ map_Forall (λ _ count, 0 ≤ count) (termFrequency s)
  ∧ map_Forall (λ _ count, 0 ≤ count) (documentFrequency s).

(** The counts of [a], [b] and [c] add up to [bound] at most, field by
    field and term by term. *)
Definition within (bound : Z) (a b c : CorpusStatistics) : Prop :=
  documentCount a + documentCount b + documentCount c ≤ bound
  ∧ totalWords a + totalWords b + totalWords c ≤ bound
  ∧ totalSentences a + totalSentences b + totalSentences c ≤ bound
  ∧ totalChars a + totalChars b + totalChars c ≤ bound
  ∧ (∀ term, default 0 (termFrequency a !! term)
             + default 0 (termFrequency b !! term)
             + default 0 (termFrequency c !! term) ≤ bound)
  ∧ (∀ term, default 0 (documentFrequency a !! term)
             + default 0 (documentFrequency b !! term)
             + default 0 (documentFrequency c !! term) ≤ bound).

Lemma lookup_mergeFrequencyMaps m1 m2 term :
  mergeFrequencyMaps m1 m2 !! term
  = match m2 !! term with
    | Some count => Some (Numbers.add (default 0 (m1 !! term)) count)
    | None => m1 !! term
    end.
Proof.
  unfold mergeFrequencyMaps. revert term.
  apply (map_fold_weak_ind
           (λ r m, ∀ term,
              r !! term
              = match m !! term with
                | Some count => Some (Numbers.add (default 0 (m1 !! term)) count)
                | None => m1 !! term
                end)).
  - intros term. by rewrite lookup_empty.
  - intros t count m r Hm IH term.
    destruct (decide (t = term)) as [<-|Hne].
    + rewrite !lookup_insert_eq. by rewrite IH, Hm.
    + rewrite !lookup_insert_ne by done. apply IH.
Qed.

Lemma nonneg_default (m : gmap string Z) term :
  map_Forall (λ _ count, 0 ≤ count) m → 0 ≤ default 0 (m !! term).
Proof.
  intros Hm. destruct (m !! term) as [count|] eqn:Hc; simpl; [|done].
  by apply (Hm term).
Qed.

(** Replaces the sums that are within 2^53 by the exact ones. *)
Ltac exact_sums :=
  repeat match goal with
         | |- context [Numbers.add ?x ?y] =>
             rewrite (Numbers.add_exact x y) by lia
         end.

Section Tables.
Implicit Types (m : gmap string Z).

Lemma mergeFrequencyMaps_comm m1 m2 :
  map_Forall (λ _ count, Numbers.isNumber count) m1 →
  map_Forall (λ _ count, Numbers.isNumber count) m2 →
  mergeFrequencyMaps m1 m2 = mergeFrequencyMaps m2 m1.
Proof.
  intros H1 H2. apply map_eq. intros term. rewrite !lookup_mergeFrequencyMaps.
  destruct (m1 !! term) as [x|] eqn:Hx, (m2 !! term) as [y|] eqn:Hy; simpl.
  - by rewrite Numbers.add_comm.
  - by rewrite (Numbers.add_0_l x) by by apply (H1 term).
  - by rewrite (Numbers.add_0_l y) by by apply (H2 term).
  - done.
Qed.

Lemma mergeFrequencyMaps_empty_l m :
  map_Forall (λ _ count, Numbers.isNumber count) m →
  mergeFrequencyMaps ∅ m = m.
Proof.
  intros Hm. apply map_eq. intros term.
  rewrite lookup_mergeFrequencyMaps, lookup_empty.
  destruct (m !! term) as [x|] eqn:Hx; simpl; [|done].
  by rewrite (Numbers.add_0_l x) by by apply (Hm term).
Qed.

Lemma mergeFrequencyMaps_empty_r m : mergeFrequencyMaps m ∅ = m.
Proof. unfold mergeFrequencyMaps. apply map_fold_empty. Qed.

Lemma mergeFrequencyMaps_assoc m1 m2 m3 :
  map_Forall (λ _ count, 0 ≤ count) m1 →
  map_Forall (λ _ count, 0 ≤ count) m2 →
  map_Forall (λ _ count, 0 ≤ count) m3 →
  (∀ term, default 0 (m1 !! term) + default 0 (m2 !! term)
           + default 0 (m3 !! term) ≤ Numbers.maxSafe) →
  mergeFrequencyMaps (mergeFrequencyMaps m1 m2) m3
  = mergeFrequencyMaps m1 (mergeFrequencyMaps m2 m3).
Proof.
  intros H1 H2 H3 Hsum. apply map_eq. intros term.
  rewrite !lookup_mergeFrequencyMaps.
  pose proof (nonneg_default m1 term H1) as Hx.
  pose proof (nonneg_default m2 term H2) as Hy.
  pose proof (nonneg_default m3 term H3) as Hz.
  specialize (Hsum term).
  assert (0 ≤ Numbers.maxSafe) as Hsafe by done.
  destruct (m1 !! term) as [x|], (m2 !! term) as [y|], (m3 !! term) as [z|];
    simpl in *; try done; exact_sums; f_equal; lia.
Qed.

(** Within 2^53 the merge is the exact one. *)
Lemma mergeFrequencyMaps_exact m1 m2 :
  map_Forall (λ _ count, 0 ≤ count) m1 →
  map_Forall (λ _ count, 0 ≤ count) m2 →
  (∀ term, default 0 (m1 !! term) + default 0 (m2 !! term) ≤ Numbers.maxSafe) →
  mergeFrequencyMaps m1 m2 = CorpusOps.mergeFrequencyMaps m1 m2.
Proof.
  intros H1 H2 Hsum. apply map_eq. intros term.
  rewrite lookup_mergeFrequencyMaps, CorpusFacts.mergeFrequencyMaps_union_with.
  rewrite lookup_union_with.
  pose proof (nonneg_default m1 term H1) as Hx.
  pose proof (nonneg_default m2 term H2) as Hy.
  specialize (Hsum term).
  destruct (m1 !! term) as [x|], (m2 !! term) as [y|]; simpl in *; try done;
    unfold CorpusFacts.addCounts; exact_sums; f_equal; lia.
Qed.
End Tables.

(** Within 2^53 [combineStatistics] is the exact sum that [CorpusOps]
    works with. *)
Lemma combineStatistics_exact a b :
  counts a → counts b → within Numbers.maxSafe a b emptyStatistics →
  combineStatistics a b = CorpusOps.combineStatistics a b.
Proof.
  intros (Ha1 & Ha2 & Ha3 & Ha4 & Ha5 & Ha6) (Hb1 & Hb2 & Hb3 & Hb4 & Hb5 & Hb6)
         (H1 & H2 & H3 & H4 & H5 & H6).
  simpl in *. unfold combineStatistics, CorpusOps.combineStatistics.
  f_equal; try (apply Numbers.add_exact; lia).
  - apply mergeFrequencyMaps_exact; [done|done|].
    intros term. specialize (H5 term). rewrite lookup_empty in H5. simpl in H5. lia.
  - apply mergeFrequencyMaps_exact; [done|done|].
    intros term. specialize (H6 term). rewrite lookup_empty in H6. simpl in H6. lia.
Qed.

(** C3, as amended: on statistics whose counts are values of numbers,
    [combineStatistics] is commutative and [emptyStatistics] is its
    identity on both sides; it is associative on statistics whose counts
    are not negative and add up, field by field and term by term, to
    2^53 at most. *)
Theorem combineStatistics_safe_monoid :
  (∀ a b, numeric a → numeric b → combineStatistics a b = combineStatistics b a)
  ∧ (∀ a, numeric a →
       combineStatistics emptyStatistics a = a
       ∧ combineStatistics a emptyStatistics = a)
  ∧ (∀ a b c, counts a → counts b → counts c → within (2 ^ 53) a b c →
       combineStatistics (combineStatistics a b) c
       = combineStatistics a (combineStatistics b c)).
Proof.
  split_and!.
  - intros a b (Ha1 & Ha2 & Ha3 & Ha4 & Ha5 & Ha6)
               (Hb1 & Hb2 & Hb3 & Hb4 & Hb5 & Hb6).
    unfold combineStatistics.
    f_equal; first [apply Numbers.add_comm | apply (comm_L (∪))
                   | by apply mergeFrequencyMaps_comm].
  - intros [dc tw ts tc v tf df] (H1 & H2 & H3 & H4 & H5 & H6).
    simpl in *. unfold combineStatistics. simpl. split.
    + f_equal; first [by apply Numbers.add_0_l | apply (left_id_L ∅ (∪))
                     | by apply mergeFrequencyMaps_empty_l].
    + f_equal; first [by apply Numbers.add_0_r | apply (right_id_L ∅ (∪))
                     | apply mergeFrequencyMaps_empty_r].
  - intros a b c (Ha1 & Ha2 & Ha3 & Ha4 & Ha5 & Ha6)
                 (Hb1 & Hb2 & Hb3 & Hb4 & Hb5 & Hb6)
                 (Hc1 & Hc2 & Hc3 & Hc4 & Hc5 & Hc6)
                 (H1 & H2 & H3 & H4 & H5 & H6).
    change (2 ^ 53) with Numbers.maxSafe in *.
    assert (0 ≤ Numbers.maxSafe) as Hsafe by done.
    unfold combineStatistics. simpl.
    f_equal;
      first [ exact_sums; lia
            | symmetry; apply (assoc_L (∪))
            | by apply mergeFrequencyMaps_assoc ].
Qed.

(** Statistics with one count. *)
Definition documents (n : Z) : CorpusStatistics := mkStatistics n 0 0 0 ∅ ∅ ∅.

(** C3, counterexample: statistics of 2^53 documents and twice of one
    document.  Combined from the left the count stays 2^53, combined
    from the right it is 2^53 + 2. *)
Lemma combineStatistics_not_associative :
  numeric (documents (2 ^ 53)) ∧ numeric (documents 1)
  ∧ documentCount
      (combineStatistics (combineStatistics (documents (2 ^ 53)) (documents 1))
         (documents 1)) = 2 ^ 53
  ∧ documentCount
      (combineStatistics (documents (2 ^ 53))
         (combineStatistics (documents 1) (documents 1))) = 2 ^ 53 + 2
  ∧ combineStatistics (combineStatistics (documents (2 ^ 53)) (documents 1))
      (documents 1)
    ≠ combineStatistics (documents (2 ^ 53))
        (combineStatistics (documents 1) (documents 1)).
Proof.
  assert (∀ n, 0 ≤ n ≤ Numbers.maxSafe → numeric (documents n)) as Hnumeric.
  { intros n Hn. unfold numeric, documents. simpl.
    split_and!; try apply map_Forall_empty; by apply Numbers.isNumber_safe. }
  split_and!.
  - by apply Hnumeric.
  - by apply Hnumeric.
  - by vm_compute.
  - by vm_compute.
  - intros Heq. apply (f_equal documentCount) in Heq. by vm_compute in Heq.
Qed.

(** Three small statistics. *)
Definition cats : CorpusStatistics :=
  mkStatistics 1 2 1 9 {[ "cat" ]} {[ "cat" := 2 ]} {[ "cat" := 1 ]}.
Definition cat : CorpusStatistics :=
  mkStatistics 1 1 1 3 {[ "cat" ]} {[ "cat" := 1 ]} {[ "cat" := 1 ]}.
Definition dogs : CorpusStatistics :=
  mkStatistics 1 4 2 20 {[ "dog" ]} {[ "dog" := 4 ]} {[ "dog" := 1 ]}.

(** C3, witness: the three small statistics. *)
Lemma combineStatistics_safe_monoid_witness :
  combineStatistics cats dogs = combineStatistics dogs cats
  ∧ combineStatistics emptyStatistics cats = cats
  ∧ combineStatistics cats emptyStatistics = cats
  ∧ combineStatistics (combineStatistics cats cat) dogs
    = combineStatistics cats (combineStatistics cat dogs).
Proof.
  assert (∀ z, 0 ≤ z ≤ 20 → Numbers.isNumber z) as Hsmall.
  { intros z Hz. apply Numbers.isNumber_safe.
    assert (20 ≤ Numbers.maxSafe) by done. lia. }
  assert (numeric cats) as Hcats.
  { unfold numeric, cats. simpl.
    split_and!; try apply map_Forall_singleton; apply Hsmall; lia. }
  assert (numeric dogs) as Hdogs.
  { unfold numeric, dogs. simpl.
    split_and!; try apply map_Forall_singleton; apply Hsmall; lia. }
  split; [exact (proj1 combineStatistics_safe_monoid cats dogs Hcats Hdogs)|].
  split; [exact (proj1 (proj1 (proj2 combineStatistics_safe_monoid) cats Hcats))|].
  split; [exact (proj2 (proj1 (proj2 combineStatistics_safe_monoid) cats Hcats))|].
  apply (proj2 (proj2 combineStatistics_safe_monoid) cats cat dogs).
  - unfold counts, cats. simpl. split_and!; try done;
      by apply map_Forall_singleton.
  - unfold counts, cat. simpl. split_and!; try done;
      by apply map_Forall_singleton.
  - unfold counts, dogs. simpl. split_and!; try done;
      by apply map_Forall_singleton.
  - assert (∀ x y z : Z, 0 ≤ x → 0 ≤ y → 0 ≤ z → x + y + z ≤ 9 →
              ∀ term,
                default 0 (({[ "cat" := x ]} : gmap string Z) !! term)
                + default 0 (({[ "cat" := y ]} : gmap string Z) !! term)
                + default 0 (({[ "dog" := z ]} : gmap string Z) !! term)
                ≤ 2 ^ 53) as Hterms.
    { intros x y z Hx Hy Hz Hxyz term.
      destruct (decide (term = "cat")) as [->|Hcat];
        [|destruct (decide (term = "dog")) as [->|Hdog]].
      - rewrite !lookup_singleton_eq, lookup_singleton_ne by done. simpl. lia.
      - rewrite !lookup_singleton_ne, lookup_singleton_eq by done. simpl. lia.
      - rewrite !lookup_singleton_ne by done. simpl. lia. }
    split_and!; [done|done|done|done| |].
    + apply (Hterms 2 1 4); lia.
    + apply (Hterms 1 1 1); lia.
Defined.
End CorpusNumbers.

Module Persistence.
Import EffectGraph Store.

Section Frame.
Context {A : Type}.
Implicit Types (h old : list (Obj A)) (o : Obj A) (b : nat).

(** The references an object holds all lie at or above [b]. *)
Definition closedAbove b o : Prop :=
  match o with
  | GraphObj n e a r _ _ _ _ => (b ≤ n ∧ b ≤ e ∧ b ≤ a ∧ b ≤ r)%nat
  | AdjacencyMap m => Forall (λ entry, (b ≤ entry.2)%nat) m
  | EffectGraphObj g _ _ => (b ≤ g)%nat
  | NodeMap _ | EdgeMap _ | Array _ => True
  end.

(** [h] still holds [old] unchanged in its first locations, and what was
    allocated since refers to nothing older. *)
Record extendsHeap old h : Prop := mkExtendsHeap {
  ext_old : take (length old) h = old;
  ext_new : ∀ l o, (length old ≤ l)%nat → h !! l = Some o →
    closedAbove (length old) o
}.

Lemma extendsHeap_refl h : extendsHeap h h.
Proof.
  split; [apply firstn_all|].
  intros l o Hl Ho. apply lookup_lt_Some in Ho. lia.
Qed.

Lemma extendsHeap_length old h : extendsHeap old h → (length old ≤ length h)%nat.
Proof.
  intros [Hold _]. apply (f_equal length) in Hold.
  rewrite length_take in Hold. lia.
Qed.

Lemma extendsHeap_lookup old h l o :
  extendsHeap old h → old !! l = Some o → h !! l = Some o.
Proof.
  intros [Hold _] Ho. rewrite <-Hold in Ho.
  rewrite lookup_take_Some in Ho. by destruct Ho.
Qed.

(** Under the invariant, [c] keeps it and its results satisfy [Φ]. *)
Definition triple {X} old (c : Prog A X) (Φ : X → Prop) : Prop :=
  ∀ h, extendsHeap old h →
    extendsHeap old (c h).2 ∧ ∀ x, (c h).1 = Ok x → Φ x.

Lemma triple_ret {X} old (x : X) (Φ : X → Prop) : Φ x → triple old (mret x) Φ.
Proof. intros Hx h Hh. split; [done|]. by intros ? [= <-]. Qed.

Lemma triple_throw {X} old e (Φ : X → Prop) : triple old (throw e) Φ.
Proof. intros h Hh. split; [done|]. by intros ? [=]. Qed.

Lemma triple_bind {X Y} old (c : Prog A X) (k : X → Prog A Y) Φ Ψ :
  triple old c Φ → (∀ x, Φ x → triple old (k x) Ψ) → triple old (c ≫= k) Ψ.
Proof.
  intros Hc Hk h Hh. unfold mbind, Prog_bind.
  destruct (Hc h Hh) as [Hh' Hx]. destruct (c h) as [[x|e] h']; simpl in *.
  - by apply Hk; [apply Hx|].
  - split; [done|]. by intros ? [=].
Qed.

Lemma triple_weaken {X} old (c : Prog A X) (Φ Ψ : X → Prop) :
  triple old c Φ → (∀ x, Φ x → Ψ x) → triple old c Ψ.
Proof. intros Hc HΦ h Hh. destruct (Hc h Hh) as [? Hx]. split; [done|]. eauto. Qed.

Lemma triple_alloc old o :
  closedAbove (length old) o →
  triple old (alloc o) (λ l, (length old ≤ l)%nat).
Proof.
  intros Ho h Hh. pose proof (extendsHeap_length _ _ Hh) as Hlen.
  unfold alloc. simpl. split; [split|].
  - rewrite take_app_le by done. apply Hh.
  - intros l o' Hl. rewrite lookup_app_Some.
    intros [Hin|[_ Hin]]; [by eapply (ext_new old h Hh)|].
    apply list_lookup_singleton_Some in Hin as [_ <-]. done.
  - intros x [= <-]. done.
Qed.

Lemma triple_store old l o :
  (length old ≤ l)%nat → closedAbove (length old) o →
  triple old (store l o) (λ _, True).
Proof.
  intros Hl Ho h Hh. unfold store. simpl. split; [split|done].
  - rewrite take_insert_ge by done. apply Hh.
  - intros l' o' Hl'. destruct (decide (l = l')) as [<-|Hne].
    + intros Hin. apply list_lookup_insert_Some in Hin as [(_ & <- & _)|[? _]]; done.
    + rewrite list_lookup_insert_ne by done. by apply (ext_new old h Hh).
Qed.

(** Reads change nothing; a read at or above the mark returns an object
    whose references are at or above it. *)
Lemma triple_loadNodes old l : triple old (loadNodes l) (λ _, True).
Proof. intros h Hh. unfold loadNodes. by repeat case_match. Qed.

Lemma triple_loadEdges old l : triple old (loadEdges l) (λ _, True).
Proof. intros h Hh. unfold loadEdges. by repeat case_match. Qed.

Lemma triple_loadArray old l : triple old (loadArray l) (λ _, True).
Proof. intros h Hh. unfold loadArray. by repeat case_match. Qed.

Lemma triple_loadGraph_any old l : triple old (loadGraph l) (λ _, True).
Proof. intros h Hh. unfold loadGraph. by repeat case_match. Qed.

Lemma triple_loadAdjacency_any old l : triple old (loadAdjacency l) (λ _, True).
Proof. intros h Hh. unfold loadAdjacency. by repeat case_match. Qed.

Definition fieldsAbove b (G : GraphFields) : Prop :=
  (b ≤ nodes G ∧ b ≤ edges G ∧ b ≤ adjacency G ∧ b ≤ reverseAdjacency G)%nat.

Lemma triple_loadGraph old l :
  (length old ≤ l)%nat → triple old (loadGraph l) (fieldsAbove (length old)).
Proof.
  intros Hl h Hh. unfold loadGraph.
  destruct (h !! l) as [[]|] eqn:Ho; simpl; (split; [done|]);
    try (by intros ? [=]).
  intros x [= <-]. exact (ext_new old h Hh l _ Hl Ho).
Qed.

Lemma triple_loadAdjacency old l :
  (length old ≤ l)%nat →
  triple old (loadAdjacency l) (Forall (λ entry, (length old ≤ entry.2)%nat)).
Proof.
  intros Hl h Hh. unfold loadAdjacency.
  destruct (h !! l) as [[]|] eqn:Ho; simpl; (split; [done|]);
    try (by intros ? [=]).
  intros x [= <-]. exact (ext_new old h Hh l _ Hl Ho).
Qed.

Lemma triple_loadEffectGraph old l : triple old (loadEffectGraph l) (λ _, True).
Proof. intros h Hh. unfold loadEffectGraph. by repeat case_match. Qed.

Lemma closedAbove_set b (adj : JsMap.t loc) k l :
  Forall (λ entry, (b ≤ entry.2)%nat) adj → (b ≤ l)%nat →
  Forall (λ entry, (b ≤ entry.2)%nat) (JsMap.set adj k l).
Proof.
  intros Hadj Hl. induction Hadj as [|[k' l'] adj Hl' Hadj IH]; simpl.
  - by constructor.
  - destruct (Nat.eqb k' k); by constructor.
Qed.

Lemma triple_cloneLists old entries :
  triple old (cloneLists entries) (Forall (λ entry, (length old ≤ entry.2)%nat)).
Proof.
  induction entries as [|[k l] entries IH]; simpl.
  - by apply triple_ret.
  - eapply triple_bind; [apply triple_loadArray|]. intros a _.
    eapply triple_bind; [by apply triple_alloc|]. intros l' Hl'.
    eapply triple_bind; [apply IH|]. intros rest Hrest.
    apply triple_ret. by constructor.
Qed.

Lemma triple_beginMutation old graph :
  triple old (beginMutation graph) (λ m, (length old ≤ m)%nat).
Proof.
  unfold beginMutation.
  eapply triple_bind; [apply triple_loadGraph_any|]. intros G _.
  eapply triple_bind; [apply triple_loadAdjacency_any|]. intros adj _.
  eapply triple_bind; [apply triple_cloneLists|]. intros adj' Hadj'.
  eapply triple_bind; [apply triple_loadAdjacency_any|]. intros radj _.
  eapply triple_bind; [apply triple_cloneLists|]. intros radj' Hradj'.
  eapply triple_bind; [apply triple_loadNodes|]. intros ns _.
  eapply triple_bind; [apply triple_loadEdges|]. intros es _.
  eapply triple_bind; [by apply triple_alloc|]. intros nodes' Hn.
  eapply triple_bind; [by apply triple_alloc|]. intros edges' He.
  eapply triple_bind; [by apply triple_alloc|]. intros adjacency' Ha.
  eapply triple_bind; [by apply triple_alloc|]. intros reverse' Hr.
  by apply triple_alloc.
Qed.

Lemma triple_endMutation old m :
  (length old ≤ m)%nat →
  triple old (endMutation m) (λ g, (length old ≤ g)%nat).
Proof.
  intros Hm. unfold endMutation.
  eapply triple_bind; [by apply triple_loadGraph|]. intros G HG.
  apply triple_alloc. exact HG.
Qed.

Lemma triple_addNode old m node :
  (length old ≤ m)%nat → triple old (addNode m node) (λ _, True).
Proof.
  intros Hm. unfold addNode.
  eapply triple_bind; [by apply triple_loadGraph|]. intros G (Hn & He & Ha & Hr).
  eapply triple_bind; [apply triple_loadNodes|]. intros ns _.
  eapply triple_bind; [by apply triple_store|]. intros _ _.
  eapply triple_bind; [by apply triple_alloc|]. intros out Hout.
  eapply triple_bind; [by apply triple_loadAdjacency|]. intros adj Hadj.
  eapply triple_bind; [apply triple_store; [done|by apply closedAbove_set]|].
  intros _ _.
  eapply triple_bind; [by apply triple_alloc|]. intros inc Hinc.
  eapply triple_bind; [by apply triple_loadAdjacency|]. intros radj Hradj.
  eapply triple_bind; [apply triple_store; [done|by apply closedAbove_set]|].
  intros _ _.
  eapply triple_bind; [by apply triple_store|]. intros _ _.
  by apply triple_ret.
Qed.

Lemma triple_push old l k e :
  (length old ≤ l)%nat → triple old (push l k e) (λ _, True).
Proof.
  intros Hl. unfold push.
  eapply triple_bind; [by apply triple_loadAdjacency|]. intros adj Hadj.
  destruct (JsMap.get adj k) as [list|] eqn:Hget; [|by apply triple_ret].
  apply JsMap.get_Some_elem in Hget.
  rewrite Forall_forall in Hadj. apply Hadj in Hget. simpl in Hget.
  eapply triple_bind; [apply triple_loadArray|]. intros a _.
  by apply triple_store.
Qed.

Lemma triple_addEdge old m src tgt :
  (length old ≤ m)%nat → triple old (addEdge m src tgt) (λ _, True).
Proof.
  intros Hm. unfold addEdge.
  eapply triple_bind; [by apply triple_loadGraph|]. intros G (Hn & He & Ha & Hr).
  eapply triple_bind; [apply triple_loadNodes|]. intros ns _.
  destruct (negb (JsMap.has ns src)); [apply triple_throw|].
  destruct (negb (JsMap.has ns tgt)); [apply triple_throw|].
  eapply triple_bind; [apply triple_loadEdges|]. intros es _.
  eapply triple_bind; [by apply triple_store|]. intros _ _.
  eapply triple_bind; [by apply triple_push|]. intros _ _.
  eapply triple_bind; [by apply triple_push|]. intros _ _.
  eapply triple_bind; [by apply triple_store|]. intros _ _.
  by apply triple_ret.
Qed.

Lemma triple_mutate old graph (f : loc → Prog A ()) :
  (∀ m, (length old ≤ m)%nat → triple old (f m) (λ _, True)) →
  triple old (mutate graph f) (λ g, (length old ≤ g)%nat).
Proof.
  intros Hf. unfold mutate.
  eapply triple_bind; [apply triple_beginMutation|]. intros m Hm.
  eapply triple_bind; [by apply Hf|]. intros _ _.
  by apply triple_endMutation.
Qed.

Lemma triple_getNode old graph i : triple old (getNode graph i) (λ _, True).
Proof.
  unfold getNode. eapply triple_bind; [apply triple_loadGraph_any|].
  intros G _. eapply triple_bind; [apply triple_loadNodes|]. intros ns _.
  by apply triple_ret.
Qed.

Lemma triple_findNodes old graph p : triple old (findNodes graph p) (λ _, True).
Proof.
  unfold findNodes. eapply triple_bind; [apply triple_loadGraph_any|].
  intros G _. eapply triple_bind; [apply triple_loadNodes|]. intros ns _.
  by apply triple_ret.
Qed.

Lemma triple_addNodeRef old effectGraph node :
  triple old (addNodeRef effectGraph node) (λ g, (length old ≤ g)%nat).
Proof.
  unfold addNodeRef.
  eapply triple_bind; [apply triple_loadEffectGraph|].
  intros [[graph n2i] i2n] _.
  eapply triple_bind with (Φ := λ _, True).
  { destruct (parentId node) as [p|]; [|by apply triple_ret].
    eapply triple_bind with (Φ := λ _, True); [|intros; by apply triple_ret].
    destruct (n2i !! p); [apply triple_getNode|by apply triple_ret]. }
  intros updated _.
  eapply triple_bind.
  { apply triple_mutate. intros m Hm.
    eapply triple_bind; [by apply triple_addNode|]. intros nodeIndex _.
    destruct (parentId node) as [p|]; [|by apply triple_ret].
    destruct (n2i !! p) as [pIdx|]; [|by apply triple_ret].
    eapply triple_bind; [by apply triple_addEdge|]. intros; by apply triple_ret. }
  intros newGraph HnewGraph.
  eapply triple_bind; [apply triple_findNodes|]. intros found _.
  destruct found as [|newNodeIndex found]; [apply triple_throw|].
  by apply triple_alloc.
Qed.

(** *** Reading through an old reference *)

Lemma readLists_frame old h entries r :
  extendsHeap old h → readLists old entries = Some r → readLists h entries = Some r.
Proof.
  intros Hh Hr. unfold readLists in *. apply mapM_Some_1 in Hr.
  apply mapM_Some_2. eapply Forall2_impl; [exact Hr|]. intros [k l] y. simpl.
  destruct (old !! l) as [o|] eqn:Ho; [|done].
  by rewrite (extendsHeap_lookup old h l o Hh Ho).
Qed.

Lemma readGraph_frame old h graph gr :
  extendsHeap old h → readGraph old graph = Some gr → readGraph h graph = Some gr.
Proof.
  intros Hh. unfold readGraph.
  destruct (old !! graph) as [[| | | |n e a r nn ne c mu|]|] eqn:Hg; try done.
  rewrite (extendsHeap_lookup old h _ _ Hh Hg).
  destruct (old !! n) as [[ns| | | | |]|] eqn:Hn; try done.
  destruct (old !! e) as [[|es| | | |]|] eqn:He; try done.
  destruct (old !! a) as [[| |adj| | |]|] eqn:Ha; try done.
  destruct (old !! r) as [[| |radj| | |]|] eqn:Hr; try done.
  rewrite (extendsHeap_lookup old h _ _ Hh Hn), (extendsHeap_lookup old h _ _ Hh He),
    (extendsHeap_lookup old h _ _ Hh Ha), (extendsHeap_lookup old h _ _ Hh Hr).
  destruct (readLists old adj) as [adj'|] eqn:Hadj; [|done].
  destruct (readLists old radj) as [radj'|] eqn:Hradj; [|done].
  by rewrite (readLists_frame old h _ _ Hh Hadj), (readLists_frame old h _ _ Hh Hradj).
Qed.

Lemma readEffectGraph_frame old h effectGraph g :
  extendsHeap old h →
  readEffectGraph old effectGraph = Some g → readEffectGraph h effectGraph = Some g.
Proof.
  intros Hh. unfold readEffectGraph.
  destruct (old !! effectGraph) as [[| | | | |gr n2i i2n]|] eqn:Hg; try done.
  rewrite (extendsHeap_lookup old h _ _ Hh Hg).
  destruct (readGraph old gr) as [G|] eqn:HG; [|done].
  by rewrite (readGraph_frame old h _ _ Hh HG).
Qed.

(** What the four queries of EffectGraph.ts answer on a reference. *)
Definition getNodeRef (h : list (Obj A)) (effectGraph : loc) (nodeId : NodeId) :=
  (λ g, EffectGraph.getNode g nodeId) <$> readEffectGraph h effectGraph.
Definition getChildrenRef (h : list (Obj A)) (effectGraph : loc) (nodeId : NodeId) :=
  (λ g, EffectGraph.getChildren g nodeId) <$> readEffectGraph h effectGraph.
Definition getRootsRef (h : list (Obj A)) (effectGraph : loc) :=
  EffectGraph.getRoots <$> readEffectGraph h effectGraph.
Definition sizeRef (h : list (Obj A)) (effectGraph : loc) :=
  EffectGraph.size <$> readEffectGraph h effectGraph.

End Frame.

(** *** What the call returns

    The frame above says what the call leaves alone.  What it computes
    is followed write by write: a run of a store program is the result
    and the store it ends in. *)

Section Run.
Context {A : Type}.
Implicit Types (h : list (Obj A)) (G : Graph.t (GraphNode A) GraphEdge).

Lemma run_bind {X Y} (c : Prog A X) (k : X → Prog A Y) h x h1 r :
  c h = (Ok x, h1) → k x h1 = r → (c ≫= k) h = r.
Proof. intros Hc Hk. unfold mbind, Prog_bind. by rewrite Hc. Qed.

Lemma run_bind_err {X Y} (c : Prog A X) (k : X → Prog A Y) h e h1 :
  c h = (Err e, h1) → (c ≫= k) h = (Err e, h1).
Proof. intros Hc. unfold mbind, Prog_bind. by rewrite Hc. Qed.

Lemma run_loadGraph h l n e a r nn ne c mu :
  h !! l = Some (GraphObj n e a r nn ne c mu) →
  loadGraph l h = (Ok (mkGraphFields n e a r nn ne c mu), h).
Proof. intros Hl. unfold loadGraph. by rewrite Hl. Qed.

Lemma run_loadNodes h l ns :
  h !! l = Some (NodeMap ns) → loadNodes l h = (Ok ns, h).
Proof. intros Hl. unfold loadNodes. by rewrite Hl. Qed.

Lemma run_loadEdges h l es :
  h !! l = Some (EdgeMap es) → loadEdges l h = (Ok es, h).
Proof. intros Hl. unfold loadEdges. by rewrite Hl. Qed.

Lemma run_loadAdjacency h l adj :
  h !! l = Some (AdjacencyMap adj) → loadAdjacency l h = (Ok adj, h).
Proof. intros Hl. unfold loadAdjacency. by rewrite Hl. Qed.

Lemma run_loadArray h l a :
  h !! l = Some (Array a) → loadArray l h = (Ok a, h).
Proof. intros Hl. unfold loadArray. by rewrite Hl. Qed.

Lemma run_loadEffectGraph h l g n2i i2n :
  h !! l = Some (EffectGraphObj g n2i i2n) →
  loadEffectGraph l h = (Ok (g, n2i, i2n), h).
Proof. intros Hl. unfold loadEffectGraph. by rewrite Hl. Qed.

(** *** Lists read through the store *)

Lemma readLists_cons h k l entries :
  readLists h ((k, l) :: entries)
  = match h !! l with
    | Some (Array a) => rest ← readLists h entries; Some ((k, a) :: rest)
    | _ => None
    end.
Proof.
  unfold readLists. csimpl.
  destruct (h !! l) as [[| | |a| |]|]; try done.
Qed.

Lemma readLists_ext h h' entries :
  (∀ entry, entry ∈ entries → h' !! entry.2 = h !! entry.2) →
  readLists h' entries = readLists h entries.
Proof.
  induction entries as [|[k l] entries IH]; intros Hsame; [done|].
  rewrite !readLists_cons.
  assert (h' !! l = h !! l) as -> by (apply (Hsame (k, l)); left).
  rewrite IH; [done|]. intros entry Hin. apply Hsame. by right.
Qed.

Lemma readLists_array h entries r k l :
  readLists h entries = Some r → (k, l) ∈ entries →
  ∃ a, h !! l = Some (Array a).
Proof.
  revert r. induction entries as [|[k' l'] entries IH]; intros r.
  - by intros _ ?%not_elem_of_nil.
  - rewrite readLists_cons.
    destruct (h !! l') as [[| | |a| |]|] eqn:Hl'; try done.
    destruct (readLists h entries) as [rest|] eqn:Hrest; [|done].
    intros _ [[= -> ->]|Hin]%elem_of_cons; [by exists a|by eapply IH].
Qed.

Lemma readLists_app h ext entries r :
  readLists h entries = Some r → readLists (h ++ ext) entries = Some r.
Proof.
  intros Hr. rewrite <-Hr. apply readLists_ext. intros [k l] Hin. simpl.
  destruct (readLists_array h entries r k l Hr Hin) as [a Ha].
  rewrite Ha. by apply lookup_app_l_Some.
Qed.

Lemma readLists_insert h entries l o :
  l ∉ (snd <$> entries) →
  readLists (<[ l := o ]> h) entries = readLists h entries.
Proof.
  intros Hl. apply readLists_ext. intros [k l'] Hin. simpl.
  apply list_lookup_insert_ne. intros ->. apply Hl.
  apply list_elem_of_fmap. by exists (k, l').
Qed.

Lemma readLists_get h entries r k :
  readLists h entries = Some r →
  match JsMap.get entries k with
  | Some l => ∃ a, h !! l = Some (Array a) ∧ JsMap.get r k = Some a
  | None => JsMap.get r k = None
  end.
Proof.
  revert r. induction entries as [|[k' l'] entries IH]; intros r.
  - by intros [= <-].
  - rewrite readLists_cons.
    destruct (h !! l') as [[| | |a| |]|] eqn:Hl'; try done.
    destruct (readLists h entries) as [rest|] eqn:Hrest; [|done].
    intros [= <-]. simpl. destruct (Nat.eqb k' k); [by exists a|by apply IH].
Qed.

Lemma get_Some_snd (entries : JsMap.t loc) k l :
  JsMap.get entries k = Some l → l ∈ (snd <$> entries).
Proof.
  intros Hg%JsMap.get_Some_elem. apply list_elem_of_fmap. by exists (k, l).
Qed.

Lemma readLists_set h entries r k l a :
  readLists h entries = Some r → h !! l = Some (Array a) →
  readLists h (JsMap.set entries k l) = Some (JsMap.set r k a).
Proof.
  intros Hr Hl. revert r Hr.
  induction entries as [|[k' l'] entries IH]; intros r.
  - intros [= <-]. cbn [JsMap.set]. by rewrite readLists_cons, Hl.
  - rewrite readLists_cons.
    destruct (h !! l') as [[| | |a'| |]|] eqn:Hl'; try done.
    destruct (readLists h entries) as [rest|] eqn:Hrest; [|done].
    intros [= <-]. cbn [JsMap.set]. destruct (Nat.eqb k' k).
    + by rewrite readLists_cons, Hl, Hrest.
    + by rewrite readLists_cons, Hl', (IH rest eq_refl).
Qed.

Lemma set_snd (entries : JsMap.t loc) k l x :
  x ∈ (snd <$> JsMap.set entries k l) → x = l ∨ x ∈ (snd <$> entries).
Proof.
  induction entries as [|[k' l'] entries IH]; simpl.
  - intros ->%list_elem_of_singleton. by left.
  - destruct (Nat.eqb k' k); simpl.
    + intros [->|Hin]%elem_of_cons; [by left|]. right. by right.
    + intros [->|Hin]%elem_of_cons; [right; left|].
      destruct (IH Hin) as [->|?]; [by left|]. right. by right.
Qed.

Lemma set_snd_NoDup (entries : JsMap.t loc) k l :
  NoDup (snd <$> entries) → l ∉ (snd <$> entries) →
  NoDup (snd <$> JsMap.set entries k l).
Proof.
  induction entries as [|[k' l'] entries IH]; simpl; intros Hnd Hl.
  - apply NoDup_singleton.
  - apply NoDup_cons in Hnd as [Hl' Hnd]. apply not_elem_of_cons in Hl as [Hne Hl].
    destruct (Nat.eqb k' k); simpl; apply NoDup_cons.
    + done.
    + split; [|by apply IH]. intros [->|Hin]%set_snd; done.
Qed.

(** [list.push(e)] on the array that [k] leads to. *)
Lemma readLists_push h entries r k l a e :
  readLists h entries = Some r → NoDup (snd <$> entries) →
  JsMap.get entries k = Some l → h !! l = Some (Array a) →
  readLists (<[ l := Array (a ++ [e]) ]> h) entries
  = Some (JsMap.set r k (a ++ [e])).
Proof.
  intros Hr Hnd Hk Hl. revert r Hr Hnd Hk.
  induction entries as [|[k' l'] entries IH]; intros r; [done|].
  rewrite readLists_cons.
  destruct (h !! l') as [[| | |a'| |]|] eqn:Hl'; try done.
  destruct (readLists h entries) as [rest|] eqn:Hrest; [|done].
  intros [= <-] [Hfirst Hnd]%NoDup_cons. cbn [JsMap.get JsMap.set].
  destruct (Nat.eqb k' k) eqn:Hkk.
  - apply Nat.eqb_eq in Hkk as ->. intros [= ->]. rewrite readLists_cons.
    rewrite list_lookup_insert_eq by (by eapply lookup_lt_Some).
    rewrite readLists_insert, Hrest by done.
    assert (a' = a) as -> by congruence. done.
  - intros Hk. assert (l' ≠ l) as Hne.
    { intros ->. apply Hfirst. by eapply get_Some_snd. }
    rewrite readLists_cons.
    rewrite list_lookup_insert_ne, Hl' by done.
    by rewrite (IH rest eq_refl Hnd Hk).
Qed.
End Run.

(** *** The graph a mutable reference holds *)

Section Refine.
Context {A : Type}.
Implicit Types (h : list (Obj A)) (G : Graph.t (GraphNode A) GraphEdge).

(** Where the parts of a graph object lie. *)
Record Places : Type := mkPlaces {
  atNodes : loc;
  atEdges : loc;
  atAdjacency : loc;
  atReverse : loc;
  outLists : JsMap.t loc;
  inLists : JsMap.t loc
}.

(** The store holds at [m] the graph [G], in objects at or above [b],
    and no array is shared between two lists of the graph. *)
Record holds h (b : nat) (m : loc) G (P : Places) (flag : bool) : Prop := mkHolds {
  holds_graph :
    h !! m = Some (GraphObj (atNodes P) (atEdges P) (atAdjacency P) (atReverse P)
                     (Graph.nextNodeIndex G) (Graph.nextEdgeIndex G)
                     (Graph.acyclicCache G) flag);
  holds_nodes : h !! atNodes P = Some (NodeMap (Graph.nodes G));
  holds_edges : h !! atEdges P = Some (EdgeMap (Graph.edges G));
  holds_adjacency : h !! atAdjacency P = Some (AdjacencyMap (outLists P));
  holds_reverse : h !! atReverse P = Some (AdjacencyMap (inLists P));
  holds_out : readLists h (outLists P) = Some (Graph.adjacency G);
  holds_in : readLists h (inLists P) = Some (Graph.reverseAdjacency G);
  holds_above :
    (b ≤ m ∧ b ≤ atNodes P ∧ b ≤ atEdges P ∧ b ≤ atAdjacency P
     ∧ b ≤ atReverse P)%nat
    ∧ Forall (λ entry, (b ≤ entry.2)%nat) (outLists P)
    ∧ Forall (λ entry, (b ≤ entry.2)%nat) (inLists P);
  holds_apart :
    atAdjacency P ≠ atReverse P
    ∧ NoDup ((snd <$> outLists P) ++ (snd <$> inLists P))
}.

Lemma holds_readGraph h b m G P flag :
  holds h b m G P flag → readGraph h m = Some G.
Proof.
  intros [Hm Hn He Ha Hr Hout Hin _ _]. unfold readGraph.
  rewrite Hm, Hn, He, Ha, Hr, Hout, Hin. by destruct G.
Qed.

(** An array among the lists is none of the other objects. *)
Lemma holds_array h b m G P flag l :
  holds h b m G P flag →
  l ∈ (snd <$> outLists P) ++ (snd <$> inLists P) →
  (∃ a, h !! l = Some (Array a))
  ∧ l ≠ m ∧ l ≠ atNodes P ∧ l ≠ atEdges P ∧ l ≠ atAdjacency P ∧ l ≠ atReverse P.
Proof.
  intros [Hm Hn He Ha Hr Hout Hin _ _] Hl.
  assert (∃ a, h !! l = Some (Array a)) as [a Hla].
  { apply elem_of_app in Hl as [Hl|Hl];
      apply list_elem_of_fmap in Hl as ([k l'] & -> & Hin'); simpl.
    - exact (readLists_array _ _ _ _ _ Hout Hin').
    - exact (readLists_array _ _ _ _ _ Hin Hin'). }
  split; [by exists a|]. split_and!; intros ->; congruence.
Qed.

Lemma take_insert_above h b l (o : Obj A) :
  (b ≤ l)%nat → take b (<[ l := o ]> h) = take b h.
Proof. intros Hl. by apply take_insert_ge. Qed.

Lemma take_app_above h b (ext : list (Obj A)) :
  (b ≤ length h)%nat → take b (h ++ ext) = take b h.
Proof. intros Hb. by apply take_app_le. Qed.

Lemma holds_distinct h b m G P flag :
  holds h b m G P flag →
  (m < length h ∧ atNodes P < length h ∧ atEdges P < length h
   ∧ atAdjacency P < length h ∧ atReverse P < length h)%nat
  ∧ m ≠ atNodes P ∧ m ≠ atEdges P ∧ m ≠ atAdjacency P ∧ m ≠ atReverse P
  ∧ atNodes P ≠ atEdges P ∧ atNodes P ≠ atAdjacency P ∧ atNodes P ≠ atReverse P
  ∧ atEdges P ≠ atAdjacency P ∧ atEdges P ≠ atReverse P
  ∧ atAdjacency P ≠ atReverse P.
Proof.
  intros [Hm Hn He Ha Hr _ _ _ [Hne _]].
  split; [split_and!; by eapply lookup_lt_Some|].
  split_and!; try done; intros Heq; rewrite Heq in *; congruence.
Qed.

Lemma holds_array_lt h b m G P flag l :
  holds h b m G P flag →
  l ∈ (snd <$> outLists P) ++ (snd <$> inLists P) → (l < length h)%nat.
Proof.
  intros Hh Hl. destruct (holds_array h b m G P flag l Hh Hl) as [[a Ha] _].
  by eapply lookup_lt_Some.
Qed.

(** [Graph.addNode] on the store does to the graph what it does to the
    value, and writes above [b] only. *)
Lemma addNode_holds h b m G P flag data :
  holds h b m G P flag →
  ∃ h' P', addNode m data h = (Ok (Graph.nextNodeIndex G), h')
    ∧ holds h' b m (Graph.addNode G data).1 P' flag
    ∧ take b h' = take b h ∧ (length h ≤ length h')%nat.
Proof.
  intros Hh.
  destruct (holds_distinct h b m G P flag Hh)
    as ((Lm & Ln & Le & La & Lr) & D1 & D2 & D3 & D4 & D5 & D6 & D7 & D8 & D9 & D10).
  pose proof (λ l, holds_array h b m G P flag l Hh) as Harr.
  pose proof (λ l, holds_array_lt h b m G P flag l Hh) as Harrlt.
  destruct Hh as [Hm Hn He Ha Hr Hout Hin ((Bm & Bn & Be & Ba & Br) & Bout & Bin)
                  [_ Hnd]].
  set (idx := Graph.nextNodeIndex G).
  set (h1 := <[ atNodes P := NodeMap (JsMap.set (Graph.nodes G) idx data) ]> h).
  set (h2 := h1 ++ [Array []]).
  set (h3 := <[ atAdjacency P
                := AdjacencyMap (JsMap.set (outLists P) idx (length h)) ]> h2).
  set (h4 := h3 ++ [Array []]).
  set (h5 := <[ atReverse P
                := AdjacencyMap (JsMap.set (inLists P) idx (S (length h))) ]> h4).
  set (h6 := <[ m := GraphObj (atNodes P) (atEdges P) (atAdjacency P) (atReverse P)
                       (S idx) (Graph.nextEdgeIndex G) (Graph.acyclicCache G)
                       flag ]> h5).
  assert (length h1 = length h) as L1 by apply length_insert.
  assert (length h2 = S (length h)) as L2
    by (unfold h2; rewrite length_app, L1; simpl; lia).
  assert (length h3 = S (length h)) as L3 by (unfold h3; by rewrite length_insert).
  assert (length h4 = S (S (length h))) as L4
    by (unfold h4; rewrite length_app, L3; simpl; lia).
  assert (length h5 = S (S (length h))) as L5 by (unfold h5; by rewrite length_insert).
  assert (length h6 = S (S (length h))) as L6 by (unfold h6; by rewrite length_insert).
  assert (∀ l, (l < length h)%nat → l ≠ m → l ≠ atNodes P → l ≠ atAdjacency P →
               l ≠ atReverse P → h6 !! l = h !! l) as Hold.
  { intros l Hl N1 N2 N3 N4. unfold h6, h5, h4, h3, h2, h1.
    rewrite list_lookup_insert_ne by done.
    rewrite list_lookup_insert_ne by done.
    rewrite lookup_app_l by (rewrite length_insert, length_app, length_insert; simpl; lia).
    rewrite list_lookup_insert_ne by done.
    rewrite lookup_app_l by (rewrite length_insert; lia).
    by rewrite list_lookup_insert_ne by done. }
  assert (h6 !! length h = Some (Array [])) as Hnew1.
  { unfold h6, h5, h4, h3.
    rewrite list_lookup_insert_ne by lia.
    rewrite list_lookup_insert_ne by lia.
    rewrite lookup_app_l by (rewrite length_insert, L2; lia).
    rewrite list_lookup_insert_ne by lia.
    unfold h2. rewrite lookup_app_r by lia. by rewrite L1, Nat.sub_diag. }
  assert (h6 !! S (length h) = Some (Array [])) as Hnew2.
  { unfold h6, h5, h4.
    rewrite list_lookup_insert_ne by lia.
    rewrite list_lookup_insert_ne by lia.
    rewrite lookup_app_r by lia. by rewrite L3, Nat.sub_diag. }
  assert (∀ entries r, readLists h entries = Some r →
            (∀ l, l ∈ (snd <$> entries) →
                  l ∈ (snd <$> outLists P) ++ (snd <$> inLists P)) →
            readLists h6 entries = Some r) as Hlists.
  { intros entries r Hread Hsub. rewrite <-Hread. apply readLists_ext.
    intros [k l] Hkl. simpl.
    assert (l ∈ (snd <$> outLists P) ++ (snd <$> inLists P)) as Hl.
    { apply Hsub, list_elem_of_fmap. by exists (k, l). }
    destruct (Harr l Hl) as (_ & ? & ? & ? & ? & ?).
    apply Hold; [by apply Harrlt|done..]. }
  exists h6,
    (mkPlaces (atNodes P) (atEdges P) (atAdjacency P) (atReverse P)
       (JsMap.set (outLists P) idx (length h))
       (JsMap.set (inLists P) idx (S (length h)))).
  split_and!.
  - unfold addNode.
    eapply run_bind; [by apply run_loadGraph|]. simpl.
    eapply run_bind; [by apply run_loadNodes|].
    eapply (run_bind _ _ h () h1); [reflexivity|].
    eapply (run_bind _ _ h1 (length h) h2); [unfold alloc; by rewrite L1|].
    eapply (run_bind _ _ h2 (outLists P) h2).
    { apply run_loadAdjacency. unfold h2, h1.
      rewrite lookup_app_l by (rewrite length_insert; lia).
      rewrite list_lookup_insert_ne by done. exact Ha. }
    eapply (run_bind _ _ h2 () h3); [reflexivity|].
    eapply (run_bind _ _ h3 (S (length h)) h4); [unfold alloc; by rewrite L3|].
    eapply (run_bind _ _ h4 (inLists P) h4).
    { apply run_loadAdjacency. unfold h4, h3, h2, h1.
      rewrite lookup_app_l by (rewrite length_insert, length_app, length_insert; simpl; lia).
      rewrite list_lookup_insert_ne by done.
      rewrite lookup_app_l by (rewrite length_insert; lia).
      rewrite list_lookup_insert_ne by done. exact Hr. }
    eapply (run_bind _ _ h4 () h5); [reflexivity|].
    eapply (run_bind _ _ h5 () h6); [reflexivity|].
    reflexivity.
  - split; simpl.
    + unfold h6. rewrite list_lookup_insert_eq by lia. done.
    + unfold h6, h5, h4, h3, h2, h1.
      rewrite list_lookup_insert_ne by done.
      rewrite list_lookup_insert_ne by done.
      rewrite lookup_app_l by (rewrite length_insert, length_app, length_insert; simpl; lia).
      rewrite list_lookup_insert_ne by done.
      rewrite lookup_app_l by (rewrite length_insert; lia).
      by rewrite list_lookup_insert_eq by lia.
    + rewrite Hold by done. exact He.
    + unfold h6, h5, h4, h3.
      rewrite list_lookup_insert_ne by done.
      rewrite list_lookup_insert_ne by done.
      rewrite lookup_app_l by (rewrite length_insert, L2; lia).
      by rewrite list_lookup_insert_eq by lia.
    + unfold h6, h5.
      rewrite list_lookup_insert_ne by done.
      by rewrite list_lookup_insert_eq by lia.
    + apply readLists_set; [|done].
      apply Hlists; [done|]. intros l Hl. apply elem_of_app. by left.
    + apply readLists_set; [|done].
      apply Hlists; [done|]. intros l Hl. apply elem_of_app. by right.
    + split; [done|]. split; apply closedAbove_set; try done; lia.
    + split; [done|].
      apply NoDup_app in Hnd as (Hnd1 & Hdisj & Hnd2).
      assert (∀ l, l ∈ (snd <$> outLists P) ++ (snd <$> inLists P) →
                (l < length h)%nat) as Hlt by done.
      apply NoDup_app. split_and!.
      * apply set_snd_NoDup; [done|]. intros Hl.
        assert (length h < length h)%nat; [|lia].
        apply Hlt, elem_of_app. by left.
      * intros l [->|Hl1]%set_snd [Heq|Hl2]%set_snd.
        -- lia.
        -- assert (length h < length h)%nat; [|lia].
           apply Hlt, elem_of_app. by right.
        -- subst l. assert (S (length h) < length h)%nat; [|lia].
           apply Hlt, elem_of_app. by left.
        -- by apply (Hdisj l).
      * apply set_snd_NoDup; [done|]. intros Hl.
        assert (S (length h) < length h)%nat; [|lia].
        apply Hlt, elem_of_app. by right.
  - unfold h6, h5, h4, h3, h2, h1.
    rewrite take_insert_ge by done. rewrite take_insert_ge by done.
    rewrite take_app_le by (rewrite length_insert, length_app, length_insert; simpl; lia).
    rewrite take_insert_ge by done.
    rewrite take_app_le by (rewrite length_insert; lia).
    by rewrite take_insert_ge by done.
  - lia.
Qed.

(** [list.push(e)] through the adjacency map at [la]. *)
Lemma run_push h la entries r k e :
  h !! la = Some (AdjacencyMap entries) →
  readLists h entries = Some r → NoDup (snd <$> entries) →
  ∃ h', push la k e h = (Ok (), h')
    ∧ readLists h' entries = Some (Graph.push r k e)
    ∧ length h' = length h
    ∧ (∀ l, l ∉ (snd <$> entries) → h' !! l = h !! l)
    ∧ (∀ b, Forall (λ entry, (b ≤ entry.2)%nat) entries → take b h' = take b h).
Proof.
  intros Hla Hr Hnd. unfold push, Graph.push.
  pose proof (readLists_get h entries r k Hr) as Hget.
  destruct (JsMap.get entries k) as [l|] eqn:Hk.
  - destruct Hget as (a & Hl & ->).
    exists (<[ l := Array (a ++ [e]) ]> h). split_and!.
    + eapply run_bind; [by apply run_loadAdjacency|]. rewrite Hk.
      eapply run_bind; [by apply run_loadArray|]. reflexivity.
    + by apply readLists_push.
    + apply length_insert.
    + intros l' Hl'. apply list_lookup_insert_ne. intros ->.
      apply Hl'. by eapply get_Some_snd.
    + intros b Hb. apply take_insert_ge.
      rewrite Forall_forall in Hb.
      apply (Hb (k, l)). by apply JsMap.get_Some_elem.
  - rewrite Hget. exists h. split_and!; try done.
    eapply run_bind; [by apply run_loadAdjacency|]. by rewrite Hk.
Qed.

(** [Graph.addEdge] on the store does what it does to the value, throws
    when it throws, and writes above [b] only. *)
Lemma addEdge_holds h b m G P flag s t :
  holds h b m G P flag →
  match Graph.addEdge G s t child with
  | Ok (G', e) =>
      ∃ h', addEdge m s t h = (Ok e, h')
        ∧ holds h' b m G' P flag
        ∧ take b h' = take b h ∧ length h' = length h
  | Err x => addEdge m s t h = (Err x, h)
  end.
Proof.
  intros Hh.
  destruct (holds_distinct h b m G P flag Hh)
    as ((Lm & Ln & Le & La & Lr) & D1 & D2 & D3 & D4 & D5 & D6 & D7 & D8 & D9 & D10).
  pose proof (λ l, holds_array h b m G P flag l Hh) as Harr.
  destruct Hh as [Hm Hn He Ha Hr Hout Hin ((Bm & Bn & Be & Ba & Br) & Bout & Bin)
                  [_ Hnd]].
  apply NoDup_app in Hnd as (Hnd1 & Hdisj & Hnd2).
  unfold Graph.addEdge, addEdge.
  destruct (negb (JsMap.has (Graph.nodes G) s)) eqn:Hs.
  { eapply run_bind; [by apply run_loadGraph|]. simpl.
    eapply run_bind; [by apply run_loadNodes|]. by rewrite Hs. }
  destruct (negb (JsMap.has (Graph.nodes G) t)) eqn:Ht.
  { eapply run_bind; [by apply run_loadGraph|]. simpl.
    eapply run_bind; [by apply run_loadNodes|]. by rewrite Hs, Ht. }
  set (e := Graph.nextEdgeIndex G).
  set (h1 := <[ atEdges P
                := EdgeMap (JsMap.set (Graph.edges G) e (Graph.mkEdge s t child)) ]> h).
  assert (∀ l, l ≠ atEdges P → h1 !! l = h !! l) as Hold1.
  { intros l Hl. unfold h1. by rewrite list_lookup_insert_ne. }
  assert (readLists h1 (outLists P) = Some (Graph.adjacency G)) as Hout1.
  { rewrite <-Hout. apply readLists_insert. intros Hl.
    destruct (Harr (atEdges P)) as (_ & _ & _ & ? & _); [|done].
    apply elem_of_app. by left. }
  assert (readLists h1 (inLists P) = Some (Graph.reverseAdjacency G)) as Hin1.
  { rewrite <-Hin. apply readLists_insert. intros Hl.
    destruct (Harr (atEdges P)) as (_ & _ & _ & ? & _); [|done].
    apply elem_of_app. by right. }
  destruct (run_push h1 (atAdjacency P) (outLists P) (Graph.adjacency G) s e)
    as (h2 & Hrun2 & Hout2 & L2 & Hold2 & Htake2); [by rewrite Hold1|done|done|].
  assert (∀ l, l = m ∨ l = atNodes P ∨ l = atEdges P ∨ l = atAdjacency P
               ∨ l = atReverse P →
               (l ∉ (snd <$> outLists P)) ∧ (l ∉ (snd <$> inLists P))) as Hfixed.
  { intros l Hl. split; intros Hin';
      (destruct (Harr l) as (_ & ? & ? & ? & ? & ?);
       [apply elem_of_app; first [by left | by right]|]);
      destruct Hl as [->|[->|[->|[->| ->]]]]; done. }
  assert (readLists h2 (inLists P) = Some (Graph.reverseAdjacency G)) as Hin2.
  { rewrite <-Hin1. apply readLists_ext. intros [k l] Hkl. simpl.
    apply Hold2. intros Hl. apply (Hdisj l); [done|].
    apply list_elem_of_fmap. by exists (k, l). }
  destruct (run_push h2 (atReverse P) (inLists P) (Graph.reverseAdjacency G) t e)
    as (h3 & Hrun3 & Hin3 & L3 & Hold3 & Htake3); [|done|done|].
  { rewrite Hold2 by (by apply Hfixed; auto). by rewrite Hold1. }
  assert (readLists h3 (outLists P) = Some (Graph.push (Graph.adjacency G) s e))
    as Hout3.
  { rewrite <-Hout2. apply readLists_ext. intros [k l] Hkl. simpl.
    apply Hold3. intros Hl. apply (Hdisj l); [|done].
    apply list_elem_of_fmap. by exists (k, l). }
  assert (∀ l, l = m ∨ l = atNodes P ∨ l = atAdjacency P ∨ l = atReverse P →
               h3 !! l = h !! l) as Hold.
  { intros l Hl.
    rewrite Hold3 by (apply Hfixed; tauto).
    rewrite Hold2 by (apply Hfixed; tauto).
    apply Hold1. destruct Hl as [->|[->|[->| ->]]]; done. }
  set (h4 := <[ m := GraphObj (atNodes P) (atEdges P) (atAdjacency P) (atReverse P)
                       (Graph.nextNodeIndex G) (S e)
                       (Graph.invalidateCycleFlagOnAddition (Graph.acyclicCache G))
                       flag ]> h3).
  assert (length h1 = length h) as L1 by apply length_insert.
  exists h4. split_and!.
  - eapply run_bind; [by apply run_loadGraph|]. simpl.
    eapply run_bind; [by apply run_loadNodes|]. rewrite Hs, Ht. simpl.
    eapply run_bind; [by apply run_loadEdges|].
    eapply (run_bind _ _ h () h1); [reflexivity|].
    eapply (run_bind _ _ h1 () h2); [exact Hrun2|].
    eapply (run_bind _ _ h2 () h3); [exact Hrun3|].
    eapply (run_bind _ _ h3 () h4); [reflexivity|].
    reflexivity.
  - split; simpl.
    + unfold h4. rewrite list_lookup_insert_eq by lia. done.
    + unfold h4. rewrite list_lookup_insert_ne by done.
      rewrite Hold by tauto. done.
    + unfold h4. rewrite list_lookup_insert_ne by done.
      rewrite Hold3 by (apply Hfixed; tauto).
      rewrite Hold2 by (apply Hfixed; tauto).
      unfold h1. by rewrite list_lookup_insert_eq by lia.
    + unfold h4. rewrite list_lookup_insert_ne by done.
      rewrite Hold by tauto. done.
    + unfold h4. rewrite list_lookup_insert_ne by done.
      rewrite Hold by tauto. done.
    + unfold h4. rewrite readLists_insert; [done|]. apply Hfixed. tauto.
    + unfold h4. rewrite readLists_insert; [done|]. apply Hfixed. tauto.
    + done.
    + split; [done|]. by apply NoDup_app.
  - unfold h4. rewrite take_insert_ge by done.
    rewrite Htake3, Htake2 by done. unfold h1. by rewrite take_insert_ge.
  - unfold h4. rewrite length_insert. lia.
Qed.
End Refine.

(** *** The mutation protocol *)

Section Mutation.
Context {A : Type}.
Implicit Types (h : list (Obj A)) (G : Graph.t (GraphNode A) GraphEdge).

Lemma lookup_app_at h (ext : list (Obj A)) i :
  (h ++ ext) !! (length h + i)%nat = ext !! i.
Proof.
  rewrite lookup_app_r by lia. f_equal. lia.
Qed.

Lemma seq_above (entries : JsMap.t loc) b s n :
  snd <$> entries = seq s n → (b ≤ s)%nat →
  Forall (λ entry, (b ≤ entry.2)%nat) entries.
Proof.
  intros Hsnd Hb. apply Forall_forall. intros [k l] Hin. simpl.
  assert (l ∈ seq s n) as Hl.
  { rewrite <-Hsnd. apply list_elem_of_fmap. by exists (k, l). }
  apply elem_of_seq in Hl. lia.
Qed.

(** Cloning the lists of an adjacency map: one new array for each, in
    the next free locations. *)
Lemma run_cloneLists h entries r :
  readLists h entries = Some r →
  ∃ entries' ext,
    cloneLists entries h = (Ok entries', h ++ ext)
    ∧ readLists (h ++ ext) entries' = Some r
    ∧ snd <$> entries' = seq (length h) (length entries)
    ∧ length ext = length entries.
Proof.
  revert h r. induction entries as [|[k l] entries IH]; intros h r.
  - intros [= <-]. exists [], []. by rewrite app_nil_r.
  - rewrite readLists_cons.
    destruct (h !! l) as [[| | |a| |]|] eqn:Hl; try done.
    destruct (readLists h entries) as [rest|] eqn:Hrest; [|done].
    intros [= <-].
    destruct (IH (h ++ [Array a]) rest)
      as (entries' & ext & Hrun & Hread & Hsnd & Hlen).
    { by apply readLists_app. }
    exists ((k, length h) :: entries'), (Array a :: ext).
    replace (h ++ Array a :: ext) with ((h ++ [Array a]) ++ ext)
      by (by rewrite <-app_assoc).
    split_and!.
    + simpl. eapply run_bind; [by apply run_loadArray|].
      eapply run_bind; [reflexivity|].
      eapply run_bind; [exact Hrun|]. reflexivity.
    + rewrite readLists_cons.
      assert (((h ++ [Array a]) ++ ext) !! length h = Some (Array a)) as ->.
      { rewrite <-app_assoc. by apply list_lookup_middle. }
      by rewrite Hread.
    + rewrite fmap_cons, Hsnd, length_app. simpl. do 2 f_equal. lia.
    + simpl. by rewrite Hlen.
Qed.

Lemma readGraph_app h ext graph G :
  readGraph h graph = Some G → readGraph (h ++ ext) graph = Some G.
Proof.
  unfold readGraph.
  destruct (h !! graph) as [[| | | |n e a r nn ne c mu|]|] eqn:Hg; try done.
  rewrite (lookup_app_l_Some _ _ _ _ Hg).
  destruct (h !! n) as [[ns| | | | |]|] eqn:Hn; try done.
  destruct (h !! e) as [[|es| | | |]|] eqn:He; try done.
  destruct (h !! a) as [[| |adj| | |]|] eqn:Ha; try done.
  destruct (h !! r) as [[| |radj| | |]|] eqn:Hr; try done.
  rewrite (lookup_app_l_Some _ _ _ _ Hn), (lookup_app_l_Some _ _ _ _ He),
    (lookup_app_l_Some _ _ _ _ Ha), (lookup_app_l_Some _ _ _ _ Hr).
  destruct (readLists h adj) as [adj'|] eqn:Hadj; [|done].
  destruct (readLists h radj) as [radj'|] eqn:Hradj; [|done].
  by rewrite (readLists_app h ext _ _ Hadj), (readLists_app h ext _ _ Hradj).
Qed.

(** [Graph.beginMutation]: the copy holds the same graph in objects that
    are all new. *)
Lemma beginMutation_holds h graph G :
  readGraph h graph = Some G →
  ∃ m h' P, beginMutation graph h = (Ok m, h')
    ∧ holds h' (length h) m G P true
    ∧ take (length h) h' = h.
Proof.
  unfold readGraph.
  destruct (h !! graph) as [[| | | |n e a r nn ne c mu|]|] eqn:Hg; try done.
  destruct (h !! n) as [[ns| | | | |]|] eqn:Hn; try done.
  destruct (h !! e) as [[|es| | | |]|] eqn:He; try done.
  destruct (h !! a) as [[| |adj| | |]|] eqn:Ha; try done.
  destruct (h !! r) as [[| |radj| | |]|] eqn:Hr; try done.
  destruct (readLists h adj) as [out|] eqn:Hout; [|done].
  destruct (readLists h radj) as [inc|] eqn:Hin; [|done].
  simpl. intros [= <-].
  destruct (run_cloneLists h adj out Hout)
    as (adj' & ext1 & Hrun1 & Hread1 & Hsnd1 & Hlen1).
  destruct (run_cloneLists (h ++ ext1) radj inc)
    as (radj' & ext2 & Hrun2 & Hread2 & Hsnd2 & Hlen2).
  { by apply readLists_app. }
  remember ((h ++ ext1) ++ ext2) as h2 eqn:Hh2.
  assert (length h2 = (length h + length adj + length radj)%nat) as Lh2.
  { subst h2. rewrite !length_app. lia. }
  assert (∀ l o, h !! l = Some o → h2 !! l = Some o) as Hkeep.
  { intros l o Hl. subst h2. by do 2 apply lookup_app_l_Some. }
  remember [NodeMap ns; EdgeMap es; AdjacencyMap adj'; AdjacencyMap radj';
            GraphObj (length h2 + 0) (length h2 + 1) (length h2 + 2)
              (length h2 + 3) nn ne c true] as top eqn:Htop.
  exists (length h2 + 4)%nat, (h2 ++ top),
    (mkPlaces (length h2 + 0) (length h2 + 1) (length h2 + 2) (length h2 + 3)
       adj' radj').
  split_and!.
  - unfold beginMutation.
    eapply run_bind; [by apply run_loadGraph|]. simpl.
    eapply run_bind; [by apply run_loadAdjacency|].
    eapply run_bind; [exact Hrun1|].
    eapply run_bind; [apply run_loadAdjacency; by apply lookup_app_l_Some|].
    eapply run_bind; [exact Hrun2|].
    eapply run_bind; [apply run_loadNodes; by apply Hkeep|].
    eapply run_bind; [apply run_loadEdges; by apply Hkeep|].
    eapply run_bind; [reflexivity|].
    eapply run_bind; [reflexivity|].
    eapply run_bind; [reflexivity|].
    eapply run_bind; [reflexivity|].
    unfold alloc. rewrite !length_app. simpl.
    rewrite <-!app_assoc. simpl. subst top.
    rewrite (Nat.add_0_r (length h2)), <-!Nat.add_assoc. reflexivity.
  - split; simpl.
    + rewrite lookup_app_at. by subst top.
    + rewrite lookup_app_at. by subst top.
    + rewrite lookup_app_at. by subst top.
    + rewrite lookup_app_at. by subst top.
    + rewrite lookup_app_at. by subst top.
    + apply readLists_app. subst h2. by apply readLists_app.
    + apply readLists_app. by subst h2.
    + split; [lia|]. split.
      * eapply seq_above; [exact Hsnd1|lia].
      * eapply seq_above; [exact Hsnd2|]. rewrite length_app. lia.
    + split; [lia|]. rewrite Hsnd1, Hsnd2, length_app, Hlen1, <-seq_app.
      apply NoDup_seq.
  - subst h2. rewrite <-!app_assoc. apply take_app_length.
Qed.

(** [Graph.endMutation]: a new graph object over the same parts. *)
Lemma endMutation_holds h b m G P flag :
  holds h b m G P flag →
  ∃ h', endMutation m h = (Ok (length h), h')
    ∧ readGraph h' (length h) = Some G
    ∧ take (length h) h' = h.
Proof.
  intros [Hm Hn He Ha Hr Hout Hin _ _].
  exists (h ++ [GraphObj (atNodes P) (atEdges P) (atAdjacency P) (atReverse P)
                  (Graph.nextNodeIndex G) (Graph.nextEdgeIndex G)
                  (Graph.acyclicCache G) false]).
  split_and!.
  - unfold endMutation. eapply run_bind; [by apply run_loadGraph|]. reflexivity.
  - unfold readGraph. rewrite list_lookup_middle by done.
    rewrite (lookup_app_l_Some _ _ _ _ Hn), (lookup_app_l_Some _ _ _ _ He),
      (lookup_app_l_Some _ _ _ _ Ha), (lookup_app_l_Some _ _ _ _ Hr).
    rewrite (readLists_app _ _ _ _ Hout), (readLists_app _ _ _ _ Hin).
    by destruct G.
  - apply take_app_length.
Qed.

(** [Graph.mutate]: when the callback does on the copy what [F] is on
    the value, the new reference denotes [F]'s graph, and the store
    below the copy is as it was. *)
Lemma mutate_holds h graph G (f : loc → Prog A ())
    (F : Result (Graph.t (GraphNode A) GraphEdge)) :
  readGraph h graph = Some G →
  (∀ h1 m P, holds h1 (length h) m G P true →
     match F with
     | Ok G' => ∃ h2 P', f m h1 = (Ok (), h2)
                  ∧ holds h2 (length h) m G' P' true
                  ∧ take (length h) h2 = take (length h) h1
     | Err e => ∃ h2, f m h1 = (Err e, h2)
     end) →
  match F with
  | Ok G' => ∃ ref h', mutate graph f h = (Ok ref, h')
               ∧ readGraph h' ref = Some G'
               ∧ take (length h) h' = h ∧ (length h ≤ ref)%nat
  | Err e => ∃ h', mutate graph f h = (Err e, h')
  end.
Proof.
  intros HG Hf.
  destruct (beginMutation_holds h graph G HG) as (m & h1 & P & Hrun1 & Hh1 & Htake1).
  specialize (Hf h1 m P Hh1). destruct F as [G'|e].
  - destruct Hf as (h2 & P' & Hrun2 & Hh2 & Htake2).
    destruct (endMutation_holds h2 _ m G' P' true Hh2) as (h3 & Hrun3 & Hread & Htake3).
    assert (length h ≤ length h2)%nat as Hlen.
    { destruct Hh2 as [Hm _ _ _ _ _ _ ((Bm & _) & _) _].
      apply lookup_lt_Some in Hm. lia. }
    exists (length h2), h3. split_and!; [|done| |done].
    + unfold mutate. eapply run_bind; [exact Hrun1|].
      eapply run_bind; [exact Hrun2|]. exact Hrun3.
    + transitivity (take (length h) (take (length h2) h3)).
      { rewrite take_take. f_equal. lia. }
      rewrite Htake3, Htake2. exact Htake1.
  - destruct Hf as (h2 & Hrun2). exists h2.
    unfold mutate. eapply run_bind; [exact Hrun1|].
    by apply run_bind_err.
Qed.

Lemma run_getNode h graph G i :
  readGraph h graph = Some G → getNode graph i h = (Ok (Graph.getNode G i), h).
Proof.
  unfold readGraph.
  destruct (h !! graph) as [[| | | |n e a r nn ne c mu|]|] eqn:Hg; try done.
  destruct (h !! n) as [[ns| | | | |]|] eqn:Hn; try done.
  destruct (h !! e) as [[|es| | | |]|]; try done.
  destruct (h !! a) as [[| |adj| | |]|]; try done.
  destruct (h !! r) as [[| |radj| | |]|]; try done.
  destruct (readLists h adj) as [out|]; [|done].
  destruct (readLists h radj) as [inc|]; [|done].
  simpl. intros [= <-]. unfold getNode.
  eapply run_bind; [by apply run_loadGraph|].
  eapply run_bind; [by apply run_loadNodes|]. reflexivity.
Qed.

Lemma run_findNodes h graph G p :
  readGraph h graph = Some G → findNodes graph p h = (Ok (Graph.findNodes G p), h).
Proof.
  unfold readGraph.
  destruct (h !! graph) as [[| | | |n e a r nn ne c mu|]|] eqn:Hg; try done.
  destruct (h !! n) as [[ns| | | | |]|] eqn:Hn; try done.
  destruct (h !! e) as [[|es| | | |]|]; try done.
  destruct (h !! a) as [[| |adj| | |]|]; try done.
  destruct (h !! r) as [[| |radj| | |]|]; try done.
  destruct (readLists h adj) as [out|]; [|done].
  destruct (readLists h radj) as [inc|]; [|done].
  simpl. intros [= <-]. unfold findNodes.
  eapply run_bind; [by apply run_loadGraph|].
  eapply run_bind; [by apply run_loadNodes|]. reflexivity.
Qed.

(** The new graph of [addNode], as EffectGraph.ts computes it inside
    [Graph.mutate]. *)
Definition grown (g : EffectGraph A) (node : GraphNode A)
    : Result (Graph.t (GraphNode A) GraphEdge) :=
  let '(g1, nodeIndex) := Graph.addNode (graph g) (updatedNode g node) in
  match parentId node with
  | None => Ok g1
  | Some p =>
      match nodeIdToIndex g !! p with
      | None => Ok g1
      | Some pIdx => fst <$> Graph.addEdge g1 pIdx nodeIndex child
      end
  end.

Lemma grown_found g node G' :
  grown g node = Ok G' →
  Graph.findNodes G' (hasId (id (updatedNode g node))) ≠ [].
Proof.
  unfold grown. simpl. intros HG'.
  assert (Graph.getNode G' (Graph.nextNodeIndex (graph g))
          = Some (updatedNode g node)) as Hnew.
  { pose proof (GraphFacts.getNode_addNode_new (graph g) (updatedNode g node))
      as Hnew.
    destruct (parentId node) as [p|]; [|by injection HG' as <-].
    destruct (nodeIdToIndex g !! p) as [pIdx|]; [|by injection HG' as <-].
    unfold Graph.addEdge in HG'.
    destruct (negb _); [done|]. destruct (negb _); [done|].
    simpl in HG'. injection HG' as <-. exact Hnew. }
  eapply GraphFacts.findNodes_stored; [exact Hnew|].
  unfold hasId. by apply bool_decide_eq_true.
Qed.

(** [addNode] on a reference computes what [EffectGraph.addNode]
    computes on the graph the reference denotes: the same graph behind
    a new reference, or the same error. *)
Lemma addNodeRef_refines h effectGraph node g :
  readEffectGraph h effectGraph = Some g →
  match EffectGraph.addNode g node with
  | Ok g' => ∃ ref' h', addNodeRef effectGraph node h = (Ok ref', h')
               ∧ readEffectGraph h' ref' = Some g'
  | Err e => ∃ h', addNodeRef effectGraph node h = (Err e, h')
  end.
Proof.
  unfold readEffectGraph.
  destruct (h !! effectGraph) as [[| | | | |gr n2i i2n]|] eqn:He; try done.
  destruct (readGraph h gr) as [G|] eqn:HG; [|done].
  simpl. intros [= <-].
  set (g := mkEffectGraph G n2i i2n).
  set (updated := updatedNode g node).
  pose proof (mutate_holds h gr G
    (λ mutable,
      nodeIndex ← addNode mutable updated;
      match parentId node with
      | None => mret ()
      | Some p =>
          match n2i !! p with
          | None => mret ()
          | Some pIdx => _ ← addEdge mutable pIdx nodeIndex; mret ()
          end
      end) (grown g node) HG) as Hmut.
  assert (EffectGraph.addNode g node
          = (newGraph ← grown g node;
             match Graph.findNodes newGraph (hasId (id updated)) with
             | [] => Err (MissingNode (Graph.nextNodeIndex G))
             | newNodeIndex :: _ =>
                 Ok (mkEffectGraph newGraph
                       (<[ id updated := newNodeIndex ]> n2i)
                       (<[ newNodeIndex := id updated ]> i2n))
             end)) as ->.
  { unfold EffectGraph.addNode, grown. simpl. reflexivity. }
  assert (∀ Y (k : GraphNode A → Prog A Y) r,
            k updated h = r →
            ((match parentId node with
              | None => mret node
              | Some p =>
                  parentNode ←
                    match n2i !! p with
                    | None => mret None
                    | Some idx => getNode gr idx
                    end;
                  let parentDepth :=
                    match parentNode with
                    | None => 0
                    | Some pn => depth (metadata pn)
                    end in
                  mret (mkNode (id node) (data node) (parentId node)
                          (mkMetadata (operation (metadata node))
                             (timestamp (metadata node)) (parentDepth + 1)))
              end) ≫= k) h = r) as Hupd.
  { intros Y k r Hk. eapply run_bind; [|exact Hk].
    unfold updated, updatedNode, EffectGraph.getNode. simpl.
    destruct (parentId node) as [p|]; [|reflexivity].
    destruct (n2i !! p) as [idx|]; simpl.
    - eapply run_bind; [by apply run_getNode|]. reflexivity.
    - reflexivity. }
  destruct (grown g node) as [G'|e] eqn:Hgrown; simpl.
  - destruct Hmut as (ref & h' & Hrun & Hread & Htake & Href).
    { intros h1 m P Hh1.
      destruct (addNode_holds h1 (length h) m G P true updated Hh1)
        as (h2 & P2 & Hrun2 & Hh2 & Htake2 & _).
      unfold grown in Hgrown. simpl in Hgrown.
      destruct (parentId node) as [p|].
      2:{ injection Hgrown as <-. exists h2, P2. split_and!; try done.
          eapply run_bind; [exact Hrun2|]. reflexivity. }
      destruct (n2i !! p) as [pIdx|] eqn:Hp; simpl in Hgrown.
      2:{ injection Hgrown as <-. exists h2, P2. split_and!; try done.
          eapply run_bind; [exact Hrun2|]. reflexivity. }
      pose proof (addEdge_holds h2 (length h) m _ P2 true pIdx
                    (Graph.nextNodeIndex G) Hh2) as Hedge.
      simpl in Hedge.
      destruct (Graph.addEdge _ pIdx _ child) as [[G2 e2]|x]; [|done].
      simpl in Hgrown. injection Hgrown as <-.
      destruct Hedge as (h3 & Hrun3 & Hh3 & Htake3 & _).
      exists h3, P2. split_and!; [|done|congruence].
      eapply run_bind; [exact Hrun2|].
      eapply run_bind; [exact Hrun3|]. reflexivity. }
    pose proof (grown_found g node G' Hgrown) as Hfound. fold updated in Hfound.
    destruct (Graph.findNodes G' (hasId (id updated))) as [|i rest] eqn:Hfind;
      [done|].
    exists (length h'),
      (h' ++ [EffectGraphObj ref (<[ id updated := i ]> n2i)
                (<[ i := id updated ]> i2n)]).
    split.
    + unfold addNodeRef. eapply run_bind; [by apply run_loadEffectGraph|].
      simpl. apply Hupd.
      eapply run_bind; [exact Hrun|].
      eapply run_bind; [by apply run_findNodes|]. rewrite Hfind. reflexivity.
    + rewrite list_lookup_middle by done.
      by rewrite (readGraph_app _ _ _ _ Hread).
  - destruct Hmut as (h' & Hrun).
    { intros h1 m P Hh1.
      destruct (addNode_holds h1 (length h) m G P true updated Hh1)
        as (h2 & P2 & Hrun2 & Hh2 & Htake2 & _).
      unfold grown in Hgrown. simpl in Hgrown.
      destruct (parentId node) as [p|]; [|done].
      destruct (n2i !! p) as [pIdx|] eqn:Hp; simpl in Hgrown; [|done].
      pose proof (addEdge_holds h2 (length h) m _ P2 true pIdx
                    (Graph.nextNodeIndex G) Hh2) as Hedge.
      simpl in Hedge.
      destruct (Graph.addEdge _ pIdx _ child) as [[G2 e2]|x]; [done|].
      simpl in Hgrown. injection Hgrown as <-.
      exists h2. eapply run_bind; [exact Hrun2|].
      by apply run_bind_err. }
    exists h'. unfold addNodeRef.
    eapply run_bind; [by apply run_loadEffectGraph|].
    simpl. apply Hupd. by apply run_bind_err.
Qed.
End Mutation.

Section Persistent.
Context {A : Type}.

(** C9: whatever the store and the node, after [addNode] on a
    reference to a graph [g], whether it returned or threw, the
    reference still denotes [g], so [getNode], [getChildren], [getRoots]
    and [size] answer on it as before.  The call does what
    [EffectGraph.addNode g node] does: when that is a graph, the call
    returns a reference allocated by the call, other than the old one,
    and the new reference denotes that graph; when that is an error, the
    call throws the same error.  On a well-formed graph the call
    returns. *)
Theorem addNode_persistent (h : list (Obj A)) effectGraph node g :
  readEffectGraph h effectGraph = Some g →
  readEffectGraph (addNodeRef effectGraph node h).2 effectGraph = Some g
  ∧ (∀ nodeId,
       getNodeRef (addNodeRef effectGraph node h).2 effectGraph nodeId
       = getNodeRef h effectGraph nodeId)
  ∧ (∀ nodeId,
       getChildrenRef (addNodeRef effectGraph node h).2 effectGraph nodeId
       = getChildrenRef h effectGraph nodeId)
  ∧ getRootsRef (addNodeRef effectGraph node h).2 effectGraph
    = getRootsRef h effectGraph
  ∧ sizeRef (addNodeRef effectGraph node h).2 effectGraph = sizeRef h effectGraph
  ∧ (∀ effectGraph', (addNodeRef effectGraph node h).1 = Ok effectGraph' →
       (effectGraph < length h ≤ effectGraph')%nat)
  ∧ match EffectGraph.addNode g node with
    | Ok g' =>
        ∃ effectGraph',
          (addNodeRef effectGraph node h).1 = Ok effectGraph'
          ∧ (effectGraph < length h ≤ effectGraph')%nat
          ∧ readEffectGraph (addNodeRef effectGraph node h).2 effectGraph'
            = Some g'
    | Err e => (addNodeRef effectGraph node h).1 = Err e
    end
  ∧ (Invariant.wf g →
     ∃ effectGraph' g',
       EffectGraph.addNode g node = Ok g'
       ∧ (addNodeRef effectGraph node h).1 = Ok effectGraph'
       ∧ readEffectGraph (addNodeRef effectGraph node h).2 effectGraph'
         = Some g').
Proof.
  intros Hg.
  destruct (triple_addNodeRef h effectGraph node h (extendsHeap_refl h))
    as [Hext Hnew].
  pose proof (readEffectGraph_frame _ _ _ _ Hext Hg) as Hg'.
  assert (effectGraph < length h)%nat as Hold.
  { unfold readEffectGraph in Hg.
    destruct (h !! effectGraph) eqn:Hl; [|done].
    by apply lookup_lt_Some in Hl. }
  pose proof (addNodeRef_refines h effectGraph node g Hg) as Hrefines.
  assert (match EffectGraph.addNode g node with
          | Ok g' =>
              ∃ effectGraph',
                (addNodeRef effectGraph node h).1 = Ok effectGraph'
                ∧ (effectGraph < length h ≤ effectGraph')%nat
                ∧ readEffectGraph (addNodeRef effectGraph node h).2 effectGraph'
                  = Some g'
          | Err e => (addNodeRef effectGraph node h).1 = Err e
          end) as Hsame.
  { destruct (EffectGraph.addNode g node) as [g'|e].
    - destruct Hrefines as (ref' & h' & Hrun & Hread).
      exists ref'. rewrite Hrun in *. simpl in *.
      split_and!; [done|done|by apply Hnew|done].
    - destruct Hrefines as (h' & Hrun). by rewrite Hrun. }
  unfold getNodeRef, getChildrenRef, getRootsRef, sizeRef.
  rewrite Hg', Hg. split_and!; try done.
  - intros effectGraph' Hr. split; [done|by apply Hnew].
  - intros Hwf.
    destruct (Invariant.addNode_wf g node Hwf) as (g' & Hadd & _).
    rewrite Hadd in Hsame. destruct Hsame as (ref' & Hrun & _ & Hread).
    by exists ref', g'.
Qed.
End Persistent.

(** The graph of A and B in an empty store, and the reference to it. *)
Definition storeAB : list (Obj string) := (allocEffectGraph Cycles.graphAB []).2.
Definition refAB : loc := 9.

Example storeAB_reads : readEffectGraph storeAB refAB = Some Cycles.graphAB.
Proof. vm_compute. reflexivity. Qed.

(** On this store the new reference denotes the graph the value-level
    [addNode] returns. *)
Example addNodeRef_agrees :
  (addNodeRef refAB Cycles.backToA storeAB).1 = Ok 22%nat
  ∧ Some <$> EffectGraph.addNode Cycles.graphAB Cycles.backToA
    = Ok (readEffectGraph (addNodeRef refAB Cycles.backToA storeAB).2 22).
Proof. vm_compute. split; reflexivity. Qed.

(** C9, witness: adding to the stored graph of A and B. *)
Lemma addNode_persistent_witness :
  readEffectGraph (addNodeRef refAB Cycles.backToA storeAB).2 refAB
    = Some Cycles.graphAB
  ∧ (∀ nodeId,
       getNodeRef (addNodeRef refAB Cycles.backToA storeAB).2 refAB nodeId
       = getNodeRef storeAB refAB nodeId)
  ∧ (∀ nodeId,
       getChildrenRef (addNodeRef refAB Cycles.backToA storeAB).2 refAB nodeId
       = getChildrenRef storeAB refAB nodeId)
  ∧ getRootsRef (addNodeRef refAB Cycles.backToA storeAB).2 refAB
    = getRootsRef storeAB refAB
  ∧ sizeRef (addNodeRef refAB Cycles.backToA storeAB).2 refAB
    = sizeRef storeAB refAB
  ∧ (∀ ref', (addNodeRef refAB Cycles.backToA storeAB).1 = Ok ref' →
       (refAB < length storeAB ≤ ref')%nat)
  ∧ match EffectGraph.addNode Cycles.graphAB Cycles.backToA with
    | Ok g' =>
        ∃ ref',
          (addNodeRef refAB Cycles.backToA storeAB).1 = Ok ref'
          ∧ (refAB < length storeAB ≤ ref')%nat
          ∧ readEffectGraph (addNodeRef refAB Cycles.backToA storeAB).2 ref'
            = Some g'
    | Err e => (addNodeRef refAB Cycles.backToA storeAB).1 = Err e
    end
  ∧ (Invariant.wf Cycles.graphAB →
     ∃ ref' g',
       EffectGraph.addNode Cycles.graphAB Cycles.backToA = Ok g'
       ∧ (addNodeRef refAB Cycles.backToA storeAB).1 = Ok ref'
       ∧ readEffectGraph (addNodeRef refAB Cycles.backToA storeAB).2 ref'
         = Some g').
Proof.
  apply (addNode_persistent storeAB refAB Cycles.backToA Cycles.graphAB).
  vm_compute. reflexivity.
Defined.
End Persistence.

Module Witnesses.
Import EffectGraph Invariant Acyclicity Depth Cycles EffectGraphFacts.

Lemma graphAB_is_built : built graphAB.
Proof.
  eapply (built_addNode _ _ "B" 1 "a sentence" (Some "A") (Some "sentencize")).
  - eapply (built_addNode empty _ "A" 0 "a document" None None).
    + apply built_empty.
    + done.
    + reflexivity.
  - intros q [= <-]. vm_compute. by eexists.
  - reflexivity.
Defined.

(** C4, witness: the graph of A and B. *)
Lemma depth_invariant_witness :
  (∀ k n, Graph.getNode (graph graphAB) k = Some n →
     (depth (metadata n) = 0 ↔ parentId n = None)
     ∧ (∀ p, parentId n = Some p →
          ∃ pn, getNode graphAB p = Some pn
                ∧ depth (metadata n) = depth (metadata pn) + 1))
  ∧ (∀ node g', addNode graphAB node = Ok g' →
       ∀ k n, Graph.getNode (graph graphAB) k = Some n →
              Graph.getNode (graph g') k = Some n)
  ∧ (∀ {B} (f : string → B) (g' : EffectGraph B), map graphAB f = Ok g' →
       (λ n, depth (metadata n)) <$> toArray g'
       = (λ n, depth (metadata n)) <$> toArray graphAB).
Proof. apply (depth_invariant graphAB graphAB_is_built). Defined.

(** A node whose parent id is unknown to the graph. *)
Definition orphan : GraphNode string :=
  makeNode "C" 3 "a stray token" (Some "Z") (Some "tokenize").

(** C10, witness: a node whose parent id Z is not in the graph. *)
Lemma addNode_unknown_parent_witness :
  ∃ g', addNode graphAB orphan = Ok g' ∧
    depth (metadata (updatedNode graphAB orphan)) = 1 ∧
    parentId (updatedNode graphAB orphan) = Some "Z" ∧
    Graph.getNode (graph g') (Graph.nextNodeIndex (graph graphAB))
      = Some (updatedNode graphAB orphan) ∧
    Graph.edges (graph g') = Graph.edges (graph graphAB) ∧
    JsMap.get (Graph.reverseAdjacency (graph g'))
      (Graph.nextNodeIndex (graph graphAB)) = Some [] ∧
    updatedNode graphAB orphan ∈ getRoots g'.
Proof.
  apply (addNode_unknown_parent graphAB orphan "Z"); reflexivity.
Defined.
End Witnesses.

Module Lookup.
Import EffectGraph Invariant Acyclicity Depth.

Lemma omap_ext_elem {X Y} (f f' : X → option Y) (l : list X) :
  (∀ x, x ∈ l → f x = f' x) → omap f l = omap f' l.
Proof.
  induction l as [|x l IH]; intros H; csimpl; [done|].
  rewrite (H x) by left. rewrite IH; [done|]. intros y Hy. apply H. by right.
Qed.

Lemma get_values_dense {V} (m : JsMap.t V) n i :
  JsMap.keys m = seq 0 n → JsMap.get m i = JsMap.values m !! i.
Proof.
  unfold JsMap.keys, JsMap.values.
  assert (∀ b, fst <$> m = seq b n → JsMap.get m (b + i) = (snd <$> m) !! i) as H.
  { revert n i. induction m as [|[k v] m IH]; intros n i b Hk; simpl.
    - done.
    - destruct n as [|n]; [done|]. simpl in Hk. injection Hk as -> Hk.
      destruct i as [|i]; simpl.
      + by rewrite Nat.add_0_r, Nat.eqb_refl.
      + destruct (Nat.eqb b (b + S i)) eqn:E; [apply Nat.eqb_eq in E; lia|].
        transitivity (JsMap.get m (S b + i)); [f_equal; lia|]. by apply (IH n). }
  intros Hk. apply (H 0%nat Hk).
Qed.

Section Lookup.
Context {A : Type}.
Implicit Types (g : EffectGraph A) (node : GraphNode A).

Lemma wf_index_id g i k n :
  wf g → nodeIdToIndex g !! i = Some k →
  Graph.getNode (graph g) k = Some n → id n = i.
Proof.
  intros Hwf Hk Hn. rewrite (wf_index g Hwf) in Hk.
  assert (k ∈ Graph.findNodes (graph g) (hasId i)) as Hin.
  { destruct (Graph.findNodes (graph g) (hasId i)); simplify_eq/=. left. }
  unfold Graph.findNodes in Hin. apply list_elem_of_omap in Hin as ([j m] & Hjm & Hp).
  destruct (hasId i m) eqn:Hid; simplify_eq/=.
  apply Functor.get_elem in Hjm.
  - unfold Graph.getNode in Hn. rewrite Hjm in Hn. injection Hn as <-.
    unfold hasId in Hid. by apply bool_decide_eq_true in Hid.
  - rewrite (wf_keys g Hwf). apply NoDup_seq.
Qed.

Lemma wf_getNode_index g i :
  wf g → is_Some (getNode g i) ↔ is_Some (nodeIdToIndex g !! i).
Proof.
  intros Hwf. unfold getNode. destruct (nodeIdToIndex g !! i) as [k|] eqn:Hk; simpl.
  - split; [by eexists|]. intros _. apply wf_stored; [done|]. by eapply wf_index_lt.
  - split; by intros [].
Qed.

(** The adjacency lists after [addNode]. *)
Lemma addNode_adjacency g node g' :
  addNode g node = Ok g' →
  Graph.adjacency (graph g')
  = (let adj := JsMap.set (Graph.adjacency (graph g))
                  (Graph.nextNodeIndex (graph g)) [] in
     match parentIndex g node with
     | Some pIdx => Graph.push adj pIdx (Graph.nextEdgeIndex (graph g))
     | None => adj
     end)
  ∧ Graph.reverseAdjacency (graph g')
  = (let rev := JsMap.set (Graph.reverseAdjacency (graph g))
                  (Graph.nextNodeIndex (graph g)) [] in
     match parentIndex g node with
     | Some pIdx =>
         Graph.push rev (Graph.nextNodeIndex (graph g))
           (Graph.nextEdgeIndex (graph g))
     | None => rev
     end).
Proof.
  unfold addNode, parentIndex. simpl.
  destruct (parentId node) as [p|]; simpl.
  - destruct (nodeIdToIndex g !! p) as [pIdx|]; simpl.
    + unfold Graph.addEdge. simpl.
      destruct (negb _); [done|]. destruct (negb _); [done|]. simpl.
      destruct (Graph.findNodes _ _); [done|]. by intros [= <-].
    + destruct (Graph.findNodes _ _); [done|]. by intros [= <-].
  - destruct (Graph.findNodes _ _); [done|]. by intros [= <-].
Qed.

Lemma addNode_added g node g' :
  wf g → addNode g node = Ok g' → wf g' ∧ added g node g'.
Proof.
  intros Hwf Hg'. destruct (addNode_wf g node Hwf) as (g2 & Hg2 & ? & ?).
  by assert (g2 = g') as -> by congruence.
Qed.

Lemma neighbors_addNode g node g' k :
  wf g → addNode g node = Ok g' → k ≠ Graph.nextNodeIndex (graph g) →
  Graph.neighbors (graph g') k
  = Graph.neighbors (graph g) k
    ++ (if decide (parentIndex g node = Some k)
        then [Graph.nextNodeIndex (graph g)] else []).
Proof.
  intros Hwf Hg' Hk. destruct (addNode_added g node g' Hwf Hg') as [Hwf' Hadd].
  destruct (addNode_adjacency g node g' Hg') as [Hadj _].
  set (next := Graph.nextNodeIndex (graph g)) in *.
  assert (∀ es, JsMap.get (Graph.adjacency (graph g)) k = Some es →
            omap (λ e, Graph.target <$> JsMap.get (Graph.edges (graph g')) e) es
            = omap (λ e, Graph.target <$> JsMap.get (Graph.edges (graph g)) e) es)
    as Hold.
  { intros es Hes. apply omap_ext_elem. intros e He.
    destruct (wf_adjacent g Hwf k es e Hes He) as (edge & Hedge & _).
    unfold Graph.getEdge in Hedge.
    by rewrite (added_edges _ _ _ Hadd), JsMap.get_app, Hedge. }
  unfold Graph.neighbors. rewrite Hadj. simpl.
  destruct (parentIndex g node) as [pIdx|] eqn:Hpar.
  - rewrite get_push, JsMap.get_set_ne by done.
    destruct (decide (pIdx = k)) as [->|Hne].
    + rewrite decide_True by done.
      assert (k < next)%nat as Hlt.
      { unfold parentIndex in Hpar. destruct (parentId node) as [p|]; [|done].
        simpl in Hpar. by eapply wf_index_lt. }
      destruct (proj1 (wf_adjacency g Hwf k Hlt)) as [es Hes].
      rewrite Hes. simpl. rewrite omap_app, (Hold es Hes). f_equal.
      simpl. rewrite (added_edges _ _ _ Hadd), JsMap.get_app.
      rewrite (wf_fresh_edge g Hwf).
      unfold newEdges. rewrite Hpar. simpl. by rewrite Nat.eqb_refl.
    + rewrite decide_False by congruence. rewrite app_nil_r.
      destruct (JsMap.get (Graph.adjacency (graph g)) k) as [es|] eqn:Hes; [|done].
      by apply Hold.
  - rewrite JsMap.get_set_ne by done. rewrite app_nil_r.
    destruct (JsMap.get (Graph.adjacency (graph g)) k) as [es|] eqn:Hes; [|done].
    by apply Hold.
Qed.

Lemma neighbors_addNode_new g node g' :
  wf g → addNode g node = Ok g' →
  Graph.neighbors (graph g') (Graph.nextNodeIndex (graph g)) = [].
Proof.
  intros Hwf Hg'. destruct (addNode_adjacency g node g' Hg') as [Hadj _].
  unfold Graph.neighbors. rewrite Hadj. simpl.
  destruct (parentIndex g node) as [pIdx|] eqn:Hpar.
  - assert (pIdx < Graph.nextNodeIndex (graph g))%nat as Hlt.
    { unfold parentIndex in Hpar. destruct (parentId node) as [p|]; [|done].
      simpl in Hpar. by eapply wf_index_lt. }
    rewrite get_push, decide_False by lia. by rewrite JsMap.get_set_eq.
  - by rewrite JsMap.get_set_eq.
Qed.

Lemma omap_getNode_old g node g' (l : list nat) :
  wf g → added g node g' →
  (∀ i, i ∈ l → (i < Graph.nextNodeIndex (graph g))%nat) →
  omap (Graph.getNode (graph g')) l = omap (Graph.getNode (graph g)) l.
Proof.
  intros Hwf Hadd Hl. apply omap_ext_elem. intros i Hi.
  destruct (wf_stored g i Hwf (Hl i Hi)) as [n Hn].
  rewrite Hn. by eapply added_getNode_old.
Qed.

(** The node that a parent id resolves to, if the node has one. *)
Definition parentNode g node : option (GraphNode A) :=
  parentId node ≫= getNode g.

Lemma parentIndex_parentNode g node :
  wf g → is_Some (parentIndex g node) ↔ is_Some (parentNode g node).
Proof.
  intros Hwf. unfold parentIndex, parentNode.
  destruct (parentId node) as [p|]; simpl; [|done].
  symmetry. by apply wf_getNode_index.
Qed.

Lemma parentIndex_of g node a k :
  wf g → nodeIdToIndex g !! a = Some k →
  parentIndex g node = Some k ↔ parentId node = Some a.
Proof.
  intros Hwf Hk. unfold parentIndex. destruct (parentId node) as [p|]; simpl.
  - split.
    + intros Hp. f_equal.
      destruct (wf_stored g k Hwf (wf_index_lt g a k Hwf Hk)) as [n Hn].
      rewrite <-(wf_index_id g p k n Hwf Hp Hn). by eapply wf_index_id.
    + by intros [= ->].
  - split; by intros.
Qed.

Lemma added_getNode_fresh g node g' :
  wf g → nodeIdToIndex g !! id node = None → addNode g node = Ok g' →
  getNode g' (id node) = Some (updatedNode g node)
  ∧ ∀ i, i ≠ id node → getNode g' i = getNode g i.
Proof.
  intros Hwf Hfresh Hg'. destruct (addNode_added g node g' Hwf Hg') as [Hwf' Hadd].
  split.
  - unfold getNode. rewrite (added_index_new _ _ _ Hadd), Hfresh. simpl.
    by apply added_getNode_new.
  - intros i Hi. unfold getNode. rewrite (added_index_other _ _ _ Hadd) by done.
    destruct (nodeIdToIndex g !! i) as [k|] eqn:Hk; [|done]. simpl.
    destruct (wf_stored g k Hwf (wf_index_lt g i k Hwf Hk)) as [n Hn].
    rewrite Hn. by eapply added_getNode_old.
Qed.

Lemma added_shadowed g node g' old :
  wf g → getNode g (id node) = Some old → addNode g node = Ok g' →
  getNode g' (id node) = Some old
  ∧ toArray g' = toArray g ++ [updatedNode g node]
  ∧ ∀ i, getNode g' i = getNode g i.
Proof.
  intros Hwf Hold Hg'. destruct (addNode_added g node g' Hwf Hg') as [Hwf' Hadd].
  assert (∀ i, getNode g' i = getNode g i) as Hsame.
  { intros i. unfold getNode.
    assert (nodeIdToIndex g' !! i = nodeIdToIndex g !! i) as ->.
    { destruct (decide (i = id node)) as [->|Hi].
      - apply (added_index _ _ _ Hadd). apply wf_getNode_index; [done|].
        by rewrite Hold.
      - by apply (added_index_other _ _ _ Hadd). }
    destruct (nodeIdToIndex g !! i) as [k|] eqn:Hk; [|done]. simpl.
    destruct (wf_stored g k Hwf (wf_index_lt g i k Hwf Hk)) as [n Hn].
    rewrite Hn. by eapply added_getNode_old. }
  split_and!; [by rewrite Hsame| |done].
  unfold toArray, JsMap.values. by rewrite (added_nodes _ _ _ Hadd), fmap_app.
Qed.

Lemma added_getChildren g node g' a :
  wf g → addNode g node = Ok g' →
  getChildren g' a
  = getChildren g a
    ++ (if decide (parentId node = Some a ∧ is_Some (getNode g a))
        then [updatedNode g node] else []).
Proof.
  intros Hwf Hg'. destruct (addNode_added g node g' Hwf Hg') as [Hwf' Hadd].
  unfold getChildren.
  destruct (nodeIdToIndex g !! a) as [k|] eqn:Hk.
  - rewrite (added_index _ _ _ Hadd), Hk by (by rewrite Hk).
    pose proof (wf_index_lt g a k Hwf Hk) as Hlt.
    rewrite (neighbors_addNode g node g' k Hwf Hg') by lia.
    rewrite omap_app.
    rewrite (omap_getNode_old g node g' _ Hwf Hadd)
      by (intros i Hi; by apply (wf_neighbors g k i Hwf) in Hi as [_ ?]).
    f_equal.
    assert (is_Some (getNode g a)) as Hsome
      by (apply wf_getNode_index; [done|by rewrite Hk]).
    destruct (decide (parentIndex g node = Some k)) as [Hp|Hp].
    + rewrite decide_True
        by (split; [by apply (parentIndex_of g node a k Hwf Hk)|done]).
      simpl. by rewrite (added_getNode_new g node g' Hwf Hadd).
    + rewrite decide_False; [done|].
      intros [Hpa _]. by apply Hp, (parentIndex_of g node a k Hwf Hk).
  - rewrite decide_False.
    2:{ intros [_ Hs]. apply wf_getNode_index in Hs; [|done].
        rewrite Hk in Hs. by destruct Hs. }
    rewrite app_nil_r.
    destruct (decide (a = id node)) as [->|Ha].
    + rewrite (added_index_new _ _ _ Hadd), Hk. simpl.
      by rewrite (neighbors_addNode_new g node g' Hwf Hg').
    + by rewrite (added_index_other _ _ _ Hadd), Hk.
Qed.

Lemma added_getRoots g node g' :
  wf g → addNode g node = Ok g' →
  getRoots g'
  = getRoots g
    ++ match parentNode g node with
       | Some _ => []
       | None => [updatedNode g node]
       end.
Proof.
  intros Hwf Hg'. destruct (addNode_added g node g' Hwf Hg') as [Hwf' Hadd].
  destruct (addNode_adjacency g node g' Hg') as [_ Hrev].
  set (next := Graph.nextNodeIndex (graph g)) in *.
  assert (∀ i, i ≠ next →
            JsMap.get (Graph.reverseAdjacency (graph g')) i
            = JsMap.get (Graph.reverseAdjacency (graph g)) i) as Hold.
  { intros i Hi. rewrite Hrev. simpl. destruct (parentIndex g node).
    - rewrite get_push, decide_False by done. by apply JsMap.get_set_ne.
    - by apply JsMap.get_set_ne. }
  assert (∀ i, i ∈ Graph.externalsIncoming (graph g) → (i < next)%nat) as Hext.
  { intros i. unfold Graph.externalsIncoming. rewrite list_elem_of_omap.
    intros ([j n] & Hin & Hj).
    assert (j ∈ JsMap.keys (Graph.nodes (graph g))) as Hkey
      by (apply list_elem_of_fmap; by exists (j, n)).
    rewrite (wf_keys g Hwf) in Hkey. apply list_elem_of_In, in_seq in Hkey.
    destruct (JsMap.get _ j) as [[|]|]; simplify_eq/=; lia. }
  unfold getRoots, Graph.externalsIncoming.
  rewrite (added_nodes _ _ _ Hadd), !omap_app.
  assert (omap (λ '(i, _),
             match JsMap.get (Graph.reverseAdjacency (graph g')) i with
             | None | Some [] => Some i
             | Some (_ :: _) => None
             end) (Graph.nodes (graph g))
          = Graph.externalsIncoming (graph g)) as ->.
  { apply omap_ext_elem. intros [i n] Hin.
    assert (i ∈ JsMap.keys (Graph.nodes (graph g))) as Hkey
      by (apply list_elem_of_fmap; by exists (i, n)).
    rewrite (wf_keys g Hwf) in Hkey. apply list_elem_of_In, in_seq in Hkey.
    rewrite Hold by (unfold next; lia). done. }
  rewrite (omap_getNode_old g node g' _ Hwf Hadd) by done.
  f_equal. simpl. fold next.
  pose proof (parentIndex_parentNode g node Hwf) as Hiff.
  rewrite Hrev. simpl. fold next.
  destruct (parentIndex g node) as [pIdx|] eqn:Hpar.
  - rewrite get_push, decide_True, JsMap.get_set_eq by done. simpl.
    destruct (parentNode g node); [done|].
    destruct (proj1 Hiff) as [? ?]; [by eexists|done].
  - rewrite JsMap.get_set_eq. simpl.
    destruct (parentNode g node) as [pn|].
    + destruct (proj2 Hiff) as [? ?]; [by eexists|done].
    + unfold next. by rewrite (added_getNode_new g node g' Hwf Hadd).
Qed.

(** X1: on a graph of the shape the construction API produces, adding
    a node under an id the graph does not have yet succeeds; afterwards
    [getNode] finds the node under its id, as [addNode] stored it, and
    answers as before for every other id. *)
Theorem getNode_addNode g node :
  wf g → getNode g (id node) = None →
  ∃ g', addNode g node = Ok g'
    ∧ getNode g' (id node) = Some (updatedNode g node)
    ∧ ∀ i, i ≠ id node → getNode g' i = getNode g i.
Proof.
  intros Hwf Hnone. destruct (addNode_wf g node Hwf) as (g' & Hg' & _).
  exists g'. split; [done|]. apply added_getNode_fresh; [done| |done].
  destruct (nodeIdToIndex g !! id node) as [k|] eqn:Hk; [|done].
  assert (is_Some (getNode g (id node))) as [? ?]
    by (apply wf_getNode_index; [done|by rewrite Hk]).
  congruence.
Qed.

(** X2: adding a node under an id the graph already has succeeds too:
    the node is stored, last in [toArray], but [getNode] keeps answering
    with the node stored first under that id, and answers as before for
    every id. *)
Theorem addNode_duplicate_id g node old :
  wf g → getNode g (id node) = Some old →
  ∃ g', addNode g node = Ok g'
    ∧ getNode g' (id node) = Some old
    ∧ toArray g' = toArray g ++ [updatedNode g node]
    ∧ ∀ i, getNode g' i = getNode g i.
Proof.
  intros Hwf Hold. destruct (addNode_wf g node Hwf) as (g' & Hg' & _).
  exists g'. split; [done|]. by apply added_shadowed.
Qed.

(** X3: after [addNode], the new node is the last child of the node its
    [parentId] resolves to, and the children of every other id are as
    before; the new node itself has no children. *)
Theorem getChildren_addNode g node :
  wf g →
  ∃ g', addNode g node = Ok g'
    ∧ ∀ a, getChildren g' a
           = getChildren g a
             ++ (if decide (parentId node = Some a ∧ is_Some (getNode g a))
                 then [updatedNode g node] else []).
Proof.
  intros Hwf. destruct (addNode_wf g node Hwf) as (g' & Hg' & _).
  exists g'. split; [done|]. intros a. by apply added_getChildren.
Qed.

(** X4: after [addNode], the roots are those of before, followed by the
    new node when it has no [parentId] or its [parentId] resolves to no
    node; a node added under a parent that resolves is never a root. *)
Theorem getRoots_addNode g node :
  wf g →
  ∃ g', addNode g node = Ok g'
    ∧ getRoots g'
      = getRoots g
        ++ match parentNode g node with
           | Some _ => []
           | None => [updatedNode g node]
           end.
Proof.
  intros Hwf. destruct (addNode_wf g node Hwf) as (g' & Hg' & _).
  exists g'. split; [done|]. by apply added_getRoots.
Qed.

(** X5: [toArray] of a graph built through the API lists every node
    after the node its [parentId] resolves to, which is one level up. *)
Theorem toArray_parent_first g i n p :
  built g → toArray g !! i = Some n → parentId n = Some p →
  ∃ j pn, (j < i)%nat ∧ toArray g !! j = Some pn ∧ id pn = p
          ∧ getNode g p = Some pn
          ∧ depth (metadata n) = depth (metadata pn) + 1.
Proof.
  intros Hb. revert i n p.
  assert (∀ k n p, Graph.getNode (graph g) k = Some n → parentId n = Some p →
            ∃ j pn, (j < k)%nat ∧ nodeIdToIndex g !! p = Some j
                    ∧ Graph.getNode (graph g) j = Some pn
                    ∧ depth (metadata n) = depth (metadata pn) + 1) as Hinv.
  { induction Hb as [|i t d|g g' i t d p op Hb IH Hpar Hg'].
    - intros k n q Hk. done.
    - intros k n q. unfold Graph.getNode. simpl.
      destruct k; [|done]. by intros [= <-].
    - pose proof (built_wf g Hb) as Hwf.
      destruct (addNode_added g _ g' Hwf Hg') as [Hwf' Hadd].
      intros k n q Hk Hq.
      destruct (added_getNode_inv _ _ _ _ _ Hwf Hadd Hk) as [Hold|[-> ->]].
      + destruct (IH k n q Hold Hq) as (j & pn & Hj & Hidx & Hpn & Hd).
        exists j, pn. split_and!; [done| |by eapply added_getNode_old|done].
        rewrite (added_index _ _ _ Hadd); [done|by rewrite Hidx].
      + rewrite parentId_updatedNode in Hq. simpl in Hq. subst p.
        destruct (Hpar q eq_refl) as [pn Hpn].
        unfold getNode in Hpn.
        destruct (nodeIdToIndex g !! q) as [j|] eqn:Hj; [|done]. simpl in Hpn.
        exists j, pn. split_and!.
        * by eapply wf_index_lt.
        * rewrite (added_index _ _ _ Hadd); [done|by rewrite Hj].
        * by eapply added_getNode_old.
        * unfold updatedNode, makeNode, getNode. simpl. rewrite Hj. simpl.
          by rewrite Hpn. }
  pose proof (built_wf g Hb) as Hwf.
  intros i n p Hi Hp. unfold toArray in *.
  rewrite <-(get_values_dense _ _ _ (wf_keys g Hwf)) in Hi.
  destruct (Hinv i n p Hi Hp) as (j & pn & Hj & Hidx & Hpn & Hd).
  exists j, pn. split_and!; [done| | | |done].
  - by rewrite <-(get_values_dense _ _ _ (wf_keys g Hwf)).
  - by eapply wf_index_id.
  - unfold getNode. by rewrite Hidx.
Qed.
End Lookup.

(** A third node, C, under A. *)
Definition childC : GraphNode string :=
  makeNode "C" 2 "another sentence" (Some "A") (Some "sentencize").

(** X1, witness: C is new to the graph of A and B. *)
Lemma getNode_addNode_witness :
  ∃ g', addNode Cycles.graphAB childC = Ok g'
    ∧ getNode g' (id childC) = Some (updatedNode Cycles.graphAB childC)
    ∧ ∀ i, i ≠ id childC → getNode g' i = getNode Cycles.graphAB i.
Proof.
  apply (getNode_addNode Cycles.graphAB childC Cycles.graphAB_wf). reflexivity.
Defined.

(** X2, witness: a second node under the id of A. *)
Lemma addNode_duplicate_id_witness :
  ∃ g', addNode Cycles.graphAB Cycles.backToA = Ok g'
    ∧ getNode g' (id Cycles.backToA) = Some Cycles.rootA
    ∧ toArray g'
      = toArray Cycles.graphAB ++ [updatedNode Cycles.graphAB Cycles.backToA]
    ∧ ∀ i, getNode g' i = getNode Cycles.graphAB i.
Proof.
  apply (addNode_duplicate_id Cycles.graphAB Cycles.backToA Cycles.rootA
           Cycles.graphAB_wf).
  reflexivity.
Defined.

(** X3, witness: C becomes the second child of A. *)
Lemma getChildren_addNode_witness :
  ∃ g', addNode Cycles.graphAB childC = Ok g'
    ∧ ∀ a, getChildren g' a
           = getChildren Cycles.graphAB a
             ++ (if decide (parentId childC = Some a
                            ∧ is_Some (getNode Cycles.graphAB a))
                 then [updatedNode Cycles.graphAB childC] else []).
Proof. apply (getChildren_addNode Cycles.graphAB childC Cycles.graphAB_wf). Defined.

(** X4, witness: C, added under A, is no root. *)
Lemma getRoots_addNode_witness :
  ∃ g', addNode Cycles.graphAB childC = Ok g'
    ∧ getRoots g'
      = getRoots Cycles.graphAB
        ++ match parentNode Cycles.graphAB childC with
           | Some _ => []
           | None => [updatedNode Cycles.graphAB childC]
           end.
Proof. apply (getRoots_addNode Cycles.graphAB childC Cycles.graphAB_wf). Defined.

(** X5, witness: B comes after A in the graph of A and B. *)
Lemma toArray_parent_first_witness :
  ∃ j pn, (j < 1)%nat ∧ toArray Cycles.graphAB !! j = Some pn ∧ id pn = "A"
          ∧ getNode Cycles.graphAB "A" = Some pn
          ∧ depth (metadata (updatedNode empty Cycles.childB))
            = depth (metadata pn) + 1.
Proof.
  apply (toArray_parent_first Cycles.graphAB 1
           (updatedNode empty Cycles.childB) "A" Witnesses.graphAB_is_built);
    reflexivity.
Defined.
End Lookup.

Module FoldValue.
Import EffectGraph Cycles Fold.

Section FoldValue.
Context {A B : Type}.
Implicit Types (g : EffectGraph A) (algebra : GraphNode A → list B → B).
Implicit Types (s : FoldState (A:=A) (B:=B)).

(** The fold as plain recursion over [getNode] and [getChildren], with
    no table: what [cata] is meant to compute.  [None] when an id does
    not resolve or the fuel runs out. *)
Fixpoint foldAt (fuel : nat) g algebra (nodeId : NodeId) : option B :=
  match fuel with
  | O => None
  | S fuel' =>
      node ← getNode g nodeId;
      children ← mapM (λ c, foldAt fuel' g algebra (id c)) (getChildren g nodeId);
      Some (algebra node children)
  end.

Lemma foldAt_mono g algebra fuel fuel' x b :
  (fuel ≤ fuel')%nat →
  foldAt fuel g algebra x = Some b → foldAt fuel' g algebra x = Some b.
Proof.
  revert fuel' x b. induction fuel as [|fuel IH]; intros fuel' x b Hle; [done|].
  destruct fuel' as [|fuel']; [lia|]. simpl.
  destruct (getNode g x) as [node|]; [|done]. simpl.
  destruct (mapM _ (getChildren g x)) as [bs|] eqn:Hbs; [|done]. simpl.
  intros [= <-].
  assert (mapM (λ c, foldAt fuel' g algebra (id c)) (getChildren g x) = Some bs)
    as ->; [|done].
  apply mapM_Some. apply mapM_Some in Hbs.
  eapply Forall2_impl; [exact Hbs|]. intros c b Hc. apply IH; [lia|done].
Qed.

Lemma foldAt_list_mono g algebra fuel fuel' (cs : list (GraphNode A)) bs :
  (fuel ≤ fuel')%nat →
  mapM (λ c, foldAt fuel g algebra (id c)) cs = Some bs →
  mapM (λ c, foldAt fuel' g algebra (id c)) cs = Some bs.
Proof.
  intros Hle Hbs. apply mapM_Some. apply mapM_Some in Hbs.
  eapply Forall2_impl; [exact Hbs|]. intros c b Hc. by eapply foldAt_mono.
Qed.

(** Every entry of the table is a value of the plain recursion. *)
Definition memoOk g algebra s : Prop :=
  ∀ x b, memo s !! x = Some b → ∃ f, foldAt f g algebra x = Some b.

Lemma all_plain g algebra fuel :
  (∀ x s b s', memoOk g algebra s →
     go fuel g algebra x s = Ok (b, s') →
     memoOk g algebra s' ∧ ∃ f, foldAt f g algebra x = Some b) →
  ∀ (cs : list (GraphNode A)) s bs s', memoOk g algebra s →
    all (λ c, go fuel g algebra (id c)) cs s = Ok (bs, s') →
    memoOk g algebra s'
    ∧ ∃ f, mapM (λ c, foldAt f g algebra (id c)) cs = Some bs.
Proof.
  intros Hgo. induction cs as [|c cs IH]; intros s bs s' Hok; simpl.
  - intros [= <- <-]. split; [done|]. by exists 0%nat.
  - destruct (go fuel g algebra (id c) s) as [[b s1]|e] eqn:Hc; [|done]. simpl.
    destruct (all (λ c, go fuel g algebra (id c)) cs s1) as [[bs' s2]|e] eqn:Hcs;
      [|done].
    simpl. intros [= <- <-].
    destruct (Hgo _ _ _ _ Hok Hc) as [Hok1 [f1 Hf1]].
    destruct (IH _ _ _ Hok1 Hcs) as [Hok2 [f2 Hf2]].
    split; [done|]. exists (f1 `max` f2)%nat.
    apply (proj2 (mapM_Some (λ c, foldAt (f1 `max` f2) g algebra (id c))
                   (c :: cs) (b :: bs'))). constructor.
    + eapply foldAt_mono; [|exact Hf1]. lia.
    + apply mapM_Some. eapply foldAt_list_mono; [|exact Hf2]. lia.
Qed.

Lemma go_plain g algebra fuel :
  ∀ x s b s', memoOk g algebra s →
    go fuel g algebra x s = Ok (b, s') →
    memoOk g algebra s' ∧ ∃ f, foldAt f g algebra x = Some b.
Proof.
  induction fuel as [|fuel IH]; intros x s b s' Hok; [done|].
  simpl. destruct (memo s !! x) as [b0|] eqn:Hmemo.
  { intros [= <- <-]. split; [done|]. by eapply Hok. }
  destruct (getNode g x) as [node|] eqn:Hnode; [|done].
  destruct (all _ (getChildren g x) s) as [[bs s1]|e] eqn:Hall; [|done].
  simpl. intros [= <- <-].
  destruct (all_plain g algebra fuel IH _ _ _ _ Hok Hall) as [Hok1 [f Hf]].
  assert (foldAt (S f) g algebra x = Some (algebra node bs)) as Hval.
  { simpl. rewrite Hnode. simpl. by rewrite Hf. }
  split; [|by exists (S f)].
  intros y b. simpl. destruct (decide (x = y)) as [<-|Hne].
  - rewrite lookup_insert_eq. intros [= <-]. by exists (S f).
  - rewrite lookup_insert_ne by done. apply Hok1.
Qed.

Lemma cataRun_plain g algebra fuel results s :
  cataRun fuel g algebra = Ok (results, s) →
  ∃ f, ∀ f', (f ≤ f')%nat →
    mapM (λ r, foldAt f' g algebra (id r)) (getRoots g) = Some results.
Proof.
  intros Hrun. unfold cataRun in Hrun.
  assert (memoOk g algebra (mkFoldState ∅ [])) as Hinit.
  { intros x b. simpl. by rewrite lookup_empty. }
  destruct (all_plain g algebra fuel (go_plain g algebra fuel) _ _ _ _ Hinit Hrun)
    as [_ [f Hf]].
  exists f. intros f' Hle. by eapply foldAt_list_mono.
Qed.

(** X6: whenever [cata] returns, its results are those of the plain
    recursion over [getNode] and [getChildren] at the roots: the table of
    results changes no result.  No condition on the graph is needed. *)
Theorem cata_plain_recursion g algebra fuel results :
  cata fuel g algebra = Ok results →
  ∃ f, ∀ f', (f ≤ f')%nat →
    mapM (λ r, foldAt f' g algebra (id r)) (getRoots g) = Some results.
Proof.
  unfold cata. destruct (cataRun fuel g algebra) as [[rs s]|e] eqn:Hrun; [|done].
  simpl. intros [= <-]. by eapply cataRun_plain.
Qed.
End FoldValue.

(** X6, witness: the fold of the diamond. *)
Lemma cata_plain_recursion_witness :
  ∃ f, ∀ f', (f ≤ f')%nat →
    mapM (λ r, foldAt f' FoldExamples.diamond FoldExamples.countPaths (id r))
         (getRoots FoldExamples.diamond)
    = Some [5%nat].
Proof.
  apply (cata_plain_recursion FoldExamples.diamond FoldExamples.countPaths 3).
  vm_compute. reflexivity.
Defined.
End FoldValue.

(** ** EffectGraph.ts: the unfold *)

Module Unfold.
Import EffectGraph Invariant Acyclicity Depth Cycles Fold FoldBuilt Lookup FoldValue.

(** The two effects of [makeNode]: [generate n] is the id that
    [NodeId.generate()] returns in the [n]-th call of [makeNode] and
    [now n] what [Date.now()] returns there. *)
Record Generator : Type := mkGenerator {
  generate : nat → NodeId;
  now : nat → Z
}.

Section Ana.
Context {A B : Type}.
Implicit Types (gen : Generator) (coalgebra : B → A * list B).

(** The variable [graph] of [ana], and how many nodes were made. *)
Record AnaState : Type := mkAnaState {
  graphVar : EffectGraph A;
  made : nat
}.

(** [Effect.all(effects)]: one after the other, in order. *)
Fixpoint all {X Y} (run : X → AnaState → Result (Y * AnaState))
    (xs : list X) (s : AnaState) : Result (list Y * AnaState) :=
  match xs with
  | [] => Ok ([], s)
  | x :: rest =>
      '(y, s1) ← run x s;
      '(ys, s2) ← all run rest s1;
      Ok (y :: ys, s2)
  end.

(** The inner [go] of [ana].  The coalgebra is an effect that cannot
    fail, taken as a function.  [fuel] bounds the depth of the unfolding. *)
Fixpoint go (fuel : nat) gen coalgebra (currentSeed : B)
    (parentId : option NodeId) (s : AnaState) : Result (NodeId * AnaState) :=
  match fuel with
  | O => Err OutOfFuel
  | S fuel' =>
      let '(d, childSeeds) := coalgebra currentSeed in
      let node :=
        makeNode (generate gen (made s)) (now gen (made s)) d parentId None in
      graph' ← addNode (graphVar s) node;
      '(_, s') ←
        all (λ childSeed, go fuel' gen coalgebra childSeed (Some (id node)))
            childSeeds (mkAnaState graph' (S (made s)));
      Ok (id node, s')
  end.

Definition ana (fuel : nat) gen (seed : B) coalgebra : Result (EffectGraph A) :=
  '(_, s) ← go fuel gen coalgebra seed None (mkAnaState empty 0);
  Ok (graphVar s).
End Ana.

(** Unfolding with the coalgebra and folding with an algebra in one
    recursion, with no graph in between. *)
Fixpoint hylo {A B C} (fuel : nat) (coalgebra : B → A * list B)
    (algebra : A → list C → C) (seed : B) : option C :=
  match fuel with
  | O => None
  | S fuel' =>
      let '(d, childSeeds) := coalgebra seed in
      results ← mapM (hylo fuel' coalgebra algebra) childSeeds;
      Some (algebra d results)
  end.

(** The data the coalgebra produces, a node before its subtrees, the
    subtrees from left to right. *)
Definition preorder {A B} (fuel : nat) (coalgebra : B → A * list B) (seed : B)
    : option (list A) :=
  hylo fuel coalgebra (λ d below, d :: concat below) seed.

Section AnaBuilt.
Context {A B : Type}.
Implicit Types (gen : Generator) (coalgebra : B → A * list B).
Implicit Types (s : AnaState (A:=A)) (g : EffectGraph A).

Lemma data_updatedNode g (node : GraphNode A) :
  data (updatedNode g node) = data node.
Proof. unfold updatedNode. by destruct (parentId node). Qed.

Lemma added_self_found g (node : GraphNode A) g' :
  wf g → addNode g node = Ok g' → is_Some (getNode g' (id node)).
Proof.
  intros Hwf Hg'. destruct (addNode_added g node g' Hwf Hg') as [Hwf' Hadd].
  apply wf_getNode_index; [done|]. by rewrite (added_index_new _ _ _ Hadd).
Qed.

Lemma added_toArray g (node : GraphNode A) g' :
  added g node g' → toArray g' = toArray g ++ [updatedNode g node].
Proof.
  intros Hadd. unfold toArray, JsMap.values.
  by rewrite (added_nodes _ _ _ Hadd), fmap_app.
Qed.

Lemma all_built gen coalgebra fuel q :
  (∀ seed s ds,
     preorder fuel coalgebra seed = Some ds →
     built (graphVar s) → is_Some (getNode (graphVar s) q) →
     ∃ s', go fuel gen coalgebra seed (Some q) s = Ok (generate gen (made s), s')
       ∧ built (graphVar s')
       ∧ data <$> toArray (graphVar s') = (data <$> toArray (graphVar s)) ++ ds
       ∧ (∀ a, is_Some (getNode (graphVar s) a) →
               is_Some (getNode (graphVar s') a))) →
  ∀ seeds s dss,
    mapM (preorder fuel coalgebra) seeds = Some dss →
    built (graphVar s) → is_Some (getNode (graphVar s) q) →
    ∃ ids s', all (λ seed, go fuel gen coalgebra seed (Some q)) seeds s
              = Ok (ids, s')
      ∧ built (graphVar s')
      ∧ data <$> toArray (graphVar s')
        = (data <$> toArray (graphVar s)) ++ concat dss
      ∧ (∀ a, is_Some (getNode (graphVar s) a) →
              is_Some (getNode (graphVar s') a)).
Proof.
  intros Hgo. induction seeds as [|seed seeds IH]; intros s dss Hdss Hb Hq.
  - apply mapM_Some in Hdss. inversion Hdss; subst. simpl.
    exists [], s. split_and!; [done|done|by rewrite app_nil_r|done].
  - apply mapM_Some in Hdss. inversion Hdss as [|? ds ? dss' Hds Hrest]; subst.
    apply mapM_Some in Hrest.
    destruct (Hgo seed s ds Hds Hb Hq) as (s1 & Hs1 & Hb1 & Hd1 & Hst1).
    destruct (IH s1 dss' Hrest Hb1 (Hst1 q Hq)) as (ids & s2 & Hs2 & Hb2 & Hd2 & Hst2).
    exists (generate gen (made s) :: ids), s2. simpl. rewrite Hs1. simpl.
    rewrite Hs2. simpl. split_and!; [done|done| |by auto].
    by rewrite Hd2, Hd1, app_assoc.
Qed.

Lemma go_built gen coalgebra fuel :
  ∀ seed parent s ds,
    preorder fuel coalgebra seed = Some ds →
    built (graphVar s) →
    (∀ q, parent = Some q → is_Some (getNode (graphVar s) q)) →
    ∃ s', go fuel gen coalgebra seed parent s = Ok (generate gen (made s), s')
      ∧ built (graphVar s')
      ∧ data <$> toArray (graphVar s') = (data <$> toArray (graphVar s)) ++ ds
      ∧ (∀ a, is_Some (getNode (graphVar s) a) →
              is_Some (getNode (graphVar s') a)).
Proof.
  induction fuel as [|fuel IH]; intros seed parent s ds Hds Hb Hpar; [done|].
  unfold preorder in Hds. simpl in Hds. simpl.
  destruct (coalgebra seed) as [d seeds].
  destruct (mapM _ seeds) as [dss|] eqn:Hdss; [|done]. simpl in Hds.
  injection Hds as <-.
  set (node := makeNode (generate gen (made s)) (now gen (made s)) d parent None).
  pose proof (built_wf _ Hb) as Hwf.
  destruct (addNode_wf (graphVar s) node Hwf) as (g1 & Hg1 & Hwf1 & Hadd).
  rewrite Hg1. simpl.
  assert (built g1) as Hb1 by (eapply built_addNode; eauto).
  destruct (all_built gen coalgebra fuel (generate gen (made s))) with
    (seeds := seeds) (s := mkAnaState g1 (S (made s))) (dss := dss)
    as (ids & s2 & Hs2 & Hb2 & Hd2 & Hst2); [|done|done| |].
  { intros seed' s0 ds' H1 H2 H3. apply IH; [done|done|]. by intros q [= <-]. }
  { simpl. apply (added_self_found (graphVar s) node g1 Hwf Hg1). }
  simpl in *. rewrite Hs2. simpl. exists s2. split_and!; [done|done| |].
  - rewrite Hd2, (added_toArray _ _ _ Hadd), fmap_app. simpl.
    rewrite data_updatedNode. simpl. by rewrite <-app_assoc.
  - intros a [n Hn]. apply Hst2. exists n. by eapply added_lookup_stable.
Qed.

(** X7: when the coalgebra unfolds the seed into a finite tree, [ana]
    returns, whatever ids and times [makeNode] draws; the graph holds one
    node per unfolding step, their data in [toArray] being the tree in
    pre-order, and it is a graph of the construction API, so acyclic. *)
Theorem ana_preorder gen coalgebra fuel (seed : B) ds :
  preorder fuel coalgebra seed = Some ds →
  ∃ g, ana fuel gen seed coalgebra = Ok g
    ∧ data <$> toArray g = ds
    ∧ size g = length ds
    ∧ built g
    ∧ GraphOps.isAcyclic (graph g) = true.
Proof.
  intros Hds.
  destruct (go_built gen coalgebra fuel seed None (mkAnaState empty 0) ds Hds)
    as (s' & Hs' & Hb & Hd & _); [apply built_empty|done|].
  change (data <$> toArray (graphVar s') = ds) in Hd.
  unfold ana. rewrite Hs'. simpl. exists (graphVar s').
  split_and!; [done|done| |done|].
  - unfold size, Graph.nodeCount, JsMap.size.
    rewrite <-Hd. unfold toArray, JsMap.values. by rewrite !length_fmap.
  - apply wf_isAcyclic. by apply built_wf.
Qed.
End AnaBuilt.

(** *** Folding what was unfolded *)

Lemma mapM_ext_elem {X Y} (f f' : X → option Y) (l : list X) :
  (∀ x, x ∈ l → f x = f' x) → mapM f l = mapM f' l.
Proof.
  induction l as [|x l IH]; intros H; [done|]. simpl.
  rewrite (H x) by left. rewrite IH; [done|]. intros y Hy. apply H. by right.
Qed.

Section Frozen.
Context {A C : Type}.
Implicit Types (g : EffectGraph A) (algebra : GraphNode A → list C → C).

(** The plain fold from an id reads the graph only at the ids below it. *)
Lemma foldAt_frozen g g' algebra (I : NodeId → Prop) :
  (∀ a, I a → getNode g' a = getNode g a ∧ getChildren g' a = getChildren g a) →
  (∀ a c, I a → c ∈ getChildren g a → I (id c)) →
  ∀ f x, I x → foldAt f g' algebra x = foldAt f g algebra x.
Proof.
  intros Hsame Hclosed. induction f as [|f IH]; intros x Hx; [done|]. simpl.
  destruct (Hsame x Hx) as [-> ->].
  destruct (getNode g x) as [node|]; [|done]. simpl.
  rewrite (mapM_ext_elem (λ c, foldAt f g' algebra (id c))
             (λ c, foldAt f g algebra (id c))); [done|].
  intros c Hc. apply IH. by eapply Hclosed.
Qed.

Lemma cataRun_total (g : EffectGraph A) (algebra : GraphNode A → list C → C)
    height fuel :
  acyclicBy g height = true → resolvable g = true →
  (∀ r, r ∈ getRoots g → (height (id r) < fuel)%nat) →
  ∃ r, cataRun fuel g algebra = Ok r.
Proof.
  intros Hacy Hres Hfuel.
  destruct (cataRun fuel g algebra) as [r|e] eqn:Hrun; [by exists r|].
  destruct (cataRun_err g algebra height fuel e Hacy Hfuel Hrun)
    as (x & _ & Hx & (r & Hr & Hd)).
  assert (is_Some (getNode g x)) as [n Hn].
  { destruct Hd as [->|Hd]; [by apply resolvable_root|].
    by eapply resolvable_descendant. }
  congruence.
Qed.
End Frozen.

Section AnaFold.
Context {A B C : Type}.
Context (gen : Generator) (coalgebra : B → A * list B) (alg : A → list C → C).
Context (generate_inj : Inj (=) (=) (generate gen)).
Implicit Types (s : AnaState (A:=A)) (g : EffectGraph A).

(** An algebra that reads the data of the node only. *)
Definition onData : GraphNode A → list C → C :=
  λ node results, alg (data node) results.

(** Between two calls of [go]: the graph was built with fresh ids, all
    of them drawn so far. *)
Record anaInv s : Prop := mkAnaInv {
  inv_fresh : builtFresh (graphVar s);
  inv_ids : ∀ i, is_Some (getNode (graphVar s) i) →
    ∃ j, (j < made s)%nat ∧ i = generate gen j
}.

(** What unfolding under [parent] does to the graph: the nodes [roots]
    become the last children of [parent], or the last roots; nothing else
    changes at the ids there were; the ids drawn meanwhile are those of
    the new nodes, whose children are new nodes. *)
Record grown s s' (parent : option NodeId) (roots : list (GraphNode A))
    : Prop := mkGrown {
  grown_inv : anaInv s';
  grown_made : (made s ≤ made s')%nat;
  grown_old : ∀ a, is_Some (getNode (graphVar s) a) →
    getNode (graphVar s') a = getNode (graphVar s) a
    ∧ getChildren (graphVar s') a
      = getChildren (graphVar s) a
        ++ (if decide (parent = Some a) then roots else []);
  grown_roots :
    getRoots (graphVar s')
    = getRoots (graphVar s)
      ++ match parent with None => roots | Some _ => [] end;
  grown_ids : Forall (λ r, ∃ j, (made s ≤ j < made s')%nat
                            ∧ id r = generate gen j) roots;
  grown_new : ∀ j, (made s ≤ j < made s')%nat →
    is_Some (getNode (graphVar s') (generate gen j));
  grown_closed : ∀ j c, (made s ≤ j < made s')%nat →
    c ∈ getChildren (graphVar s') (generate gen j) →
    ∃ j', (made s ≤ j' < made s')%nat ∧ id c = generate gen j'
}.

Lemma anaInv_not_old s j a :
  anaInv s → (made s ≤ j)%nat → is_Some (getNode (graphVar s) a) →
  a ≠ generate gen j.
Proof using Type*.
  intros Hinv Hj Ha ->. destruct (inv_ids s Hinv _ Ha) as (j' & Hj' & Heq).
  apply generate_inj in Heq. lia.
Qed.

Lemma grown_nil s q : anaInv s → grown s s (Some q) [].
Proof using Type*.
  intros Hinv. split; [done|done| | | | |].
  - intros a _. split; [done|]. case_decide; by rewrite app_nil_r.
  - by rewrite app_nil_r.
  - constructor.
  - intros j ?. lia.
  - intros j c ?. lia.
Qed.

Lemma grown_trans s s1 s2 q r1 r2 :
  anaInv s → is_Some (getNode (graphVar s) q) →
  grown s s1 (Some q) r1 → grown s1 s2 (Some q) r2 →
  grown s s2 (Some q) (r1 ++ r2).
Proof using Type*.
  intros Hinv Hq H1 H2.
  pose proof (grown_made _ _ _ _ H1) as Hm1.
  pose proof (grown_made _ _ _ _ H2) as Hm2.
  assert (∀ a, is_Some (getNode (graphVar s) a) →
            is_Some (getNode (graphVar s1) a)) as Hkeep.
  { intros a Ha. destruct (grown_old _ _ _ _ H1 a Ha) as [-> _]. done. }
  split.
  - apply H2.
  - lia.
  - intros a Ha. destruct (grown_old _ _ _ _ H1 a Ha) as [Hn1 Hc1].
    destruct (grown_old _ _ _ _ H2 a (Hkeep a Ha)) as [Hn2 Hc2].
    split; [congruence|]. rewrite Hc2, Hc1, <-app_assoc. f_equal.
    case_decide; [done|by rewrite app_nil_r].
  - rewrite (grown_roots _ _ _ _ H2), (grown_roots _ _ _ _ H1).
    by rewrite !app_nil_r.
  - apply Forall_app. split.
    + eapply Forall_impl; [apply (grown_ids _ _ _ _ H1)|].
      intros r (j & Hj & Hr). exists j. split; [lia|done].
    + eapply Forall_impl; [apply (grown_ids _ _ _ _ H2)|].
      intros r (j & Hj & Hr). exists j. split; [lia|done].
  - intros j Hj. destruct (decide (j < made s1)%nat) as [Hlt|Hge].
    + assert (is_Some (getNode (graphVar s1) (generate gen j))) as Hs1
        by (apply (grown_new _ _ _ _ H1); lia).
      destruct (grown_old _ _ _ _ H2 _ Hs1) as [-> _]. done.
    + apply (grown_new _ _ _ _ H2). lia.
  - intros j c Hj Hc. destruct (decide (j < made s1)%nat) as [Hlt|Hge].
    + assert (is_Some (getNode (graphVar s1) (generate gen j))) as Hs1
        by (apply (grown_new _ _ _ _ H1); lia).
      destruct (grown_old _ _ _ _ H2 _ Hs1) as [_ Hc2]. rewrite Hc2 in Hc.
      rewrite decide_False, app_nil_r in Hc.
      2:{ intros [= ->]. eapply (anaInv_not_old s j); [done|lia|exact Hq|done]. }
      destruct (grown_closed _ _ _ _ H1 j c) as (j' & Hj' & Hid); [lia|done|].
      exists j'. split; [lia|done].
    + destruct (grown_closed _ _ _ _ H2 j c) as (j' & Hj' & Hid); [lia|done|].
      exists j'. split; [lia|done].
Qed.

(** Growth under a parent that is not among the nodes of a finished
    subtree leaves the plain fold of the subtree as it was. *)
Lemma grown_value s s1 s2 q rs f x :
  anaInv s → is_Some (getNode (graphVar s) q) →
  (made s ≤ made s1)%nat →
  (∀ j, (made s ≤ j < made s1)%nat →
     is_Some (getNode (graphVar s1) (generate gen j))) →
  (∀ j c, (made s ≤ j < made s1)%nat →
     c ∈ getChildren (graphVar s1) (generate gen j) →
     ∃ j', (made s ≤ j' < made s1)%nat ∧ id c = generate gen j') →
  grown s1 s2 (Some q) rs →
  (∃ j, (made s ≤ j < made s1)%nat ∧ x = generate gen j) →
  foldAt f (graphVar s2) onData x = foldAt f (graphVar s1) onData x.
Proof using Type*.
  intros Hinv Hq Hm Hnew Hclosed H2 Hx.
  apply (foldAt_frozen (graphVar s1) (graphVar s2) onData
           (λ a, ∃ j, (made s ≤ j < made s1)%nat ∧ a = generate gen j)); [| |done].
  - intros a (j & Hj & ->).
    destruct (grown_old _ _ _ _ H2 _ (Hnew j Hj)) as [Hn Hc]. split; [done|].
    rewrite Hc, decide_False, app_nil_r; [done|].
    intros [= ->]. eapply (anaInv_not_old s j); [done|lia|exact Hq|done].
  - intros a c (j & Hj & ->) Hc. by eapply Hclosed.
Qed.

Lemma all_grown fuel q :
  (∀ seed s b,
     hylo fuel coalgebra alg seed = Some b →
     anaInv s → is_Some (getNode (graphVar s) q) →
     ∃ s' root, go fuel gen coalgebra seed (Some q) s
                = Ok (generate gen (made s), s')
       ∧ grown s s' (Some q) [root]
       ∧ (made s < made s')%nat
       ∧ id root = generate gen (made s)
       ∧ ∃ f, foldAt f (graphVar s') onData (id root) = Some b) →
  ∀ seeds s bs,
    mapM (hylo fuel coalgebra alg) seeds = Some bs →
    anaInv s → is_Some (getNode (graphVar s) q) →
    ∃ ids s' roots,
      all (λ seed, go fuel gen coalgebra seed (Some q)) seeds s = Ok (ids, s')
      ∧ grown s s' (Some q) roots
      ∧ ∃ f, mapM (λ r, foldAt f (graphVar s') onData (id r)) roots = Some bs.
Proof using Type*.
  intros Hgo. induction seeds as [|seed seeds IH]; intros s bs Hbs Hinv Hq.
  - apply mapM_Some in Hbs. inversion Hbs; subst. simpl.
    exists [], s, []. split_and!; [done|by apply grown_nil|by exists 0%nat].
  - apply mapM_Some in Hbs. inversion Hbs as [|? b ? bs' Hb Hrest]; subst.
    apply mapM_Some in Hrest.
    destruct (Hgo seed s b Hb Hinv Hq) as (s1 & r1 & Hs1 & Hg1 & Hlt & Hid & f1 & Hf1).
    assert (is_Some (getNode (graphVar s1) q)) as Hq1.
    { destruct (grown_old _ _ _ _ Hg1 q Hq) as [-> _]. done. }
    destruct (IH s1 bs' Hrest (grown_inv _ _ _ _ Hg1) Hq1)
      as (ids & s2 & rs & Hs2 & Hg2 & f2 & Hf2).
    exists (generate gen (made s) :: ids), s2, ([r1] ++ rs).
    simpl. rewrite Hs1. simpl. rewrite Hs2. simpl.
    split_and!; [done|by apply (grown_trans s s1 s2 q [r1] rs)|].
    exists (f1 `max` f2)%nat.
    apply (proj2 (mapM_Some (λ r, foldAt (f1 `max` f2) (graphVar s2) onData (id r))
                   (r1 :: rs) (b :: bs'))).
    constructor.
    + apply (foldAt_mono _ _ f1); [lia|].
      rewrite <-Hf1.
      eapply (grown_value s s1 s2 q rs); [done|done|lia| | |done|].
      * apply (grown_new _ _ _ _ Hg1).
      * apply (grown_closed _ _ _ _ Hg1).
      * exists (made s). split; [lia|done].
    + apply mapM_Some. eapply foldAt_list_mono; [|exact Hf2]. lia.
Qed.

Lemma go_grown fuel :
  ∀ seed parent s b,
    hylo fuel coalgebra alg seed = Some b →
    anaInv s →
    (∀ q, parent = Some q → is_Some (getNode (graphVar s) q)) →
    ∃ s' root, go fuel gen coalgebra seed parent s
               = Ok (generate gen (made s), s')
      ∧ grown s s' parent [root]
      ∧ (made s < made s')%nat
      ∧ id root = generate gen (made s)
      ∧ ∃ f, foldAt f (graphVar s') onData (id root) = Some b.
Proof using Type*.
  induction fuel as [|fuel IH]; intros seed parent s b Hb Hinv Hpar; [done|].
  simpl in Hb. simpl. destruct (coalgebra seed) as [d seeds].
  destruct (mapM _ seeds) as [bs|] eqn:Hbs; [|done]. simpl in Hb.
  injection Hb as <-.
  set (i := generate gen (made s)).
  set (node := makeNode i (now gen (made s)) d parent None).
  set (g := graphVar s) in *.
  pose proof (builtFresh_wf _ (inv_fresh s Hinv)) as Hwf. fold g in Hwf.
  assert (getNode g i = None) as Hnone.
  { destruct (getNode g i) as [n|] eqn:Hn; [|done]. exfalso.
    eapply (anaInv_not_old s (made s) i); [done|lia|by exists n|done]. }
  assert (nodeIdToIndex g !! i = None) as Hfresh.
  { destruct (nodeIdToIndex g !! i) as [k|] eqn:Hk; [|done].
    assert (is_Some (getNode g i)) as [? ?]
      by (apply wf_getNode_index; [done|by rewrite Hk]).
    congruence. }
  destruct (addNode_wf g node Hwf) as (g1 & Hg1 & Hwf1 & Hadd).
  rewrite Hg1. simpl.
  set (root := updatedNode g node).
  destruct (added_getNode_fresh g node g1 Hwf Hfresh Hg1) as [Hnew Hother].
  fold root in Hnew. change (id node) with i in Hnew, Hother.
  assert (anaInv (mkAnaState g1 (S (made s)))) as Hinv1.
  { split; simpl.
    - apply (fresh_addNode g g1 node);
        [apply (inv_fresh s Hinv)|exact Hfresh|exact Hg1].
    - intros a Ha. destruct (decide (a = i)) as [->|Hne].
      + exists (made s). split; [lia|done].
      + rewrite Hother in Ha by done.
        destruct (inv_ids s Hinv a Ha) as (j & Hj & ->). exists j. split; [lia|done]. }
  destruct (all_grown fuel i) with
    (seeds := seeds) (s := mkAnaState g1 (S (made s))) (bs := bs)
    as (ids & s2 & rs & Hs2 & Hg2 & f & Hf); [|done|done| |].
  { intros seed' s0 b' H1 H2 H3. apply IH; [done|done|]. by intros q [= <-]. }
  { simpl. by rewrite Hnew. }
  simpl in *. rewrite Hs2. simpl. exists s2, root.
  pose proof (grown_made _ _ _ _ Hg2) as Hm2. simpl in Hm2.
  assert (∀ a, is_Some (getNode g a) → a ≠ i) as Hold_ne.
  { intros a Ha ->. rewrite Hnone in Ha. by destruct Ha. }
  assert (getChildren (graphVar s2) i = rs) as Hchildren.
  { destruct (grown_old _ _ _ _ Hg2 i) as [_ ->]; [simpl; by rewrite Hnew|].
    simpl. rewrite decide_True by done.
    rewrite (added_getChildren g node g1 i Hwf Hg1).
    rewrite decide_False by (intros [_ Hs]; rewrite Hnone in Hs; by destruct Hs).
    unfold getChildren at 1. by rewrite Hfresh. }
  assert (getNode (graphVar s2) i = Some root) as Hroot.
  { destruct (grown_old _ _ _ _ Hg2 i) as [-> _]; [simpl; by rewrite Hnew|done]. }
  split_and!; [done| |lia|apply id_updatedNode|].
  - split.
    + apply Hg2.
    + lia.
    + intros a Ha. pose proof (Hold_ne a Ha) as Hne.
      destruct (grown_old _ _ _ _ Hg2 a) as [Hn Hc].
      { simpl. by rewrite Hother. }
      simpl in Hn, Hc. split; [by rewrite Hn, Hother|].
      rewrite Hc, decide_False, app_nil_r by congruence.
      rewrite (added_getChildren g node g1 a Hwf Hg1). f_equal.
      change (parentId node) with parent.
      destruct (decide (parent = Some a)) as [Hp|Hp].
      * by rewrite decide_True.
      * rewrite decide_False; [done|]. by intros [? _].
    + rewrite (grown_roots _ _ _ _ Hg2). simpl. rewrite app_nil_r.
      rewrite (added_getRoots g node g1 Hwf Hg1). f_equal.
      unfold parentNode. change (parentId node) with parent.
      destruct parent as [q|]; simpl; [|done].
      by destruct (Hpar q eq_refl) as [pn ->].
    + constructor; [|constructor]. exists (made s). split; [lia|].
      apply id_updatedNode.
    + intros j Hj. destruct (decide (j = made s)) as [->|Hne].
      * by exists root.
      * apply (grown_new _ _ _ _ Hg2). simpl. lia.
    + intros j c Hj Hc. destruct (decide (j = made s)) as [->|Hne].
      * change (c ∈ getChildren (graphVar s2) i) in Hc. rewrite Hchildren in Hc.
        pose proof (grown_ids _ _ _ _ Hg2) as Hids.
        rewrite Forall_forall in Hids.
        destruct (Hids c Hc) as (j' & Hj' & Hid). simpl in Hj'.
        exists j'. split; [lia|done].
      * destruct (grown_closed _ _ _ _ Hg2 j c) as (j' & Hj' & Hid);
          [simpl; lia|done|].
        simpl in Hj'. exists j'. split; [lia|done].
  - exists (S f). assert (id root = i) as -> by apply id_updatedNode.
    simpl. rewrite Hroot. simpl. rewrite Hchildren, Hf. simpl.
    unfold onData, root. by rewrite data_updatedNode.
Qed.
End AnaFold.

(** X8: when the ids [makeNode] draws are distinct, folding the graph
    that [ana] unfolds from a seed, with an algebra that reads the data
    of the nodes, gives one result: the one that unfolding and folding in
    one recursion gives. *)
Theorem cata_ana {A B C} gen (coalgebra : B → A * list B)
    (alg : A → list C → C) fuel (seed : B) b :
  Inj (=) (=) (generate gen) →
  hylo fuel coalgebra alg seed = Some b →
  ∃ g, ana fuel gen seed coalgebra = Ok g
    ∧ ∃ f, ∀ fuel', (f ≤ fuel')%nat →
        cata fuel' g (λ node results, alg (data node) results) = Ok [b].
Proof.
  intros generate_inj Hb.
  change (λ node results, alg (data node) results) with (onData alg).
  destruct (go_grown gen coalgebra alg generate_inj fuel seed None
              (mkAnaState empty 0) b Hb)
    as (s' & root & Hs' & Hg & _ & Hid & f & Hf).
  { split; [apply fresh_empty|]. intros i [n Hn]. done. }
  { done. }
  unfold ana. rewrite Hs'. simpl. exists (graphVar s'). split; [done|].
  set (g := graphVar s') in *.
  pose proof (inv_fresh _ _ (grown_inv _ _ _ _ _ Hg)) as Hfresh.
  fold g in Hfresh.
  destruct (builtFresh_foldable g Hfresh) as [Hacy Hres].
  pose proof (grown_roots _ _ _ _ _ Hg) as Hroots. simpl in Hroots.
  change (getRoots g = [root]) in Hroots.
  exists (rootBound g (heightOf g)). intros fuel' Hle.
  destruct (cataRun_total g (onData alg) (heightOf g)
              (rootBound g (heightOf g)) Hacy Hres)
    as [[results st] Hrun]; [intros r; apply rootBound_root|].
  destruct (cataRun_plain g (onData alg) _ _ _ Hrun) as [f0 Hf0].
  specialize (Hf0 (f0 `max` f)%nat). rewrite Hroots in Hf0. simpl in Hf0.
  rewrite (foldAt_mono g (onData alg) f (f0 `max` f) (id root) b) in Hf0;
    [|lia|done].
  simpl in Hf0. specialize (Hf0 ltac:(lia)). injection Hf0 as <-.
  unfold cata. by rewrite (cataRun_mono g (onData alg) _ fuel' _ Hle Hrun).
Qed.

(** Ids and times that count the calls. *)
Definition counting : Generator := mkGenerator pretty Z.of_nat.

(** A number, split in halves down to 1. *)
Definition halves (n : nat) : nat * list nat :=
  (n, if Nat.leb n 1 then [] else [Nat.div n 2; (n - Nat.div n 2)%nat]).

(** The data of a leaf, the sum of the results below otherwise. *)
Definition leafSum (d : nat) (below : list nat) : nat :=
  match below with [] => d | _ => list_sum below end.

(** X7, witness: 3 unfolds to 3, 1, 2, 1, 1. *)
Lemma ana_preorder_witness :
  ∃ g, ana 3 counting 3%nat halves = Ok g
    ∧ data <$> toArray g = [3; 1; 2; 1; 1]%nat
    ∧ size g = length [3; 1; 2; 1; 1]%nat
    ∧ Depth.built g
    ∧ GraphOps.isAcyclic (graph g) = true.
Proof. apply (ana_preorder counting halves 3 3%nat). reflexivity. Defined.

(** X8, witness: the leaves below 3 sum to 3. *)
Lemma cata_ana_witness :
  ∃ g, ana 3 counting 3%nat halves = Ok g
    ∧ ∃ f, ∀ fuel', (f ≤ fuel')%nat →
        cata fuel' g (λ node results, leafSum (data node) results) = Ok [3%nat].
Proof.
  apply (cata_ana counting halves leafSum 3 3%nat 3%nat).
  - apply pretty_nat_inj.
  - reflexivity.
Defined.
End Unfold.

(** ** GraphOps.ts: search index, folds and merge *)

(** A JavaScript [Map] in insertion order, for keys compared by value
    (strings, numbers). *)
Module KeyMap.
Section KeyMap.
Context {K : Type} `{EqDecision K} {V : Type}.

Definition t := list (K * V).

Fixpoint get (m : t) (k : K) : option V :=
  match m with
  | [] => None
  | (k', v) :: r => if decide (k' = k) then Some v else get r k
  end.

Fixpoint set (m : t) (k : K) (v : V) : t :=
  match m with
  | [] => [(k, v)]
  | (k', v') :: r =>
      if decide (k' = k) then (k, v) :: r else (k', v') :: set r k v
  end.

Lemma get_set m k v k' :
  get (set m k v) k' = if decide (k = k') then Some v else get m k'.
Proof.
  induction m as [|[k0 v0] r IH]; simpl.
  - done.
  - destruct (decide (k0 = k)) as [->|Hne]; simpl.
    + by destruct (decide (k = k')).
    + rewrite IH. destruct (decide (k0 = k')) as [->|]; [|done].
      by rewrite decide_False.
Qed.
End KeyMap.
Arguments t : clear implicits.
End KeyMap.

(** A JavaScript [Set] of numbers in insertion order. *)
Module NumSet.
Definition t := list nat.

(** [set.add(x)] *)
Definition add (s : t) (x : nat) : t :=
  if decide (x ∈ s) then s else s ++ [x].

(** [new Set(iterable)] *)
Definition from (l : list nat) : t := foldl add [] l.

Definition has (s : t) (x : nat) : bool := bool_decide (x ∈ s).

Lemma add_NoDup s x : NoDup s → NoDup (add s x).
Proof.
  intros Hs. unfold add. case_decide; [done|].
  apply NoDup_app. split_and!; [done| |apply NoDup_singleton].
  intros y Hy ->%list_elem_of_singleton. done.
Qed.

Lemma elem_of_add s x y : y ∈ add s x ↔ y ∈ s ∨ y = x.
Proof.
  unfold add. case_decide.
  - split; [by left|]. by intros [?| ->].
  - rewrite elem_of_app, list_elem_of_singleton. done.
Qed.

Lemma foldl_add_NoDup l s : NoDup s → NoDup (foldl add s l).
Proof.
  revert s. induction l as [|x l IH]; intros s Hs; simpl; [done|].
  by apply IH, add_NoDup.
Qed.

Lemma elem_of_foldl_add l s y : y ∈ foldl add s l ↔ y ∈ s ∨ y ∈ l.
Proof.
  revert s. induction l as [|x l IH]; intros s; simpl.
  - split; [by left|]. intros [?|?%not_elem_of_nil]; done.
  - rewrite IH, elem_of_add, elem_of_cons. tauto.
Qed.

Lemma from_NoDup l : NoDup (from l).
Proof. apply foldl_add_NoDup. constructor. Qed.

Lemma elem_of_from l y : y ∈ from l ↔ y ∈ l.
Proof.
  unfold from. rewrite elem_of_foldl_add. split; [|by right].
  by intros [?%not_elem_of_nil|?].
Qed.
End NumSet.

Module GraphSearch.

Section Search.
Context {K : Type} `{EqDecision K} {A E : Type}.

Record SearchIndex : Type := mkSearchIndex {
  index : KeyMap.t K (list nat);
  keyFn : A → list K
}.

(** [existing.push(idx); index.set(key, existing)] for one key. *)
Definition addKey (idx : nat) (index : KeyMap.t K (list nat)) (key : K)
    : KeyMap.t K (list nat) :=
  let existing := default [] (KeyMap.get index key) in
  KeyMap.set index key (existing ++ [idx]).

(** [buildIndex(graph, keyFn)]; the copy into [readonlyIndex] keeps the
    entries and their order. *)
Definition buildIndex (graph : Graph.t A E) (keyFn : A → list K) : SearchIndex :=
  let index :=
    foldl (λ index '(idx, node), foldl (addKey idx) index (keyFn node))
          [] (Graph.nodes graph) in
  mkSearchIndex index keyFn.

Definition queryIndex (searchIndex : SearchIndex) (key : K) : list nat :=
  default [] (KeyMap.get (index searchIndex) key).

Definition queryIndexUnion (searchIndex : SearchIndex) (keys : list K)
    : list nat :=
  foldl (λ resultSet key,
           foldl NumSet.add resultSet (queryIndex searchIndex key))
        [] keys.

(** The loop of [queryIndexIntersection] over the keys after the first. *)
Fixpoint intersectWith (searchIndex : SearchIndex) (resultSet : NumSet.t)
    (keys : list K) : list nat :=
  match keys with
  | [] => resultSet
  | key :: rest =>
      let currentResults := NumSet.from (queryIndex searchIndex key) in
      let resultSet' := filter (λ idx, NumSet.has currentResults idx = true)
                               resultSet in
      match resultSet' with
      | [] => []
      | _ :: _ => intersectWith searchIndex resultSet' rest
      end
  end.

Definition queryIndexIntersection (searchIndex : SearchIndex) (keys : list K)
    : list nat :=
  match keys with
  | [] => []
  | key :: rest =>
      let firstResults := queryIndex searchIndex key in
      match firstResults with
      | [] => []
      | _ :: _ => intersectWith searchIndex (NumSet.from firstResults) rest
      end
  end.

(** The index of a node, once for each time the key occurs among the
    keys of the node. *)
Definition hits (keyFn : A → list K) (key : K) (entry : nat * A) : list nat :=
  (λ _, entry.1) <$> filter (λ k, k = key) (keyFn entry.2).

Lemma addKey_query idx index key key' :
  default [] (KeyMap.get (addKey idx index key) key')
  = default [] (KeyMap.get index key') ++ (if decide (key = key') then [idx] else []).
Proof.
  unfold addKey. rewrite KeyMap.get_set.
  destruct (decide (key = key')) as [->|]; [done|by rewrite app_nil_r].
Qed.

Lemma addKeys_query idx keys index key' :
  default [] (KeyMap.get (foldl (addKey idx) index keys) key')
  = default [] (KeyMap.get index key')
    ++ ((λ _, idx) <$> filter (λ k, k = key') keys).
Proof.
  revert index. induction keys as [|key keys IH]; intros index; simpl.
  - by rewrite app_nil_r.
  - rewrite IH, addKey_query, <-app_assoc. f_equal.
    rewrite filter_cons. by destruct (decide (key = key')).
Qed.

(** X9: querying the index built from a graph gives, for every key, the
    indices of the nodes whose keys include it, in the order the graph
    stores the nodes; a node whose keys name the key several times is
    listed that many times, and a key no node has gives the empty
    array. *)
Theorem queryIndex_buildIndex (graph : Graph.t A E) (keyFn : A → list K) key :
  queryIndex (buildIndex graph keyFn) key
  = Graph.nodes graph ≫= hits keyFn key.
Proof.
  unfold queryIndex, buildIndex. simpl.
  assert (∀ nodes index,
    default [] (KeyMap.get
      (foldl (λ index '(idx, node), foldl (addKey idx) index (keyFn node))
             index nodes) key)
    = default [] (KeyMap.get index key) ++ (nodes ≫= hits keyFn key)) as H.
  { induction nodes as [|[idx node] nodes IH]; intros index; simpl.
    - by rewrite app_nil_r.
    - rewrite IH, addKeys_query, <-app_assoc. done. }
  by rewrite H.
Qed.

(** X10: [queryIndexUnion] lists no index twice, and lists exactly the
    indices that the index holds under at least one of the keys; for no
    keys the result is empty. *)
Theorem queryIndexUnion_spec (searchIndex : SearchIndex) (keys : list K) :
  NoDup (queryIndexUnion searchIndex keys)
  ∧ ∀ idx, idx ∈ queryIndexUnion searchIndex keys
           ↔ ∃ key, key ∈ keys ∧ idx ∈ queryIndex searchIndex key.
Proof.
  unfold queryIndexUnion.
  assert (∀ keys resultSet, NoDup resultSet →
    NoDup (foldl (λ resultSet key,
                    foldl NumSet.add resultSet (queryIndex searchIndex key))
                 resultSet keys)
    ∧ ∀ idx, idx ∈ foldl (λ resultSet key,
                    foldl NumSet.add resultSet (queryIndex searchIndex key))
                 resultSet keys
             ↔ idx ∈ resultSet
               ∨ ∃ key, key ∈ keys ∧ idx ∈ queryIndex searchIndex key) as H.
  { clear keys. induction keys as [|key keys IH]; intros resultSet Hnd; simpl.
    - split; [done|]. intros idx. split; [by left|].
      intros [?|(key & ?%not_elem_of_nil & _)]; done.
    - destruct (IH _ (NumSet.foldl_add_NoDup (queryIndex searchIndex key) _ Hnd))
        as [Hnd' Hin].
      split; [done|]. intros idx. rewrite Hin, NumSet.elem_of_foldl_add.
      split.
      + intros [[?|?]|(key' & ? & ?)]; [by left| |].
        * right. exists key. split; [left|done].
        * right. exists key'. split; [by right|done].
      + intros [?|(key' & [->|?]%elem_of_cons & ?)]; [by left; left| |].
        * left. by right.
        * right. by exists key'. }
  destruct (H keys [] (NoDup_nil_2)) as [Hnd Hin]. split; [done|].
  intros idx. rewrite Hin. split; [|by right].
  by intros [?%not_elem_of_nil|?].
Qed.

Lemma intersectWith_nil searchIndex keys : intersectWith searchIndex [] keys = [].
Proof. by destruct keys. Qed.

Lemma intersectWith_cons searchIndex key keys resultSet :
  intersectWith searchIndex resultSet (key :: keys)
  = intersectWith searchIndex
      (filter (λ idx, NumSet.has (NumSet.from (queryIndex searchIndex key)) idx
                      = true) resultSet) keys.
Proof.
  simpl. destruct (filter _ resultSet); [|done].
  by rewrite intersectWith_nil.
Qed.

Lemma intersectWith_spec searchIndex keys resultSet :
  NoDup resultSet →
  NoDup (intersectWith searchIndex resultSet keys)
  ∧ ∀ idx, idx ∈ intersectWith searchIndex resultSet keys
           ↔ idx ∈ resultSet
             ∧ ∀ key, key ∈ keys → idx ∈ queryIndex searchIndex key.
Proof.
  revert resultSet. induction keys as [|key keys IH]; intros resultSet Hnd.
  - simpl. split; [done|]. intros idx. split; [|by intros [? _]].
    intros ?. split; [done|]. by intros key ?%not_elem_of_nil.
  - rewrite intersectWith_cons.
    match goal with
    | |- context [intersectWith _ ?kept keys] =>
        destruct (IH kept) as [Hnd' Hin']; [by apply NoDup_filter|]
    end.
    split; [done|]. intros idx. rewrite Hin', list_elem_of_filter.
    unfold NumSet.has. rewrite bool_decide_eq_true, NumSet.elem_of_from.
    split.
    + intros [[? ?] Hrest]. split; [done|].
      intros k [->|?]%elem_of_cons; [done|by apply Hrest].
    + intros [? Hk]. split_and!; [apply Hk; left|done|].
      intros k ?. apply Hk. by right.
Qed.

(** X11: [queryIndexIntersection] lists no index twice, and lists
    exactly the indices that the index holds under every one of the keys,
    provided there is a key at all: for no keys the result is empty, not
    every index. *)
Theorem queryIndexIntersection_spec (searchIndex : SearchIndex) (keys : list K) :
  NoDup (queryIndexIntersection searchIndex keys)
  ∧ ∀ idx, idx ∈ queryIndexIntersection searchIndex keys
           ↔ keys ≠ []
             ∧ ∀ key, key ∈ keys → idx ∈ queryIndex searchIndex key.
Proof.
  unfold queryIndexIntersection. destruct keys as [|key keys].
  { split; [constructor|]. intros idx.
    split; [by intros ?%not_elem_of_nil|]. by intros [? _]. }
  destruct (queryIndex searchIndex key) as [|x first] eqn:Hfirst.
  { split; [constructor|]. intros idx.
    split; [by intros ?%not_elem_of_nil|]. intros [_ Hall].
    rewrite <-Hfirst. apply Hall. left. }
  destruct (intersectWith_spec searchIndex keys (NumSet.from (x :: first))
              (NumSet.from_NoDup _)) as [Hnd Hin].
  split; [done|]. intros idx. rewrite Hin, NumSet.elem_of_from, <-Hfirst.
  split.
  - intros [? Hrest]. split; [done|].
    intros k [->|?]%elem_of_cons; [done|by apply Hrest].
  - intros [_ Hall]. split; [apply Hall; left|].
    intros k ?. apply Hall. by right.
Qed.
End Search.
End GraphSearch.

Module GraphFolds.

Section Folds.
Context {A E : Type}.
Implicit Types graph : Graph.t A E.

Definition foldNodes {B} graph (initial : B) (f : B → A → B) : B :=
  foldl f initial (JsMap.values (Graph.nodes graph)).

Definition collectNodes graph : list A := JsMap.values (Graph.nodes graph).

Definition getChildren graph (nodeIndex : nat) : list nat :=
  Graph.neighbors graph nodeIndex.

Definition nodeCount graph : nat := Graph.nodeCount graph.
Definition edgeCount graph : nat := Graph.edgeCount graph.
Definition isEmpty graph : bool := Nat.eqb (nodeCount graph) 0.

(** [merge(g1, g2)]: the nodes of [g2] are added to a copy of [g1]; its
    edges are not (the source leaves them as a TODO). *)
Definition merge (g1 g2 : Graph.t A E) : Graph.t A E :=
  foldl (λ mutable node, (Graph.addNode mutable node).1)
        g1 (JsMap.values (Graph.nodes g2)).

(** Adding the nodes [l] one by one, to a store with dense indices. *)
Lemma addNodes_dense (g1 : Graph.t A E) (l : list A) :
  JsMap.keys (Graph.nodes g1) = seq 0 (Graph.nextNodeIndex g1) →
  let g := foldl (λ mutable node, (Graph.addNode mutable node).1) g1 l in
  JsMap.keys (Graph.nodes g) = seq 0 (Graph.nextNodeIndex g)
  ∧ Graph.nextNodeIndex g = (Graph.nextNodeIndex g1 + length l)%nat
  ∧ JsMap.values (Graph.nodes g) = JsMap.values (Graph.nodes g1) ++ l
  ∧ Graph.edges g = Graph.edges g1
  ∧ (∀ i, (i < Graph.nextNodeIndex g1)%nat →
       JsMap.get (Graph.adjacency g) i = JsMap.get (Graph.adjacency g1) i)
  ∧ (∀ i, (Graph.nextNodeIndex g1 ≤ i < Graph.nextNodeIndex g)%nat →
       JsMap.get (Graph.adjacency g) i = Some []).
Proof.
  induction l as [|node l IH] using rev_ind; intros Hdense; simpl.
  - split_and!; [done|lia|by rewrite app_nil_r|done|done|intros i ?; lia].
  - rewrite foldl_app. simpl.
    destruct (IH Hdense) as (Hk & Hn & Hv & He & Hold & Hnew).
    set (g := foldl _ g1 l) in *.
    assert (JsMap.get (Graph.nodes g) (Graph.nextNodeIndex g) = None) as Hfresh.
    { eapply JsMap.get_ge_None; [exact Hk|lia]. }
    rewrite (JsMap.set_fresh _ _ _ Hfresh).
    split_and!.
    + unfold JsMap.keys in *.
      transitivity (seq 0 (S (Graph.nextNodeIndex g))); [|done].
      rewrite fmap_app, Hk, seq_S. done.
    + rewrite length_app, Hn. simpl. lia.
    + unfold JsMap.values in *. rewrite fmap_app, Hv, <-app_assoc. done.
    + done.
    + intros i Hi. rewrite JsMap.get_set_ne by lia. by apply Hold.
    + intros i Hi. destruct (decide (Graph.nextNodeIndex g = i)) as [<-|Hne].
      * apply JsMap.get_set_eq.
      * rewrite JsMap.get_set_ne by done. apply Hnew. lia.
Qed.

(** X12: merging keeps the nodes of both graphs, those of the first
    under their indices and those of the second after them under new
    ones, and the edges of the first graph only: the nodes that came from
    the second graph have no children, whatever edges it had. *)
Theorem merge_drops_edges (g1 g2 : Graph.t A E) :
  JsMap.keys (Graph.nodes g1) = seq 0 (Graph.nextNodeIndex g1) →
  collectNodes (merge g1 g2) = collectNodes g1 ++ collectNodes g2
  ∧ nodeCount (merge g1 g2) = (nodeCount g1 + nodeCount g2)%nat
  ∧ edgeCount (merge g1 g2) = edgeCount g1
  ∧ (∀ B (initial : B) f,
       foldNodes (merge g1 g2) initial f
       = foldNodes g2 (foldNodes g1 initial f) f)
  ∧ (∀ i, (i < Graph.nextNodeIndex g1)%nat →
       getChildren (merge g1 g2) i = getChildren g1 i)
  ∧ (∀ i, (Graph.nextNodeIndex g1 ≤ i
           < Graph.nextNodeIndex g1 + nodeCount g2)%nat →
       getChildren (merge g1 g2) i = []).
Proof.
  intros Hdense.
  destruct (addNodes_dense g1 (JsMap.values (Graph.nodes g2)) Hdense)
    as (Hk & Hn & Hv & He & Hold & Hnew).
  fold (merge g1 g2) in *.
  assert (length (JsMap.values (Graph.nodes g2)) = nodeCount g2) as Hlen.
  { unfold nodeCount, Graph.nodeCount, JsMap.size, JsMap.values.
    apply length_fmap. }
  split_and!.
  - exact Hv.
  - unfold nodeCount, Graph.nodeCount, JsMap.size.
    rewrite <-(length_fmap snd (Graph.nodes (merge g1 g2))).
    fold (JsMap.values (Graph.nodes (merge g1 g2))).
    rewrite Hv, length_app. unfold JsMap.values. by rewrite !length_fmap.
  - unfold edgeCount, Graph.edgeCount. by rewrite He.
  - intros B initial f. unfold foldNodes. by rewrite Hv, foldl_app.
  - intros i Hi. unfold getChildren, Graph.neighbors. by rewrite Hold, He.
  - intros i Hi. unfold getChildren, Graph.neighbors.
    rewrite Hnew; [done|]. rewrite Hn, Hlen. lia.
Qed.
End Folds.

(** X12, witness: the graph of A and B, merged with itself. *)
Lemma merge_drops_edges_witness :
  let g := EffectGraph.graph Cycles.graphAB in
  collectNodes (merge g g) = collectNodes g ++ collectNodes g
  ∧ nodeCount (merge g g) = (nodeCount g + nodeCount g)%nat
  ∧ edgeCount (merge g g) = edgeCount g
  ∧ (∀ B (initial : B) f,
       foldNodes (merge g g) initial f = foldNodes g (foldNodes g initial f) f)
  ∧ (∀ i, (i < Graph.nextNodeIndex g)%nat →
       getChildren (merge g g) i = getChildren g i)
  ∧ (∀ i, (Graph.nextNodeIndex g ≤ i < Graph.nextNodeIndex g + nodeCount g)%nat →
       getChildren (merge g g) i = []).
Proof.
  apply (merge_drops_edges (EffectGraph.graph Cycles.graphAB)
           (EffectGraph.graph Cycles.graphAB)).
  reflexivity.
Defined.
End GraphFolds.

(** ** CorpusOps.ts: what the statistics count *)

Module CorpusCounts.
Import CorpusOps CorpusFacts.

(** The tokens of a document that reach [documentStatistics]. *)
Definition stems (nlp : NLPService) (doc : Document) : list string :=
  stem nlp (removeStopWords nlp (tokenize nlp (text doc))).

(** How often a term occurs in a list of tokens. *)
Definition occurrences (term : string) (tokens : list string) : Z :=
  Z.of_nat (length (filter (λ token, token = term) tokens)).

(** In how many of the documents a term occurs. *)
Definition containing (nlp : NLPService) (term : string)
    (documents : list Document) : Z :=
  Z.of_nat (length (filter (λ doc, term ∈ stems nlp doc) documents)).

(** A frequency table has an entry for the counts that are not zero. *)
Definition entry (n : Z) : option Z := if decide (n = 0) then None else Some n.

Lemma entry_add a b :
  0 ≤ a → 0 ≤ b → union_with addCounts (entry a) (entry b) = entry (a + b).
Proof.
  intros Ha Hb. unfold entry, addCounts.
  repeat case_decide; simpl; try done; try lia; f_equal; lia.
Qed.

Lemma occurrences_nonneg term tokens : 0 ≤ occurrences term tokens.
Proof. unfold occurrences. lia. Qed.

Lemma occurrences_app term l1 l2 :
  occurrences term (l1 ++ l2) = occurrences term l1 + occurrences term l2.
Proof. unfold occurrences. rewrite filter_app, length_app. lia. Qed.

Lemma occurrences_zero term tokens : occurrences term tokens = 0 ↔ term ∉ tokens.
Proof.
  unfold occurrences. induction tokens as [|x l IH].
  - split; [intros _; apply not_elem_of_nil|done].
  - rewrite filter_cons, not_elem_of_cons. case_decide as Hx; simpl.
    + split; [lia|]. intros [? _]. by subst.
    + rewrite IH. split; [by intros ?; split|by intros [_ ?]].
Qed.

(** The term-frequency loop of [documentStatistics]. *)
Lemma termFrequency_loop tokens (tf : gmap string Z) term :
  (∀ t n, tf !! t = Some n → 0 < n) →
  foldl (λ tf token, <[ token := default 0 (tf !! token) + 1 ]> tf) tf tokens
    !! term
  = entry (default 0 (tf !! term) + occurrences term tokens).
Proof.
  revert tf. induction tokens as [|x l IH]; intros tf Hpos; simpl.
  - unfold occurrences. simpl. rewrite Z.add_0_r. unfold entry.
    destruct (tf !! term) as [n|] eqn:Hn; simpl; [|done].
    apply Hpos in Hn. by rewrite decide_False by lia.
  - rewrite IH.
    + f_equal. change (x :: l) with ([x] ++ l). rewrite occurrences_app.
      unfold occurrences at 2. simpl. rewrite filter_cons, filter_nil.
      destruct (decide (x = term)) as [->|Hne].
        * rewrite lookup_insert_eq. simpl. lia.
        * rewrite lookup_insert_ne by done. simpl. lia.
    + intros t n. destruct (decide (x = t)) as [->|Hne].
      * rewrite lookup_insert_eq. intros [= <-].
        destruct (tf !! t) as [m|] eqn:Hm; simpl; [apply Hpos in Hm|]; lia.
      * rewrite lookup_insert_ne by done. apply Hpos.
Qed.

(** The document-frequency loop of [documentStatistics]. *)
Lemma documentFrequency_loop (vocabulary : gset string) term :
  set_fold (λ term df, <[ term := 1 ]> df) (∅ : gmap string Z) vocabulary !! term
  = if decide (term ∈ vocabulary) then Some 1 else None.
Proof.
  assert ((term ∈ vocabulary →
             set_fold (λ term df, <[ term := 1 ]> df) (∅ : gmap string Z)
               vocabulary !! term = Some 1)
          ∧ (term ∉ vocabulary →
             set_fold (λ term df, <[ term := 1 ]> df) (∅ : gmap string Z)
               vocabulary !! term = None)) as [Hin Hout].
  { apply (set_fold_ind_L
             (λ (df : gmap string Z) (X : gset string),
                (term ∈ X → df !! term = Some 1)
                ∧ (term ∉ X → df !! term = None))).
    - split; [set_solver|]. intros _. apply lookup_empty.
    - intros x X df Hx [IH1 IH2]. destruct (decide (x = term)) as [->|Hne].
      + rewrite lookup_insert_eq. split; [done|set_solver].
      + rewrite lookup_insert_ne by done.
        split; intros ?; [apply IH1|apply IH2]; set_solver. }
  case_decide; auto.
Qed.

(** What the statistics of a list of documents hold. *)
Record counted (nlp : NLPService) (documents : list Document)
    (stats : CorpusStatistics) : Prop := mkCounted {
  counted_documents : documentCount stats = Z.of_nat (length documents);
  counted_words :
    totalWords stats = Z.of_nat (length (documents ≫= stems nlp));
  counted_sentences :
    totalSentences stats
    = Z.of_nat (length (documents ≫= λ doc, sentencize nlp (text doc)));
  counted_chars :
    totalChars stats
    = Z.of_nat (list_sum ((λ doc, String.length (text doc)) <$> documents));
  counted_vocabulary :
    vocabulary stats = list_to_set (documents ≫= stems nlp);
  counted_terms : ∀ term,
    termFrequency stats !! term
    = entry (occurrences term (documents ≫= stems nlp));
  counted_containing : ∀ term,
    documentFrequency stats !! term = entry (containing nlp term documents)
}.

Lemma counted_extract nlp doc : counted nlp [doc] (extract nlp doc).
Proof.
  unfold extract. fold (stems nlp doc). split; simpl.
  - done.
  - by rewrite app_nil_r.
  - by rewrite app_nil_r.
  - lia.
  - by rewrite app_nil_r.
  - intros term. rewrite app_nil_r, termFrequency_loop.
    + by rewrite lookup_empty.
    + intros t n. by rewrite lookup_empty.
  - intros term. rewrite documentFrequency_loop. unfold containing. simpl.
    rewrite filter_cons, filter_nil.
    destruct (decide (term ∈ stems nlp doc)) as [Hin|Hin].
    + rewrite decide_True by by apply elem_of_list_to_set. done.
    + rewrite decide_False; [done|]. by rewrite elem_of_list_to_set.
Qed.

Lemma counted_empty nlp : counted nlp [] emptyStatistics.
Proof. split; simpl; try done; intros term; by rewrite lookup_empty. Qed.

Lemma counted_combine nlp docs1 docs2 s1 s2 :
  counted nlp docs1 s1 → counted nlp docs2 s2 →
  counted nlp (docs1 ++ docs2) (combineStatistics s1 s2).
Proof.
  intros H1 H2. split; simpl.
  - rewrite (counted_documents _ _ _ H1), (counted_documents _ _ _ H2), length_app.
    lia.
  - rewrite (counted_words _ _ _ H1), (counted_words _ _ _ H2).
    rewrite bind_app, length_app. lia.
  - rewrite (counted_sentences _ _ _ H1), (counted_sentences _ _ _ H2).
    rewrite bind_app, length_app. lia.
  - rewrite (counted_chars _ _ _ H1), (counted_chars _ _ _ H2).
    rewrite fmap_app, list_sum_app. lia.
  - rewrite (counted_vocabulary _ _ _ H1), (counted_vocabulary _ _ _ H2).
    by rewrite bind_app, list_to_set_app_L.
  - intros term. rewrite mergeFrequencyMaps_union_with, lookup_union_with.
    rewrite (counted_terms _ _ _ H1), (counted_terms _ _ _ H2).
    rewrite bind_app, occurrences_app.
    apply entry_add; apply occurrences_nonneg.
  - intros term. rewrite mergeFrequencyMaps_union_with, lookup_union_with.
    rewrite (counted_containing _ _ _ H1), (counted_containing _ _ _ H2).
    unfold containing. rewrite filter_app, length_app, Nat2Z.inj_add.
    apply entry_add; lia.
Qed.

Lemma counted_total nlp documents :
  counted nlp documents (total (extract nlp <$> documents)).
Proof.
  induction documents as [|doc documents IH] using rev_ind.
  - apply counted_empty.
  - rewrite fmap_app, total_app. apply counted_combine; [done|].
    simpl. unfold total. simpl.
    rewrite (left_id emptyStatistics combineStatistics).
    apply counted_extract.
Qed.

End CorpusCounts.

(** ** CorpusOps.ts: TF-IDF tables, top-k queries and document lists *)

Module CorpusQueries.
Import CorpusOps CorpusFacts CorpusCounts.

(** *** Term and inverse document frequency *)

(** The quotients and logarithms are double-precision numbers; the
    tables are studied for which entries they have and from which counts
    each entry is computed, so the arithmetic is a parameter: [divide]
    is [/] on two counts and [log] is [Math.log]. *)
Section Frequencies.
Context {F : Type} (divide : Z → Z → F) (log : F → F).

(** [computeTF(tokens)]: the table keeps the order in which the terms
    were first met; the second loop replaces each count in place. *)
Definition computeTF (tokens : list string) : KeyMap.t string F :=
  let total := Z.of_nat (length tokens) in
  if decide (total = 0) then []
  else
    let tf :=
      foldl (λ tf token,
               KeyMap.set tf token (default 0 (KeyMap.get tf token) + 1))
            [] tokens in
    (λ '(term, count), (term, divide count total)) <$> tf.

(** [computeIDF(corpusStats)] *)
Definition computeIDF (corpusStats : CorpusStatistics) : gmap string F :=
  let totalDocs := documentCount corpusStats in
  if decide (totalDocs = 0) then ∅
  else
    map_fold (λ term docFreq idf,
                <[ term := log (divide totalDocs docFreq) ]> idf)
             ∅ (documentFrequency corpusStats).

Lemma get_fmap_values {V W} (f : V → W) (m : KeyMap.t string V) k :
  KeyMap.get ((λ '(term, v), (term, f v)) <$> m) k = f <$> KeyMap.get m k.
Proof.
  induction m as [|[k' v] m IH]; simpl; [done|].
  by destruct (decide (k' = k)).
Qed.

Lemma counts_loop tokens (tf : KeyMap.t string Z) term :
  (∀ t n, KeyMap.get tf t = Some n → 0 < n) →
  KeyMap.get
    (foldl (λ tf token,
              KeyMap.set tf token (default 0 (KeyMap.get tf token) + 1))
           tf tokens) term
  = entry (default 0 (KeyMap.get tf term) + occurrences term tokens).
Proof.
  revert tf. induction tokens as [|x l IH]; intros tf Hpos; simpl.
  - unfold occurrences. simpl. rewrite Z.add_0_r. unfold entry.
    destruct (KeyMap.get tf term) as [n|] eqn:Hn; simpl; [|done].
    apply Hpos in Hn. by rewrite decide_False by lia.
  - rewrite IH.
    + f_equal. change (x :: l) with ([x] ++ l). rewrite occurrences_app.
      unfold occurrences at 2. simpl. rewrite filter_cons, filter_nil.
      rewrite KeyMap.get_set.
      destruct (decide (x = term)) as [->|Hne]; simpl; lia.
    + intros t n. rewrite KeyMap.get_set.
      destruct (decide (x = t)) as [->|Hne]; [|apply Hpos].
      intros [= <-].
      destruct (KeyMap.get tf t) as [m|] eqn:Hm; simpl; [apply Hpos in Hm|]; lia.
Qed.

(** X14: [computeTF] has an entry exactly for the tokens that occur, and
    the entry of a token is the number of its occurrences divided by the
    number of tokens; for no tokens the table is empty and nothing is
    divided. *)
Theorem computeTF_entries tokens term :
  KeyMap.get (computeTF tokens) term
  = (λ count, divide count (Z.of_nat (length tokens)))
      <$> entry (occurrences term tokens).
Proof.
  unfold computeTF. case_decide as Hlen.
  - destruct tokens; [done|simpl in Hlen; lia].
  - rewrite (get_fmap_values (λ count, divide count (Z.of_nat (length tokens)))).
    rewrite counts_loop; [done|]. by intros t n.
Qed.

Lemma computeIDF_fmap corpusStats :
  documentCount corpusStats ≠ 0 →
  computeIDF corpusStats
  = (λ docFreq, log (divide (documentCount corpusStats) docFreq))
      <$> documentFrequency corpusStats.
Proof.
  intros Hn. unfold computeIDF. rewrite decide_False by done.
  apply (map_fold_weak_ind
           (λ r m, r = (λ docFreq, log (divide (documentCount corpusStats) docFreq))
                         <$> m)).
  - by rewrite fmap_empty.
  - intros term docFreq m r Hm ->. by rewrite fmap_insert.
Qed.

(** X15: on the statistics aggregated from a list of documents,
    [computeIDF] has an entry exactly for the terms that occur in some
    document, and the entry is the logarithm of the number of documents
    divided by the number of documents the term occurs in, which lies
    between 1 and the number of documents: the division is never by 0. *)
Theorem computeIDF_aggregateStatistics nlp documents term :
  let n := containing nlp term documents in
  0 ≤ n ≤ Z.of_nat (length documents)
  ∧ computeIDF (aggregateStatistics nlp documents) !! term
    = if decide (n = 0) then None
      else Some (log (divide (Z.of_nat (length documents)) n)).
Proof.
  simpl. rewrite aggregateStatistics_total.
  destruct (counted_total nlp documents) as [Hdocs _ _ _ _ _ Hdf].
  assert (0 ≤ containing nlp term documents ≤ Z.of_nat (length documents)) as Hle.
  { unfold containing. pose proof (length_filter (λ doc, term ∈ stems nlp doc) documents).
    lia. }
  split; [done|].
  destruct (decide (documentCount (total (extract nlp <$> documents)) = 0))
    as [H0|H0].
  - unfold computeIDF. rewrite decide_True by done.
    rewrite lookup_empty, decide_True; [done|]. lia.
  - rewrite computeIDF_fmap by done. rewrite lookup_fmap, Hdf, Hdocs.
    unfold entry. by case_decide.
Qed.
End Frequencies.

(** *** Top-k *)

(** [array.sort(compare)]: the sort is stable; an element goes before
    the first one it does not compare greater than. *)
Fixpoint insertSorted {X} (compare : X → X → Z) (x : X) (l : list X) : list X :=
  match l with
  | [] => [x]
  | y :: rest =>
      if decide (compare x y ≤ 0) then x :: y :: rest
      else y :: insertSorted compare x rest
  end.

Definition sort {X} (compare : X → X → Z) (l : list X) : list X :=
  foldr (insertSorted compare) [] l.

(** [array.slice(0, end)]: a negative [end] counts from the end of the
    array. *)
Definition slice0 {X} (l : list X) (k : Z) : list X :=
  let len := Z.of_nat (length l) in
  let final := if decide (k < 0) then Z.max (len + k) 0 else Z.min k len in
  take (Z.to_nat final) l.

(** [topTermsByFrequency(stats, k)].  [entries] is the order in which
    [stats.termFrequency.entries()] yields the entries of the table, the
    order of their insertion, which the table as a finite map does not
    record. *)
Definition topTermsByFrequency
    (entries : gmap string Z → list (string * Z))
    (stats : CorpusStatistics) (k : Z) : list (string * Z) :=
  slice0 (sort (λ a b, b.2 - a.2) (entries (termFrequency stats))) k.

Section Sorting.
Context {X : Type} (count : X → Z).

(** No element is followed, anywhere later, by one that counts more. *)
Fixpoint descending (l : list X) : Prop :=
  match l with
  | [] => True
  | a :: rest => Forall (λ b, count b ≤ count a) rest ∧ descending rest
  end.

Lemma insertSorted_perm (x : X) l :
  insertSorted (λ a b, count b - count a) x l ≡ₚ x :: l.
Proof.
  induction l as [|y l IH]; simpl; [done|].
  case_decide; [done|]. rewrite IH. apply Permutation_swap.
Qed.

Lemma insertSorted_descending (x : X) l :
  descending l → descending (insertSorted (λ a b, count b - count a) x l).
Proof.
  induction l as [|y l IH]; simpl.
  - intros _. by split.
  - intros [Hy Hl]. case_decide as Hc; simpl.
    + split_and!; [|done|done]. constructor; [lia|].
      eapply Forall_impl; [exact Hy|]. simpl. intros z ?. lia.
    + split; [|by apply IH]. rewrite insertSorted_perm.
      constructor; [lia|done].
Qed.

Lemma sort_perm (l : list X) : sort (λ a b, count b - count a) l ≡ₚ l.
Proof.
  induction l as [|x l IH]; simpl; [done|].
  by rewrite insertSorted_perm, IH.
Qed.

Lemma sort_descending (l : list X) :
  descending (sort (λ a b, count b - count a) l).
Proof.
  induction l as [|x l IH]; simpl; [done|].
  by apply insertSorted_descending.
Qed.

Lemma descending_app l1 l2 :
  descending (l1 ++ l2) →
  descending l1 ∧ ∀ a b, a ∈ l1 → b ∈ l2 → count b ≤ count a.
Proof.
  induction l1 as [|x l1 IH]; simpl.
  - intros _. split; [done|]. by intros a b ?%not_elem_of_nil.
  - intros [Hx Hl]. destruct (IH Hl) as [Hl1 Hcross].
    apply Forall_app in Hx as [Hx1 Hx2]. split; [done|].
    intros a b [->|Ha]%elem_of_cons Hb; [|by apply Hcross].
    rewrite Forall_forall in Hx2. by apply Hx2.
Qed.
End Sorting.

(** X16: [topTermsByFrequency] returns entries of the term-frequency
    table in descending order of frequency; no entry left out has a
    higher frequency than one returned; [k] entries are returned, or all
    when the table has fewer, and for a negative [k] all but the last
    [-k] of the sorted entries. *)
Theorem topTermsByFrequency_top entries stats k :
  entries (termFrequency stats) ≡ₚ map_to_list (termFrequency stats) →
  let top := topTermsByFrequency entries stats k in
  descending snd top
  ∧ (∃ others, top ++ others ≡ₚ map_to_list (termFrequency stats)
       ∧ ∀ a b, a ∈ top → b ∈ others → b.2 ≤ a.2)
  ∧ Z.of_nat (length top)
    = (let size := Z.of_nat (size (termFrequency stats)) in
       if decide (k < 0) then Z.max (size + k) 0 else Z.min k size).
Proof.
  intros Hperm. simpl. unfold topTermsByFrequency, slice0.
  set (sorted := sort _ _).
  assert (sorted ≡ₚ map_to_list (termFrequency stats)) as Hsorted
    by (unfold sorted; by rewrite (sort_perm snd)).
  assert (length sorted = size (termFrequency stats)) as Hlen
    by (rewrite Hsorted; apply length_map_to_list).
  set (n := Z.to_nat _).
  pose proof (sort_descending snd (entries (termFrequency stats))) as Hdesc.
  fold sorted in Hdesc. rewrite <-(take_drop n sorted) in Hdesc.
  apply descending_app in Hdesc as [Htop Hcross].
  split_and!.
  - done.
  - exists (drop n sorted). split; [by rewrite take_drop|done].
  - rewrite length_take, Hlen. unfold n. rewrite Hlen.
    case_decide; lia.
Qed.

(** X16, witness: the two most frequent terms of three documents. *)
Lemma topTermsByFrequency_top_witness :
  let stats := aggregateStatistics whitespace threeDocuments in
  let top := topTermsByFrequency map_to_list stats 2 in
  descending snd top
  ∧ (∃ others, top ++ others ≡ₚ map_to_list (termFrequency stats)
       ∧ ∀ a b, a ∈ top → b ∈ others → b.2 ≤ a.2)
  ∧ Z.of_nat (length top)
    = (let size := Z.of_nat (size (termFrequency stats)) in
       if decide (2 < 0) then Z.max (size + 2) 0 else Z.min 2 size).
Proof.
  apply (topTermsByFrequency_top map_to_list
           (aggregateStatistics whitespace threeDocuments) 2).
  reflexivity.
Defined.

(** *** Document lists *)

(** [createDocuments(texts)]: the id of the [i]-th document is
    [`doc-${i}`]. *)
Definition createDocuments (texts : list string) : list Document :=
  imap (λ i text, mkDocument ("doc-" +:+ pretty i) text) texts.

(** X17: [createDocuments] makes one document per text, in order, with
    the text unchanged, and no two of the documents share an id, also
    when texts repeat. *)
Theorem createDocuments_ids texts :
  text <$> createDocuments texts = texts
  ∧ NoDup (docId <$> createDocuments texts)
  ∧ length (createDocuments texts) = length texts.
Proof.
  unfold createDocuments. split_and!.
  - apply list_eq. intros i. rewrite list_lookup_fmap, list_lookup_imap.
    by destruct (texts !! i).
  - apply NoDup_alt. intros i j x.
    rewrite !list_lookup_fmap, !list_lookup_imap.
    destruct (texts !! i) as [ti|]; [|done].
    destruct (texts !! j) as [tj|]; [|done]. simpl.
    intros [= <-] Heq. by simplify_eq/=.
  - apply length_imap.
Qed.
End CorpusQueries.

(** ** web/src/state/graphOperations.ts: graphs from text *)

Module Workbench.
Import EffectGraph Invariant Acyclicity Depth FoldBuilt Lookup Unfold.

(** Text is a string of code units below 256.  Among those, the
    characters that [\s] matches and [trim] removes are the tab, the line
    feed, the vertical tab, the form feed, the carriage return, the space
    and the no-break space. *)
Definition isWhitespace (c : Ascii.ascii) : bool :=
  let n := Ascii.nat_of_ascii c in
  (Nat.leb 9 n && Nat.leb n 13) || Nat.eqb n 32 || Nat.eqb n 160.

(** [[.!?]] *)
Definition isSentenceEnd (c : Ascii.ascii) : bool :=
  let n := Ascii.nat_of_ascii c in
  Nat.eqb n 46 || Nat.eqb n 33 || Nat.eqb n 63.

(** [text.split(/[sep]+/)]: the pieces between the runs of separator
    characters, empty pieces at the ends included.  [current] is the piece
    being read and [inRun] says that the last character was a separator. *)
Fixpoint splitRuns (sep : Ascii.ascii → bool) (current : string) (inRun : bool)
    (s : string) : list string :=
  match s with
  | EmptyString => [current]
  | String c rest =>
      if sep c then
        if inRun then splitRuns sep current true rest
        else current :: splitRuns sep "" true rest
      else splitRuns sep (current +:+ String c "") false rest
  end.

Definition split (sep : Ascii.ascii → bool) (s : string) : list string :=
  splitRuns sep "" false s.

Fixpoint trimStart (s : string) : string :=
  match s with
  | EmptyString => EmptyString
  | String c rest => if isWhitespace c then trimStart rest else s
  end.

Definition trim (s : string) : string :=
  String.rev (trimStart (String.rev (trimStart s))).

Definition nonEmpty (s : string) : bool := negb (Nat.eqb (String.length s) 0).

Definition simpleTokenize (text : string) : list string :=
  filter (λ t, nonEmpty t = true) (split isWhitespace text).

Definition simpleSentencize (text : string) : list string :=
  filter (λ s, nonEmpty s = true) (trim <$> split isSentenceEnd text).

Inductive Operation : Type := sentencize | tokenize | both.

(** The variable [graph] of [createGraphFromText] and the number of
    [makeNode] calls so far. *)
Definition BuildState : Type := EffectGraph string * nat.

(** [graph = EG.addNode(graph, EG.makeNode(data, parentId, operation))] *)
Definition addMade (gen : Generator) (d : string) (parentId : option NodeId)
    (op : string) (s : BuildState) : Result (GraphNode string * BuildState) :=
  let node := makeNode (generate gen s.2) (now gen s.2) d parentId (Some op) in
  graph ← addNode s.1 node;
  Ok (node, (graph, S s.2)).

(** A loop over tokens, each added under [parentId]. *)
Definition addTokens (gen : Generator) (parentId : option NodeId)
    (tokens : list string) (s : BuildState) : Result BuildState :=
  foldl (λ acc token,
           s ← acc;
           '(_, s') ← addMade gen token parentId "tokenize" s;
           Ok s')
        (Ok s) tokens.

Definition createGraphFromText (gen : Generator) (text : string)
    (operation : Operation) : Result (EffectGraph string) :=
  let graph := singleton (generate gen 0) (now gen 0) text in
  let roots := getRoots graph in
  let rootNode := head roots in
  let parentId := id <$> rootNode in
  fst <$>
    match operation with
    | sentencize | both =>
        foldl (λ acc sentence,
                 s ← acc;
                 '(sentenceNode, s') ←
                   addMade gen sentence parentId "sentencize" s;
                 match operation with
                 | both =>
                     addTokens gen (Some (id sentenceNode))
                       (simpleTokenize sentence) s'
                 | _ => Ok s'
                 end)
              (Ok (graph, 1%nat)) (simpleSentencize text)
    | tokenize =>
        addTokens gen parentId (simpleTokenize text) (graph, 1%nat)
    end.

Record GraphStats : Type := mkGraphStats {
  nodeCount : Z;
  edgeCount : Z;
  statsDepth : Z;
  roots : Z
}.

(** [getGraphStats(graph)], [None] being [null]. *)
Definition getGraphStats (graph : option (EffectGraph string)) : GraphStats :=
  match graph with
  | None => mkGraphStats 0 0 0 0
  | Some graph =>
      let nodes := toArray graph in
      let roots := getRoots graph in
      let maxDepth :=
        foldl (λ max node, Z.max max (depth (metadata node))) 0 nodes in
      mkGraphStats
        (Z.of_nat (size graph))
        (foldl (λ sum node,
                  sum + Z.of_nat (length (getChildren graph (id node))))
               0 nodes)
        (maxDepth + 1)
        (Z.of_nat (length roots))
  end.

Example simpleTokenize_example :
  simpleTokenize "  the quick  fox " = ["the"; "quick"; "fox"]
  ∧ simpleSentencize "One. Two!  Three?" = ["One"; "Two"; "Three"]
  ∧ split isWhitespace " a " = [""; "a"; ""].
Proof. by vm_compute. Qed.

(** *** Statistics of graphs with distinct ids *)

Definition sumOf {X} (f : X → Z) (l : list X) : Z :=
  foldr (λ x sum, f x + sum) 0 l.

Lemma foldl_sumOf {X} (f : X → Z) (l : list X) (a : Z) :
  foldl (λ sum x, sum + f x) a l = a + sumOf f l.
Proof.
  revert a. induction l as [|x l IH]; intros a; simpl; [lia|].
  rewrite IH. lia.
Qed.

Lemma sumOf_app {X} (f : X → Z) (l1 l2 : list X) :
  sumOf f (l1 ++ l2) = sumOf f l1 + sumOf f l2.
Proof. induction l1 as [|x l1 IH]; simpl; [done|]. rewrite IH. lia. Qed.

Lemma sumOf_indicator {X} `{EqDecision Y} (f : X → Y) (g : X → Z)
    (l : list X) (q : Y) :
  NoDup (f <$> l) →
  (∀ x, x ∈ l → g x = if decide (f x = q) then 1 else 0) →
  sumOf g l = if decide (q ∈ f <$> l) then 1 else 0.
Proof.
  induction l as [|x l IH]; intros Hnd Hg.
  - rewrite decide_False; [done|]. rewrite fmap_nil. apply not_elem_of_nil.
  - rewrite fmap_cons in Hnd. apply NoDup_cons in Hnd as [Hx Hnd].
    change (sumOf g (x :: l)) with (g x + sumOf g l).
    rewrite (Hg x) by left. rewrite IH; [|done|intros y ?; apply Hg; by right].
    rewrite fmap_cons.
    destruct (decide (f x = q)) as [<-|Hne].
    + rewrite decide_False by done. rewrite decide_True by left. done.
    + destruct (decide (q ∈ f <$> l)) as [Hin|Hin].
      * rewrite decide_True by by right. done.
      * rewrite decide_False; [done|].
        intros [?|?]%elem_of_cons; [by subst|done].
Qed.

Section Forest.
Implicit Types (g : EffectGraph string).

Lemma toArray_lookup g k :
  wf g → toArray g !! k = Graph.getNode (graph g) k.
Proof.
  intros Hwf. unfold toArray, Graph.getNode. symmetry.
  eapply get_values_dense. apply (wf_keys g Hwf).
Qed.

Lemma builtFresh_resolves g n :
  builtFresh g → n ∈ toArray g → getNode g (id n) = Some n.
Proof.
  intros Hb Hn. pose proof (builtFresh_wf g Hb) as Hwf.
  apply list_elem_of_lookup in Hn as [k Hk]. rewrite toArray_lookup in Hk by done.
  unfold getNode. by rewrite (builtFresh_indexed g Hb k n Hk).
Qed.

Lemma builtFresh_ids g : builtFresh g → NoDup (id <$> toArray g).
Proof.
  intros Hb. pose proof (builtFresh_wf g Hb) as Hwf.
  apply NoDup_alt. intros i j x. rewrite !list_lookup_fmap.
  destruct (toArray g !! i) as [ni|] eqn:Hi; [|done].
  destruct (toArray g !! j) as [nj|] eqn:Hj; [|done]. simpl.
  intros [= <-] [= Heq]. rewrite toArray_lookup in Hi, Hj by done.
  pose proof (builtFresh_indexed g Hb i ni Hi) as H1.
  pose proof (builtFresh_indexed g Hb j nj Hj) as H2.
  rewrite Heq in H2. congruence.
Qed.

Lemma known_stored g q :
  wf g → is_Some (getNode g q) ↔ q ∈ id <$> toArray g.
Proof.
  intros Hwf. split.
  - intros [n Hn]. unfold getNode in Hn.
    destruct (nodeIdToIndex g !! q) as [k|] eqn:Hk; [|done]. simpl in Hn.
    apply list_elem_of_fmap. exists n. split; [symmetry; by eapply wf_index_id|].
    apply list_elem_of_lookup. exists k. by rewrite toArray_lookup.
  - intros Hq. apply list_elem_of_fmap in Hq as (n & -> & Hn).
    apply list_elem_of_lookup in Hn as [k Hk].
    rewrite toArray_lookup in Hk by done.
    apply wf_getNode_index; [done|]. rewrite (wf_index g Hwf).
    assert (k ∈ Graph.findNodes (graph g) (hasId (id n))) as Hin.
    { unfold Graph.findNodes. apply list_elem_of_omap. exists (k, n).
      split; [by apply JsMap.get_Some_elem|].
      simpl. unfold hasId. by rewrite bool_decide_eq_true_2. }
    destruct (Graph.findNodes (graph g) (hasId (id n))); [|by eexists].
    by apply not_elem_of_nil in Hin.
Qed.

Definition childSum g : Z :=
  sumOf (λ node, Z.of_nat (length (getChildren g (id node)))) (toArray g).

Lemma childSum_addNode g node g' :
  builtFresh g → nodeIdToIndex g !! id node = None → addNode g node = Ok g' →
  childSum g' = childSum g + match parentNode g node with Some _ => 1 | None => 0 end.
Proof.
  intros Hb Hfresh Hg'. pose proof (builtFresh_wf g Hb) as Hwf.
  destruct (addNode_added g node g' Hwf Hg') as [Hwf' Hadd].
  assert (getNode g (id node) = None) as Hnone
    by (unfold getNode; by rewrite Hfresh).
  unfold childSum. rewrite (added_toArray _ _ _ Hadd), sumOf_app. simpl.
  rewrite id_updatedNode, (added_getChildren g node g' _ Hwf Hg').
  rewrite decide_False by (intros [_ Hs]; rewrite Hnone in Hs; by destruct Hs).
  assert (getChildren g (id node) = []) as ->
    by (unfold getChildren; by rewrite Hfresh).
  simpl. rewrite Z.add_0_r.
  assert (sumOf (λ n, Z.of_nat (length (getChildren g' (id n)))) (toArray g)
          = sumOf (λ n, Z.of_nat (length (getChildren g (id n)))) (toArray g)
            + sumOf (λ n, if decide (parentId node = Some (id n)) then 1 else 0)
                    (toArray g)) as ->.
  { assert (∀ n, n ∈ toArray g →
              Z.of_nat (length (getChildren g' (id n)))
              = Z.of_nat (length (getChildren g (id n)))
                + (if decide (parentId node = Some (id n)) then 1 else 0)) as Hstep.
    { intros n Hn. rewrite (added_getChildren g node g' _ Hwf Hg'), length_app.
      assert (is_Some (getNode g (id n))) as Hs
        by (rewrite (builtFresh_resolves g n Hb Hn); by eexists).
      destruct (decide (parentId node = Some (id n))).
      - rewrite decide_True by done. simpl. lia.
      - rewrite decide_False by (by intros [? _]). simpl. lia. }
    induction (toArray g) as [|n l IH]; simpl; [done|].
    rewrite (Hstep n) by left. rewrite IH; [lia|].
    intros m Hm. apply Hstep. by right. }
  f_equal. unfold parentNode.
  destruct (parentId node) as [q|] eqn:Hq; simpl.
  - rewrite (sumOf_indicator id _ (toArray g) q (builtFresh_ids g Hb)).
    + destruct (decide (q ∈ id <$> toArray g)) as [Hin|Hin].
      * apply known_stored in Hin as [pn ->]; done.
      * destruct (getNode g q) as [pn|] eqn:Hpn; [|done].
        exfalso. apply Hin, known_stored; [done|]. by rewrite Hpn.
    + intros n _. destruct (decide (id n = q)) as [->|Hne].
      * by rewrite decide_True.
      * rewrite decide_False; [done|]. by intros [= ->].
  - induction (toArray g) as [|n l IH]; simpl; [done|]. by rewrite IH.
Qed.

Lemma edgeCount_addNode g node g' :
  wf g → addNode g node = Ok g' →
  Z.of_nat (Graph.edgeCount (graph g'))
  = Z.of_nat (Graph.edgeCount (graph g)) + match parentNode g node with Some _ => 1 | None => 0 end.
Proof.
  intros Hwf Hg'. destruct (addNode_added g node g' Hwf Hg') as [Hwf' Hadd].
  unfold Graph.edgeCount, JsMap.size. rewrite (added_edges _ _ _ Hadd), length_app.
  unfold newEdges. pose proof (parentIndex_parentNode g node Hwf) as Hiff.
  destruct (parentIndex g node), (parentNode g node); simpl; try lia.
  - destruct (proj1 Hiff) as [? ?]; [by eexists|done].
  - destruct (proj2 Hiff) as [? ?]; [by eexists|done].
Qed.

Lemma childSum_edges g :
  builtFresh g → childSum g = Z.of_nat (Graph.edgeCount (graph g)).
Proof.
  induction 1 as [|i t d|g g' node Hb IH Hfresh Hg'].
  - done.
  - unfold childSum, getChildren. simpl. by rewrite lookup_singleton_eq.
  - rewrite (childSum_addNode g node g' Hb Hfresh Hg'), IH.
    symmetry. apply edgeCount_addNode; [by apply builtFresh_wf|done].
Qed.

Lemma roots_and_edges g :
  builtFresh g →
  Z.of_nat (size g)
  = Z.of_nat (Graph.edgeCount (graph g)) + Z.of_nat (length (getRoots g)).
Proof.
  induction 1 as [|i t d|g g' node Hb IH Hfresh Hg'].
  - done.
  - done.
  - pose proof (builtFresh_wf g Hb) as Hwf.
    destruct (addNode_added g node g' Hwf Hg') as [Hwf' Hadd].
    rewrite (edgeCount_addNode g node g' Hwf Hg').
    rewrite (added_getRoots g node g' Hwf Hg'), length_app.
    unfold size, Graph.nodeCount, JsMap.size in *.
    rewrite (added_nodes _ _ _ Hadd), length_app. simpl.
    destruct (parentNode g node); simpl; lia.
Qed.

(** The counts of [getGraphStats] on a graph grown under fresh ids. *)
Lemma getGraphStats_counts g :
  builtFresh g →
  nodeCount (getGraphStats (Some g)) = Z.of_nat (length (toArray g))
  ∧ edgeCount (getGraphStats (Some g)) = Z.of_nat (Graph.edgeCount (graph g))
  ∧ nodeCount (getGraphStats (Some g))
    = edgeCount (getGraphStats (Some g)) + roots (getGraphStats (Some g)).
Proof.
  intros Hb. simpl. rewrite foldl_sumOf. simpl.
  fold (childSum g). rewrite (childSum_edges g Hb).
  split_and!; [|done|by apply roots_and_edges].
  unfold size, Graph.nodeCount, JsMap.size, toArray, JsMap.values.
  by rewrite length_fmap.
Qed.

(** X18: for a graph grown by [addNode] with an id that is new each
    time, the edge count that [getGraphStats] adds up from the child
    lists is the number of edges in the store, and the nodes are the
    edges plus the roots: every node is a root or has one parent. *)
Theorem getGraphStats_forest g :
  builtFresh g →
  let stats := getGraphStats (Some g) in
  nodeCount stats = Z.of_nat (length (toArray g))
  ∧ edgeCount stats = Z.of_nat (Graph.edgeCount (graph g))
  ∧ nodeCount stats = edgeCount stats + roots stats.
Proof.
  intros Hb. simpl. rewrite foldl_sumOf. simpl.
  fold (childSum g). rewrite (childSum_edges g Hb).
  split_and!; [|done|by apply roots_and_edges].
  unfold size, Graph.nodeCount, JsMap.size, toArray, JsMap.values.
  by rewrite length_fmap.
Qed.
End Forest.

(** *** The graph of a text *)

(** The data and the depth of the nodes, in store order. *)
Definition summary (g : EffectGraph string) : list (string * Z) :=
  (λ n, (data n, depth (metadata n))) <$> toArray g.

(** What the operation derives from the text: the pieces and the depth
    at which each is stored. *)
Definition derived (text : string) (operation : Operation) : list (string * Z) :=
  match operation with
  | sentencize => (λ s, (s, 1)) <$> simpleSentencize text
  | tokenize => (λ t, (t, 1)) <$> simpleTokenize text
  | both =>
      simpleSentencize text
        ≫= λ s, (s, 1) :: ((λ t, (t, 2)) <$> simpleTokenize s)
  end.

Section Build.
Context (gen : Generator) (generate_inj : Inj (=) (=) (generate gen)).
Implicit Types (s : BuildState).

Record buildInv s : Prop := mkBuildInv {
  build_fresh : builtFresh s.1;
  build_ids : ∀ i, is_Some (getNode s.1 i) →
    ∃ j, (j < s.2)%nat ∧ i = generate gen j
}.

(** One [makeNode] and [addNode] under a parent that is in the graph. *)
Lemma addMade_spec d q op s pn :
  buildInv s → getNode s.1 q = Some pn →
  ∃ node s',
    addMade gen d (Some q) op s = Ok (node, s')
    ∧ buildInv s'
    ∧ summary s'.1 = summary s.1 ++ [(d, depth (metadata pn) + 1)]
    ∧ getRoots s'.1 = getRoots s.1
    ∧ (∀ a n, getNode s.1 a = Some n → getNode s'.1 a = Some n)
    ∧ ∃ stored, getNode s'.1 (id node) = Some stored
                ∧ depth (metadata stored) = depth (metadata pn) + 1.
Proof using Type*.
  intros Hinv Hpn. destruct s as [g made]. simpl in *.
  set (node := makeNode (generate gen made) (now gen made) d (Some q) (Some op)).
  pose proof (builtFresh_wf _ (build_fresh _ Hinv)) as Hwf. simpl in Hwf.
  assert (nodeIdToIndex g !! id node = None) as Hfresh.
  { destruct (nodeIdToIndex g !! id node) as [k|] eqn:Hk; [|done]. exfalso.
    assert (is_Some (getNode g (id node))) as Hs
      by (apply wf_getNode_index; [done|by rewrite Hk]).
    destruct (build_ids _ Hinv _ Hs) as (j & Hj & Heq). simpl in *.
    apply generate_inj in Heq. lia. }
  destruct (addNode_wf g node Hwf) as (g1 & Hg1 & Hwf1 & Hadd).
  destruct (added_getNode_fresh g node g1 Hwf Hfresh Hg1) as [Hnew Hother].
  assert (depth (metadata (updatedNode g node)) = depth (metadata pn) + 1) as Hdepth.
  { unfold updatedNode, node, makeNode. simpl. by rewrite Hpn. }
  exists node, (g1, S made). unfold addMade. simpl. fold node. rewrite Hg1. simpl.
  split_and!.
  - done.
  - split; simpl.
    + by apply (fresh_addNode g g1 node); [apply (build_fresh _ Hinv)| |].
    + intros a Ha. destruct (decide (a = id node)) as [->|Hne].
      * exists made. split; [lia|done].
      * rewrite Hother in Ha by done.
        destruct (build_ids _ Hinv a Ha) as (j & Hj & ->). simpl in Hj.
        exists j. split; [lia|done].
  - unfold summary. rewrite (added_toArray _ _ _ Hadd), fmap_app. f_equal.
    change ([(data (updatedNode g node), depth (metadata (updatedNode g node)))]
            = [(d, depth (metadata pn) + 1)]).
    by rewrite data_updatedNode, Hdepth.
  - rewrite (added_getRoots g node g1 Hwf Hg1). unfold parentNode. simpl.
    rewrite Hpn. apply app_nil_r.
  - intros a n Hn. by eapply added_lookup_stable.
  - exists (updatedNode g node). by split.
Qed.

Lemma addTokens_spec q tokens : ∀ s pn,
  buildInv s → getNode s.1 q = Some pn →
  ∃ s', addTokens gen (Some q) tokens s = Ok s'
    ∧ buildInv s'
    ∧ summary s'.1
      = summary s.1 ++ ((λ t, (t, depth (metadata pn) + 1)) <$> tokens)
    ∧ getRoots s'.1 = getRoots s.1
    ∧ (∀ a n, getNode s.1 a = Some n → getNode s'.1 a = Some n).
Proof using Type*.
  induction tokens as [|token tokens IH]; intros s pn Hinv Hpn.
  - exists s. split_and!; [done|done|by rewrite app_nil_r|done|done].
  - destruct (addMade_spec token q "tokenize" s pn Hinv Hpn)
      as (node & s1 & Hs1 & Hinv1 & Hsum1 & Hroots1 & Hkeep1 & _).
    destruct (IH s1 pn Hinv1 (Hkeep1 _ _ Hpn))
      as (s2 & Hs2 & Hinv2 & Hsum2 & Hroots2 & Hkeep2).
    exists s2. unfold addTokens in *. simpl. rewrite Hs1. simpl.
    split_and!; [done|done| |congruence|by auto].
    rewrite Hsum2, Hsum1, <-app_assoc. done.
Qed.

Lemma sentences_spec (withTokens : bool) q sentences : ∀ s pn,
  buildInv s → getNode s.1 q = Some pn → depth (metadata pn) = 0 →
  ∃ s',
    foldl (λ acc sentence,
             s ← acc;
             '(sentenceNode, s') ←
               addMade gen sentence (Some q) "sentencize" s;
             if withTokens
             then addTokens gen (Some (id sentenceNode))
                    (simpleTokenize sentence) s'
             else Ok s')
          (Ok s) sentences = Ok s'
    ∧ buildInv s'
    ∧ summary s'.1
      = summary s.1
        ++ (sentences
              ≫= λ sentence,
                   (sentence, 1) :: (if withTokens
                                     then (λ t, (t, 2)) <$> simpleTokenize sentence
                                     else []))
    ∧ getRoots s'.1 = getRoots s.1.
Proof using Type*.
  induction sentences as [|sentence sentences IH]; intros s pn Hinv Hpn Hd.
  - exists s. split_and!; [done|done|by rewrite app_nil_r|done].
  - destruct (addMade_spec sentence q "sentencize" s pn Hinv Hpn)
      as (node & s1 & Hs1 & Hinv1 & Hsum1 & Hroots1 & Hkeep1 & stored & Hst & Hsd).
    simpl. rewrite Hs1. simpl. rewrite Hd in Hsum1, Hsd. simpl in Hsum1, Hsd.
    destruct withTokens.
    + destruct (addTokens_spec (id node) (simpleTokenize sentence) s1 stored
                  Hinv1 Hst)
        as (s2 & Hs2 & Hinv2 & Hsum2 & Hroots2 & Hkeep2).
      rewrite Hs2.
      destruct (IH s2 pn Hinv2 (Hkeep2 _ _ (Hkeep1 _ _ Hpn)) Hd)
        as (s3 & Hs3 & Hinv3 & Hsum3 & Hroots3).
      exists s3. split_and!; [done|done| |congruence].
      rewrite Hsum3, Hsum2, Hsum1, Hsd, <-!app_assoc. done.
    + destruct (IH s1 pn Hinv1 (Hkeep1 _ _ Hpn) Hd)
        as (s3 & Hs3 & Hinv3 & Hsum3 & Hroots3).
      exists s3. split_and!; [done|done| |congruence].
      rewrite Hsum3, Hsum1, <-!app_assoc. done.
Qed.
End Build.

(** *** Tokens *)

Fixpoint keep (p : Ascii.ascii → bool) (s : string) : string :=
  match s with
  | EmptyString => EmptyString
  | String c rest => if p c then String c (keep p rest) else keep p rest
  end.

Fixpoint allChars (p : Ascii.ascii → bool) (s : string) : bool :=
  match s with
  | EmptyString => true
  | String c rest => p c && allChars p rest
  end.

Definition joined (pieces : list string) : string :=
  foldr String.append "" pieces.

Lemma append_assoc (a b c : string) : (a +:+ b) +:+ c = a +:+ (b +:+ c).
Proof.
  induction a as [|x a IH]; [done|].
  change (String x ((a +:+ b) +:+ c) = String x (a +:+ (b +:+ c))).
  by rewrite IH.
Qed.

Lemma allChars_append p a b :
  allChars p (a +:+ b) = allChars p a && allChars p b.
Proof.
  induction a as [|x a IH]; [done|].
  change (p x && allChars p (a +:+ b) = p x && allChars p a && allChars p b).
  rewrite IH. by rewrite andb_assoc.
Qed.

Lemma splitRuns_spec sep current inRun s :
  allChars (λ c, negb (sep c)) current = true →
  Forall (λ piece, allChars (λ c, negb (sep c)) piece = true)
         (splitRuns sep current inRun s)
  ∧ joined (splitRuns sep current inRun s)
    = current +:+ keep (λ c, negb (sep c)) s.
Proof.
  revert current inRun. induction s as [|c s IH]; intros current inRun Hcur; simpl.
  - split; [by constructor|]. done.
  - destruct (sep c) eqn:Hc; simpl.
    + destruct inRun.
      * by apply IH.
      * destruct (IH "" true eq_refl) as [Hall Hjoin].
        split; [by constructor|]. simpl. by rewrite Hjoin.
    + destruct (IH (current +:+ String c "") false) as [Hall Hjoin].
      { rewrite allChars_append, Hcur. simpl. by rewrite Hc. }
      split; [done|]. rewrite Hjoin, append_assoc. done.
Qed.

Lemma joined_nonEmpty (pieces : list string) :
  joined (filter (λ t, nonEmpty t = true) pieces) = joined pieces.
Proof.
  induction pieces as [|p pieces IH]; [done|].
  rewrite filter_cons. destruct p as [|c p].
  - rewrite decide_False by done. simpl. apply IH.
  - rewrite decide_True by done. simpl. by rewrite IH.
Qed.

(** X20: the tokens are the runs of characters between whitespace: no
    token is empty or holds a whitespace character, and together, in
    order, they are the text without its whitespace. *)
Theorem simpleTokenize_tokens (text : string) :
  Forall (λ token, token ≠ ""
                   ∧ allChars (λ c, negb (isWhitespace c)) token = true)
         (simpleTokenize text)
  ∧ joined (simpleTokenize text) = keep (λ c, negb (isWhitespace c)) text.
Proof.
  unfold simpleTokenize, split.
  destruct (splitRuns_spec isWhitespace "" false text eq_refl) as [Hall Hjoin].
  split.
  - apply Forall_forall. intros token Hin.
    apply list_elem_of_filter in Hin as [Hne Hin].
    rewrite Forall_forall in Hall. split; [|by apply Hall].
    intros ->. done.
  - by rewrite joined_nonEmpty, Hjoin.
Qed.

Lemma foldl_max_depth (nodes : list (GraphNode string)) (a : Z) :
  foldl (λ max node, Z.max max (depth (metadata node))) a nodes
  = foldl Z.max a (snd <$> ((λ n, (data n, depth (metadata n))) <$> nodes)).
Proof.
  revert a. induction nodes as [|n l IH]; intros a; simpl; [done|apply IH].
Qed.

(** X19: when the generated ids are distinct, [createGraphFromText]
    returns a graph whose only root holds the text; after it, in store
    order, come the pieces the operation derives: the sentences or the
    tokens at depth 1, or each sentence at depth 1 followed by its tokens
    at depth 2.  Its statistics count one node per piece and the root,
    one edge per piece, one root, and the deepest level plus 1. *)
Theorem createGraphFromText_shape gen text operation :
  Inj (=) (=) (generate gen) →
  ∃ g, createGraphFromText gen text operation = Ok g
    ∧ builtFresh g
    ∧ summary g = (text, 0) :: derived text operation
    ∧ (∃ root, getRoots g = [root] ∧ data root = text)
    ∧ getGraphStats (Some g)
      = mkGraphStats
          (1 + Z.of_nat (length (derived text operation)))
          (Z.of_nat (length (derived text operation)))
          (foldl Z.max 0 (snd <$> derived text operation) + 1)
          1.
Proof.
  intros Hinj.
  set (root := makeNode (generate gen 0) (now gen 0) text None None).
  set (g0 := singleton (generate gen 0) (now gen 0) text).
  assert (getRoots g0 = [root]) as Hroots0 by done.
  assert (getNode g0 (generate gen 0) = Some root) as Hroot.
  { unfold getNode, g0, singleton. simpl. by rewrite lookup_singleton_eq. }
  assert (buildInv gen (g0, 1%nat)) as Hinv0.
  { split; simpl; [apply fresh_singleton|].
    intros i [n Hn]. exists 0%nat. split; [lia|].
    unfold getNode, g0, singleton in Hn. simpl in Hn.
    destruct (decide (i = generate gen 0)) as [->|Hne]; [done|].
    by rewrite lookup_singleton_ne in Hn. }
  set (run :=
    match operation with
    | sentencize | both =>
        foldl (λ acc sentence,
                 s ← acc;
                 '(sentenceNode, s') ←
                   addMade gen sentence (Some (generate gen 0)) "sentencize" s;
                 match operation with
                 | both =>
                     addTokens gen (Some (id sentenceNode))
                       (simpleTokenize sentence) s'
                 | _ => Ok s'
                 end)
              (Ok (g0, 1%nat)) (simpleSentencize text)
    | tokenize =>
        addTokens gen (Some (generate gen 0)) (simpleTokenize text) (g0, 1%nat)
    end).
  assert (createGraphFromText gen text operation = fst <$> run) as Hrun
    by reflexivity.
  assert (∃ s, run = Ok s
              ∧ buildInv gen s
              ∧ summary s.1 = summary g0 ++ derived text operation
              ∧ getRoots s.1 = getRoots g0) as (s & Hs & Hinv & Hsum & Hroots).
  { unfold run. destruct operation.
    - destruct (sentences_spec gen Hinj false (generate gen 0)
                  (simpleSentencize text) (g0, 1%nat) root Hinv0 Hroot eq_refl)
        as (s & Hs & Hinv & Hsum & Hroots).
      exists s. split_and!; [done|done| |done].
      rewrite Hsum. by f_equal.
    - destruct (addTokens_spec gen Hinj (generate gen 0) (simpleTokenize text)
                  (g0, 1%nat) root Hinv0 Hroot)
        as (s & Hs & Hinv & Hsum & Hroots & _).
      exists s. by split_and!.
    - destruct (sentences_spec gen Hinj true (generate gen 0)
                  (simpleSentencize text) (g0, 1%nat) root Hinv0 Hroot eq_refl)
        as (s & Hs & Hinv & Hsum & Hroots).
      exists s. by split_and!. }
  exists s.1. rewrite Hrun, Hs. simpl.
  pose proof (build_fresh _ _ Hinv) as Hfresh.
  destruct (getGraphStats_counts s.1 Hfresh) as (Hnodes & Hedges & Hsplit).
  assert (length (toArray s.1) = S (length (derived text operation))) as Hlen.
  { rewrite <-(length_fmap (λ n, (data n, depth (metadata n)))).
    fold (summary s.1). by rewrite Hsum. }
  split_and!; [done|done|done|exists root; by rewrite Hroots|].
  simpl in Hnodes, Hsplit. rewrite Hroots, Hroots0 in Hsplit. simpl in Hsplit.
  unfold getGraphStats. rewrite Hroots, Hroots0. simpl. f_equal.
  - rewrite Hnodes, Hlen. lia.
  - rewrite Hnodes, Hlen in Hsplit. lia.
  - f_equal. rewrite foldl_max_depth.
    fold (summary s.1). rewrite Hsum. done.
Qed.

(** X18, witness: the graph of a root and one child. *)
Lemma getGraphStats_forest_witness :
  let stats := getGraphStats (Some Cycles.graphAB) in
  nodeCount stats = Z.of_nat (length (toArray Cycles.graphAB))
  ∧ edgeCount stats = Z.of_nat (Graph.edgeCount (graph Cycles.graphAB))
  ∧ nodeCount stats = edgeCount stats + roots stats.
Proof.
  apply (getGraphStats_forest Cycles.graphAB).
  apply (fresh_addNode (singleton "A" 0 "a document") _ Cycles.childB).
  - apply fresh_singleton.
  - reflexivity.
  - reflexivity.
Defined.

(** X19, witness: two sentences and their tokens. *)
Lemma createGraphFromText_shape_witness :
  ∃ g, createGraphFromText counting "Hi there. Bye" both = Ok g
    ∧ builtFresh g
    ∧ summary g = ("Hi there. Bye", 0) :: derived "Hi there. Bye" both
    ∧ (∃ root, getRoots g = [root] ∧ data root = "Hi there. Bye")
    ∧ getGraphStats (Some g)
      = mkGraphStats
          (1 + Z.of_nat (length (derived "Hi there. Bye" both)))
          (Z.of_nat (length (derived "Hi there. Bye" both)))
          (foldl Z.max 0 (snd <$> derived "Hi there. Bye" both) + 1)
          1.
Proof.
  apply (createGraphFromText_shape counting "Hi there. Bye" both).
  apply pretty_nat_inj.
Defined.

Example derived_example :
  derived "Hi there. Bye" both
  = [("Hi there", 1); ("Hi", 2); ("there", 2); ("Bye", 1); ("Bye", 2)].
Proof. by vm_compute. Qed.
End Workbench.

(** ** TextGraph.ts: graphs of text nodes over the graph store *)

Module TextGraph.
Import Invariant Acyclicity.

(** [S.TextEdge] *)
Record TextEdge : Type := mkTextEdge { relation : string }.

Section TextGraph.
(** [S.TextNode], which the functions below store without reading it. *)
Context {TextNode : Type}.
Implicit Types (graph mutable : Graph.t TextNode TextEdge).

(** How [addChildren] ends: with the candidate graph, with the error
    thrown by [Graph.addEdge], or with its own
    [Error("Cannot add children: operation would create a cycle ...")]. *)
Inductive Outcome : Type :=
  | Returned (candidateGraph : Graph.t TextNode TextEdge)
  | GraphError (e : Error)
  | WouldCycle (parentIndex : nat).

(** The body of the loop over the children. *)
Definition addChild (parentIndex : nat) (relation : string)
    (acc : Result (Graph.t TextNode TextEdge)) (child : TextNode)
    : Result (Graph.t TextNode TextEdge) :=
  mutable ← acc;
  let '(mutable', childIndex) := Graph.addNode mutable child in
  fst <$> Graph.addEdge mutable' parentIndex childIndex (mkTextEdge relation).

Definition addChildren graph (parentIndex : nat) (children : list TextNode)
    (relation : string) : Outcome :=
  match foldl (addChild parentIndex relation) (Ok graph) children with
  | Err e => GraphError e
  | Ok candidateGraph =>
      if negb (Graph.isAcyclic candidateGraph) then WouldCycle parentIndex
      else Returned candidateGraph
  end.

Definition getChildren graph (nodeIndex : nat) : list nat :=
  Graph.neighbors graph nodeIndex.

Definition toArray graph : list TextNode := JsMap.values (Graph.nodes graph).
Definition edgeCount graph : nat := Graph.edgeCount graph.
Definition isAcyclic graph : bool := Graph.isAcyclic graph.

(** The shape of the graphs grown by adding children: dense indices,
    an adjacency list for every node, and edges, recorded under their
    source, that lead to a node stored later. *)
Record layered graph : Prop := mkLayered {
  layered_keys :
    JsMap.keys (Graph.nodes graph) = seq 0 (Graph.nextNodeIndex graph);
  layered_adjacency : ∀ i, (i < Graph.nextNodeIndex graph)%nat →
    is_Some (JsMap.get (Graph.adjacency graph) i);
  layered_edges : ∀ e edge, Graph.getEdge graph e = Some edge →
    (e < Graph.nextEdgeIndex graph)%nat
    ∧ (Graph.source edge < Graph.target edge)%nat
    ∧ (Graph.target edge < Graph.nextNodeIndex graph)%nat;
  layered_adjacent : ∀ i es e,
    JsMap.get (Graph.adjacency graph) i = Some es → e ∈ es →
    ∃ edge, Graph.getEdge graph e = Some edge ∧ Graph.source edge = i;
  layered_cache : Graph.acyclicCache graph ≠ Some false
}.

Lemma layered_directed : layered Graph.directed.
Proof. split; simpl; try done; intros; lia. Qed.

Lemma layered_neighbors graph i nb :
  layered graph → nb ∈ Graph.neighbors graph i →
  (i < nb < Graph.nextNodeIndex graph)%nat.
Proof.
  intros Hl. unfold Graph.neighbors.
  destruct (JsMap.get (Graph.adjacency graph) i) as [es|] eqn:Hes.
  - rewrite list_elem_of_omap. intros (e & He & Hnb).
    destruct (layered_adjacent graph Hl i es e Hes He) as (edge & Hedge & <-).
    unfold Graph.getEdge in Hedge. rewrite Hedge in Hnb. simplify_eq/=.
    apply (layered_edges graph Hl) in Hedge. lia.
  - by intros ?%not_elem_of_nil.
Qed.

Lemma layered_isAcyclic graph : layered graph → Graph.isAcyclic graph = true.
Proof.
  intros Hl. unfold Graph.isAcyclic.
  pose proof (layered_cache graph Hl) as Hc.
  destruct (Graph.acyclicCache graph) as [[]|]; [done|done|].
  apply searchAcyclic_increasing; [apply (layered_keys graph Hl)|].
  intros i nb. by apply layered_neighbors.
Qed.

Lemma layered_stored graph i :
  layered graph → (i < Graph.nextNodeIndex graph)%nat →
  is_Some (JsMap.get (Graph.nodes graph) i).
Proof.
  intros Hl Hi. apply keys_get_Some. rewrite (layered_keys graph Hl).
  apply list_elem_of_In, in_seq. lia.
Qed.

Lemma layered_fresh graph :
  layered graph → JsMap.get (Graph.nodes graph) (Graph.nextNodeIndex graph) = None.
Proof.
  intros Hl. eapply JsMap.get_ge_None; [apply (layered_keys graph Hl)|lia].
Qed.

Lemma layered_fresh_edge graph :
  layered graph → JsMap.get (Graph.edges graph) (Graph.nextEdgeIndex graph) = None.
Proof.
  intros Hl. destruct (JsMap.get _ _) eqn:Hg; [|done].
  apply (layered_edges graph Hl) in Hg. lia.
Qed.

(** One more node under a stored parent. *)
Lemma addChild_layered graph parentIndex relation child :
  layered graph → (parentIndex < Graph.nextNodeIndex graph)%nat →
  ∃ graph', addChild parentIndex relation (Ok graph) child = Ok graph'
    ∧ layered graph'
    ∧ Graph.nextNodeIndex graph' = S (Graph.nextNodeIndex graph)
    ∧ Graph.nodes graph'
      = Graph.nodes graph ++ [(Graph.nextNodeIndex graph, child)]
    ∧ Graph.edges graph'
      = Graph.edges graph
        ++ [(Graph.nextEdgeIndex graph,
             Graph.mkEdge parentIndex (Graph.nextNodeIndex graph)
               (mkTextEdge relation))]
    ∧ (∀ i, (i < Graph.nextNodeIndex graph)%nat →
         Graph.neighbors graph' i
         = Graph.neighbors graph i
           ++ (if decide (i = parentIndex)
               then [Graph.nextNodeIndex graph] else []))
    ∧ Graph.neighbors graph' (Graph.nextNodeIndex graph) = [].
Proof.
  intros Hl Hp. unfold addChild. simpl.
  set (next := Graph.nextNodeIndex graph) in *.
  destruct (layered_stored graph parentIndex Hl Hp) as [pn Hpn].
  pose proof (layered_fresh graph Hl) as Hfresh. fold next in Hfresh.
  pose proof (layered_fresh_edge graph Hl) as Hfe.
  unfold Graph.addEdge, JsMap.has. simpl.
  rewrite JsMap.get_set_ne by lia. rewrite Hpn, JsMap.get_set_eq. simpl.
  rewrite (JsMap.set_fresh _ _ _ Hfresh), (JsMap.set_fresh _ _ _ Hfe).
  eexists. split; [done|].
  assert (∀ i es, JsMap.get (JsMap.set (Graph.adjacency graph) next []) i = Some es →
            ∀ e, e ∈ es →
            ∃ edge, JsMap.get (Graph.edges graph) e = Some edge
                    ∧ Graph.source edge = i) as Hold.
  { intros i es Hes e He. destruct (decide (next = i)) as [<-|Hne].
    - rewrite JsMap.get_set_eq in Hes. simplify_eq. by apply not_elem_of_nil in He.
    - rewrite JsMap.get_set_ne in Hes by done.
      by apply (layered_adjacent graph Hl i es e). }
  assert (∀ i es, JsMap.get (JsMap.set (Graph.adjacency graph) next []) i = Some es →
            omap (λ e, Graph.target <$>
                         JsMap.get (Graph.edges graph
                                    ++ [(Graph.nextEdgeIndex graph,
                                         Graph.mkEdge parentIndex next
                                           (mkTextEdge relation))]) e) es
            = omap (λ e, Graph.target <$> JsMap.get (Graph.edges graph) e) es)
    as Hsame.
  { intros i es Hes. apply Lookup.omap_ext_elem. intros e He.
    destruct (Hold i es Hes e He) as (edge & Hedge & _).
    by rewrite JsMap.get_app, Hedge. }
  split_and!; simpl.
  - split; simpl.
    + unfold JsMap.keys. rewrite fmap_app.
      transitivity (seq 0 (S next)); [|done]. rewrite seq_S. simpl.
      f_equal. apply (layered_keys graph Hl).
    + intros i Hi. rewrite get_push.
      assert (is_Some (JsMap.get (JsMap.set (Graph.adjacency graph) next []) i))
        as Hs.
      { destruct (decide (next = i)) as [<-|Hne].
        - rewrite JsMap.get_set_eq. by eexists.
        - rewrite JsMap.get_set_ne by done.
          apply (layered_adjacency graph Hl). fold next. lia. }
      case_decide; [by apply fmap_is_Some|done].
    + intros e edge. unfold Graph.getEdge. simpl. rewrite JsMap.get_app.
      destruct (JsMap.get (Graph.edges graph) e) as [edge'|] eqn:He.
      * intros [= <-]. apply (layered_edges graph Hl) in He. fold next in He. lia.
      * simpl. destruct (Nat.eqb _ e) eqn:E; [|done].
        apply Nat.eqb_eq in E. intros [= <-]. simpl. lia.
    + intros i es e. unfold Graph.getEdge. simpl. rewrite get_push.
      intros Hes He. rewrite JsMap.get_app.
      case_decide as Hd.
      * subst i.
        destruct (JsMap.get (JsMap.set (Graph.adjacency graph) next []) parentIndex)
          as [l|] eqn:Hl'; simplify_eq/=.
        apply elem_of_app in He as [He|He].
        -- destruct (Hold _ _ Hl' e He) as (edge & Hedge & Hsrc).
           exists edge. by rewrite Hedge.
        -- apply list_elem_of_singleton in He. subst e.
           rewrite Hfe. simpl. rewrite Nat.eqb_refl. by eexists.
      * destruct (Hold _ _ Hes e He) as (edge & Hedge & Hsrc).
        exists edge. by rewrite Hedge.
    + pose proof (layered_cache graph Hl) as Hc.
      by destruct (Graph.acyclicCache graph) as [[]|].
  - done.
  - done.
  - done.
  - intros i Hi. unfold Graph.neighbors. simpl. rewrite get_push.
    rewrite JsMap.get_set_ne by lia.
    destruct (layered_adjacency graph Hl i Hi) as [es Hes]. rewrite Hes.
    assert (JsMap.get (JsMap.set (Graph.adjacency graph) next []) i = Some es)
      as Hes' by (rewrite JsMap.get_set_ne by lia; done).
    destruct (decide (parentIndex = i)) as [->|Hne]; simpl.
    + rewrite decide_True by done. rewrite omap_app, (Hsame i es Hes'). f_equal.
      simpl. rewrite JsMap.get_app, Hfe. simpl. by rewrite Nat.eqb_refl.
    + rewrite decide_False by done. rewrite app_nil_r. by apply (Hsame i).
  - unfold Graph.neighbors. simpl. rewrite get_push, decide_False by lia.
    by rewrite JsMap.get_set_eq.
Qed.

Lemma foldl_addChild_Err parentIndex relation children e :
  foldl (addChild parentIndex relation) (Err e) children = Err e.
Proof. by induction children. Qed.

Lemma addChildren_loop parentIndex relation children : ∀ graph,
  layered graph → (parentIndex < Graph.nextNodeIndex graph)%nat →
  ∃ candidate,
    foldl (addChild parentIndex relation) (Ok graph) children = Ok candidate
    ∧ layered candidate
    ∧ JsMap.values (Graph.nodes candidate)
      = JsMap.values (Graph.nodes graph) ++ children
    ∧ Graph.nextNodeIndex candidate
      = (Graph.nextNodeIndex graph + length children)%nat
    ∧ Graph.edgeCount candidate = (Graph.edgeCount graph + length children)%nat
    ∧ (∀ i, (i < Graph.nextNodeIndex graph)%nat →
         Graph.neighbors candidate i
         = Graph.neighbors graph i
           ++ (if decide (i = parentIndex)
               then seq (Graph.nextNodeIndex graph) (length children) else []))
    ∧ (∀ i, (Graph.nextNodeIndex graph ≤ i < Graph.nextNodeIndex candidate)%nat →
         Graph.neighbors candidate i = []).
Proof.
  induction children as [|child children IH]; intros graph Hl Hp.
  - exists graph. simpl. split_and!.
    + done.
    + done.
    + by rewrite app_nil_r.
    + lia.
    + lia.
    + intros i _. case_decide; by rewrite app_nil_r.
    + intros i ?. lia.
  - destruct (addChild_layered graph parentIndex relation child Hl Hp)
      as (g1 & Hg1 & Hl1 & Hn1 & Hnodes1 & Hedges1 & Hnb1 & Hnew1).
    destruct (IH g1 Hl1) as (g2 & Hg2 & Hl2 & Hv2 & Hn2 & He2 & Hnb2 & Hnew2);
      [lia|].
    exists g2.
    split_and!; [by rewrite <-Hg2, <-Hg1|done| | | | |].
    + rewrite Hv2. unfold JsMap.values. rewrite Hnodes1, fmap_app, <-app_assoc.
      done.
    + rewrite Hn2, Hn1. simpl. lia.
    + rewrite He2. unfold Graph.edgeCount, JsMap.size.
      rewrite Hedges1, length_app. simpl. lia.
    + intros i Hi. rewrite Hnb2 by lia. rewrite Hnb1 by done.
      rewrite <-app_assoc. f_equal. rewrite Hn1.
      case_decide; [done|by rewrite app_nil_r].
    + intros i Hi. destruct (decide (i = Graph.nextNodeIndex graph)) as [->|Hne].
      * rewrite Hnb2 by lia. rewrite Hnew1. rewrite decide_False by lia. done.
      * apply Hnew2. lia.
Qed.

(** X21: when [graph] is layered (built from the empty graph by adding
    children) and [parentIndex] is stored, [addChildren] returns the
    candidate graph and never throws its cycle error. The candidate is
    layered again, holds the children after the old nodes in the order
    given, has one more edge per child, lists the new indices as the last
    children of the parent, leaves every other old node's children alone,
    and is acyclic. *)
Theorem addChildren_never_cycles graph parentIndex children relation :
  layered graph → (parentIndex < Graph.nextNodeIndex graph)%nat →
  ∃ candidate,
    addChildren graph parentIndex children relation = Returned candidate
    ∧ layered candidate
    ∧ toArray candidate = toArray graph ++ children
    ∧ edgeCount candidate = (edgeCount graph + length children)%nat
    ∧ getChildren candidate parentIndex
      = getChildren graph parentIndex
        ++ seq (Graph.nextNodeIndex graph) (length children)
    ∧ (∀ i, (i < Graph.nextNodeIndex graph)%nat → i ≠ parentIndex →
         getChildren candidate i = getChildren graph i)
    ∧ isAcyclic candidate = true.
Proof.
  intros Hl Hp.
  destruct (addChildren_loop parentIndex relation children graph Hl Hp)
    as (candidate & Hrun & Hl' & Hv & Hn & He & Hnb & Hnew).
  exists candidate. unfold addChildren. rewrite Hrun.
  rewrite (layered_isAcyclic candidate Hl'). simpl.
  split_and!; [done|done|done|done| | |by apply layered_isAcyclic].
  - unfold getChildren. rewrite Hnb by done. by rewrite decide_True.
  - intros i Hi Hne. unfold getChildren. rewrite Hnb by done.
    rewrite decide_False by done. apply app_nil_r.
Qed.

(** X22: when no node is stored under [parentIndex], and [parentIndex]
    is not the index the first child is about to get, [addChildren] with
    at least one child ends with [Graph.addEdge]'s error for the missing
    source node: no graph is returned, and the cycle check is not
    reached. *)
Theorem addChildren_missing_parent graph parentIndex child children relation :
  Graph.getNode graph parentIndex = None →
  parentIndex ≠ Graph.nextNodeIndex graph →
  addChildren graph parentIndex (child :: children) relation
  = GraphError (MissingNode parentIndex).
Proof.
  intros Hnone Hne. unfold addChildren.
  assert (foldl (addChild parentIndex relation) (Ok graph) (child :: children)
          = Err (MissingNode parentIndex)) as ->; [|done].
  change (foldl (addChild parentIndex relation)
            (addChild parentIndex relation (Ok graph) child) children
          = Err (MissingNode parentIndex)).
  assert (addChild parentIndex relation (Ok graph) child
          = Err (MissingNode parentIndex)) as ->.
  { unfold addChild. simpl. unfold Graph.addEdge, JsMap.has. simpl.
    rewrite JsMap.get_set_ne by done. unfold Graph.getNode in Hnone.
    by rewrite Hnone. }
  apply foldl_addChild_Err.
Qed.
End TextGraph.

(** *** The one way to the cycle error *)

Section SelfLoop.
Context {N E : Type}.
Implicit Types (g : Graph.t N E).

Lemma visit_grows g fuel : ∀ path visited node v,
  Graph.visit fuel g path visited node = Some v → node ∈ v ∧ visited ⊆ v.
Proof.
  induction fuel as [|fuel IH]; intros path visited node v; [done|]. simpl.
  case_decide; [done|]. case_decide; [intros [= <-]; by split|].
  assert (∀ nbs v0 v1,
    foldl (λ acc nb, v ← acc; Graph.visit fuel g (node :: path) v nb)
          (Some v0) nbs = Some v1 → v0 ⊆ v1) as Hfold.
  { induction nbs as [|nb nbs IHn]; intros v0 v1; simpl.
    - by intros [= <-].
    - destruct (Graph.visit fuel g (node :: path) v0 nb) as [v2|] eqn:Hv2.
      + intros Hrest. apply IHn in Hrest. apply IH in Hv2 as [_ ?]. set_solver.
      + clear. induction nbs; simpl; [done|auto]. }
  intros Hv. apply Hfold in Hv. set_solver.
Qed.

(** A successful visit never enters a node that is its own neighbour. *)
Lemma visit_avoids g x fuel : x ∈ Graph.neighbors g x →
  ∀ path visited node v,
    Graph.visit fuel g path visited node = Some v → x ∉ visited → x ∉ v.
Proof.
  intros Hself. induction fuel as [|fuel IH]; intros path visited node v; [done|].
  simpl. case_decide; [done|]. case_decide; [by intros [= <-]|].
  assert (∀ nbs v0 v1 p,
    foldl (λ acc nb, v ← acc; Graph.visit fuel g p v nb) (Some v0) nbs = Some v1 →
    x ∉ v0 → x ∉ v1) as Hfold.
  { induction nbs as [|nb nbs IHn]; intros v0 v1 p; simpl.
    - by intros [= <-].
    - destruct (Graph.visit fuel g p v0 nb) as [v2|] eqn:Hv2.
      + intros Hrest Hx. eapply IHn; [exact Hrest|]. by eapply IH.
      + intros Hrest. exfalso. clear -Hrest.
        induction nbs; simpl in *; [done|auto]. }
  destruct (decide (node = x)) as [->|Hne].
  - intros Hv. exfalso.
    apply list_elem_of_split in Hself as (l1 & l2 & Hnbs). rewrite Hnbs in Hv.
    rewrite foldl_app in Hv. simpl in Hv.
    destruct (foldl _ (Some ({[x]} ∪ visited)) l1) as [v0|]; simpl in Hv.
    + assert (Graph.visit fuel g (x :: path) v0 x = None) as Hnone.
      { destruct fuel; [done|]. simpl. rewrite decide_True; [done|left]. }
      rewrite Hnone in Hv. clear -Hv. induction l2; simpl in *; [done|auto].
    + clear -Hv. induction l2; simpl in *; [done|auto].
  - intros Hv Hx. eapply Hfold; [exact Hv|]. set_solver.
Qed.

Lemma searchAcyclic_self_loop g x :
  x ∈ JsMap.keys (Graph.nodes g) → x ∈ Graph.neighbors g x →
  Graph.searchAcyclic g = false.
Proof.
  intros Hkey Hself. unfold Graph.searchAcyclic.
  destruct (foldl _ (Some ∅) (JsMap.keys (Graph.nodes g))) as [v|] eqn:Hrun;
    [|done].
  exfalso.
  assert (∀ starts v0 v1,
    foldl (λ acc start,
             v ← acc; Graph.visit (S (Graph.nodeCount g)) g [] v start)
          (Some v0) starts = Some v1 →
    (x ∉ v0 → x ∉ v1) ∧ (∀ s, s ∈ starts → s ∈ v1) ∧ v0 ⊆ v1) as Hfold.
  { induction starts as [|s starts IHs]; intros v0 v1.
    - simpl. intros [= <-]. split_and!; [done| |done].
      by intros s ?%not_elem_of_nil.
    - change (foldl ?f ?a (s :: starts)) with (foldl f (f a s) starts).
      change ((λ acc start,
                 v ← acc; Graph.visit (S (Graph.nodeCount g)) g [] v start)
                (Some v0) s)
        with (Graph.visit (S (Graph.nodeCount g)) g [] v0 s).
      destruct (Graph.visit (S (Graph.nodeCount g)) g [] v0 s) as [v2|] eqn:Hv2.
      + intros Hrest. destruct (IHs _ _ Hrest) as (Hx & Hall & Hsub).
        pose proof (visit_grows g _ _ _ _ _ Hv2) as [Hs Hsub2].
        split_and!.
        * intros H0. apply Hx. by eapply visit_avoids.
        * intros s' [->|?]%elem_of_cons; [set_solver|by apply Hall].
        * set_solver.
      + intros Hrest. exfalso. clear -Hrest.
        induction starts; simpl in *; [done|auto]. }
  destruct (Hfold _ _ _ Hrun) as (Hx & Hall & _).
  apply Hx; [set_solver|]. by apply Hall.
Qed.
End SelfLoop.

Section AddChildrenCycle.
Context {TextNode : Type}.
Implicit Types (graph : Graph.t TextNode TextEdge).

(** After the first child was stored under [x] with an edge from [x]. *)
Record looped (x : nat) graph : Prop := mkLooped {
  looped_keys :
    JsMap.keys (Graph.nodes graph) = seq 0 (Graph.nextNodeIndex graph);
  looped_stored : (x < Graph.nextNodeIndex graph)%nat;
  looped_edges : ∀ e edge, Graph.getEdge graph e = Some edge →
    (e < Graph.nextEdgeIndex graph)%nat;
  looped_self : ∃ es e edge,
    JsMap.get (Graph.adjacency graph) x = Some es ∧ e ∈ es
    ∧ Graph.getEdge graph e = Some edge ∧ Graph.target edge = x;
  looped_cache : Graph.acyclicCache graph = None
}.

Lemma looped_neighbor x graph : looped x graph → x ∈ Graph.neighbors graph x.
Proof.
  intros [_ _ _ (es & e & edge & Hes & He & Hedge & Ht) _].
  unfold Graph.neighbors. rewrite Hes. apply list_elem_of_omap.
  exists e. split; [done|]. unfold Graph.getEdge in Hedge. by rewrite Hedge, <-Ht.
Qed.

Lemma addChild_looped x graph relation child :
  looped x graph →
  ∃ graph', addChild x relation (Ok graph) child = Ok graph' ∧ looped x graph'.
Proof.
  intros Hl. unfold addChild. simpl.
  set (next := Graph.nextNodeIndex graph) in *.
  pose proof (looped_stored x graph Hl) as Hx. fold next in Hx.
  assert (is_Some (JsMap.get (Graph.nodes graph) x)) as [xn Hxn].
  { apply keys_get_Some. rewrite (looped_keys x graph Hl).
    apply list_elem_of_In, in_seq. fold next. lia. }
  assert (JsMap.get (Graph.nodes graph) next = None) as Hfresh.
  { eapply JsMap.get_ge_None; [apply (looped_keys x graph Hl)|]. fold next. lia. }
  assert (JsMap.get (Graph.edges graph) (Graph.nextEdgeIndex graph) = None) as Hfe.
  { destruct (JsMap.get (Graph.edges graph) (Graph.nextEdgeIndex graph))
      as [edge|] eqn:Hg; [|done].
    apply (looped_edges x graph Hl) in Hg. lia. }
  unfold Graph.addEdge, JsMap.has. simpl.
  rewrite JsMap.get_set_ne by lia. rewrite Hxn, JsMap.get_set_eq. simpl.
  eexists. split; [done|]. split; simpl.
  - rewrite (JsMap.set_fresh _ _ _ Hfresh). unfold JsMap.keys. rewrite fmap_app.
    transitivity (seq 0 (S next)); [|done]. rewrite seq_S. simpl.
    f_equal. apply (looped_keys x graph Hl).
  - fold next. lia.
  - intros e edge. unfold Graph.getEdge. simpl.
    destruct (decide (Graph.nextEdgeIndex graph = e)) as [<-|Hne]; [lia|].
    rewrite JsMap.get_set_ne by done. intros He.
    apply (looped_edges x graph Hl) in He. lia.
  - destruct (looped_self x graph Hl) as (es & e & edge & Hes & He & Hedge & Ht).
    exists (es ++ [Graph.nextEdgeIndex graph]), e, edge.
    split_and!; [|by apply elem_of_app; left| |done].
    + rewrite get_push, decide_True by done.
      rewrite JsMap.get_set_ne by lia. by rewrite Hes.
    + unfold Graph.getEdge in *. simpl.
      pose proof (looped_edges x graph Hl e edge Hedge).
      rewrite JsMap.get_set_ne by lia. done.
  - by rewrite (looped_cache x graph Hl).
Qed.

Lemma addChildren_looped x relation children : ∀ graph,
  looped x graph →
  ∃ candidate,
    foldl (addChild x relation) (Ok graph) children = Ok candidate
    ∧ looped x candidate.
Proof.
  induction children as [|child children IH]; intros graph Hl.
  - by exists graph.
  - destruct (addChild_looped x graph relation child Hl) as (g1 & Hg1 & Hl1).
    destruct (IH g1 Hl1) as (g2 & Hg2 & Hl2).
    exists g2. split; [by rewrite <-Hg2, <-Hg1|done].
Qed.

(** X23: on a layered graph, [addChildren] with at least one child and
    with the next free node index as [parentIndex] throws its cycle
    error: the first child is stored under that very index, so the edge
    from [parentIndex] to the child is a loop on the child. *)
Theorem addChildren_own_parent graph child children relation :
  layered graph →
  addChildren graph (Graph.nextNodeIndex graph) (child :: children) relation
  = WouldCycle (Graph.nextNodeIndex graph).
Proof.
  intros Hl. set (x := Graph.nextNodeIndex graph).
  assert (∃ g1, addChild x relation (Ok graph) child = Ok g1 ∧ looped x g1)
    as (g1 & Hg1 & Hl1).
  { unfold addChild. simpl. fold x.
    pose proof (layered_fresh graph Hl) as Hfresh. fold x in Hfresh.
    pose proof (layered_fresh_edge graph Hl) as Hfe.
    unfold Graph.addEdge, JsMap.has. simpl. rewrite JsMap.get_set_eq. simpl.
    eexists. split; [done|]. split; simpl.
    - rewrite (JsMap.set_fresh _ _ _ Hfresh). unfold JsMap.keys. rewrite fmap_app.
      transitivity (seq 0 (S x)); [|done]. rewrite seq_S. simpl.
      f_equal. apply (layered_keys graph Hl).
    - lia.
    - intros e edge. unfold Graph.getEdge. simpl.
      destruct (decide (Graph.nextEdgeIndex graph = e)) as [<-|Hne]; [lia|].
      rewrite JsMap.get_set_ne by done. intros He.
      apply (layered_edges graph Hl) in He. lia.
    - exists [Graph.nextEdgeIndex graph], (Graph.nextEdgeIndex graph),
        (Graph.mkEdge x x (mkTextEdge relation)).
      split_and!; [|left| |done].
      + by rewrite get_push, decide_True, JsMap.get_set_eq.
      + unfold Graph.getEdge. simpl. apply JsMap.get_set_eq.
    - pose proof (layered_cache graph Hl) as Hc.
      by destruct (Graph.acyclicCache graph) as [[]|]. }
  destruct (addChildren_looped x relation children g1 Hl1) as (candidate & Hrun & Hlc).
  unfold addChildren.
  change (foldl (addChild x relation) (Ok graph) (child :: children))
    with (foldl (addChild x relation) (addChild x relation (Ok graph) child) children).
  rewrite Hg1, Hrun. unfold Graph.isAcyclic. rewrite (looped_cache x candidate Hlc).
  rewrite (searchAcyclic_self_loop candidate x); [done| |by apply looped_neighbor].
  rewrite (looped_keys x candidate Hlc). apply list_elem_of_In, in_seq.
  pose proof (looped_stored x candidate Hlc). lia.
Qed.
End AddChildrenCycle.

(** *** Examples *)

(** A graph of one text node, and two children for it. *)
Definition oneNode : Graph.t string TextEdge :=
  fst (Graph.addNode Graph.directed "A sentence."%string).

Definition words : list string := ["A"; "sentence"]%string.

Lemma oneNode_layered : layered oneNode.
Proof.
  split; simpl.
  - reflexivity.
  - intros i Hi. assert (i = 0%nat) as -> by lia. by eexists.
  - intros e edge [=].
  - intros i es e. destruct i; simpl; [|done].
    intros [= <-]. by intros ?%not_elem_of_nil.
  - done.
Defined.

(** X21, witness: two words under the sentence. *)
Lemma addChildren_never_cycles_witness :
  ∃ candidate,
    addChildren oneNode 0 words "contains" = Returned candidate
    ∧ layered candidate
    ∧ toArray candidate = toArray oneNode ++ words
    ∧ edgeCount candidate = (edgeCount oneNode + length words)%nat
    ∧ getChildren candidate 0
      = getChildren oneNode 0 ++ seq (Graph.nextNodeIndex oneNode) (length words)
    ∧ (∀ i, (i < Graph.nextNodeIndex oneNode)%nat → i ≠ 0%nat →
         getChildren candidate i = getChildren oneNode i)
    ∧ isAcyclic candidate = true.
Proof.
  apply (addChildren_never_cycles oneNode 0 words "contains" oneNode_layered).
  simpl. lia.
Defined.

(** X22, witness: two words under index 5 of the graph of one node. *)
Lemma addChildren_missing_parent_witness :
  addChildren oneNode 5 ("A"%string :: ["sentence"%string]) "contains"
  = GraphError (MissingNode 5).
Proof.
  apply (addChildren_missing_parent oneNode 5); [reflexivity|].
  simpl. lia.
Defined.

(** X23, witness: two words under index 1 of the graph of one node. *)
Lemma addChildren_own_parent_witness :
  addChildren oneNode (Graph.nextNodeIndex oneNode)
    ("A"%string :: ["sentence"%string]) "contains"
  = WouldCycle (Graph.nextNodeIndex oneNode).
Proof.
  apply (addChildren_own_parent oneNode). exact oneNode_layered.
Defined.
End TextGraph.
